(** * A price-time-priority order book and matching engine

    Shallow embedding of the C++ matching core of the repository
    (Order.hpp, OrderBook.hpp / OrderBook.cpp, MatchingEngine.hpp /
    MatchingEngine.cpp) and the properties of its natural-language
    specification.

    Modelling conventions.
    - Prices and quantities are [double] in the source.  They are
      integers ([Z]) of a fixed unit here; [std::min] and the comparisons
      are exact.  The first part of the development takes the sums and
      differences of quantities exactly, as the specification reads them
      (real numbers).  The module [Rounded] is the matching path with
      every sum and difference rounded to 53 significant bits, as the
      code computes them: a finite double is a whole multiple of 2^-1074,
      which is the unit there.  The properties of the fills, of the
      order of the trades and of the life of a record are proved of
      [Rounded] with the rounding [round_binary64].
    - [OrderPtr] is [std::shared_ptr<Order>].  Order records live in an
      arena ([Heap]); a pointer is an index into it, [std::make_shared]
      appends a record.  The price levels and the id directory hold
      pointers, so an update through one alias is seen through the other.
      Records are never freed (a caller may still hold the pointer).
    - [std::map] is an association list kept sorted by the comparator of
      the map; [begin()] is its head.
    - The two [while] loops of [matchOrder] recurse on a fuel argument;
      [None] means that no result was produced (fuel exhausted or a
      pointer outside the arena was dereferenced).
    - Time stamps and the mutexes are left out: every public operation is
      one atomic step. *)

From Stdlib Require Import ZArith Lia.
From stdpp Require Import gmap strings list sorting.

Local Open Scope Z_scope.

(** ** Order.hpp *)

Inductive OrderSide := BUY | SELL.
Inductive OrderType := MARKET | LIMIT.
Inductive OrderStatus := PENDING | PARTIAL | FILLED | CANCELLED.

Global Instance OrderSide_eq_dec : EqDecision OrderSide.
Proof. solve_decision. Defined.
Global Instance OrderType_eq_dec : EqDecision OrderType.
Proof. solve_decision. Defined.
Global Instance OrderStatus_eq_dec : EqDecision OrderStatus.
Proof. solve_decision. Defined.

Record Order := mkOrder {
  id : Z;                  (* uint64_t *)
  userId : string;
  tradingPair : string;
  side : OrderSide;
  type : OrderType;
  status : OrderStatus;
  price : Z;
  quantity : Z;
  filledQuantity : Z
}.

(** The constructor of [Order]: status PENDING, nothing filled. *)
Definition Order_new (i : Z) (u p : string) (sd : OrderSide) (ty : OrderType)
    (px qty : Z) : Order :=
  mkOrder i u p sd ty PENDING px qty 0.

(** [quantity - filledQuantity], the difference taken exactly;
    [Rounded.getRemainingQuantity] rounds it. *)
Definition getRemainingQuantity (o : Order) : Z := quantity o - filledQuantity o.

Definition isFilled (o : Order) : bool := quantity o <=? filledQuantity o.

(** [filledQuantity += q], the sum taken exactly; [Rounded.add_filled]
    rounds it. *)
Definition add_filled (q : Z) (o : Order) : Order :=
  mkOrder (id o) (userId o) (tradingPair o) (side o) (type o) (status o)
          (price o) (quantity o) (filledQuantity o + q).

Definition set_status (s : OrderStatus) (o : Order) : Order :=
  mkOrder (id o) (userId o) (tradingPair o) (side o) (type o) s
          (price o) (quantity o) (filledQuantity o).

(** ** The arena of order records *)

Abbreviation OrderPtr := nat (only parsing).
Abbreviation Heap := (list Order) (only parsing).

(** [std::make_shared<Order>(...)] *)
Definition make_shared (h : Heap) (o : Order) : Heap * OrderPtr :=
  (h ++ [o], length h).

(** [p->field = ...]: an update through the pointer [p]. *)
Definition modify (h : Heap) (p : OrderPtr) (f : Order → Order) : option Heap :=
  o ← h !! p; Some (<[p := f o]> h).

(** ** std::map with a comparator *)

Section StdMap.
Context {V : Type}.
Variable lt : Z → Z → bool.

(** [m.find(k)] *)
Fixpoint smap_find (k : Z) (m : list (Z * V)) : option V :=
  match m with
  | [] => None
  | (k', v) :: m' =>
      if lt k k' then None
      else if lt k' k then smap_find k m'
      else Some v
  end.

(** [m[k]] followed by an update [f] of the mapped value; a missing key
    is first inserted with the value-initialised [d]. *)
Fixpoint smap_upd (k : Z) (f : V → V) (d : V) (m : list (Z * V)) : list (Z * V) :=
  match m with
  | [] => [(k, f d)]
  | (k', v) :: m' =>
      if lt k k' then (k, f d) :: m
      else if lt k' k then (k', v) :: smap_upd k f d m'
      else (k', f v) :: m'
  end.

(** [m.erase(it)] for the entry of key [k] *)
Fixpoint smap_erase (k : Z) (m : list (Z * V)) : list (Z * V) :=
  match m with
  | [] => []
  | (k', v) :: m' =>
      if lt k k' then m
      else if lt k' k then (k', v) :: smap_erase k m'
      else m'
  end.
End StdMap.

(** ** OrderBook.hpp *)

Record Trade := mkTrade {
  buyOrderId : Z;
  sellOrderId : Z;
  tradePrice : Z;
  tradeQuantity : Z
}.

Abbreviation Ladder := (list (Z * list OrderPtr)) (only parsing).

Record OrderBook := mkOrderBook {
  tradingPair_ : string;
  bids_ : Ladder;                 (* std::greater<double> *)
  asks_ : Ladder;                 (* std::less<double> *)
  orders_ : gmap Z OrderPtr
}.

Definition bid_lt (a b : Z) : bool := b <? a.
Definition ask_lt (a b : Z) : bool := a <? b.

Definition side_lt (sd : OrderSide) : Z → Z → bool :=
  match sd with BUY => bid_lt | SELL => ask_lt end.

Definition ladder (sd : OrderSide) (b : OrderBook) : Ladder :=
  match sd with BUY => bids_ b | SELL => asks_ b end.

Definition set_ladder (sd : OrderSide) (l : Ladder) (b : OrderBook) : OrderBook :=
  match sd with
  | BUY => mkOrderBook (tradingPair_ b) l (asks_ b) (orders_ b)
  | SELL => mkOrderBook (tradingPair_ b) (bids_ b) l (orders_ b)
  end.

Definition set_orders (d : gmap Z OrderPtr) (b : OrderBook) : OrderBook :=
  mkOrderBook (tradingPair_ b) (bids_ b) (asks_ b) d.

Definition opposite (sd : OrderSide) : OrderSide :=
  match sd with BUY => SELL | SELL => BUY end.

Inductive exception :=
  | invalid_argument (what : string)
  | runtime_error (what : string).

Inductive result (A : Type) :=
  | Return (a : A)
  | Throw (e : exception).
Arguments Return {A} a.
Arguments Throw {A} e.

(** ** OrderBook.cpp *)

Definition OrderBook_new (pair : string) : OrderBook :=
  mkOrderBook pair [] [] ∅.

(** [OrderBook::executeTrade] *)
Definition executeTrade (h : Heap) (buyOrder sellOrder : OrderPtr)
    (px qty : Z) : option (Heap * Trade) :=
  h ← modify h buyOrder (add_filled qty);
  h ← modify h sellOrder (add_filled qty);
  b ← h !! buyOrder;
  h ← (if isFilled b then modify h buyOrder (set_status FILLED)
       else if 0 <? filledQuantity b then modify h buyOrder (set_status PARTIAL)
       else Some h);
  s ← h !! sellOrder;
  h ← (if isFilled s then modify h sellOrder (set_status FILLED)
       else if 0 <? filledQuantity s then modify h sellOrder (set_status PARTIAL)
       else Some h);
  b ← h !! buyOrder;
  s ← h !! sellOrder;
  Some (h, mkTrade (id b) (id s) px qty).

(** The body of the inner [while] loop of [matchOrder]: one match of the
    incoming order against the order at the front of the level. *)
Definition match_front (h : Heap) (newOrder oppositeOrder : OrderPtr)
    : option (Heap * Trade) :=
  n ← h !! newOrder;
  o ← h !! oppositeOrder;
  let matchPrice := price o in
  let matchQuantity := Z.min (getRemainingQuantity n) (getRemainingQuantity o) in
  executeTrade h
    (if decide (side n = BUY) then newOrder else oppositeOrder)
    (if decide (side n = SELL) then newOrder else oppositeOrder)
    matchPrice matchQuantity.

(** The inner loop:
    [while (!newOrder->isFilled() && !orders.empty()) { ... }] *)
Fixpoint match_level (fuel : nat) (h : Heap) (newOrder : OrderPtr)
    (orders : list OrderPtr) (trades : list Trade)
    : option (Heap * list OrderPtr * list Trade) :=
  match fuel with
  | O => None
  | S fuel =>
      n ← h !! newOrder;
      match orders with
      | [] => Some (h, orders, trades)
      | oppositeOrder :: rest =>
          if isFilled n then Some (h, orders, trades)
          else
            '(h, trade) ← match_front h newOrder oppositeOrder;
            o ← h !! oppositeOrder;
            match_level fuel h newOrder
              (if isFilled o then rest else orders) (trades ++ [trade])
      end
  end.

Definition priceAcceptable (sd : OrderSide) (levelPrice limitPrice : Z) : bool :=
  match sd with
  | BUY => levelPrice <=? limitPrice
  | SELL => levelPrice >=? limitPrice
  end.

(** The outer loop:
    [while (!newOrder->isFilled() && !oppositeBook.empty()) { ... }].
    The market branch and the limit branch of the source differ only in
    the acceptability test, which [limit] switches on. *)
Fixpoint match_book (fuel : nat) (limit : bool) (h : Heap) (newOrder : OrderPtr)
    (oppositeBook : Ladder) (trades : list Trade)
    : option (Heap * Ladder * list Trade) :=
  match fuel with
  | O => None
  | S fuel =>
      n ← h !! newOrder;
      match oppositeBook with
      | [] => Some (h, oppositeBook, trades)
      | (levelPrice, orders) :: restBook =>
          if isFilled n then Some (h, oppositeBook, trades)
          else if limit && negb (priceAcceptable (side n) levelPrice (price n))
          then Some (h, oppositeBook, trades)
          else
            '(h, orders, trades) ← match_level fuel h newOrder orders trades;
            match_book fuel limit h newOrder
              (match orders with
               | [] => restBook
               | _ => (levelPrice, orders) :: restBook
               end) trades
      end
  end.

(** [OrderBook::matchOrder] *)
Definition matchOrder (fuel : nat) (h : Heap) (b : OrderBook) (newOrder : OrderPtr)
    : option (Heap * OrderBook * list Trade) :=
  n ← h !! newOrder;
  let opp := opposite (side n) in
  '(h, oppositeBook, trades) ←
     match_book fuel (bool_decide (type n = LIMIT)) h newOrder (ladder opp b) [];
  Some (h, set_ladder opp oppositeBook b, trades).

(** [OrderBook::addOrder] *)
Definition addOrder (fuel : nat) (h : Heap) (b : OrderBook) (order : OrderPtr)
    : option (Heap * OrderBook * result (list Trade)) :=
  o ← h !! order;
  if negb (bool_decide (tradingPair o = tradingPair_ b)) then
    Some (h, b, Throw (invalid_argument "Order trading pair doesn't match orderbook"))
  else
    let b := set_orders (<[id o := order]> (orders_ b)) b in
    '(h, b, trades) ← matchOrder fuel h b order;
    o ← h !! order;
    let b :=
      if negb (isFilled o) then
        set_ladder (side o)
          (smap_upd (side_lt (side o)) (price o) (λ l, l ++ [order]) []
             (ladder (side o) b)) b
      else b in
    Some (h, b, Return trades).

(** The block "Remove from bid/ask book" of [cancelOrder]: find the level
    of the order's price, erase-remove the pointer from it, and erase the
    level when it became empty. *)
Definition remove_from_book (lt : Z → Z → bool) (levelPrice : Z) (order : OrderPtr)
    (book : Ladder) : Ladder :=
  match smap_find lt levelPrice book with
  | Some orders =>
      let orders := filter (λ q, q ≠ order) orders in
      match orders with
      | [] => smap_erase lt levelPrice book
      | _ => smap_upd lt levelPrice (λ _, orders) [] book
      end
  | None => book
  end.

(** [OrderBook::cancelOrder] *)
Definition OrderBook_cancelOrder (h : Heap) (b : OrderBook) (orderId : Z)
    : option (Heap * OrderBook * bool) :=
  match orders_ b !! orderId with
  | None => Some (h, b, false)
  | Some order =>
      o ← h !! order;
      let book :=
        remove_from_book (side_lt (side o)) (price o) order (ladder (side o) b) in
      h ← modify h order (set_status CANCELLED);
      Some (h, set_orders (delete orderId (orders_ b)) (set_ladder (side o) book b), true)
  end.

Definition getBestBid (b : OrderBook) : Z :=
  match bids_ b with [] => 0 | (p, _) :: _ => p end.

Definition getBestAsk (b : OrderBook) : Z :=
  match asks_ b with [] => 0 | (p, _) :: _ => p end.

(** The inner [for] loop of the depth queries: the remaining quantity of
    a level. *)
Fixpoint level_total (h : Heap) (orders : list OrderPtr) (totalQuantity : Z)
    : option Z :=
  match orders with
  | [] => Some totalQuantity
  | order :: orders =>
      o ← h !! order;
      level_total h orders (totalQuantity + getRemainingQuantity o)
  end.

(** The outer [for] loop of the depth queries.  [depth] is the
    [std::map<double, double>] under construction (ascending keys). *)
Fixpoint depth_loop (h : Heap) (book : Ladder) (levels : Z) (count : Z)
    (depth : list (Z * Z)) : option (list (Z * Z)) :=
  match book with
  | [] => Some depth
  | (levelPrice, orders) :: book =>
      if count >=? levels then Some depth
      else
        totalQuantity ← level_total h orders 0;
        depth_loop h book levels (count + 1)
          (smap_upd ask_lt levelPrice (λ _, totalQuantity) 0 depth)
  end.

Definition getBidDepth (h : Heap) (b : OrderBook) (levels : Z) : option (list (Z * Z)) :=
  depth_loop h (bids_ b) levels 0 [].

Definition getAskDepth (h : Heap) (b : OrderBook) (levels : Z) : option (list (Z * Z)) :=
  depth_loop h (asks_ b) levels 0 [].

(** [OrderBook::getUserOrders] *)
Definition OrderBook_getUserOrders (h : Heap) (b : OrderBook) (user : string)
    : list OrderPtr :=
  filter (λ p, userId <$> h !! p = Some user) (map_to_list (orders_ b)).*2.

(** ** MatchingEngine.hpp / MatchingEngine.cpp *)

Record MatchingEngine := mkEngine {
  orderBooks_ : gmap string OrderBook;
  orderIdCounter_ : Z               (* std::atomic<uint64_t> *)
}.

Definition MatchingEngine_new : MatchingEngine := mkEngine ∅ 0.

Definition set_books (m : gmap string OrderBook) (e : MatchingEngine) : MatchingEngine :=
  mkEngine m (orderIdCounter_ e).

(** [generateOrderId]: [return ++orderIdCounter_;] on 64 bits. *)
Definition generateOrderId (e : MatchingEngine) : Z * MatchingEngine :=
  let c := (orderIdCounter_ e + 1) mod 2 ^ 64 in
  (c, mkEngine (orderBooks_ e) c).

Definition getTotalOrders (e : MatchingEngine) : Z := orderIdCounter_ e.

Definition addTradingPair (e : MatchingEngine) (pair : string) : MatchingEngine * bool :=
  match orderBooks_ e !! pair with
  | Some _ => (e, false)
  | None => (set_books (<[pair := OrderBook_new pair]> (orderBooks_ e)) e, true)
  end.

Definition getOrderBook (e : MatchingEngine) (pair : string) : option OrderBook :=
  orderBooks_ e !! pair.

(** [MatchingEngine::submitOrder] *)
Definition submitOrder (fuel : nat) (h : Heap) (e : MatchingEngine)
    (user pair : string) (sd : OrderSide) (ty : OrderType) (px qty : Z)
    : option (Heap * MatchingEngine * result (list Trade)) :=
  if qty <=? 0 then
    Some (h, e, Throw (invalid_argument "Quantity must be positive"))
  else if bool_decide (ty = LIMIT) && (px <=? 0) then
    Some (h, e, Throw (invalid_argument "Price must be positive for limit orders"))
  else
    match getOrderBook e pair with
    | None => Some (h, e, Throw (runtime_error ("Trading pair not found: " +:+ pair)))
    | Some orderBook =>
        let '(orderId, e) := generateOrderId e in
        let '(h, order) := make_shared h (Order_new orderId user pair sd ty px qty) in
        '(h, orderBook, r) ← addOrder fuel h orderBook order;
        Some (h, set_books (<[pair := orderBook]> (orderBooks_ e)) e, r)
    end.

(** [MatchingEngine::cancelOrder] *)
Definition cancelOrder (h : Heap) (e : MatchingEngine) (orderId : Z) (pair : string)
    : option (Heap * MatchingEngine * bool) :=
  match getOrderBook e pair with
  | None => Some (h, e, false)
  | Some orderBook =>
      '(h, orderBook, r) ← OrderBook_cancelOrder h orderBook orderId;
      Some (h, set_books (<[pair := orderBook]> (orderBooks_ e)) e, r)
  end.

(** [OrderBook::getTradingPair] *)
Definition getTradingPair (b : OrderBook) : string := tradingPair_ b.

(** [MatchingEngine::getTradingPairCount] *)
Definition getTradingPairCount (e : MatchingEngine) : nat := size (orderBooks_ e).

Record MarketData := mkMarketData {
  bestBid : Z;
  bestAsk : Z;
  spread : Z;
  bidDepth : list (Z * Z);
  askDepth : list (Z * Z)
}.

(** [MatchingEngine::getMarketData] *)
Definition getMarketData (h : Heap) (e : MatchingEngine) (pair : string)
    : option (result MarketData) :=
  match orderBooks_ e !! pair with
  | None => Some (Throw (runtime_error ("Trading pair not found: " +:+ pair)))
  | Some orderBook =>
      let bestBid := getBestBid orderBook in
      let bestAsk := getBestAsk orderBook in
      let spread :=
        if (0 <? bestAsk) && (0 <? bestBid) then bestAsk - bestBid else 0 in
      bidDepth ← getBidDepth h orderBook 10;
      askDepth ← getAskDepth h orderBook 10;
      Some (Return (mkMarketData bestBid bestAsk spread bidDepth askDepth))
  end.

(** [MatchingEngine::getUserOrders] *)
Definition getUserOrders (h : Heap) (e : MatchingEngine) (user pair : string)
    : list OrderPtr :=
  match orderBooks_ e !! pair with
  | None => []
  | Some orderBook => OrderBook_getUserOrders h orderBook user
  end.

(** * Specification vocabulary *)

(** The entries of a [std::map] are strictly ordered by its comparator. *)
Definition smap_sorted {V} (lt : Z → Z → bool) (m : list (Z * V)) : Prop :=
  StronglySorted (λ a b, lt a.1 b.1 = true) m.

(** ** One fill *)

Definition update_status (o : Order) : Order :=
  if isFilled o then set_status FILLED o
  else if 0 <? filledQuantity o then set_status PARTIAL o
  else o.

Definition fill (q : Z) (o : Order) : Order := update_status (add_filled q o).

(** The trade record of a match of taker [n] against maker [o]. *)
Definition trade_of (n o : Order) (q : Z) : Trade :=
  match side n with
  | BUY => mkTrade (id n) (id o) (price o) q
  | SELL => mkTrade (id o) (id n) (price o) q
  end.

Record same_ident (o o' : Order) : Prop := {
  si_id : id o' = id o;
  si_user : userId o' = userId o;
  si_pair : tradingPair o' = tradingPair o;
  si_side : side o' = side o;
  si_type : type o' = type o;
  si_price : price o' = price o;
  si_quantity : quantity o' = quantity o
}.

(** ** How the arena evolves during a sweep *)

(** Every record keeps its immutable fields. *)
Definition heap_ident (h h' : Heap) : Prop :=
  length h' = length h ∧
  ∀ p o, h !! p = Some o → ∃ o', h' !! p = Some o' ∧ same_ident o o'.

(** The arena after one match of taker [t] against maker [m]. *)
Definition filled_heap (h : Heap) (t m : OrderPtr) (n o : Order) (q : Z) : Heap :=
  <[m := fill q o]> (<[t := fill q n]> h).

(** ** The inner loop as a relation

    [level_sweep t h os h' os' trs]: started in arena [h] on the level
    [os], the inner loop of [matchOrder] for the incoming order [t] ends in
    arena [h'] with the level [os'] and has appended the trades [trs]. *)

Inductive level_sweep (t : OrderPtr) :
    Heap → list OrderPtr → Heap → list OrderPtr → list Trade → Prop :=
  | sweep_stop h os n :
      h !! t = Some n →
      isFilled n = true ∨ os = [] →
      level_sweep t h os h os []
  | sweep_next h m os n o q h' os' trs :
      h !! t = Some n → h !! m = Some o →
      isFilled n = false →
      q = Z.min (getRemainingQuantity n) (getRemainingQuantity o) →
      isFilled (fill q o) = true →
      level_sweep t (filled_heap h t m n o q) os h' os' trs →
      level_sweep t h (m :: os) h' os' (trade_of n o q :: trs)
  | sweep_last h m os n o q :
      h !! t = Some n → h !! m = Some o →
      isFilled n = false →
      q = Z.min (getRemainingQuantity n) (getRemainingQuantity o) →
      isFilled (fill q o) = false →
      level_sweep t h (m :: os) (filled_heap h t m n o q) (m :: os) [trade_of n o q].

(** ** The outer loop as a relation *)

Definition queue (l : Ladder) : list OrderPtr := concat l.*2.

Inductive book_sweep (limit : bool) (t : OrderPtr) :
    Heap → Ladder → Heap → Ladder → list Trade → Prop :=
  | bsweep_empty h n :
      h !! t = Some n →
      book_sweep limit t h [] h [] []
  | bsweep_filled h L n :
      h !! t = Some n → isFilled n = true →
      book_sweep limit t h L h L []
  | bsweep_break h px os L n :
      h !! t = Some n → isFilled n = false →
      limit = true → priceAcceptable (side n) px (price n) = false →
      book_sweep limit t h ((px, os) :: L) h ((px, os) :: L) []
  | bsweep_next h px os L n h1 trs1 h' L' trs :
      h !! t = Some n → isFilled n = false →
      (limit = true → priceAcceptable (side n) px (price n) = true) →
      level_sweep t h os h1 [] trs1 →
      book_sweep limit t h1 L h' L' trs →
      book_sweep limit t h ((px, os) :: L) h' L' (trs1 ++ trs)
  | bsweep_last h px os L n h1 m os1 trs1 :
      h !! t = Some n → isFilled n = false →
      (limit = true → priceAcceptable (side n) px (price n) = true) →
      level_sweep t h os h1 (m :: os1) trs1 →
      book_sweep limit t h ((px, os) :: L) h1 ((px, m :: os1) :: L) trs1.

(** ** The sweep over the whole queue of one side

    [queue l] lists the resting orders of a ladder in priority order:
    best price level first, and arrival order within a level.
    [flat_sweep acc t] is the matching loop seen on that queue; [acc]
    is the acceptability of a maker's price. *)

Inductive flat_sweep (acc : Z → bool) (t : OrderPtr) :
    Heap → list OrderPtr → Heap → list OrderPtr → list Trade → Prop :=
  | fsweep_filled h Q n :
      h !! t = Some n → isFilled n = true →
      flat_sweep acc t h Q h Q []
  | fsweep_empty h n :
      h !! t = Some n →
      flat_sweep acc t h [] h [] []
  | fsweep_break h m Q n o :
      h !! t = Some n → h !! m = Some o →
      isFilled n = false → acc (price o) = false →
      flat_sweep acc t h (m :: Q) h (m :: Q) []
  | fsweep_next h m Q n o q h' Q' trs :
      h !! t = Some n → h !! m = Some o →
      isFilled n = false → acc (price o) = true →
      q = Z.min (getRemainingQuantity n) (getRemainingQuantity o) →
      isFilled (fill q o) = true →
      flat_sweep acc t (filled_heap h t m n o q) Q h' Q' trs →
      flat_sweep acc t h (m :: Q) h' Q' (trade_of n o q :: trs)
  | fsweep_last h m Q n o q :
      h !! t = Some n → h !! m = Some o →
      isFilled n = false → acc (price o) = true →
      q = Z.min (getRemainingQuantity n) (getRemainingQuantity o) →
      isFilled (fill q o) = false →
      flat_sweep acc t h (m :: Q) (filled_heap h t m n o q) (m :: Q) [trade_of n o q].

(** What remains of a ladder after a sweep: some leading levels are gone
    and the first remaining level may have lost a prefix. *)
Inductive ladder_tail : Ladder → Ladder → Prop :=
  | ladder_tail_refl L : ladder_tail L L
  | ladder_tail_skip px os L L' :
      ladder_tail L L' → ladder_tail ((px, os) :: L) L'
  | ladder_tail_trim px os os' L :
      os' `suffix_of` os → os' ≠ [] →
      ladder_tail ((px, os) :: L) ((px, os') :: L).

(** The preconditions of a sweep: the levels are non-empty, no order
    rests twice, the incoming order does not rest, and every resting
    order carries the price of its level. *)
Record sweep_pre (h : Heap) (t : OrderPtr) (L : Ladder) : Prop := {
  sp_nonempty : ∀ px os, (px, os) ∈ L → os ≠ [];
  sp_nodup : NoDup (queue L);
  sp_fresh : t ∉ queue L;
  sp_price : ∀ px os m, (px, os) ∈ L → m ∈ os →
             ∃ o, h !! m = Some o ∧ price o = px
}.

Definition open_order (h : Heap) (m : OrderPtr) : Prop :=
  ∃ o, h !! m = Some o ∧ isFilled o = false.

(** No order is over-filled. *)
Definition valid_order (o : Order) : Prop :=
  0 < quantity o ∧ 0 ≤ filledQuantity o ≤ quantity o.

Definition valid_heap (h : Heap) : Prop :=
  ∀ p o, h !! p = Some o → valid_order o.

(** ** The quantities of a sweep

    [sweep_fills acc n recs]: the quantities matched, in order, when the
    taker record [n] sweeps makers whose records are [recs]. *)

Fixpoint sweep_fills (acc : Z → bool) (n : Order) (recs : list Order) : list Z :=
  match recs with
  | [] => []
  | o :: recs =>
      if isFilled n || negb (acc (price o)) then []
      else
        let q := Z.min (getRemainingQuantity n) (getRemainingQuantity o) in
        q :: sweep_fills acc (fill q n) recs
  end.

Definition records (h : Heap) (Q : list OrderPtr) (recs : list Order) : Prop :=
  Forall2 (λ m o, h !! m = Some o) Q recs.

(** The total of a list of quantities. *)
Definition sum_Z (l : list Z) : Z := foldr Z.add 0 l.

(** ** Invariants *)

(** A ladder of the book of [pair] on side [sd]: strictly sorted by its
    comparator, without empty levels, no order resting twice, and every
    resting order is an open order of that pair, side and price. *)
Record ladder_inv (h : Heap) (pair : string) (sd : OrderSide) (l : Ladder) : Prop := {
  li_sorted : smap_sorted (side_lt sd) l;
  li_nonempty : ∀ px os, (px, os) ∈ l → os ≠ [];
  li_nodup : NoDup (queue l);
  li_resting : ∀ px os m, (px, os) ∈ l → m ∈ os →
    ∃ o, h !! m = Some o ∧ tradingPair o = pair ∧ side o = sd ∧
         price o = px ∧ isFilled o = false
}.

Record book_inv (h : Heap) (pair : string) (b : OrderBook) : Prop := {
  bi_pair : tradingPair_ b = pair;
  bi_ladder : ∀ sd, ladder_inv h pair sd (ladder sd b);
  bi_orders : ∀ i p, orders_ b !! i = Some p → ∃ o, h !! p = Some o ∧ id o = i
}.

Record engine_inv (h : Heap) (e : MatchingEngine) : Prop := {
  ei_valid : valid_heap h;
  ei_books : ∀ pair b, orderBooks_ e !! pair = Some b → book_inv h pair b
}.

(** As long as the 64-bit counter has not wrapped, it counts the orders
    created so far, and the order at pointer [p] has the id [p + 1]. *)
Record ids_inv (h : Heap) (e : MatchingEngine) : Prop := {
  ii_counter : orderIdCounter_ e = Z.of_nat (length h);
  ii_ids : ∀ p o, h !! p = Some o → id o = Z.of_nat p + 1
}.

(** ** The book left by addOrder *)

(** The acceptability test of the incoming order [n] for a level price. *)
Definition limit_acc (n : Order) (px : Z) : bool :=
  negb (bool_decide (type n = LIMIT)) || priceAcceptable (side n) px (price n).

(** The book left by [addOrder] of the order [t], whose record is [n']
    after the matching, when the matching left the ladder [L'] on the
    opposite side. *)
Definition book_after (b : OrderBook) (t : OrderPtr) (n' : Order) (L' : Ladder)
    : OrderBook :=
  let b1 := set_ladder (opposite (side n')) L'
              (set_orders (<[id n' := t]> (orders_ b)) b) in
  if isFilled n' then b1
  else set_ladder (side n')
         (smap_upd (side_lt (side n')) (price n') (λ l, l ++ [t]) []
            (ladder (side n') b1)) b1.

(** ** Runs of the engine *)

(** The public operations that change the engine. *)
Inductive op :=
  | AddTradingPair (pair : string)
  | SubmitOrder (fuel : nat) (user pair : string) (sd : OrderSide)
      (ty : OrderType) (px qty : Z)
  | CancelOrder (orderId : Z) (pair : string).

Definition apply_op (s : Heap * MatchingEngine) (o : op)
    : option (Heap * MatchingEngine) :=
  match o with
  | AddTradingPair sym => Some (s.1, (addTradingPair s.2 sym).1)
  | SubmitOrder fuel user sym sd ty px qty =>
      '(h, e, _) ← submitOrder fuel s.1 s.2 user sym sd ty px qty; Some (h, e)
  | CancelOrder i sym =>
      '(h, e, _) ← cancelOrder s.1 s.2 i sym; Some (h, e)
  end.

Definition run_from (s : Heap * MatchingEngine) (ops : list op)
    : option (Heap * MatchingEngine) :=
  foldl (λ acc o, acc ≫= λ s, apply_op s o) (Some s) ops.

(** The states of a fresh engine after some operations. *)
Definition reachable (h : Heap) (e : MatchingEngine) : Prop :=
  ∃ ops, run_from ([], MatchingEngine_new) ops = Some (h, e).

(** Every book is registered under its own pair. *)
Definition books_keyed (e : MatchingEngine) : Prop :=
  ∀ pair b, orderBooks_ e !! pair = Some b → tradingPair_ b = pair.

(** ** Trades and levels *)

(** The id of the resting order of a trade, for an incoming order of
    side [sd]. *)
Definition maker_id (sd : OrderSide) (tr : Trade) : Z :=
  match sd with BUY => sellOrderId tr | SELL => buyOrderId tr end.

(** The level of price [px] on side [sd], empty when there is none. *)
Definition level_at (sd : OrderSide) (px : Z) (b : OrderBook) : list OrderPtr :=
  default [] (smap_find (side_lt sd) px (ladder sd b)).

(** ** Order ids *)

(** The id of the order that a submission from the arena [h] created. *)
Definition submitted_id (h h' : Heap) : option Z := id <$> h' !! length h.

(** ** Depth *)

(** [entry] is the depth entry of the level [lvl]: its price and the
    total remaining quantity of its orders. *)
Definition level_entry (h : Heap) (lvl : Z * list OrderPtr) (entry : Z * Z) : Prop :=
  entry.1 = lvl.1 ∧
  ∃ recs, records h lvl.2 recs ∧ entry.2 = sum_Z (getRemainingQuantity <$> recs).

(** ** Statuses and crossing *)

(** The status that the fills of a record call for. *)
Definition status_of_fills (o : Order) : OrderStatus :=
  if isFilled o then FILLED
  else if 0 <? filledQuantity o then PARTIAL
  else PENDING.

(** [o'] is the record [o] after one or more fills. *)
Record filled_more (o o' : Order) : Prop := {
  fm_open : isFilled o = false;
  fm_ident : same_ident o o';
  fm_more : filledQuantity o < filledQuantity o' ≤ quantity o';
  fm_status : status o' = status_of_fills o'
}.

(** No bid is priced at or above an ask. *)
Definition uncrossed (b : OrderBook) : Prop :=
  ∀ pb ob pa oa, (pb, ob) ∈ bids_ b → (pa, oa) ∈ asks_ b → pb < pa.

(** What holds of the statuses and of the two ladders of every book. *)
Record live_inv (h : Heap) (e : MatchingEngine) : Prop := {
  lv_status : ∀ p o, h !! p = Some o →
    status o = CANCELLED ∨ status o = status_of_fills o;
  lv_resting : ∀ pair b sd m o,
    orderBooks_ e !! pair = Some b → m ∈ queue (ladder sd b) →
    h !! m = Some o → status o ≠ CANCELLED;
  lv_dir : ∀ pair b i p o,
    orderBooks_ e !! pair = Some b → orders_ b !! i = Some p →
    h !! p = Some o → tradingPair o = pair ∧ status o ≠ CANCELLED;
  lv_uncrossed : ∀ pair b, orderBooks_ e !! pair = Some b → uncrossed b
}.

(** How a record may differ from an earlier state of itself: it keeps
    its identity, its fills do not decrease, a cancelled record does not
    change, and a filled record can only become cancelled. *)
Record record_evolves (o o' : Order) : Prop := {
  re_ident : same_ident o o';
  re_filled : filledQuantity o ≤ filledQuantity o';
  re_cancelled : status o = CANCELLED → o' = o;
  re_full : isFilled o = true →
            filledQuantity o' = filledQuantity o ∧
            (status o' = status o ∨ status o' = CANCELLED)
}.

(** Whether an incoming order of side [sd], type [ty] and price [px]
    accepts the price of a level: the test of the limit branch of
    [matchOrder]; the market branch has none. *)
Definition acceptable (sd : OrderSide) (ty : OrderType) (px levelPrice : Z) : bool :=
  match ty with
  | MARKET => true
  | LIMIT => priceAcceptable sd levelPrice px
  end.

(** The trading pair that an operation names. *)
Definition op_pair (o : op) : string :=
  match o with
  | AddTradingPair sym => sym
  | SubmitOrder _ _ sym _ _ _ _ => sym
  | CancelOrder _ sym => sym
  end.

(** Whether the operation [o], applied in state [s], is a submission
    that the engine accepts. *)
Definition is_accepted (s : Heap * MatchingEngine) (o : op) : bool :=
  match o with
  | SubmitOrder fuel user sym sd ty px qty =>
      match submitOrder fuel s.1 s.2 user sym sd ty px qty with
      | Some (_, _, Return _) => true
      | _ => false
      end
  | _ => false
  end.

(** The number of submissions accepted along a run. *)
Fixpoint accepted (s : Heap * MatchingEngine) (ops : list op) : nat :=
  match ops with
  | [] => 0
  | o :: ops =>
      match apply_op s o with
      | None => 0
      | Some s' => ((if is_accepted s o then 1 else 0) + accepted s' ops)%nat
      end
  end.

(** The pairs that the operations of a run add. *)
Definition pairs_added (ops : list op) : list string :=
  omap (λ o, match o with AddTradingPair sym => Some sym | _ => None end) ops.

(** Every resting order is in the directory of its book under its id. *)
Definition resting_in_directory (h : Heap) (e : MatchingEngine) : Prop :=
  ∀ pair b sd m o,
    orderBooks_ e !! pair = Some b → m ∈ queue (ladder sd b) →
    h !! m = Some o → orders_ b !! id o = Some m.

(** ** Scenarios *)

(** Quantities are in tenths of a unit, prices in whole units. *)

Definition demo_pair : string := "ETH/USDT".

Definition fresh : Heap * MatchingEngine := ([], MatchingEngine_new).

(** Three resting sell orders: 1 and 2 units at 10, 5 units at 11. *)
Definition sells_ops : list op :=
  [AddTradingPair demo_pair;
   SubmitOrder 10 "s1" demo_pair SELL LIMIT 10 1;
   SubmitOrder 10 "s2" demo_pair SELL LIMIT 10 2;
   SubmitOrder 10 "s3" demo_pair SELL LIMIT 11 5].

Definition sells_heap : Heap :=
  Eval vm_compute in default [] (fst <$> run_from fresh sells_ops).

Definition sells_engine : MatchingEngine :=
  Eval vm_compute in default MatchingEngine_new (snd <$> run_from fresh sells_ops).

Definition sells_book : OrderBook :=
  Eval vm_compute in
    default (OrderBook_new "") (orderBooks_ sells_engine !! demo_pair).

(** A market buy of 4 units then sweeps the two levels. *)
Definition swept_ops : list op :=
  sells_ops ++ [SubmitOrder 10 "b" demo_pair BUY MARKET 0 4].

Definition swept_heap : Heap :=
  Eval vm_compute in default [] (fst <$> run_from fresh swept_ops).

Definition swept_engine : MatchingEngine :=
  Eval vm_compute in default MatchingEngine_new (snd <$> run_from fresh swept_ops).

Definition swept_book : OrderBook :=
  Eval vm_compute in
    default (OrderBook_new "") (orderBooks_ swept_engine !! demo_pair).

(** The book of scenario S1 of the specification: three bids, two asks. *)
Definition s1_ops : list op :=
  [AddTradingPair demo_pair;
   SubmitOrder 10 "user1" demo_pair BUY LIMIT 2000 15;
   SubmitOrder 10 "user2" demo_pair BUY LIMIT 1990 20;
   SubmitOrder 10 "user3" demo_pair BUY LIMIT 1995 10;
   SubmitOrder 10 "user4" demo_pair SELL LIMIT 2010 10;
   SubmitOrder 10 "user5" demo_pair SELL LIMIT 2020 25].

Definition s1_heap : Heap :=
  Eval vm_compute in default [] (fst <$> run_from fresh s1_ops).

Definition s1_engine : MatchingEngine :=
  Eval vm_compute in default MatchingEngine_new (snd <$> run_from fresh s1_ops).

Definition s1_book : OrderBook :=
  Eval vm_compute in
    default (OrderBook_new "") (orderBooks_ s1_engine !! demo_pair).

(** The book of scenario S1 and a second pair. *)
Definition pairs_ops : list op := s1_ops ++ [AddTradingPair "BTC/USDT"].

Definition pairs_heap : Heap :=
  Eval vm_compute in default [] (fst <$> run_from fresh pairs_ops).

Definition pairs_engine : MatchingEngine :=
  Eval vm_compute in default MatchingEngine_new (snd <$> run_from fresh pairs_ops).

(** * The matching path in double arithmetic

    The matching of [OrderBook.cpp] once more, with the sums and
    differences of quantities rounded as the code's [double] rounds them.

    A finite [double] is a whole multiple of 2^-1074, so in that unit it
    is an integer with at most 53 significant bits.  The code's [x + y]
    and [x - y] are the exact result rounded to such an integer; [rnd]
    stands for that rounding.  Comparisons and [std::min] are exact.
    With the identity for [rnd] the definitions below are those of the
    sections above; with [round_binary64] they compute what the code
    computes on finite doubles (overflow to infinity is left out). *)

(** The exponent of the unit in the last place of [a >= 0]. *)
Definition ulp_exp (a : Z) : Z := Z.max 0 (Z.log2 a - 52).

(** Round to nearest, ties to even, on 53 significant bits. *)
Definition round_binary64 (x : Z) : Z :=
  let a := Z.abs x in
  let u := 2 ^ ulp_exp a in
  let q := a / u in
  let r := a mod u in
  let q' := if 2 * r <? u then q
            else if u <? 2 * r then q + 1
            else if Z.even q then q else q + 1 in
  Z.sgn x * (q' * u).

Module Rounded.
Section Rounded.
Variable rnd : Z → Z.

(** [quantity - filledQuantity] *)
Definition getRemainingQuantity (o : Order) : Z :=
  rnd (quantity o - filledQuantity o).

(** [filledQuantity += q] *)
Definition add_filled (q : Z) (o : Order) : Order :=
  mkOrder (id o) (userId o) (tradingPair o) (side o) (type o) (status o)
          (price o) (quantity o) (rnd (filledQuantity o + q)).

(** [OrderBook::executeTrade] *)
Definition executeTrade (h : Heap) (buyOrder sellOrder : OrderPtr)
    (px qty : Z) : option (Heap * Trade) :=
  h ← modify h buyOrder (add_filled qty);
  h ← modify h sellOrder (add_filled qty);
  b ← h !! buyOrder;
  h ← (if isFilled b then modify h buyOrder (set_status FILLED)
       else if 0 <? filledQuantity b then modify h buyOrder (set_status PARTIAL)
       else Some h);
  s ← h !! sellOrder;
  h ← (if isFilled s then modify h sellOrder (set_status FILLED)
       else if 0 <? filledQuantity s then modify h sellOrder (set_status PARTIAL)
       else Some h);
  b ← h !! buyOrder;
  s ← h !! sellOrder;
  Some (h, mkTrade (id b) (id s) px qty).

(** The body of the inner [while] loop of [matchOrder]. *)
Definition match_front (h : Heap) (newOrder oppositeOrder : OrderPtr)
    : option (Heap * Trade) :=
  n ← h !! newOrder;
  o ← h !! oppositeOrder;
  let matchPrice := price o in
  let matchQuantity := Z.min (getRemainingQuantity n) (getRemainingQuantity o) in
  executeTrade h
    (if decide (side n = BUY) then newOrder else oppositeOrder)
    (if decide (side n = SELL) then newOrder else oppositeOrder)
    matchPrice matchQuantity.

(** The inner loop:
    [while (!newOrder->isFilled() && !orders.empty()) { ... }] *)
Fixpoint match_level (fuel : nat) (h : Heap) (newOrder : OrderPtr)
    (orders : list OrderPtr) (trades : list Trade)
    : option (Heap * list OrderPtr * list Trade) :=
  match fuel with
  | O => None
  | S fuel =>
      n ← h !! newOrder;
      match orders with
      | [] => Some (h, orders, trades)
      | oppositeOrder :: rest =>
          if isFilled n then Some (h, orders, trades)
          else
            '(h, trade) ← match_front h newOrder oppositeOrder;
            o ← h !! oppositeOrder;
            match_level fuel h newOrder
              (if isFilled o then rest else orders) (trades ++ [trade])
      end
  end.

(** The outer loop:
    [while (!newOrder->isFilled() && !oppositeBook.empty()) { ... }] *)
Fixpoint match_book (fuel : nat) (limit : bool) (h : Heap) (newOrder : OrderPtr)
    (oppositeBook : Ladder) (trades : list Trade)
    : option (Heap * Ladder * list Trade) :=
  match fuel with
  | O => None
  | S fuel =>
      n ← h !! newOrder;
      match oppositeBook with
      | [] => Some (h, oppositeBook, trades)
      | (levelPrice, orders) :: restBook =>
          if isFilled n then Some (h, oppositeBook, trades)
          else if limit && negb (priceAcceptable (side n) levelPrice (price n))
          then Some (h, oppositeBook, trades)
          else
            '(h, orders, trades) ← match_level fuel h newOrder orders trades;
            match_book fuel limit h newOrder
              (match orders with
               | [] => restBook
               | _ => (levelPrice, orders) :: restBook
               end) trades
      end
  end.

(** [OrderBook::matchOrder] *)
Definition matchOrder (fuel : nat) (h : Heap) (b : OrderBook) (newOrder : OrderPtr)
    : option (Heap * OrderBook * list Trade) :=
  n ← h !! newOrder;
  let opp := opposite (side n) in
  '(h, oppositeBook, trades) ←
     match_book fuel (bool_decide (type n = LIMIT)) h newOrder (ladder opp b) [];
  Some (h, set_ladder opp oppositeBook b, trades).

(** [OrderBook::addOrder] *)
Definition addOrder (fuel : nat) (h : Heap) (b : OrderBook) (order : OrderPtr)
    : option (Heap * OrderBook * result (list Trade)) :=
  o ← h !! order;
  if negb (bool_decide (tradingPair o = tradingPair_ b)) then
    Some (h, b, Throw (invalid_argument "Order trading pair doesn't match orderbook"))
  else
    let b := set_orders (<[id o := order]> (orders_ b)) b in
    '(h, b, trades) ← matchOrder fuel h b order;
    o ← h !! order;
    let b :=
      if negb (isFilled o) then
        set_ladder (side o)
          (smap_upd (side_lt (side o)) (price o) (λ l, l ++ [order]) []
             (ladder (side o) b)) b
      else b in
    Some (h, b, Return trades).

(** [MatchingEngine::submitOrder] *)
Definition submitOrder (fuel : nat) (h : Heap) (e : MatchingEngine)
    (user pair : string) (sd : OrderSide) (ty : OrderType) (px qty : Z)
    : option (Heap * MatchingEngine * result (list Trade)) :=
  if qty <=? 0 then
    Some (h, e, Throw (invalid_argument "Quantity must be positive"))
  else if bool_decide (ty = LIMIT) && (px <=? 0) then
    Some (h, e, Throw (invalid_argument "Price must be positive for limit orders"))
  else
    match getOrderBook e pair with
    | None => Some (h, e, Throw (runtime_error ("Trading pair not found: " +:+ pair)))
    | Some orderBook =>
        let '(orderId, e) := generateOrderId e in
        let '(h, order) := make_shared h (Order_new orderId user pair sd ty px qty) in
        '(h, orderBook, r) ← addOrder fuel h orderBook order;
        Some (h, set_books (<[pair := orderBook]> (orderBooks_ e)) e, r)
    end.

(** The public operations; cancelling and registering a pair involve no
    arithmetic. *)
Definition apply_op (s : Heap * MatchingEngine) (o : op)
    : option (Heap * MatchingEngine) :=
  match o with
  | AddTradingPair sym => Some (s.1, (addTradingPair s.2 sym).1)
  | SubmitOrder fuel user sym sd ty px qty =>
      '(h, e, _) ← submitOrder fuel s.1 s.2 user sym sd ty px qty; Some (h, e)
  | CancelOrder i sym =>
      '(h, e, _) ← cancelOrder s.1 s.2 i sym; Some (h, e)
  end.

Definition run_from (s : Heap * MatchingEngine) (ops : list op)
    : option (Heap * MatchingEngine) :=
  foldl (λ acc o, acc ≫= λ s, apply_op s o) (Some s) ops.

(** *** Vocabulary *)

(** One fill: the rounded sum, then the status update of [executeTrade]. *)
Definition fill (q : Z) (o : Order) : Order := update_status (add_filled q o).

(** The arena after one match of taker [t] against maker [m]. *)
Definition filled_heap (h : Heap) (t m : OrderPtr) (n o : Order) (q : Z) : Heap :=
  <[m := fill q o]> (<[t := fill q n]> h).

(** [sweep acc t h Q h' Q' trs]: the matching loop of the incoming order
    [t] seen on the queue [Q] of the opposite side (best level first,
    arrival order within a level).  Each trade is against the order at the
    head of the queue, which leaves the queue only once it is filled; a
    head that a trade leaves unfilled is matched again.  [acc] is the
    acceptability of a maker's price. *)
Inductive sweep (acc : Z → bool) (t : OrderPtr) :
    Heap → list OrderPtr → Heap → list OrderPtr → list Trade → Prop :=
  | sweep_filled h Q n :
      h !! t = Some n → isFilled n = true →
      sweep acc t h Q h Q []
  | sweep_empty h n :
      h !! t = Some n →
      sweep acc t h [] h [] []
  | sweep_break h m Q n o :
      h !! t = Some n → h !! m = Some o →
      isFilled n = false → acc (price o) = false →
      sweep acc t h (m :: Q) h (m :: Q) []
  | sweep_trade h m Q n o q h' Q' trs :
      h !! t = Some n → h !! m = Some o →
      isFilled n = false → acc (price o) = true →
      q = Z.min (getRemainingQuantity n) (getRemainingQuantity o) →
      sweep acc t (filled_heap h t m n o q)
        (if isFilled (fill q o) then Q else m :: Q) h' Q' trs →
      sweep acc t h (m :: Q) h' Q' (trade_of n o q :: trs).

(** [m], at position [k], is the first order of the queue [Q] that is
    not filled in the arena [h]. *)
Definition first_open (h : Heap) (Q : list OrderPtr) (k : nat) (m : OrderPtr) : Prop :=
  Q !! k = Some m ∧
  (∃ o, h !! m = Some o ∧ isFilled o = false) ∧
  ∀ j m', (j < k)%nat → Q !! j = Some m' →
    ∃ o', h !! m' = Some o' ∧ isFilled o' = true.

(** One match.  In the arena [h] the incoming order [t] is not filled
    and trades with the first order of the queue [Q] that is not filled,
    whose price it accepts; the quantity is the smaller of the two
    remaining quantities; [tr] is the trade and [h'] the arena after the
    fill of both records. *)
Definition trade_step (acc : Z → bool) (t : OrderPtr) (Q : list OrderPtr)
    (h : Heap) (tr : Trade) (h' : Heap) : Prop :=
  ∃ k m n o,
    h !! t = Some n ∧ isFilled n = false ∧
    first_open h Q k m ∧ h !! m = Some o ∧ acc (price o) = true ∧
    let q := Z.min (getRemainingQuantity n) (getRemainingQuantity o) in
    tr = trade_of n o q ∧ h' = filled_heap h t m n o q.

(** The prices and quantities that a submission passes are doubles. *)
Definition double_op (o : op) : Prop :=
  match o with
  | SubmitOrder _ _ _ _ _ px qty => rnd px = px ∧ rnd qty = qty
  | _ => True
  end.

(** The states of a fresh engine after some operations on doubles. *)
Definition reachable (h : Heap) (e : MatchingEngine) : Prop :=
  ∃ ops, Forall double_op ops ∧ run_from ([], MatchingEngine_new) ops = Some (h, e).

End Rounded.

(** What the termination of the matching loops needs of the rounding, on
    the non-negative numbers: it is monotone, its results are doubles,
    zero is a double and nothing positive rounds to zero; the difference
    of two doubles within a factor two of each other is a double
    (Sterbenz); and what is at least half a double rounds to at least
    half of it. *)
Record rounding (rnd : Z → Z) : Prop := {
  rnd_mono : ∀ x y, 0 ≤ x → x ≤ y → rnd x ≤ rnd y;
  rnd_idem : ∀ x, 0 ≤ x → rnd (rnd x) = rnd x;
  rnd_zero : rnd 0 = 0;
  rnd_pos : ∀ x, 0 < x → 0 < rnd x;
  rnd_sterbenz : ∀ x y, rnd x = x → rnd y = y → 0 ≤ y → y ≤ x → x ≤ 2 * y →
                 rnd (x - y) = x - y;
  rnd_half : ∀ x z, rnd x = x → 0 < x → x ≤ 2 * z → x ≤ 2 * rnd z
}.

End Rounded.

(** A run of steps that starts in the arena [h], emits the trades in
    order, and ends in the arena [h']. *)
Inductive trace (step : Heap → Trade → Heap → Prop) :
    Heap → list Trade → Heap → Prop :=
  | trace_nil h : trace step h [] h
  | trace_cons h tr h1 trs h' :
      step h tr h1 → trace step h1 trs h' → trace step h (tr :: trs) h'.

(** Every level holds its orders in the order of their creation: the
    arena index of a record is the number of orders created before it. *)
Definition arrival_sorted (l : Ladder) : Prop :=
  ∀ px os, (px, os) ∈ l → StronglySorted lt os.

(** What holds of the books in every state, whatever the arithmetic. *)
Record books_inv (h : Heap) (e : MatchingEngine) : Prop := {
  bk_books : ∀ pair b, orderBooks_ e !! pair = Some b → book_inv h pair b;
  bk_arrival : ∀ pair b sd, orderBooks_ e !! pair = Some b →
               arrival_sorted (ladder sd b)
}.

(** The numbers of every record are doubles; nothing is filled below
    zero. *)
Definition double_heap (rnd : Z → Z) (h : Heap) : Prop :=
  ∀ p o, h !! p = Some o →
    rnd (quantity o) = quantity o ∧ rnd (filledQuantity o) = filledQuantity o ∧
    0 ≤ filledQuantity o.

(** How far a record is from being filled: 0 when it is filled, 1 when at
    least half of its quantity is filled, 2 otherwise.  A fill by the
    record's own remaining quantity lowers it. *)
Definition stage (o : Order) : nat :=
  if isFilled o then 0%nat
  else if quantity o <=? 2 * filledQuantity o then 1%nat
  else 2%nat.

Definition stage_at (h : Heap) (m : OrderPtr) : nat :=
  match h !! m with Some o => stage o | None => 0%nat end.

Definition stages (h : Heap) (Q : list OrderPtr) : nat :=
  sum_list_with (stage_at h) Q.

(** The unit in the last place of the double [a >= 0]. *)
Definition ulp (a : Z) : Z := 2 ^ ulp_exp a.

(** No record is filled beyond its quantity by more than one unit in the
    last place of the quantity. *)
Definition within_ulp (h : Heap) : Prop :=
  ∀ p o, h !! p = Some o → filledQuantity o ≤ quantity o + ulp (quantity o).

(** What holds of the statuses on the rounded path: a record that was not
    cancelled has the status its fills call for, no resting order is
    cancelled, and the directory of a book holds orders of its pair. *)
Record statuses_inv (h : Heap) (e : MatchingEngine) : Prop := {
  st_status : ∀ p o, h !! p = Some o →
    status o = CANCELLED ∨ status o = status_of_fills o;
  st_resting : ∀ pair b sd m o,
    orderBooks_ e !! pair = Some b → m ∈ queue (ladder sd b) →
    h !! m = Some o → status o ≠ CANCELLED;
  st_dir : ∀ pair b i p o,
    orderBooks_ e !! pair = Some b → orders_ b !! i = Some p →
    h !! p = Some o → tradingPair o = pair ∧ status o ≠ CANCELLED
}.

(** One trade as it changes the records: the taker [t] and a maker [m] of
    the queue [Q] are both filled by the quantity of the trade, which is
    the smaller of their remaining quantities and is positive; each sum
    is rounded; no other record changes. *)
Definition fill_step (t : OrderPtr) (Q : list OrderPtr)
    (h : Heap) (tr : Trade) (h' : Heap) : Prop :=
  ∃ m n o n' o',
    m ∈ Q ∧ h !! t = Some n ∧ h !! m = Some o ∧
    tradeQuantity tr
    = Z.min (Rounded.getRemainingQuantity round_binary64 n)
            (Rounded.getRemainingQuantity round_binary64 o) ∧
    0 < tradeQuantity tr ∧
    h' !! t = Some n' ∧ h' !! m = Some o' ∧
    filledQuantity n' = round_binary64 (filledQuantity n + tradeQuantity tr) ∧
    filledQuantity o' = round_binary64 (filledQuantity o + tradeQuantity tr) ∧
    ∀ p, p ≠ t → p ≠ m → h' !! p = h !! p.

(** ** Scenarios on doubles *)

(** The double that the decimal literal [n / 10^k] denotes, in units of
    2^-1074: 0.9 is [decimal 9 1].  The quotient is cut to a whole number
    of units before it is rounded, which is far below the last place of
    the literals used here. *)
Definition decimal (n k : Z) : Z := round_binary64 (n * 2 ^ 1074 / 10 ^ k).

(** A sell of 0.9 at 100 rests; a buy of 0.3 takes 0.3 of it. *)
Definition overfill_prefix : list op :=
  [AddTradingPair demo_pair;
   SubmitOrder 10 "s" demo_pair SELL LIMIT (decimal 100 0) (decimal 9 1);
   SubmitOrder 10 "a" demo_pair BUY LIMIT (decimal 100 0) (decimal 3 1)].

(** A buy of 1.0 then takes the rest. *)
Definition overfill_ops : list op :=
  overfill_prefix
  ++ [SubmitOrder 10 "b" demo_pair BUY LIMIT (decimal 100 0) (decimal 1 0)].

Definition overfill_heap : Heap :=
  Eval vm_compute in
    default [] (fst <$> Rounded.run_from round_binary64 fresh overfill_ops).

Definition overfill_engine : MatchingEngine :=
  Eval vm_compute in
    default MatchingEngine_new
      (snd <$> Rounded.run_from round_binary64 fresh overfill_ops).

(** A sell of 0.9 at 100 rests; a buy of 0.2 takes 0.2 of it. *)
Definition twice_ops : list op :=
  [AddTradingPair demo_pair;
   SubmitOrder 10 "s" demo_pair SELL LIMIT (decimal 100 0) (decimal 9 1);
   SubmitOrder 10 "a" demo_pair BUY LIMIT (decimal 100 0) (decimal 2 1)].

Definition twice_heap : Heap :=
  Eval vm_compute in
    default [] (fst <$> Rounded.run_from round_binary64 fresh twice_ops).

Definition twice_engine : MatchingEngine :=
  Eval vm_compute in
    default MatchingEngine_new
      (snd <$> Rounded.run_from round_binary64 fresh twice_ops).

Definition twice_book : OrderBook :=
  Eval vm_compute in
    default (OrderBook_new "") (orderBooks_ twice_engine !! demo_pair).

(** * The settlement contract

    Shallow embedding of the Solidity contract [DEXContract], which
    records the orders of the matching engine and settles its trades.

    Modelling conventions.
    - [uint256] values are integers ([Z]); [+], [-] and [*] are the
      checked operations of Solidity 0.8, which revert with a panic
      outside [0, 2^256).  Addresses are integers as well.
    - A mapping is a finite map; a key that was never written reads as
      the zero value of its type.
    - A call runs in a state of the contract, with [msg.sender] and
      [block.timestamp] as arguments, and either returns the new state or
      reverts, which leaves the state as it was.  The events emitted are
      appended to a log in the state.
    - [onlyOwner] is the modifier of OpenZeppelin's [Ownable]: the call
      reverts unless [msg.sender] is the owner.  Calls are atomic, so the
      [nonReentrant] guard never fires.
    - [deposit] and [withdraw] call an external token contract and are
      left out, as are the functions that the contract inherits from
      [Ownable] ([transferOwnership], [renounceOwnership]). *)

Module DEXContract.

Abbreviation address := Z (only parsing).

Inductive OrderSide := BUY | SELL.
Inductive OrderType := MARKET | LIMIT.
Inductive OrderStatus := PENDING | PARTIAL | FILLED | CANCELLED.

Global Instance DEX_OrderSide_eq_dec : EqDecision OrderSide.
Proof. solve_decision. Defined.
Global Instance DEX_OrderType_eq_dec : EqDecision OrderType.
Proof. solve_decision. Defined.
Global Instance DEX_OrderStatus_eq_dec : EqDecision OrderStatus.
Proof. solve_decision. Defined.

Record Order := mkOrder {
  id : Z;
  user : address;
  baseToken : address;
  quoteToken : address;
  side : OrderSide;
  orderType : OrderType;
  status : OrderStatus;
  price : Z;
  quantity : Z;
  filledQuantity : Z;
  timestamp : Z
}.

Inductive Event :=
  | OrderPlaced (orderId : Z) (user : address) (side : OrderSide) (price quantity : Z)
  | OrderCancelled (orderId : Z)
  | TradeExecuted (buyOrderId sellOrderId price quantity : Z).

Inductive error :=
  | Error (reason : string)                       (* require(cond, reason) *)
  | Panic                                         (* checked arithmetic *)
  | OwnableUnauthorizedAccount (account : address).

Record State := mkState {
  owner : address;
  orders : gmap Z Order;
  balances : gmap (address * address) Z;
  events : list Event
}.

Inductive outcome :=
  | Ok (s : State)
  | Revert (e : error).

Definition MAX_UINT256 : Z := 2 ^ 256 - 1.

Definition checked_add (a b : Z) : option Z :=
  if a + b <=? MAX_UINT256 then Some (a + b) else None.

Definition checked_sub (a b : Z) : option Z :=
  if b <=? a then Some (a - b) else None.

Definition checked_mul (a b : Z) : option Z :=
  if a * b <=? MAX_UINT256 then Some (a * b) else None.

(** The zero value of [Order]. *)
Definition Order_zero : Order :=
  mkOrder 0 0 0 0 BUY MARKET PENDING 0 0 0 0.

(** [orders[orderId]] *)
Definition order_at (s : State) (orderId : Z) : Order :=
  default Order_zero (orders s !! orderId).

(** [balances[user][token]], also the view [getBalance]. *)
Definition getBalance (s : State) (user token : address) : Z :=
  default 0 (balances s !! (user, token)).

(** The view [getOrder]. *)
Definition getOrder (s : State) (orderId : Z) : Order := order_at s orderId.

Definition set_balance (user token : address) (v : Z) (s : State) : State :=
  mkState (owner s) (orders s) (<[(user, token) := v]> (balances s)) (events s).

Definition set_order (orderId : Z) (o : Order) (s : State) : State :=
  mkState (owner s) (<[orderId := o]> (orders s)) (balances s) (events s).

Definition emit (ev : Event) (s : State) : State :=
  mkState (owner s) (orders s) (balances s) (events s ++ [ev]).

(** [balances[user][token] += amount] *)
Definition credit (user token : address) (amount : Z) (s : State) : option State :=
  v ← checked_add (getBalance s user token) amount;
  Some (set_balance user token v s).

(** [balances[user][token] -= amount] *)
Definition debit (user token : address) (amount : Z) (s : State) : option State :=
  v ← checked_sub (getBalance s user token) amount;
  Some (set_balance user token v s).

Definition set_status (st : OrderStatus) (o : Order) : Order :=
  mkOrder (id o) (user o) (baseToken o) (quoteToken o) (side o) (orderType o) st
    (price o) (quantity o) (filledQuantity o) (timestamp o).

Definition set_filled (f : Z) (o : Order) : Order :=
  mkOrder (id o) (user o) (baseToken o) (quoteToken o) (side o) (orderType o)
    (status o) (price o) (quantity o) f (timestamp o).

(** [orders[orderId].filledQuantity += quantity] *)
Definition add_filled (orderId qty : Z) (s : State) : option State :=
  f ← checked_add (filledQuantity (order_at s orderId)) qty;
  Some (set_order orderId (set_filled f (order_at s orderId)) s).

(** The status update of [executeTrade] for one order. *)
Definition update_status (orderId : Z) (s : State) : State :=
  let o := order_at s orderId in
  if quantity o <=? filledQuantity o
  then set_order orderId (set_status FILLED o) s
  else set_order orderId (set_status PARTIAL o) s.

Definition or_panic (r : option State) (k : State → outcome) : outcome :=
  match r with
  | Some s => k s
  | None => Revert Panic
  end.

(** [constructor() Ownable(msg.sender) {}] *)
Definition constructor (sender : address) : State := mkState sender ∅ ∅ [].

(** [placeOrder], with [sender] for [msg.sender] and [now] for
    [block.timestamp]. *)
Definition placeOrder (s : State) (sender : address) (now : Z)
    (orderId : Z) (user baseToken quoteToken : address)
    (side : OrderSide) (orderType : OrderType) (price quantity : Z) : outcome :=
  if negb (bool_decide (sender = owner s)) then
    Revert (OwnableUnauthorizedAccount sender)
  else if negb (id (order_at s orderId) =? 0) then
    Revert (Error "Order ID already exists")
  else
    let place (s : State) : outcome :=
      Ok (emit (OrderPlaced orderId user side price quantity)
            (set_order orderId
               (mkOrder orderId user baseToken quoteToken side orderType PENDING
                  price quantity 0 now) s)) in
    match side with
    | BUY =>
        match checked_mul price quantity with
        | None => Revert Panic
        | Some pq =>
            let requiredQuote := pq / 10 ^ 18 in
            if negb (requiredQuote <=? getBalance s user quoteToken) then
              Revert (Error "Insufficient quote token balance")
            else or_panic (debit user quoteToken requiredQuote s) place
        end
    | SELL =>
        if negb (quantity <=? getBalance s user baseToken) then
          Revert (Error "Insufficient base token balance")
        else or_panic (debit user baseToken quantity s) place
    end.

(** [executeTrade] *)
Definition executeTrade (s : State) (sender : address)
    (buyOrderId sellOrderId price quantity : Z) : outcome :=
  if negb (bool_decide (sender = owner s)) then
    Revert (OwnableUnauthorizedAccount sender)
  else
    let buyOrder := order_at s buyOrderId in
    let sellOrder := order_at s sellOrderId in
    if id buyOrder =? 0 then Revert (Error "Buy order not found")
    else if id sellOrder =? 0 then Revert (Error "Sell order not found")
    else if negb (bool_decide (side buyOrder = BUY)) then
      Revert (Error "Invalid buy order")
    else if negb (bool_decide (side sellOrder = SELL)) then
      Revert (Error "Invalid sell order")
    else
      match checked_mul price quantity with
      | None => Revert Panic
      | Some pq =>
          let quoteAmount := pq / 10 ^ 18 in
          or_panic (credit (user buyOrder) (baseToken buyOrder) quantity s) (λ s,
          or_panic (credit (user sellOrder) (quoteToken sellOrder) quoteAmount s) (λ s,
          or_panic (add_filled buyOrderId quantity s) (λ s,
          or_panic (add_filled sellOrderId quantity s) (λ s,
          Ok (emit (TradeExecuted buyOrderId sellOrderId price quantity)
                (update_status sellOrderId (update_status buyOrderId s)))))))
      end.

(** [cancelOrder] *)
Definition cancelOrder (s : State) (sender : address) (orderId : Z) : outcome :=
  let order := order_at s orderId in
  if id order =? 0 then Revert (Error "Order not found")
  else if negb (bool_decide (user order = sender) || bool_decide (sender = owner s)) then
    Revert (Error "Not authorized")
  else if negb (bool_decide (status order = PENDING)
                || bool_decide (status order = PARTIAL)) then
    Revert (Error "Cannot cancel")
  else
    match checked_sub (quantity order) (filledQuantity order) with
    | None => Revert Panic
    | Some remainingQuantity =>
        let refund :=
          match side order with
          | BUY =>
              match checked_mul (price order) remainingQuantity with
              | None => None
              | Some pr =>
                  let remainingQuote := pr / 10 ^ 18 in
                  credit (user order) (quoteToken order) remainingQuote s
              end
          | SELL => credit (user order) (baseToken order) remainingQuantity s
          end in
        or_panic refund (λ s,
          Ok (emit (OrderCancelled orderId)
                (set_order orderId (set_status CANCELLED (order_at s orderId)) s)))
    end.

(** Values in the range of [uint256]. *)
Definition uint256 (x : Z) : Prop := 0 ≤ x ≤ MAX_UINT256.

(** The states of the contract: every number read from storage is a
    [uint256], and the order read under an id carries that id, or the id
    0 of an order that does not exist. *)
Record wf (s : State) : Prop := {
  wf_balances : ∀ u t, uint256 (getBalance s u t);
  wf_orders : ∀ i,
    (id (order_at s i) = i ∨ id (order_at s i) = 0) ∧
    uint256 (price (order_at s i)) ∧ uint256 (quantity (order_at s i)) ∧
    uint256 (filledQuantity (order_at s i))
}.

(** The fields of an order that no function changes after placement. *)
Definition same_order (o o' : Order) : Prop :=
  id o' = id o ∧ user o' = user o ∧ baseToken o' = baseToken o ∧
  quoteToken o' = quoteToken o ∧ side o' = side o ∧ orderType o' = orderType o ∧
  price o' = price o ∧ quantity o' = quantity o ∧ timestamp o' = timestamp o.

(** The record of an order after [executeTrade] filled [qty] more of it:
    the status becomes FILLED or PARTIAL, whatever it was. *)
Definition traded_status (o : Order) : OrderStatus :=
  if quantity o <=? filledQuantity o then FILLED else PARTIAL.

Definition traded (qty : Z) (o : Order) : Order :=
  let o' := set_filled (filledQuantity o + qty) o in
  set_status (traded_status o') o'.

(** The calls that change the contract. *)
Inductive call :=
  | PlaceOrder (sender : address) (now orderId : Z) (user baseToken quoteToken : address)
      (side : OrderSide) (orderType : OrderType) (price quantity : Z)
  | ExecuteTrade (sender : address) (buyOrderId sellOrderId price quantity : Z)
  | CancelOrder (sender : address) (orderId : Z).

Definition run_call (s : State) (c : call) : outcome :=
  match c with
  | PlaceOrder sender now orderId user baseToken quoteToken side orderType price quantity =>
      placeOrder s sender now orderId user baseToken quoteToken side orderType
        price quantity
  | ExecuteTrade sender buyOrderId sellOrderId price quantity =>
      executeTrade s sender buyOrderId sellOrderId price quantity
  | CancelOrder sender orderId => cancelOrder s sender orderId
  end.

(** A transaction that reverts leaves the state as it was. *)
Definition step (s : State) (c : call) : State :=
  match run_call s c with
  | Ok s' => s'
  | Revert _ => s
  end.

Definition run (s : State) (cs : list call) : State := foldl step s cs.

(** The [uint256] arguments of a call are in range. *)
Definition args_ok (c : call) : Prop :=
  match c with
  | PlaceOrder _ now orderId _ _ _ _ _ price quantity =>
      uint256 now ∧ uint256 orderId ∧ uint256 price ∧ uint256 quantity
  | ExecuteTrade _ buyOrderId sellOrderId price quantity =>
      uint256 buyOrderId ∧ uint256 sellOrderId ∧ uint256 price ∧ uint256 quantity
  | CancelOrder _ orderId => uint256 orderId
  end.

(** The amount that [placeOrder] locks, and the amount that [cancelOrder]
    gives back for the quantity [qty] of an order of price [px]. *)
Definition locked_amount (sd : OrderSide) (px qty : Z) : Z :=
  match sd with
  | BUY => px * qty / 10 ^ 18
  | SELL => qty
  end.

(** The token in which an order's funds are locked. *)
Definition locked_token (o : Order) : address :=
  match side o with
  | BUY => quoteToken o
  | SELL => baseToken o
  end.

(** A scenario: the owner is the account 7; the account 11 holds 5000
    units of the quote token 22 and the account 12 holds 3 units of the
    base token 21 (amounts have 18 decimals).  Then a buy order 1 of the
    account 11 and a sell order 2 of the account 12 are placed, each for
    1 unit at the price 2000. *)
Definition funded : State :=
  mkState 7 ∅ (<[(11, 22) := 5000 * 10 ^ 18]> (<[(12, 21) := 3 * 10 ^ 18]> ∅)) [].

Definition place_calls : list call :=
  [PlaceOrder 7 100 1 11 21 22 BUY LIMIT (2000 * 10 ^ 18) (10 ^ 18);
   PlaceOrder 7 101 2 12 21 22 SELL LIMIT (2000 * 10 ^ 18) (10 ^ 18)].

Definition placed : State := Eval vm_compute in run funded place_calls.

(** The placed orders after the account 11 cancelled its order 1. *)
Definition cancelled : State := Eval vm_compute in run placed [CancelOrder 11 1].

End DEXContract.

(** * Properties *)

(** ** One fill and the arena *)

Lemma same_ident_refl o : same_ident o o.
Proof. by split. Qed.

Lemma same_ident_trans o1 o2 o3 :
  same_ident o1 o2 → same_ident o2 o3 → same_ident o1 o3.
Proof. intros [] []; split; congruence. Qed.

Lemma update_status_ident o : same_ident o (update_status o).
Proof. unfold update_status. repeat case_match; by split. Qed.

Lemma update_status_filled o : filledQuantity (update_status o) = filledQuantity o.
Proof. unfold update_status. by repeat case_match. Qed.

Lemma fill_ident q o : same_ident o (fill q o).
Proof.
  unfold fill. eapply same_ident_trans; [|apply update_status_ident]. by split.
Qed.

Lemma fill_filled q o : filledQuantity (fill q o) = filledQuantity o + q.
Proof. unfold fill. by rewrite update_status_filled. Qed.

Lemma isFilled_fill q o :
  isFilled (fill q o) = (quantity o <=? filledQuantity o + q).
Proof.
  unfold isFilled. rewrite fill_filled. by destruct (fill_ident q o) as [_ _ _ _ _ _ ->].
Qed.

Lemma modify_Some h p f o : h !! p = Some o → modify h p f = Some (<[p := f o]> h).
Proof. unfold modify. by intros ->. Qed.

Lemma executeTrade_spec h buy sell b s px q :
  buy ≠ sell → h !! buy = Some b → h !! sell = Some s →
  executeTrade h buy sell px q
  = Some (<[sell := fill q s]> (<[buy := fill q b]> h), mkTrade (id b) (id s) px q).
Proof.
  intros Hne Hb Hs. unfold executeTrade.
  pose proof (lookup_lt_Some _ _ _ Hb) as Lb.
  pose proof (lookup_lt_Some _ _ _ Hs) as Ls.
  rewrite (modify_Some _ _ _ _ Hb). cbn [mbind option_bind].
  erewrite modify_Some by (rewrite list_lookup_insert_ne; eauto).
  cbn [mbind option_bind].
  rewrite list_lookup_insert_ne by done.
  rewrite list_lookup_insert_eq by done. cbn [mbind option_bind].
  set (h2 := <[sell:=add_filled q s]> (<[buy:=add_filled q b]> h)).
  assert (H2b : h2 !! buy = Some (add_filled q b)).
  { unfold h2. rewrite list_lookup_insert_ne by done. by rewrite list_lookup_insert_eq. }
  assert (H2s : h2 !! sell = Some (add_filled q s)).
  { unfold h2. rewrite list_lookup_insert_eq; [done|]. by rewrite length_insert. }
  assert (E3 : (if isFilled (add_filled q b) then modify h2 buy (set_status FILLED)
       else if 0 <? filledQuantity (add_filled q b) then modify h2 buy (set_status PARTIAL)
       else Some h2) = Some (<[buy := fill q b]> h2)).
  { unfold fill, update_status.
    repeat case_match; try (by erewrite modify_Some); by rewrite list_insert_id. }
  rewrite E3. cbn [mbind option_bind].
  set (h3 := <[buy := fill q b]> h2).
  assert (H3s : h3 !! sell = Some (add_filled q s)).
  { unfold h3. by rewrite list_lookup_insert_ne. }
  rewrite H3s. cbn [mbind option_bind].
  assert (E4 : (if isFilled (add_filled q s) then modify h3 sell (set_status FILLED)
       else if 0 <? filledQuantity (add_filled q s) then modify h3 sell (set_status PARTIAL)
       else Some h3) = Some (<[sell := fill q s]> h3)).
  { unfold fill, update_status.
    repeat case_match; try (by erewrite modify_Some); by rewrite list_insert_id. }
  rewrite E4. cbn [mbind option_bind].
  assert (L3 : length h3 = length h).
  { unfold h3, h2. by rewrite !length_insert. }
  rewrite (list_lookup_insert_ne _ sell buy) by done.
  assert (H3b : h3 !! buy = Some (fill q b)).
  { unfold h3. apply list_lookup_insert_eq. unfold h2. rewrite !length_insert. lia. }
  rewrite H3b. cbn [mbind option_bind].
  rewrite list_lookup_insert_eq by lia. cbn [mbind option_bind].
  f_equal. f_equal.
  - unfold h3, h2.
    rewrite (list_insert_insert_ne _ buy sell (fill q b)) by done.
    by rewrite !list_insert_insert_eq.
  - f_equal; [apply (si_id _ _ (fill_ident q b)) | apply (si_id _ _ (fill_ident q s))].
Qed.

Lemma heap_ident_refl h : heap_ident h h.
Proof. split; [done|]. intros p o Ho. eauto using same_ident_refl. Qed.

Lemma heap_ident_trans h1 h2 h3 :
  heap_ident h1 h2 → heap_ident h2 h3 → heap_ident h1 h3.
Proof.
  intros [L1 H1] [L2 H2]. split; [congruence|].
  intros p o Ho. destruct (H1 p o Ho) as (o' & Ho' & I1).
  destruct (H2 p o' Ho') as (o'' & Ho'' & I2).
  eauto using same_ident_trans.
Qed.

Lemma heap_ident_insert h p o o' :
  h !! p = Some o → same_ident o o' → heap_ident h (<[p := o']> h).
Proof.
  intros Ho Hi. split; [by rewrite length_insert|].
  intros p' o1 Ho1. destruct (decide (p = p')) as [<-|Hne].
  - simplify_eq. exists o'. split; [|done].
    apply list_lookup_insert_eq. by eapply lookup_lt_Some.
  - exists o1. split; [by rewrite list_lookup_insert_ne|apply same_ident_refl].
Qed.

Lemma filled_heap_length h t m n o q : length (filled_heap h t m n o q) = length h.
Proof. unfold filled_heap. by rewrite !length_insert. Qed.

Lemma filled_heap_taker h t m n o q :
  t ≠ m → h !! t = Some n → filled_heap h t m n o q !! t = Some (fill q n).
Proof.
  intros Hne Hn. unfold filled_heap. rewrite list_lookup_insert_ne by done.
  apply list_lookup_insert_eq. by eapply lookup_lt_Some.
Qed.

Lemma filled_heap_maker h t m n o q :
  h !! m = Some o → filled_heap h t m n o q !! m = Some (fill q o).
Proof.
  intros Ho. unfold filled_heap. apply list_lookup_insert_eq.
  rewrite length_insert. by eapply lookup_lt_Some.
Qed.

Lemma filled_heap_other h t m n o q p :
  p ≠ t → p ≠ m → filled_heap h t m n o q !! p = h !! p.
Proof.
  intros H1 H2. unfold filled_heap. by rewrite !list_lookup_insert_ne.
Qed.

Lemma filled_heap_ident h t m n o q :
  t ≠ m → h !! t = Some n → h !! m = Some o →
  heap_ident h (filled_heap h t m n o q).
Proof.
  intros Hne Hn Ho. unfold filled_heap.
  apply (heap_ident_trans _ (<[t := fill q n]> h)).
  - eapply heap_ident_insert; [done|apply fill_ident].
  - eapply heap_ident_insert; [|apply fill_ident].
    by rewrite list_lookup_insert_ne.
Qed.

(** ** The loops of matchOrder meet their relations *)

Lemma match_front_spec h t m n o :
  t ≠ m → h !! t = Some n → h !! m = Some o →
  let q := Z.min (getRemainingQuantity n) (getRemainingQuantity o) in
  match_front h t m = Some (filled_heap h t m n o q, trade_of n o q).
Proof.
  intros Hne Ht Hm q. unfold match_front, filled_heap.
  rewrite Ht, Hm. cbn [mbind option_bind].
  unfold trade_of. destruct (side n) eqn:Hs; repeat case_decide; try done.
  - by erewrite executeTrade_spec.
  - erewrite executeTrade_spec by done.
    by rewrite list_insert_insert_ne.
Qed.

(** A match that leaves the maker open fills the taker. *)
Lemma fill_taker_filled n o q :
  q = Z.min (getRemainingQuantity n) (getRemainingQuantity o) →
  isFilled (fill q o) = false → isFilled (fill q n) = true.
Proof.
  intros ->. rewrite !isFilled_fill. unfold getRemainingQuantity. lia.
Qed.

Lemma match_level_sweep fuel h t os trs h' os' trs' :
  t ∉ os → (∀ m, m ∈ os → is_Some (h !! m)) →
  match_level fuel h t os trs = Some (h', os', trs') →
  ∃ nt, trs' = trs ++ nt ∧ level_sweep t h os h' os' nt.
Proof.
  revert h os trs.
  induction fuel as [|fuel IH]; intros h os trs Ht Hv Hm; [done|].
  cbn [match_level] in Hm.
  destruct (h !! t) as [n|] eqn:Hn; [|done]. cbn [mbind option_bind] in Hm.
  destruct os as [|m rest].
  { simplify_eq. exists []. rewrite app_nil_r. split; [done|]. econstructor; eauto. }
  destruct (isFilled n) eqn:Hf.
  { simplify_eq. exists []. rewrite app_nil_r. split; [done|]. econstructor; eauto. }
  destruct (Hv m) as [o Ho]; [by left|].
  assert (t ≠ m) as Hne by (intros ->; apply Ht; by left).
  rewrite (match_front_spec h t m n o Hne Hn Ho) in Hm.
  cbn [mbind option_bind] in Hm.
  set (q := Z.min (getRemainingQuantity n) (getRemainingQuantity o)) in *.
  set (h1 := filled_heap h t m n o q) in *.
  assert (Hl1 : length h1 = length h) by apply filled_heap_length.
  assert (H1m : h1 !! m = Some (fill q o)) by by apply filled_heap_maker.
  assert (H1t : h1 !! t = Some (fill q n)) by by apply filled_heap_taker.
  rewrite H1m in Hm. cbn [mbind option_bind] in Hm.
  destruct (isFilled (fill q o)) eqn:Hfo.
  - apply IH in Hm as (nt & -> & Hs).
    + exists (trade_of n o q :: nt). split; [by rewrite <- app_assoc|].
      by eapply sweep_next.
    + intros Hin. apply Ht. by right.
    + intros m' Hin. apply lookup_lt_is_Some. rewrite Hl1.
      apply lookup_lt_is_Some, Hv. by right.
  - destruct fuel as [|fuel]; [done|]. cbn [match_level] in Hm.
    rewrite H1t in Hm. cbn [mbind option_bind] in Hm.
    rewrite (fill_taker_filled n o q eq_refl Hfo) in Hm.
    simplify_eq. exists [trade_of n o q]. split; [done|].
    by eapply sweep_last.
Qed.

Lemma match_level_total fuel h t os trs :
  t ∉ os → (∀ m, m ∈ os → is_Some (h !! m)) → is_Some (h !! t) →
  (length os < fuel)%nat →
  is_Some (match_level fuel h t os trs).
Proof.
  revert fuel h trs.
  induction os as [|m rest IH]; intros fuel h trs Ht Hv [n Hn] Hfuel.
  { destruct fuel; [lia|]. cbn [match_level]. rewrite Hn. by eexists. }
  destruct fuel as [|fuel]; [lia|]. cbn [match_level length] in *.
  rewrite Hn. cbn [mbind option_bind].
  destruct (isFilled n) eqn:Hf; [by eexists|].
  destruct (Hv m) as [o Ho]; [by left|].
  assert (t ≠ m) as Hne by (intros ->; apply Ht; by left).
  rewrite (match_front_spec h t m n o Hne Hn Ho).
  cbn [mbind option_bind].
  set (q := Z.min (getRemainingQuantity n) (getRemainingQuantity o)) in *.
  set (h1 := filled_heap h t m n o q) in *.
  assert (Hl1 : length h1 = length h) by apply filled_heap_length.
  assert (H1m : h1 !! m = Some (fill q o)) by by apply filled_heap_maker.
  assert (H1t : h1 !! t = Some (fill q n)) by by apply filled_heap_taker.
  rewrite H1m. cbn [mbind option_bind].
  destruct (isFilled (fill q o)) eqn:Hfo.
  - apply IH; [| |by eexists|lia].
    + intros Hin. apply Ht. by right.
    + intros m' Hin. apply lookup_lt_is_Some. rewrite Hl1.
      apply lookup_lt_is_Some, Hv. by right.
  - destruct fuel as [|fuel]; [lia|]. cbn [match_level].
    rewrite H1t. cbn [mbind option_bind].
    rewrite (fill_taker_filled n o q eq_refl Hfo). by eexists.
Qed.

Lemma level_sweep_length t h os h' os' trs :
  level_sweep t h os h' os' trs → length h' = length h.
Proof.
  induction 1 as [| h m os n o q h' os' trs _ _ _ _ _ _ IH |]; [done| |].
  - rewrite IH. apply filled_heap_length.
  - apply filled_heap_length.
Qed.

(** The inner loop stops on a non-empty level only when the incoming
    order is filled. *)
Lemma level_sweep_open t h os h' os' trs :
  level_sweep t h os h' os' trs → t ∉ os → os' ≠ [] →
  ∃ n', h' !! t = Some n' ∧ isFilled n' = true.
Proof.
  induction 1 as [h os n Hn [Hf| ->]
                 | h m os n o q h' os' trs Hn Ho Hf Hq Hfo _ IH
                 | h m os n o q Hn Ho Hf Hq Hfo]; intros Ht Hne.
  - eauto.
  - done.
  - apply IH; [|done]. intros Hin. apply Ht. by right.
  - exists (fill q n). split; [|by eapply fill_taker_filled].
    apply filled_heap_taker; [|done]. intros ->. apply Ht. by left.
Qed.

Lemma queue_cons px os (L : Ladder) : queue ((px, os) :: L) = os ++ queue L.
Proof. done. Qed.

Lemma match_book_sweep fuel limit h t L trs h' L' trs' :
  t ∉ queue L → (∀ m, m ∈ queue L → is_Some (h !! m)) →
  match_book fuel limit h t L trs = Some (h', L', trs') →
  ∃ nt, trs' = trs ++ nt ∧ book_sweep limit t h L h' L' nt.
Proof.
  revert h L trs.
  induction fuel as [|fuel IH]; intros h L trs Ht Hv Hm; [done|].
  cbn [match_book] in Hm.
  destruct (h !! t) as [n|] eqn:Hn; [|done]. cbn [mbind option_bind] in Hm.
  destruct L as [|[px os] L].
  { simplify_eq. exists []. rewrite app_nil_r. split; [done|]. by econstructor. }
  destruct (isFilled n) eqn:Hf.
  { simplify_eq. exists []. rewrite app_nil_r. split; [done|].
    by eapply bsweep_filled. }
  destruct (limit && negb (priceAcceptable (side n) px (price n))) eqn:Hacc.
  { simplify_eq. exists []. rewrite app_nil_r. split; [done|].
    apply andb_true_iff in Hacc as [-> Hacc]. apply negb_true_iff in Hacc.
    by eapply bsweep_break. }
  assert (Hacc' : limit = true → priceAcceptable (side n) px (price n) = true).
  { intros ->. by destruct (priceAcceptable _ _ _). }
  rewrite queue_cons in Ht, Hv.
  destruct (match_level fuel h t os trs) as [[[h1 os1] trs1]|] eqn:Hlev; [|done].
  cbn [mbind option_bind] in Hm.
  apply match_level_sweep in Hlev as (nt1 & -> & Hs1).
  2: { intros Hin. apply Ht, elem_of_app. by left. }
  2: { intros m Hin. apply Hv, elem_of_app. by left. }
  pose proof (level_sweep_length _ _ _ _ _ _ Hs1) as Hl1.
  destruct os1 as [|m os1].
  - apply IH in Hm as (nt & -> & Hs).
    + exists (nt1 ++ nt). split; [by rewrite app_assoc|]. by eapply bsweep_next.
    + intros Hin. apply Ht, elem_of_app. by right.
    + intros m Hin. apply lookup_lt_is_Some. rewrite Hl1.
      apply lookup_lt_is_Some, Hv, elem_of_app. by right.
  - destruct (level_sweep_open _ _ _ _ _ _ Hs1) as (n' & Hn' & Hf'); [|done|].
    { intros Hin. apply Ht, elem_of_app. by left. }
    destruct fuel as [|fuel]; [done|]. cbn [match_book] in Hm.
    rewrite Hn' in Hm. cbn [mbind option_bind] in Hm. rewrite Hf' in Hm.
    simplify_eq. exists nt1. split; [done|]. by eapply bsweep_last.
Qed.

Lemma match_book_total fuel limit h t L trs :
  t ∉ queue L → (∀ m, m ∈ queue L → is_Some (h !! m)) → is_Some (h !! t) →
  (length L + length (queue L) + 1 < fuel)%nat →
  is_Some (match_book fuel limit h t L trs).
Proof.
  revert fuel h trs.
  induction L as [|[px os] L IH]; intros fuel h trs Ht Hv [n Hn] Hfuel.
  { destruct fuel; [lia|]. cbn [match_book]. rewrite Hn. by eexists. }
  destruct fuel as [|fuel]; [lia|]. cbn [match_book].
  rewrite Hn. cbn [mbind option_bind].
  destruct (isFilled n) eqn:Hf; [by eexists|].
  destruct (limit && negb _); [by eexists|].
  rewrite queue_cons in Ht, Hv, Hfuel. rewrite length_app in Hfuel.
  cbn [length] in Hfuel.
  destruct (match_level_total fuel h t os trs) as [[[h1 os1] trs1] Hlev].
  { intros Hin. apply Ht, elem_of_app. by left. }
  { intros m Hin. apply Hv, elem_of_app. by left. }
  { by eexists. }
  { lia. }
  rewrite Hlev. cbn [mbind option_bind].
  apply match_level_sweep in Hlev as (nt1 & -> & Hs1).
  2: { intros Hin. apply Ht, elem_of_app. by left. }
  2: { intros m Hin. apply Hv, elem_of_app. by left. }
  pose proof (level_sweep_length _ _ _ _ _ _ Hs1) as Hl1.
  destruct os1 as [|m os1].
  - apply IH; [| | |lia].
    + intros Hin. apply Ht, elem_of_app. by right.
    + intros m Hin. apply lookup_lt_is_Some. rewrite Hl1.
      apply lookup_lt_is_Some, Hv, elem_of_app. by right.
    + apply lookup_lt_is_Some. rewrite Hl1. apply lookup_lt_is_Some. by eexists.
  - destruct (level_sweep_open _ _ _ _ _ _ Hs1) as (n' & Hn' & Hf'); [|done|].
    { intros Hin. apply Ht, elem_of_app. by left. }
    destruct fuel as [|fuel]; [lia|]. cbn [match_book].
    rewrite Hn'. cbn [mbind option_bind]. rewrite Hf'. by eexists.
Qed.

(** ** From the two loops to one sweep of the queue *)

Lemma level_sweep_ident t h os h' os' trs :
  level_sweep t h os h' os' trs → t ∉ os → heap_ident h h'.
Proof.
  induction 1 as [| h m os n o q h' os' trs Hn Ho _ _ _ _ IH
                 | h m os n o q Hn Ho _ _ _]; intros Ht.
  - apply heap_ident_refl.
  - apply not_elem_of_cons in Ht as [Hne Ht].
    eapply heap_ident_trans; [by apply filled_heap_ident|by apply IH].
  - apply not_elem_of_cons in Ht as [Hne Ht]. by apply filled_heap_ident.
Qed.

Lemma level_sweep_suffix t h os h' os' trs :
  level_sweep t h os h' os' trs → os' `suffix_of` os.
Proof.
  induction 1; [done| |done]. by apply suffix_cons_r.
Qed.

Lemma level_sweep_flat acc t h os h1 os1 trs1 rest :
  level_sweep t h os h1 os1 trs1 →
  NoDup os → t ∉ os →
  (∀ m o, m ∈ os → h !! m = Some o → acc (price o) = true) →
  (os1 = [] → ∀ h' Q' trs,
     flat_sweep acc t h1 rest h' Q' trs →
     flat_sweep acc t h (os ++ rest) h' Q' (trs1 ++ trs)) ∧
  (os1 ≠ [] → flat_sweep acc t h (os ++ rest) h1 (os1 ++ rest) trs1).
Proof.
  induction 1 as [h os n Hn [Hf| ->]
                 | h m os n o q h' os' trs Hn Ho Hf Hq Hfo _ IH
                 | h m os n o q Hn Ho Hf Hq Hfo]; intros Hnd Ht Hacc.
  - split; [intros -> h' Q' trs Hs; by rewrite !app_nil_l|].
    intros _. by eapply fsweep_filled.
  - split; [|done]. intros _ h' Q' trs Hs. by rewrite !app_nil_l.
  - apply NoDup_cons in Hnd as [Hm Hnd].
    apply not_elem_of_cons in Ht as [Hne Ht].
    destruct IH as [IH1 IH2]; [done|done| |].
    { intros m' o' Hin. rewrite filled_heap_other.
      - intros Ho'. eapply Hacc; [by right|done].
      - intros ->. done.
      - intros ->. done. }
    assert (acc (price o) = true) as Ha by (eapply Hacc; [by left|done]).
    split.
    + intros -> h'' Q'' trs' Hs. cbn [app].
      eapply fsweep_next; eauto.
    + intros Hne'. cbn [app]. eapply fsweep_next; eauto.
  - apply not_elem_of_cons in Ht as [Hne Ht].
    assert (acc (price o) = true) as Ha by (eapply Hacc; [by left|done]).
    split; [done|]. intros _. cbn [app]. by eapply fsweep_last.
Qed.

Lemma book_sweep_tail limit t h L h' L' trs :
  book_sweep limit t h L h' L' trs → ladder_tail L L'.
Proof.
  induction 1; try apply ladder_tail_refl.
  - by apply ladder_tail_skip.
  - apply ladder_tail_trim; [|done]. by eapply level_sweep_suffix.
Qed.

Lemma book_sweep_ident limit t h L h' L' trs :
  book_sweep limit t h L h' L' trs → t ∉ queue L → heap_ident h h'.
Proof.
  induction 1 as [| | | h px os L n h1 trs1 h' L' trs Hn Hf Ha Hs _ IH
                 | h px os L n h1 m os1 trs1 Hn Hf Ha Hs]; intros Ht;
    try apply heap_ident_refl.
  - rewrite queue_cons in Ht. apply not_elem_of_app in Ht as [Ht1 Ht2].
    eapply heap_ident_trans; [by eapply level_sweep_ident|by apply IH].
  - rewrite queue_cons in Ht. apply not_elem_of_app in Ht as [Ht1 Ht2].
    by eapply level_sweep_ident.
Qed.

Lemma sweep_pre_tail h h' t px os L :
  sweep_pre h t ((px, os) :: L) → heap_ident h h' → sweep_pre h' t L.
Proof.
  intros [H1 H2 H3 H4] [Hl Hi]. rewrite queue_cons in H2, H3.
  apply NoDup_app in H2 as (_ & _ & H2).
  apply not_elem_of_app in H3 as [_ H3].
  split; [|done|done|].
  - intros px' os' Hin. eapply H1. by right.
  - intros px' os' m Hin Hm.
    destruct (H4 px' os' m) as (o & Ho & Hp); [by right|done|].
    destruct (Hi m o Ho) as (o' & Ho' & Hid).
    exists o'. split; [done|]. by rewrite (si_price _ _ Hid).
Qed.

Lemma book_sweep_flat limit acc t h L h' L' trs :
  book_sweep limit t h L h' L' trs →
  sweep_pre h t L →
  (∀ n px, h !! t = Some n →
     acc px = negb limit || priceAcceptable (side n) px (price n)) →
  flat_sweep acc t h (queue L) h' (queue L') trs.
Proof.
  induction 1 as [h n Hn | h L n Hn Hf | h px os L n Hn Hf Hl Ha
                 | h px os L n h1 trs1 h' L' trs Hn Hf Ha Hs _ IH
                 | h px os L n h1 m os1 trs1 Hn Hf Ha Hs]; intros Hpre Hacc.
  - by eapply fsweep_empty.
  - by eapply fsweep_filled.
  - destruct os as [|m os]; [by destruct (sp_nonempty _ _ _ Hpre px []); [left|]|].
    destruct (sp_price _ _ _ Hpre px (m :: os) m) as (o & Ho & Hp); [by left|by left|].
    rewrite queue_cons. cbn [app]. eapply fsweep_break; eauto.
    rewrite (Hacc n _ Hn), Hp, Ha, Hl. done.
  - pose proof (sp_nodup _ _ _ Hpre) as Hnd. pose proof (sp_fresh _ _ _ Hpre) as Ht.
    rewrite queue_cons in Hnd, Ht.
    apply NoDup_app in Hnd as (Hnd1 & _ & Hnd2).
    apply not_elem_of_app in Ht as [Ht1 Ht2].
    pose proof (level_sweep_ident _ _ _ _ _ _ Hs Ht1) as Hid.
    rewrite queue_cons.
    eapply (level_sweep_flat acc) in Hs as [Hs1 _]; [|done|done|].
    + apply Hs1; [done|]. apply IH.
      * by eapply sweep_pre_tail.
      * intros n' px' Hn'. destruct Hid as [_ Hid].
        destruct (Hid t n Hn) as (n1 & Hn1 & I1). simplify_eq.
        rewrite (Hacc n px' Hn). by rewrite (si_side _ _ I1), (si_price _ _ I1).
    + intros m o Hin Hm.
      destruct (sp_price _ _ _ Hpre px os m) as (o' & Ho' & Hp); [by left|done|].
      simplify_eq. rewrite (Hacc n _ Hn).
      destruct limit; [|done]. by rewrite Ha.
  - pose proof (sp_nodup _ _ _ Hpre) as Hnd. pose proof (sp_fresh _ _ _ Hpre) as Ht.
    rewrite queue_cons in Hnd, Ht.
    apply NoDup_app in Hnd as (Hnd1 & _ & Hnd2).
    apply not_elem_of_app in Ht as [Ht1 Ht2].
    rewrite !queue_cons.
    eapply (level_sweep_flat acc) in Hs as [_ Hs2]; [|done|done|].
    + by apply Hs2.
    + intros m' o Hin Hm.
      destruct (sp_price _ _ _ Hpre px os m') as (o' & Ho' & Hp); [by left|done|].
      simplify_eq. rewrite (Hacc n _ Hn).
      destruct limit; [|done]. by rewrite Ha.
Qed.

Lemma flat_sweep_ident acc t h Q h' Q' trs :
  flat_sweep acc t h Q h' Q' trs → t ∉ Q → heap_ident h h'.
Proof.
  induction 1 as [| | | h m Q n o q h' Q' trs Hn Ho _ _ _ _ _ IH
                 | h m Q n o q Hn Ho _ _ _ _]; intros Ht;
    try apply heap_ident_refl.
  - apply not_elem_of_cons in Ht as [Hne Ht].
    eapply heap_ident_trans; [by apply filled_heap_ident|by apply IH].
  - apply not_elem_of_cons in Ht as [Hne Ht]. by apply filled_heap_ident.
Qed.

(** Only the incoming order and the orders of the queue are written. *)
Lemma flat_sweep_frame acc t h Q h' Q' trs p :
  flat_sweep acc t h Q h' Q' trs → p ≠ t → p ∉ Q → h' !! p = h !! p.
Proof.
  induction 1 as [| | | h m Q n o q h' Q' trs Hn Ho _ _ _ _ _ IH
                 | h m Q n o q Hn Ho _ _ _ _]; intros Hpt Hp; try done.
  - apply not_elem_of_cons in Hp as [Hne Hp].
    rewrite IH by done. by apply filled_heap_other.
  - apply not_elem_of_cons in Hp as [Hne Hp]. by apply filled_heap_other.
Qed.

Lemma flat_sweep_suffix acc t h Q h' Q' trs :
  flat_sweep acc t h Q h' Q' trs → Q' `suffix_of` Q.
Proof.
  induction 1; try done. by apply suffix_cons_r.
Qed.

Lemma open_order_filled_heap h t m n o q Q :
  t ∉ Q → m ∉ Q → Forall (open_order h) Q →
  Forall (open_order (filled_heap h t m n o q)) Q.
Proof.
  intros Ht Hm. rewrite !Forall_forall. intros Hop m' Hin.
  destruct (Hop m' Hin) as (o' & Ho' & Hf'). exists o'. split; [|done].
  rewrite filled_heap_other; [done| |]; intros ->; done.
Qed.

(** The orders left in the queue are still open. *)
Lemma flat_sweep_open acc t h Q h' Q' trs :
  flat_sweep acc t h Q h' Q' trs →
  NoDup Q → t ∉ Q → Forall (open_order h) Q → Forall (open_order h') Q'.
Proof.
  induction 1 as [| | | h m Q n o q h' Q' trs Hn Ho Hf Ha Hq Hfo _ IH
                 | h m Q n o q Hn Ho Hf Ha Hq Hfo]; intros Hnd Ht Hop; try done.
  - apply NoDup_cons in Hnd as [Hm Hnd].
    apply not_elem_of_cons in Ht as [Hne Ht].
    apply Forall_cons in Hop as [_ Hop].
    apply IH; [done|done|]. by apply open_order_filled_heap.
  - apply NoDup_cons in Hnd as [Hm Hnd].
    apply not_elem_of_cons in Ht as [Hne Ht].
    apply Forall_cons in Hop as [_ Hop].
    apply Forall_cons. split.
    + exists (fill q o). split; [by apply filled_heap_maker|done].
    + by apply open_order_filled_heap.
Qed.

Lemma fill_valid n o q :
  q = Z.min (getRemainingQuantity n) (getRemainingQuantity o) →
  isFilled n = false → isFilled o = false →
  valid_order n → valid_order o →
  0 < q ∧ valid_order (fill q n) ∧ valid_order (fill q o).
Proof.
  unfold valid_order, isFilled, getRemainingQuantity.
  intros -> Hn Ho Vn Vo. rewrite !fill_filled.
  rewrite (si_quantity _ _ (fill_ident _ n)), (si_quantity _ _ (fill_ident _ o)).
  lia.
Qed.

Lemma filled_heap_valid h t m n o q :
  t ≠ m → h !! t = Some n → h !! m = Some o →
  valid_order (fill q n) → valid_order (fill q o) →
  valid_heap h → valid_heap (filled_heap h t m n o q).
Proof.
  intros Hne Hn Ho Vn Vo Vh p o' Hp.
  destruct (decide (p = m)) as [->|Hpm].
  { rewrite filled_heap_maker in Hp by done. by simplify_eq. }
  destruct (decide (p = t)) as [->|Hpt].
  { rewrite filled_heap_taker in Hp by done. by simplify_eq. }
  rewrite filled_heap_other in Hp by done. by eapply Vh.
Qed.

Lemma flat_sweep_valid acc t h Q h' Q' trs :
  flat_sweep acc t h Q h' Q' trs →
  NoDup Q → t ∉ Q → Forall (open_order h) Q →
  valid_heap h → valid_heap h'.
Proof.
  induction 1 as [| | | h m Q n o q h' Q' trs Hn Ho Hf Ha Hq Hfo _ IH
                 | h m Q n o q Hn Ho Hf Ha Hq Hfo]; intros Hnd Ht Hop Hv; try done.
  - apply NoDup_cons in Hnd as [Hm Hnd].
    apply not_elem_of_cons in Ht as [Hne Ht].
    apply Forall_cons in Hop as [(o1 & Ho1 & Hfo1) Hop]. simplify_eq.
    destruct (fill_valid n o _ eq_refl Hf Hfo1) as (_ & Vn & Vo); [by eapply Hv..|].
    apply IH; [done|done| |by apply filled_heap_valid].
    by apply open_order_filled_heap.
  - apply not_elem_of_cons in Ht as [Hne Ht].
    apply Forall_cons in Hop as [(o1 & Ho1 & Hfo1) Hop]. simplify_eq.
    destruct (fill_valid n o _ eq_refl Hf Hfo1) as (_ & Vn & Vo); [by eapply Hv..|].
    by apply filled_heap_valid.
Qed.

(** ** The quantities of a sweep *)

Lemma sweep_fills_filled acc n recs :
  isFilled n = true → sweep_fills acc n recs = [].
Proof. intros Hf. destruct recs; [done|]. cbn. by rewrite Hf. Qed.

Lemma trade_of_ident n n' o q : same_ident n n' → trade_of n' o q = trade_of n o q.
Proof. intros [Hi _ _ Hs _ _ _]. unfold trade_of. by rewrite Hs, Hi. Qed.

Lemma zip_with_trade_of_ident n n' recs qs :
  same_ident n n' →
  zip_with (trade_of n') recs qs = zip_with (trade_of n) recs qs.
Proof.
  intros Hi. revert qs. induction recs as [|o recs IH]; intros [|q qs]; try done.
  cbn. by rewrite IH, (trade_of_ident n n').
Qed.

Lemma records_filled_heap h t m n o q Q recs :
  t ∉ Q → m ∉ Q → records h Q recs → records (filled_heap h t m n o q) Q recs.
Proof.
  intros Ht Hm HR. induction HR as [|m' o' Q recs Ho' HR IH]; [constructor|].
  apply not_elem_of_cons in Ht as [Ht1 Ht2].
  apply not_elem_of_cons in Hm as [Hm1 Hm2].
  constructor; [|by apply IH].
  by rewrite filled_heap_other.
Qed.

Lemma flat_sweep_fills acc t h Q h' Q' trs n recs :
  flat_sweep acc t h Q h' Q' trs →
  NoDup Q → t ∉ Q → h !! t = Some n → records h Q recs →
  let qs := sweep_fills acc n recs in
  trs = zip_with (trade_of n) recs qs ∧
  h' !! t = Some (foldl (λ n q, fill q n) n qs) ∧
  (∀ i m o q, Q !! i = Some m → recs !! i = Some o → qs !! i = Some q →
     h' !! m = Some (fill q o)).
Proof.
  intros Hs. revert n recs.
  induction Hs as [h Q n0 Hn0 Hf | h n0 Hn0 | h m Q n0 o Hn0 Ho Hf Ha
                  | h m Q n0 o q h' Q' trs Hn0 Ho Hf Ha Hq Hfo Hs IH
                  | h m Q n0 o q Hn0 Ho Hf Ha Hq Hfo];
    intros n recs Hnd Ht Hn HR; assert (n0 = n) as -> by congruence;
    clear Hn0; cbn zeta.
  - rewrite sweep_fills_filled by done.
    split; [by destruct recs|]. split; [done|]. intros i m o q _ _ Hq. done.
  - inversion HR; subst. cbn. split; [done|]. split; [done|]. by intros [] ????.
  - inversion HR as [|? o' ? recs' Ho' HR']; subst. simplify_eq.
    cbn. rewrite Hf, Ha. cbn.
    split; [done|]. split; [done|]. intros i m' o' q _ _ Hq. done.
  - inversion HR as [|? o' ? recs' Ho' HR']; subst. simplify_eq.
    apply NoDup_cons in Hnd as [Hm Hnd].
    apply not_elem_of_cons in Ht as [Hne Ht].
    cbn [sweep_fills]. rewrite Hf, Ha. cbn [orb negb].
    set (q := Z.min (getRemainingQuantity n) (getRemainingQuantity o)) in *.
    destruct (IH (fill q n) recs') as (IH1 & IH2 & IH3); [done|done| | |].
    { by apply filled_heap_taker. }
    { by apply records_filled_heap. }
    split; [|split].
    + cbn. f_equal. rewrite IH1. apply zip_with_trade_of_ident, fill_ident.
    + by rewrite IH2.
    + intros [|i] m' o' q'; cbn; intros ???; simplify_eq.
      * rewrite (flat_sweep_frame _ _ _ _ _ _ _ m' Hs); [|done|done].
        by apply filled_heap_maker.
      * by eapply IH3.
  - inversion HR as [|? o' ? recs' Ho' HR']; subst. simplify_eq.
    apply not_elem_of_cons in Ht as [Hne Ht].
    cbn [sweep_fills]. rewrite Hf, Ha. cbn [orb negb].
    set (q := Z.min (getRemainingQuantity n) (getRemainingQuantity o)) in *.
    rewrite sweep_fills_filled by by eapply fill_taker_filled.
    split; [|split].
    + cbn. by destruct recs'.
    + cbn. by apply filled_heap_taker.
    + intros [|i] m' o' q'; cbn; intros ???; simplify_eq.
      by apply filled_heap_maker.
Qed.

Lemma sweep_fills_length acc n recs :
  (length (sweep_fills acc n recs) ≤ length recs)%nat.
Proof.
  revert n. induction recs as [|o recs IH]; intros n; cbn; [done|].
  destruct (isFilled n || negb (acc (price o))); cbn; [lia|].
  specialize (IH (fill (Z.min (getRemainingQuantity n) (getRemainingQuantity o)) n)).
  lia.
Qed.

Lemma getRemainingQuantity_fill q n :
  getRemainingQuantity (fill q n) = getRemainingQuantity n - q.
Proof.
  unfold getRemainingQuantity. rewrite fill_filled.
  rewrite (si_quantity _ _ (fill_ident q n)). lia.
Qed.

(** The [i]-th quantity is the minimum of what the taker still wants and
    what the [i]-th maker still offers; the maker's price is acceptable. *)
Lemma sweep_fills_lookup acc n recs i q o :
  sweep_fills acc n recs !! i = Some q → recs !! i = Some o →
  q = Z.min (getRemainingQuantity n - sum_Z (take i (sweep_fills acc n recs)))
            (getRemainingQuantity o)
  ∧ acc (price o) = true
  ∧ 0 < getRemainingQuantity n - sum_Z (take i (sweep_fills acc n recs)).
Proof.
  revert n i. induction recs as [|o' recs IH]; intros n i; [done|].
  cbn [sweep_fills].
  destruct (isFilled n) eqn:Hf; [done|].
  destruct (acc (price o')) eqn:Ha; [|done]. cbn [orb negb].
  destruct i as [|i]; cbn [lookup list_lookup take sum_Z foldr].
  - intros ??; simplify_eq. split; [lia|]. split; [done|].
    unfold isFilled, getRemainingQuantity in *. lia.
  - intros Hq Ho. destruct (IH _ _ Hq Ho) as (Hq' & Ha' & Hpos).
    rewrite getRemainingQuantity_fill in *. unfold sum_Z in *.
    split; [lia|]. split; [done|]. lia.
Qed.

(** ** Facts about the sorted map *)

Section StdMapFacts.
Context {V : Type}.
Variable lt : Z → Z → bool.
Hypothesis lt_irrefl : ∀ a, lt a a = false.
Hypothesis lt_trans : ∀ a b c, lt a b = true → lt b c = true → lt a c = true.
Hypothesis lt_total : ∀ a b, lt a b = false → lt b a = false → a = b.

Lemma lt_asym a b : lt a b = true → lt b a = false.
Proof.
  intros H. destruct (lt b a) eqn:H'; [|done].
  by rewrite <- (lt_irrefl a), (lt_trans a b a).
Qed.

Lemma smap_sorted_cons k v (m : list (Z * V)) :
  smap_sorted lt ((k, v) :: m) ↔
  smap_sorted lt m ∧ ∀ k' v', (k', v') ∈ m → lt k k' = true.
Proof.
  unfold smap_sorted. split.
  - intros H. apply StronglySorted_inv in H as [H1 H2]. split; [done|].
    intros k' v' Hin. rewrite Forall_forall in H2. by apply (H2 (k', v')).
  - intros [H1 H2]. constructor; [done|]. apply Forall_forall.
    intros [k' v'] Hin. by eapply H2.
Qed.

Lemma smap_sorted_nil : smap_sorted lt ([] : list (Z * V)).
Proof. constructor. Qed.

Lemma smap_upd_elem k f d (m : list (Z * V)) k' v' :
  (k', v') ∈ smap_upd lt k f d m →
  (k', v') ∈ m ∨ (k' = k ∧ ∃ v, v' = f v ∧ (v = d ∨ (k, v) ∈ m)).
Proof.
  induction m as [|[k1 v1] m IH]; cbn.
  { intros [= -> ->]%list_elem_of_singleton. right. split; [done|].
    exists d. by split; [|left]. }
  destruct (lt k k1) eqn:H1.
  { intros [?|?]%elem_of_cons; simplify_eq; [|by left].
    right. split; [done|]. exists d. by split; [|left]. }
  destruct (lt k1 k) eqn:H2.
  { intros [?|Hin]%elem_of_cons; simplify_eq; [left; by left|].
    destruct (IH Hin) as [?|(-> & v & -> & [->|?])].
    - left. by right.
    - right. split; [done|]. exists d. by split; [|left].
    - right. split; [done|]. exists v. split; [done|]. right. by right. }
  assert (k = k1) as -> by by apply lt_total.
  intros [?|?]%elem_of_cons; simplify_eq; [|left; by right].
  right. split; [done|]. exists v1. split; [done|]. right. by left.
Qed.

Lemma smap_upd_sorted k f d (m : list (Z * V)) :
  smap_sorted lt m → smap_sorted lt (smap_upd lt k f d m).
Proof.
  induction m as [|[k1 v1] m IH]; cbn; intros Hs.
  { apply smap_sorted_cons. split; [apply smap_sorted_nil|].
    by intros ?? ?%elem_of_nil. }
  apply smap_sorted_cons in Hs as [Hs Hk].
  destruct (lt k k1) eqn:H1.
  { apply smap_sorted_cons. split.
    - apply smap_sorted_cons. by split.
    - intros k' v' [?|Hin]%elem_of_cons; simplify_eq; [done|].
      eapply lt_trans; [done|]. by eapply Hk. }
  destruct (lt k1 k) eqn:H2.
  { apply smap_sorted_cons. split; [by apply IH|].
    intros k' v' [Hin|(-> & _)]%smap_upd_elem; [by eapply Hk|done]. }
  apply smap_sorted_cons. by split.
Qed.

Lemma smap_erase_elem k (m : list (Z * V)) k' v' :
  (k', v') ∈ smap_erase lt k m → (k', v') ∈ m.
Proof.
  induction m as [|[k1 v1] m IH]; cbn; [done|].
  destruct (lt k k1); [done|].
  destruct (lt k1 k).
  - intros [?|?]%elem_of_cons; simplify_eq; [by left|]. right. by apply IH.
  - intros ?. by right.
Qed.

Lemma smap_erase_sorted k (m : list (Z * V)) :
  smap_sorted lt m → smap_sorted lt (smap_erase lt k m).
Proof.
  induction m as [|[k1 v1] m IH]; cbn; intros Hs; [done|].
  destruct (lt k k1); [done|].
  apply smap_sorted_cons in Hs as [Hs Hk].
  destruct (lt k1 k); [|done].
  apply smap_sorted_cons. split; [by apply IH|].
  intros k' v' Hin%smap_erase_elem. by eapply Hk.
Qed.

Lemma smap_find_elem_1 k (m : list (Z * V)) v : smap_find lt k m = Some v → (k, v) ∈ m.
Proof.
  induction m as [|[k1 v1] m IH]; cbn; [done|].
  destruct (lt k k1) eqn:H1; [done|].
  destruct (lt k1 k) eqn:H2.
  - intros ?. right. by apply IH.
  - intros ?; simplify_eq. assert (k = k1) as -> by by apply lt_total. by left.
Qed.

Lemma smap_find_elem_2 k (m : list (Z * V)) v :
  smap_sorted lt m → (k, v) ∈ m → smap_find lt k m = Some v.
Proof.
  induction m as [|[k1 v1] m IH]; cbn; intros Hs Hin.
  { by apply elem_of_nil in Hin. }
  apply smap_sorted_cons in Hs as [Hs Hk].
  apply elem_of_cons in Hin as [?|Hin]; simplify_eq.
  { by rewrite lt_irrefl. }
  rewrite (lt_asym k1 k) by by eapply Hk.
  rewrite (Hk k v) by done. by apply IH.
Qed.

Lemma smap_find_upd_eq k f d (m : list (Z * V)) :
  smap_find lt k (smap_upd lt k f d m)
  = Some (f (default d (smap_find lt k m))).
Proof.
  induction m as [|[k1 v1] m IH]; cbn.
  { by rewrite lt_irrefl. }
  destruct (lt k k1) eqn:H1; cbn.
  { by rewrite lt_irrefl. }
  destruct (lt k1 k) eqn:H2; cbn; by rewrite H1, H2.
Qed.

Lemma smap_find_upd_ne k k' f d (m : list (Z * V)) :
  k ≠ k' → smap_find lt k' (smap_upd lt k f d m) = smap_find lt k' m.
Proof.
  intros Hne. induction m as [|[k1 v1] m IH]; cbn.
  { destruct (lt k' k) eqn:H1; [done|].
    destruct (lt k k') eqn:H2; [done|].
    destruct Hne. by apply lt_total. }
  destruct (lt k k1) eqn:H1; cbn.
  { destruct (lt k' k) eqn:H3.
    - by rewrite (lt_trans k' k k1).
    - destruct (lt k k') eqn:H4; [done|]. destruct Hne. by apply lt_total. }
  destruct (lt k1 k) eqn:H2; cbn.
  { by rewrite IH. }
  assert (k = k1) as <- by by apply lt_total.
  destruct (lt k' k) eqn:H3; [done|].
  destruct (lt k k') eqn:H4; [done|]. destruct Hne. by apply lt_total.
Qed.

Lemma smap_find_None_lt k k1 v1 (m : list (Z * V)) :
  smap_sorted lt ((k1, v1) :: m) → lt k k1 = true → smap_find lt k m = None.
Proof.
  intros [Hs Hk]%smap_sorted_cons Hlt.
  destruct m as [|[k2 v2] m]; cbn; [done|].
  rewrite (lt_trans k k1 k2); [done|done|]. apply (Hk k2 v2). by left.
Qed.

Lemma smap_find_erase_eq k (m : list (Z * V)) :
  smap_sorted lt m → smap_find lt k (smap_erase lt k m) = None.
Proof.
  induction m as [|[k1 v1] m IH]; cbn; intros Hs; [done|].
  destruct (lt k k1) eqn:H1; cbn.
  { by rewrite H1. }
  pose proof Hs as [Hs' Hk]%smap_sorted_cons.
  destruct (lt k1 k) eqn:H2; cbn.
  { rewrite H1, H2. by apply IH. }
  assert (k = k1) as <- by by apply lt_total.
  destruct m as [|[k2 v2] m]; cbn; [done|].
  by rewrite (Hk k2 v2) by by left.
Qed.

Lemma smap_find_erase_ne k k' (m : list (Z * V)) :
  smap_sorted lt m → k ≠ k' →
  smap_find lt k' (smap_erase lt k m) = smap_find lt k' m.
Proof.
  intros Hs Hne. induction m as [|[k1 v1] m IH]; cbn; [done|].
  destruct (lt k k1) eqn:H1; cbn; [done|].
  pose proof Hs as [Hs' Hk]%smap_sorted_cons.
  destruct (lt k1 k) eqn:H2; cbn.
  { by rewrite IH. }
  assert (k = k1) as <- by by apply lt_total.
  destruct (lt k' k) eqn:H3.
  { by eapply smap_find_None_lt. }
  destruct (lt k k') eqn:H4; [done|]. destruct Hne. by apply lt_total.
Qed.
End StdMapFacts.

Lemma side_lt_irrefl sd a : side_lt sd a a = false.
Proof. destruct sd; unfold side_lt, bid_lt, ask_lt; lia. Qed.

Lemma side_lt_trans sd a b c :
  side_lt sd a b = true → side_lt sd b c = true → side_lt sd a c = true.
Proof. destruct sd; unfold side_lt, bid_lt, ask_lt; lia. Qed.

Lemma side_lt_total sd a b :
  side_lt sd a b = false → side_lt sd b a = false → a = b.
Proof. destruct sd; unfold side_lt, bid_lt, ask_lt; lia. Qed.

Ltac side_lt :=
  first [exact (side_lt_irrefl _) | exact (side_lt_trans _)
        | exact (side_lt_total _) | done].

(** ** Ladders *)

Lemma elem_of_queue (l : Ladder) m :
  m ∈ queue l ↔ ∃ px os, (px, os) ∈ l ∧ m ∈ os.
Proof.
  induction l as [|[px os] l IH].
  { split; [by intros ?%elem_of_nil|]. by intros (?&?&?%elem_of_nil&_). }
  rewrite queue_cons, elem_of_app, IH. split.
  - intros [?|(px'&os'&?&?)].
    + exists px, os. split; [by left|done].
    + exists px', os'. split; [by right|done].
  - intros (px'&os'&[?|?]%elem_of_cons&?); simplify_eq; [by left|].
    right. eauto.
Qed.

Lemma ladder_inv_queue h pair sd l m :
  ladder_inv h pair sd l → m ∈ queue l →
  ∃ o, h !! m = Some o ∧ tradingPair o = pair ∧ side o = sd ∧ isFilled o = false.
Proof.
  intros Hl (px & os & Hin & Hm)%elem_of_queue.
  destruct (li_resting _ _ _ _ Hl px os m Hin Hm) as (o & ? & ? & ? & ? & ?).
  eauto.
Qed.

Lemma ladder_inv_open h pair sd l :
  ladder_inv h pair sd l → Forall (open_order h) (queue l).
Proof.
  intros Hl. apply Forall_forall. intros m Hm.
  destruct (ladder_inv_queue _ _ _ _ _ Hl Hm) as (o & ? & ? & ? & ?).
  by exists o.
Qed.

(** The invariant of a ladder only looks at the records of its orders. *)
Lemma ladder_inv_heap h h' pair sd l :
  ladder_inv h pair sd l →
  (∀ m, m ∈ queue l → h' !! m = h !! m) →
  ladder_inv h' pair sd l.
Proof.
  intros [H1 H2 H3 H4] Hh. split; try done.
  intros px os m Hin Hm. rewrite Hh; [by eapply H4|].
  apply elem_of_queue. eauto.
Qed.

Lemma ladder_inv_sweep_pre h pair sd l t :
  ladder_inv h pair sd l → t ∉ queue l → sweep_pre h t l.
Proof.
  intros [H1 H2 H3 H4] Ht. split; try done.
  intros px os m Hin Hm.
  destruct (H4 px os m Hin Hm) as (o & ? & ? & ? & ? & ?). eauto.
Qed.

(** *** The ladder left by a sweep *)

Lemma ladder_tail_elem L L' px os' :
  ladder_tail L L' → (px, os') ∈ L' →
  ∃ os, (px, os) ∈ L ∧ os' `suffix_of` os.
Proof.
  induction 1 as [L | px1 os1 L L' _ IH | px1 os1 os1' L Hsuf Hne]; intros Hin.
  - by exists os'.
  - destruct (IH Hin) as (os & ? & ?). exists os. split; [by right|done].
  - apply elem_of_cons in Hin as [?|?]; simplify_eq.
    + exists os1. split; [by left|done].
    + exists os'. split; [by right|done].
Qed.

Lemma ladder_tail_queue L L' :
  ladder_tail L L' → queue L' `suffix_of` queue L.
Proof.
  induction 1 as [L | px1 os1 L L' _ IH | px1 os1 os1' L Hsuf Hne].
  - done.
  - rewrite queue_cons. by apply suffix_app_r.
  - rewrite !queue_cons. by apply suffix_app.
Qed.

Lemma ladder_tail_sorted sd L L' :
  ladder_tail L L' → smap_sorted (side_lt sd) L → smap_sorted (side_lt sd) L'.
Proof.
  induction 1 as [L | px1 os1 L L' _ IH | px1 os1 os1' L Hsuf Hne]; intros Hs.
  - done.
  - apply smap_sorted_cons in Hs as [Hs _]. by apply IH.
  - apply smap_sorted_cons in Hs as [Hs Hk]. by apply smap_sorted_cons.
Qed.

Lemma ladder_tail_nonempty L L' :
  ladder_tail L L' →
  (∀ px os, (px, os) ∈ L → os ≠ []) → ∀ px os, (px, os) ∈ L' → os ≠ [].
Proof.
  induction 1 as [L | px1 os1 L L' _ IH | px1 os1 os1' L Hsuf Hne];
    intros HL px os Hin.
  - by eapply HL.
  - eapply IH; [|done]. intros px' os' ?. eapply HL. by right.
  - apply elem_of_cons in Hin as [?|?]; simplify_eq; [done|].
    eapply HL. by right.
Qed.

Lemma suffix_NoDup {A} (l1 l2 : list A) :
  l1 `suffix_of` l2 → NoDup l2 → NoDup l1.
Proof. intros [k ->] Hnd. by apply NoDup_app in Hnd as (_ & _ & ?). Qed.

Lemma ladder_inv_sweep h h' pair sd L L' :
  ladder_inv h pair sd L → ladder_tail L L' → heap_ident h h' →
  Forall (open_order h') (queue L') →
  ladder_inv h' pair sd L'.
Proof.
  intros [H1 H2 H3 H4] Ht [_ Hid] Hop. split.
  - by eapply ladder_tail_sorted.
  - by eapply ladder_tail_nonempty.
  - eapply suffix_NoDup; [by apply ladder_tail_queue|done].
  - intros px os' m Hin Hm.
    destruct (ladder_tail_elem _ _ _ _ Ht Hin) as (os & Hin' & Hsuf).
    destruct (H4 px os m Hin') as (o & Ho & Hp & Hs & Hpx & _).
    { eapply elem_of_suffix; done. }
    destruct (Hid m o Ho) as (o' & Ho' & I).
    rewrite Forall_forall in Hop.
    destruct (Hop m) as (o'' & Ho'' & Hf). { apply elem_of_queue. eauto. }
    simplify_eq. exists o'. destruct I. repeat split; congruence.
Qed.

(** *** Appending an order to its level *)

Lemma queue_push lt px t (L : Ladder) :
  queue (smap_upd lt px (λ l, l ++ [t]) [] L) ≡ₚ t :: queue L.
Proof.
  induction L as [|[px1 os1] L IH]; cbn [smap_upd]; [done|].
  destruct (lt px px1); [done|].
  destruct (lt px1 px).
  - rewrite !queue_cons, IH. by rewrite Permutation_middle.
  - rewrite !queue_cons. rewrite <- app_assoc. cbn.
    by rewrite Permutation_middle.
Qed.

Lemma ladder_inv_push h pair sd l t o :
  ladder_inv h pair sd l → t ∉ queue l →
  h !! t = Some o → tradingPair o = pair → side o = sd → isFilled o = false →
  ladder_inv h pair sd (smap_upd (side_lt sd) (price o) (λ l, l ++ [t]) [] l).
Proof.
  intros [H1 H2 H3 H4] Ht Ho Hp Hs Hf. split.
  - apply smap_upd_sorted; side_lt.
  - intros px os [Hin|(-> & v & -> & _)]%smap_upd_elem; [by eapply H2| |side_lt].
    by destruct v.
  - rewrite queue_push. by apply NoDup_cons.
  - intros px os m [Hin|(-> & v & -> & Hv)]%smap_upd_elem Hm;
      [by eapply H4| |side_lt].
    apply elem_of_app in Hm as [Hm|Hm%list_elem_of_singleton].
    + destruct Hv as [->|Hin]; [by apply elem_of_nil in Hm|]. by eapply H4.
    + subst m. eauto 10.
Qed.

Lemma ladder_set_orders sd d b : ladder sd (set_orders d b) = ladder sd b.
Proof. by destruct sd. Qed.

Lemma ladder_set_ladder sd l b : ladder sd (set_ladder sd l b) = l.
Proof. by destruct sd. Qed.

Lemma ladder_set_ladder_ne sd sd' l b :
  sd ≠ sd' → ladder sd (set_ladder sd' l b) = ladder sd b.
Proof. by destruct sd, sd'. Qed.

Lemma opposite_ne sd : sd ≠ opposite sd.
Proof. by destruct sd. Qed.

Lemma sweep_pre_valid h t L m :
  sweep_pre h t L → m ∈ queue L → is_Some (h !! m).
Proof.
  intros Hpre (px & os & Hin & Hm)%elem_of_queue.
  destruct (sp_price _ _ _ Hpre px os m Hin Hm) as (o & ? & ?). by exists o.
Qed.

Lemma addOrder_sweep fuel h b t n h' b' r :
  h !! t = Some n → tradingPair n = tradingPair_ b →
  sweep_pre h t (ladder (opposite (side n)) b) →
  addOrder fuel h b t = Some (h', b', r) →
  ∃ trades L' n',
    r = Return trades ∧ h' !! t = Some n' ∧ same_ident n n' ∧
    book_sweep (bool_decide (type n = LIMIT)) t h
      (ladder (opposite (side n)) b) h' L' trades ∧
    b' = book_after b t n' L'.
Proof.
  intros Hn Hp Hpre Ha. unfold addOrder in Ha.
  rewrite Hn in Ha. cbn [mbind option_bind] in Ha.
  rewrite bool_decide_eq_true_2 in Ha by done. cbn [negb] in Ha.
  unfold matchOrder in Ha. rewrite Hn in Ha. cbn [mbind option_bind] in Ha.
  rewrite ladder_set_orders in Ha.
  destruct (match_book _ _ _ _ _ _) as [[[h1 L'] trades]|] eqn:Hm; [|done].
  cbn [mbind option_bind] in Ha.
  apply match_book_sweep in Hm as (nt & -> & Hs).
  2: { apply Hpre. }
  2: { intros m. by eapply sweep_pre_valid. }
  destruct (book_sweep_ident _ _ _ _ _ _ _ Hs (sp_fresh _ _ _ Hpre)) as [_ Hid].
  destruct (Hid t n Hn) as (n' & Hn' & I).
  rewrite Hn' in Ha. cbn [mbind option_bind] in Ha. simplify_eq.
  exists nt, L', n'. repeat split; try done; try apply I.
  unfold book_after.
  rewrite (si_id _ _ I), (si_side _ _ I). cbn [app].
  by destruct (isFilled n').
Qed.

Lemma addOrder_total fuel h b t n :
  h !! t = Some n → tradingPair n = tradingPair_ b →
  sweep_pre h t (ladder (opposite (side n)) b) →
  (length (ladder (opposite (side n)) b)
   + length (queue (ladder (opposite (side n)) b)) + 1 < fuel)%nat →
  is_Some (addOrder fuel h b t).
Proof.
  intros Hn Hp Hpre Hfuel. unfold addOrder.
  rewrite Hn. cbn [mbind option_bind].
  rewrite bool_decide_eq_true_2 by done. cbn [negb].
  unfold matchOrder. rewrite Hn. cbn [mbind option_bind].
  rewrite ladder_set_orders.
  destruct (match_book_total fuel (bool_decide (type n = LIMIT)) h t
              (ladder (opposite (side n)) b) [])
    as [[[h1 L'] trades] Hm]; [apply Hpre| |by eexists|done|].
  { intros m. by eapply sweep_pre_valid. }
  rewrite Hm. cbn [mbind option_bind].
  apply match_book_sweep in Hm as (nt & -> & Hs).
  2: { apply Hpre. }
  2: { intros m. by eapply sweep_pre_valid. }
  destruct (book_sweep_ident _ _ _ _ _ _ _ Hs (sp_fresh _ _ _ Hpre)) as [_ Hid].
  destruct (Hid t n Hn) as (n' & Hn' & I).
  rewrite Hn'. by eexists.
Qed.

(** ** submitOrder *)

Lemma ladder_inv_alloc h pair sd l o :
  ladder_inv h pair sd l →
  ladder_inv (h ++ [o]) pair sd l ∧ length h ∉ queue l.
Proof.
  intros Hl.
  assert (∀ m, m ∈ queue l → (m < length h)%nat) as Hlt.
  { intros m Hm. destruct (ladder_inv_queue _ _ _ _ _ Hl Hm) as (o' & Ho' & _).
    by eapply lookup_lt_Some. }
  split.
  - eapply ladder_inv_heap; [done|]. intros m Hm.
    apply lookup_app_l. by apply Hlt.
  - intros Hm. apply Hlt in Hm. lia.
Qed.

(** What an accepted submission does: it allocates the record [n] at the
    pointer [t], sweeps the queue of the opposite side, and leaves the
    book [book_after]. *)
Lemma submitOrder_spec fuel h e user pair sd ty px qty h' e' trades :
  engine_inv h e →
  submitOrder fuel h e user pair sd ty px qty = Some (h', e', Return trades) →
  let t := length h in
  let n := Order_new (generateOrderId e).1 user pair sd ty px qty in
  ∃ b L' n',
    orderBooks_ e !! pair = Some b ∧
    0 < qty ∧ (ty = LIMIT → 0 < px) ∧
    flat_sweep (limit_acc n) t (h ++ [n]) (queue (ladder (opposite sd) b))
      h' (queue L') trades ∧
    ladder_tail (ladder (opposite sd) b) L' ∧
    h' !! t = Some n' ∧ same_ident n n' ∧
    e' = mkEngine (<[pair := book_after b t n' L']> (orderBooks_ e))
           (generateOrderId e).1.
Proof.
  intros Hinv Hsub t n. unfold submitOrder in Hsub.
  destruct (qty <=? 0) eqn:Hq; [done|].
  destruct (bool_decide (ty = LIMIT) && (px <=? 0)) eqn:Hpx; [done|].
  unfold getOrderBook in Hsub.
  destruct (orderBooks_ e !! pair) as [b|] eqn:Hb; [|done].
  unfold generateOrderId, make_shared in Hsub, n |- *. cbn [fst] in n |- *.
  fold n in Hsub. fold t in Hsub.
  destruct (addOrder fuel (h ++ [n]) b t) as [[[h1 b1] r]|] eqn:Ha; [|done].
  cbn [mbind option_bind] in Hsub. simplify_eq.
  pose proof (ei_books _ _ Hinv pair b Hb) as Hbook.
  destruct (ladder_inv_alloc _ _ _ _ n (bi_ladder _ _ _ Hbook (opposite sd)))
    as [Hl1 Hfresh].
  assert (Hn : (h ++ [n]) !! t = Some n) by by apply list_lookup_middle.
  apply (addOrder_sweep _ _ _ _ n) in Ha
    as (trades' & L' & n' & ? & Hn' & I & Hs & ->); simplify_eq.
  - exists b, L', n'. split; [done|]. split; [lia|]. split.
    { intros ->. rewrite bool_decide_eq_true_2 in Hpx by done. cbn in Hpx. lia. }
    split.
    { eapply book_sweep_flat; [exact Hs|by apply (ladder_inv_sweep_pre _ pair (opposite sd))|].
      intros n1 px' Hn1. by simplify_eq. }
    split; [by eapply book_sweep_tail|]. done.
  - done.
  - cbn. by rewrite (bi_pair _ _ _ Hbook).
  - by apply (ladder_inv_sweep_pre _ pair (opposite sd)).
Qed.

Lemma book_after_pair b t n' L' : tradingPair_ (book_after b t n' L') = tradingPair_ b.
Proof. unfold book_after. destruct (isFilled n'), (side n'); done. Qed.

Lemma book_after_orders b t n' L' :
  orders_ (book_after b t n' L') = <[id n' := t]> (orders_ b).
Proof. unfold book_after. destruct (isFilled n'), (side n'); done. Qed.

Lemma book_after_opposite b t n' L' :
  ladder (opposite (side n')) (book_after b t n' L') = L'.
Proof. unfold book_after. destruct (isFilled n'), (side n'); done. Qed.

Lemma book_after_own b t n' L' :
  ladder (side n') (book_after b t n' L') =
  if isFilled n' then ladder (side n') b
  else smap_upd (side_lt (side n')) (price n') (λ l, l ++ [t]) []
         (ladder (side n') b).
Proof. unfold book_after. destruct (isFilled n'), (side n'); done. Qed.

Lemma heap_ident_alloc h o h' :
  heap_ident (h ++ [o]) h' →
  ∀ p o1, h !! p = Some o1 → ∃ o', h' !! p = Some o' ∧ same_ident o1 o'.
Proof.
  intros [_ Hid] p o1 Hp. apply Hid. by apply lookup_app_l_Some.
Qed.

Lemma engine_inv_submit fuel h e user pair sd ty px qty h' e' trades :
  engine_inv h e →
  submitOrder fuel h e user pair sd ty px qty = Some (h', e', Return trades) →
  engine_inv h' e'.
Proof.
  intros Hinv Hsub.
  destruct (submitOrder_spec _ _ _ _ _ _ _ _ _ _ _ _ Hinv Hsub)
    as (b & L' & n' & Hb & Hq & Hpx & Hs & Htail & Hn' & I & ->).
  set (t := length h) in *.
  set (n := Order_new (generateOrderId e).1 user pair sd ty px qty) in *.
  pose proof (ei_books _ _ Hinv pair b Hb) as Hbook.
  destruct (ladder_inv_alloc _ _ _ _ n (bi_ladder _ _ _ Hbook (opposite sd)))
    as [Hl1 Hfresh].
  pose proof (flat_sweep_ident _ _ _ _ _ _ _ Hs Hfresh) as Hid.
  assert (Hside : side n' = sd) by apply (si_side _ _ I).
  assert (Hframe : ∀ m o, h !! m = Some o →
            m ∉ queue (ladder (opposite sd) b) → h' !! m = Some o).
  { intros m o Hm Hnin.
    rewrite (flat_sweep_frame _ _ _ _ _ _ _ m Hs); [by apply lookup_app_l_Some| |done].
    apply lookup_lt_Some in Hm. unfold t. lia. }
  assert (Hopen : Forall (open_order h') (queue L')).
  { eapply flat_sweep_open; [exact Hs|apply Hl1|done|by eapply ladder_inv_open]. }
  split; cbn.
  - eapply flat_sweep_valid; [exact Hs|apply Hl1|done|by eapply ladder_inv_open|].
    intros p o Ho. apply lookup_app_Some in Ho as [Ho|[Hge Ho]].
    + by apply (ei_valid _ _ Hinv p).
    + apply list_lookup_singleton_Some in Ho as [Hp0 <-].
      unfold valid_order. cbn. lia.
  - intros pair' b' Hb'.
    destruct (decide (pair = pair')) as [<-|Hne].
    + rewrite lookup_insert_eq in Hb'. simplify_eq. split.
      * rewrite book_after_pair. apply (bi_pair _ _ _ Hbook).
      * intros sd'. destruct (decide (sd' = side n')) as [->|Hsd].
        -- rewrite book_after_own.
           assert (ladder_inv h' pair (side n') (ladder (side n') b)) as Hown.
           { eapply ladder_inv_heap; [apply (bi_ladder _ _ _ Hbook)|].
             intros m Hm.
             destruct (ladder_inv_queue _ _ _ _ _ (bi_ladder _ _ _ Hbook _) Hm)
               as (o & Ho & _ & Hso & _).
             rewrite Ho. apply Hframe; [done|]. intros Hm'.
             destruct (ladder_inv_queue _ _ _ _ _ (bi_ladder _ _ _ Hbook _) Hm')
               as (o2 & Ho2 & _ & Hso2 & _).
             simplify_eq. rewrite Hso2 in Hso. by destruct (side n'). }
           destruct (isFilled n') eqn:Hf; [done|].
           apply ladder_inv_push; try done.
           ++ intros Hm.
              destruct (ladder_inv_queue _ _ _ _ _ (bi_ladder _ _ _ Hbook _) Hm)
                as (o & Ho & _). apply lookup_lt_Some in Ho. unfold t in Ho. lia.
           ++ by rewrite (si_pair _ _ I).
        -- assert (sd' = opposite (side n')) as -> by by destruct sd', (side n').
           rewrite book_after_opposite.
           by eapply ladder_inv_sweep.
      * intros i p. rewrite book_after_orders.
        intros [[<- <-]|[Hi Hp]]%lookup_insert_Some; [by eauto|].
        destruct (bi_orders _ _ _ Hbook i p Hp) as (o & Ho & Hio).
        destruct (heap_ident_alloc _ _ _ Hid p o Ho) as (o' & Ho' & Io).
        exists o'. split; [done|]. by rewrite (si_id _ _ Io).
    + rewrite lookup_insert_ne in Hb' by done.
      pose proof (ei_books _ _ Hinv pair' b' Hb') as Hbook'. split.
      * apply (bi_pair _ _ _ Hbook').
      * intros sd'. eapply ladder_inv_heap; [apply (bi_ladder _ _ _ Hbook')|].
        intros m Hm.
        destruct (ladder_inv_queue _ _ _ _ _ (bi_ladder _ _ _ Hbook' _) Hm)
          as (o & Ho & Hpo & _).
        rewrite Ho. apply Hframe; [done|]. intros Hm'.
        destruct (ladder_inv_queue _ _ _ _ _ (bi_ladder _ _ _ Hbook _) Hm')
          as (o2 & Ho2 & Hpo2 & _).
        simplify_eq.
      * intros i p Hp.
        destruct (bi_orders _ _ _ Hbook' i p Hp) as (o & Ho & Hio).
        destruct (heap_ident_alloc _ _ _ Hid p o Ho) as (o' & Ho' & Io).
        exists o'. split; [done|]. by rewrite (si_id _ _ Io).
Qed.

(** ** cancelOrder *)

Lemma queue_erase_sublist lt px (L : Ladder) :
  queue (smap_erase lt px L) `sublist_of` queue L.
Proof.
  induction L as [|[px1 os1] L IH]; cbn [smap_erase]; [done|].
  destruct (lt px px1); [done|].
  destruct (lt px1 px).
  - rewrite !queue_cons. by apply sublist_app.
  - rewrite queue_cons. by apply sublist_inserts_l.
Qed.

Lemma queue_upd_sublist lt px os os' (L : Ladder) :
  smap_find lt px L = Some os → os' `sublist_of` os →
  queue (smap_upd lt px (λ _, os') [] L) `sublist_of` queue L.
Proof.
  intros Hfind Hsub.
  induction L as [|[px1 os1] L IH]; cbn [smap_find smap_upd] in *; [done|].
  destruct (lt px px1); [done|].
  destruct (lt px1 px).
  - rewrite !queue_cons. apply sublist_app; [done|]. by apply IH.
  - simplify_eq. rewrite !queue_cons. by apply sublist_app.
Qed.

Lemma remove_from_book_queue lt px p (L : Ladder) :
  queue (remove_from_book lt px p L) `sublist_of` queue L.
Proof.
  unfold remove_from_book.
  destruct (smap_find lt px L) as [os|] eqn:Hfind; [|done].
  destruct (filter _ os) as [|m os'] eqn:Hfil.
  - apply queue_erase_sublist.
  - eapply queue_upd_sublist; [done|]. rewrite <- Hfil. apply sublist_filter.
Qed.

Lemma ladder_inv_remove h pair sd l px p :
  ladder_inv h pair sd l →
  ladder_inv h pair sd (remove_from_book (side_lt sd) px p l).
Proof.
  intros Hl. pose proof Hl as [H1 H2 H3 H4].
  assert (NoDup (queue (remove_from_book (side_lt sd) px p l))) as Hnd.
  { eapply sublist_NoDup; [done|]. apply remove_from_book_queue. }
  revert Hnd. unfold remove_from_book.
  destruct (smap_find (side_lt sd) px l) as [os|] eqn:Hfind; [|done].
  apply smap_find_elem_1 in Hfind; [|side_lt].
  destruct (filter _ os) as [|m os'] eqn:Hfil; intros Hnd.
  - split; [| |done|].
    + apply smap_erase_sorted; side_lt.
    + intros px' os1 Hin%smap_erase_elem. by eapply H2.
    + intros px' os1 m' Hin%smap_erase_elem. by eapply H4.
  - split; [| |done|].
    + apply smap_upd_sorted; side_lt.
    + intros px' os1 [Hin|(-> & v & -> & _)]%smap_upd_elem;
        [by eapply H2|done|side_lt].
    + intros px' os1 m' [Hin|(-> & v & -> & _)]%smap_upd_elem Hm;
        [by eapply H4| |side_lt].
      eapply H4; [done|]. rewrite <- Hfil in Hm.
      by apply list_elem_of_filter in Hm as [_ ?].
Qed.

Lemma ladder_inv_status h pair sd l p o s :
  ladder_inv h pair sd l → h !! p = Some o →
  ladder_inv (<[p := set_status s o]> h) pair sd l.
Proof.
  intros [H1 H2 H3 H4] Hp. split; try done.
  intros px os m Hin Hm.
  destruct (H4 px os m Hin Hm) as (o' & Ho' & ?).
  destruct (decide (p = m)) as [->|Hne].
  - assert (o' = o) as -> by congruence.
    exists (set_status s o). split; [|done].
    apply list_lookup_insert_eq. by eapply lookup_lt_Some.
  - exists o'. by rewrite list_lookup_insert_ne.
Qed.

Lemma OrderBook_cancelOrder_Some h b i h' b' r :
  OrderBook_cancelOrder h b i = Some (h', b', r) →
  (orders_ b !! i = None ∧ h' = h ∧ b' = b ∧ r = false) ∨
  (∃ p o, orders_ b !! i = Some p ∧ h !! p = Some o ∧
     h' = <[p := set_status CANCELLED o]> h ∧
     b' = set_orders (delete i (orders_ b))
            (set_ladder (side o)
               (remove_from_book (side_lt (side o)) (price o) p (ladder (side o) b)) b) ∧
     r = true).
Proof.
  unfold OrderBook_cancelOrder. intros Hc.
  destruct (orders_ b !! i) as [p|] eqn:Hi; [|left; by simplify_eq].
  destruct (h !! p) as [o|] eqn:Hp; [|done]. cbn [mbind option_bind] in Hc.
  rewrite (modify_Some _ _ _ _ Hp) in Hc. cbn [mbind option_bind] in Hc.
  simplify_eq. right. by exists p, o.
Qed.

Lemma book_inv_cancel h pair b i h' b' r :
  book_inv h pair b → OrderBook_cancelOrder h b i = Some (h', b', r) →
  book_inv h' pair b'.
Proof.
  intros Hb [(_ & -> & -> & _)|(p & o & Hi & Hp & -> & -> & _)]%OrderBook_cancelOrder_Some;
    [done|].
  destruct Hb as [H1 H2 H3]. split.
  - by destruct (side o).
  - intros sd. rewrite ladder_set_orders.
    destruct (decide (sd = side o)) as [->|Hne].
    + rewrite ladder_set_ladder. apply ladder_inv_status; [|done].
      by apply ladder_inv_remove.
    + rewrite ladder_set_ladder_ne by done. by apply ladder_inv_status.
  - intros i' p'. cbn. intros [Hne Hi']%lookup_delete_Some.
    destruct (H3 i' p' Hi') as (o' & Ho' & Hid).
    destruct (decide (p = p')) as [->|Hnp].
    + assert (o' = o) as -> by congruence.
      exists (set_status CANCELLED o). split; [|done].
      apply list_lookup_insert_eq. by eapply lookup_lt_Some.
    + exists o'. by rewrite list_lookup_insert_ne.
Qed.

Lemma book_inv_status h pair b p o s :
  book_inv h pair b → h !! p = Some o →
  book_inv (<[p := set_status s o]> h) pair b.
Proof.
  intros [H1 H2 H3] Hp. split; [done| |].
  - intros sd. by apply ladder_inv_status.
  - intros i' p' Hi'.
    destruct (H3 i' p' Hi') as (o' & Ho' & Hid).
    destruct (decide (p = p')) as [->|Hnp].
    + assert (o' = o) as -> by congruence.
      exists (set_status s o). split; [|done].
      apply list_lookup_insert_eq. by eapply lookup_lt_Some.
    + exists o'. by rewrite list_lookup_insert_ne.
Qed.

Lemma cancelOrder_Some h e i pair h' e' r :
  cancelOrder h e i pair = Some (h', e', r) →
  (orderBooks_ e !! pair = None ∧ h' = h ∧ e' = e ∧ r = false) ∨
  (∃ b b', orderBooks_ e !! pair = Some b ∧
     OrderBook_cancelOrder h b i = Some (h', b', r) ∧
     e' = set_books (<[pair := b']> (orderBooks_ e)) e).
Proof.
  unfold cancelOrder, getOrderBook. intros Hc.
  destruct (orderBooks_ e !! pair) as [b|] eqn:Hb; [|left; by simplify_eq].
  destruct (OrderBook_cancelOrder h b i) as [[[h1 b1] r1]|] eqn:Hc1; [|done].
  cbn [mbind option_bind] in Hc. simplify_eq. right. by exists b, b1.
Qed.

Lemma engine_inv_cancel h e i pair h' e' r :
  engine_inv h e → cancelOrder h e i pair = Some (h', e', r) →
  engine_inv h' e'.
Proof.
  intros Hinv [(_ & -> & -> & _)|(b & b' & Hb & Hc & ->)]%cancelOrder_Some; [done|].
  pose proof (ei_books _ _ Hinv pair b Hb) as Hbook.
  pose proof (book_inv_cancel _ _ _ _ _ _ _ Hbook Hc) as Hbook'.
  apply OrderBook_cancelOrder_Some in Hc
    as [(_ & -> & -> & _)|(p & o & Hi & Hp & -> & -> & _)].
  { destruct Hinv as [H3 H4]. split; try done. cbn.
    intros pair' b' [[<- <-]|[Hne Hb']]%lookup_insert_Some; [done|by apply H4]. }
  destruct Hinv as [H3 H4]. split; cbn.
  - intros p' o' [(-> & <- & _)|[Hne Ho']]%list_lookup_insert_Some; [|by eapply H3].
    by apply (H3 p' o).
  - intros pair' b' [[<- <-]|[Hne Hb']]%lookup_insert_Some; [done|].
    apply book_inv_status; [by apply H4|done].
Qed.

(** ** addTradingPair *)

Lemma engine_inv_addTradingPair h e pair :
  engine_inv h e → engine_inv h (addTradingPair e pair).1.
Proof.
  intros Hinv. unfold addTradingPair.
  destruct (orderBooks_ e !! pair) eqn:Hp; [done|].
  destruct Hinv as [H3 H4]. split; try done. cbn.
  intros pair' b' [[<- <-]|[Hne Hb']]%lookup_insert_Some; [|by apply H4].
  split; [done| |done].
  intros sd. assert (ladder sd (OrderBook_new pair) = []) as -> by by destruct sd.
  split.
  - apply smap_sorted_nil.
  - by intros ?? ?%elem_of_nil.
  - constructor.
  - by intros ??? ?%elem_of_nil.
Qed.

(** ** Runs of the engine *)

Lemma engine_inv_new : engine_inv [] MatchingEngine_new.
Proof. split; try done. Qed.

Lemma run_from_snoc s ops o :
  run_from s (ops ++ [o]) = run_from s ops ≫= λ s', apply_op s' o.
Proof. unfold run_from. by rewrite foldl_app. Qed.

Lemma run_from_app s ops1 ops2 :
  run_from s (ops1 ++ ops2) = run_from s ops1 ≫= λ s', run_from s' ops2.
Proof.
  unfold run_from. rewrite foldl_app.
  destruct (foldl _ (Some s) ops1) as [s'|]; [done|]. cbn.
  induction ops2 as [|o ops2 IH]; [done|]. cbn. apply IH.
Qed.

Lemma reachable_run h e ops h' e' :
  reachable h e → run_from (h, e) ops = Some (h', e') → reachable h' e'.
Proof.
  intros [ops0 H0] H1. exists (ops0 ++ ops). rewrite run_from_app, H0. done.
Qed.

(** *** The arena only grows *)

Lemma modify_length h p f h' : modify h p f = Some h' → length h' = length h.
Proof.
  unfold modify. destruct (h !! p); [|done]. cbn. intros [= <-].
  by rewrite length_insert.
Qed.

Lemma status_update_length (h : Heap) p (o : Order) h' :
  (if isFilled o then modify h p (set_status FILLED)
   else if 0 <? filledQuantity o then modify h p (set_status PARTIAL)
   else Some h) = Some h' →
  length h' = length h.
Proof.
  repeat case_match; try (by intros ?%modify_length). by intros [= <-].
Qed.

Lemma executeTrade_length h buy sell px q h' tr :
  executeTrade h buy sell px q = Some (h', tr) → length h' = length h.
Proof.
  unfold executeTrade. intros H.
  destruct (modify h buy _) as [h1|] eqn:E1; [|done]. cbn in H.
  destruct (modify h1 sell _) as [h2|] eqn:E2; [|done]. cbn in H.
  destruct (h2 !! buy) as [b|]; [|done]. cbn in H.
  match type of H with (?X ≫= _) = _ => destruct X as [h3|] eqn:E3; [|done] end.
  cbn in H.
  destruct (h3 !! sell) as [s|]; [|done]. cbn in H.
  match type of H with (?X ≫= _) = _ => destruct X as [h4|] eqn:E4; [|done] end.
  cbn in H.
  destruct (h4 !! buy); [|done]. cbn in H.
  destruct (h4 !! sell); [|done]. cbn in H. simplify_eq.
  apply modify_length in E1, E2. apply status_update_length in E3, E4. lia.
Qed.

Lemma match_front_length h t m h' tr :
  match_front h t m = Some (h', tr) → length h' = length h.
Proof.
  unfold match_front. destruct (h !! t); [|done]. destruct (h !! m); [|done].
  cbn. apply executeTrade_length.
Qed.

Lemma match_level_length fuel h t os trs h' os' trs' :
  match_level fuel h t os trs = Some (h', os', trs') → length h' = length h.
Proof.
  revert h os trs. induction fuel as [|fuel IH]; intros h os trs H; [done|].
  cbn [match_level] in H. destruct (h !! t) as [n|]; [|done]. cbn in H.
  destruct os as [|m rest]; [by simplify_eq|].
  destruct (isFilled n); [by simplify_eq|].
  destruct (match_front h t m) as [[h1 tr]|] eqn:E; [|done]. cbn in H.
  destruct (h1 !! m) as [o|]; [|done]. cbn in H.
  apply IH in H. apply match_front_length in E. lia.
Qed.

Lemma match_book_length fuel limit h t L trs h' L' trs' :
  match_book fuel limit h t L trs = Some (h', L', trs') → length h' = length h.
Proof.
  revert h L trs. induction fuel as [|fuel IH]; intros h L trs H; [done|].
  cbn [match_book] in H. destruct (h !! t) as [n|]; [|done]. cbn in H.
  destruct L as [|[px os] L]; [by simplify_eq|].
  destruct (isFilled n); [by simplify_eq|].
  destruct (limit && _); [by simplify_eq|].
  destruct (match_level fuel h t os trs) as [[[h1 os1] trs1]|] eqn:E; [|done].
  cbn in H. apply IH in H. apply match_level_length in E. lia.
Qed.

Lemma addOrder_length fuel h b t h' b' r :
  addOrder fuel h b t = Some (h', b', r) → length h' = length h.
Proof.
  unfold addOrder, matchOrder. intros H.
  destruct (h !! t) as [n|]; [|done]. cbn in H.
  destruct (negb _); [by simplify_eq|].
  destruct (match_book _ _ _ _ _ _) as [[[h1 L'] trs]|] eqn:E; [|done]. cbn in H.
  destruct (h1 !! t); [|done]. cbn in H. simplify_eq.
  by apply match_book_length in E.
Qed.

Lemma addOrder_pair fuel h b t h' b' r :
  addOrder fuel h b t = Some (h', b', r) → tradingPair_ b' = tradingPair_ b.
Proof.
  unfold addOrder, matchOrder. intros H.
  destruct (h !! t) as [n|]; [|done]. cbn in H.
  destruct (negb _); [by simplify_eq|].
  destruct (match_book _ _ _ _ _ _) as [[[h1 L'] trs]|] eqn:E; [|done]. cbn in H.
  destruct (h1 !! t) as [o|]; [|done]. cbn in H. simplify_eq.
  destruct (negb (isFilled o)), (side o), (side n); done.
Qed.

Lemma submitOrder_length fuel h e user pair sd ty px qty h' e' r :
  submitOrder fuel h e user pair sd ty px qty = Some (h', e', r) →
  (length h ≤ length h')%nat.
Proof.
  unfold submitOrder. intros H.
  destruct (qty <=? 0); [by simplify_eq|].
  destruct (_ && _); [by simplify_eq|].
  destruct (getOrderBook e pair) as [b|]; [|by simplify_eq].
  cbn in H.
  destruct (addOrder _ _ _ _) as [[[h1 b1] r1]|] eqn:E; [|done]. cbn in H.
  simplify_eq. apply addOrder_length in E. rewrite length_app in E. lia.
Qed.

Lemma cancelOrder_length h e i pair h' e' r :
  cancelOrder h e i pair = Some (h', e', r) → length h' = length h.
Proof.
  intros [(_ & -> & _)|(b & b' & _ & Hc & _)]%cancelOrder_Some; [done|].
  apply OrderBook_cancelOrder_Some in Hc as [(_ & -> & _)|(p & o & _ & _ & -> & _)];
    [done|]. by rewrite length_insert.
Qed.

Lemma apply_op_length h e o h' e' :
  apply_op (h, e) o = Some (h', e') → (length h ≤ length h')%nat.
Proof.
  destruct o as [pair|fuel user pair sd ty px qty|i pair]; cbn.
  - by intros [= <- _].
  - destruct (submitOrder _ _ _ _ _ _ _ _ _) as [[[h1 e1] r]|] eqn:E; [|done].
    cbn. intros [= <- _]. by eapply submitOrder_length.
  - destruct (cancelOrder _ _ _ _) as [[[h1 e1] r]|] eqn:E; [|done].
    cbn. intros [= <- _]. apply cancelOrder_length in E. lia.
Qed.

Lemma run_from_length ops h e h' e' :
  run_from (h, e) ops = Some (h', e') → (length h ≤ length h')%nat.
Proof.
  revert h' e'. induction ops as [|o ops IH] using rev_ind; intros h' e'.
  { by intros [= <- _]. }
  rewrite run_from_snoc.
  destruct (run_from (h, e) ops) as [[h1 e1]|]; [|done]. cbn.
  intros Ho%apply_op_length. specialize (IH h1 e1 eq_refl). lia.
Qed.

Lemma submitOrder_keyed fuel h e user pair sd ty px qty h' e' r :
  books_keyed e →
  submitOrder fuel h e user pair sd ty px qty = Some (h', e', r) →
  books_keyed e'.
Proof.
  unfold submitOrder. intros Hk H.
  destruct (qty <=? 0); [by simplify_eq|].
  destruct (_ && _); [by simplify_eq|].
  unfold getOrderBook in H.
  destruct (orderBooks_ e !! pair) as [b|] eqn:Hb; [|by simplify_eq].
  cbn in H.
  destruct (addOrder _ _ _ _) as [[[h1 b1] r1]|] eqn:E; [|done]. cbn in H.
  simplify_eq. intros pair' b'. cbn.
  intros [[<- <-]|[Hne Hb']]%lookup_insert_Some; [|by apply Hk].
  rewrite (addOrder_pair _ _ _ _ _ _ _ E). by apply Hk.
Qed.

Lemma cancelOrder_keyed h e i pair h' e' r :
  books_keyed e → cancelOrder h e i pair = Some (h', e', r) → books_keyed e'.
Proof.
  intros Hk [(_ & _ & -> & _)|(b & b' & Hb & Hc & ->)]%cancelOrder_Some; [done|].
  intros pair' b''. cbn.
  intros [[<- <-]|[Hne Hb']]%lookup_insert_Some; [|by apply Hk].
  apply OrderBook_cancelOrder_Some in Hc as [(_ & _ & -> & _)|(p & o & _ & _ & _ & -> & _)].
  - by apply Hk.
  - cbn. destruct (side o); cbn; by apply Hk.
Qed.

Lemma reachable_keyed h e : reachable h e → books_keyed e.
Proof.
  intros [ops Hrun]. revert h e Hrun.
  induction ops as [|o ops IH] using rev_ind; intros h e.
  { intros [= <- <-]. by intros ?? ?. }
  rewrite run_from_snoc.
  destruct (run_from _ ops) as [[h1 e1]|]; [|done]. cbn.
  specialize (IH h1 e1 eq_refl).
  destruct o as [pair|fuel user pair sd ty px qty|i pair]; cbn.
  - intros [= <- <-]. unfold addTradingPair.
    destruct (orderBooks_ e1 !! pair) eqn:Hp; [done|]. cbn.
    intros pair' b'. cbn. intros [[<- <-]|[Hne Hb']]%lookup_insert_Some; [done|].
    by apply IH.
  - destruct (submitOrder _ _ _ _ _ _ _ _ _) as [[[h2 e2] r]|] eqn:E; [|done].
    cbn. intros [= <- <-]. by eapply submitOrder_keyed.
  - destruct (cancelOrder _ _ _ _) as [[[h2 e2] r]|] eqn:E; [|done].
    cbn. intros [= <- <-]. by eapply cancelOrder_keyed.
Qed.

(** A submission that throws has changed nothing. *)
Lemma submitOrder_Throw fuel h e user pair sd ty px qty h' e' ex :
  books_keyed e →
  submitOrder fuel h e user pair sd ty px qty = Some (h', e', Throw ex) →
  h' = h ∧ e' = e.
Proof.
  unfold submitOrder. intros Hk H.
  destruct (qty <=? 0); [by simplify_eq|].
  destruct (_ && _); [by simplify_eq|].
  unfold getOrderBook in H.
  destruct (orderBooks_ e !! pair) as [b|] eqn:Hb; [|by simplify_eq].
  cbn in H. exfalso.
  destruct (addOrder _ _ _ _) as [[[h1 b1] r1]|] eqn:E; [|done]. cbn in H.
  simplify_eq. unfold addOrder in E.
  rewrite list_lookup_middle in E by done. cbn in E.
  rewrite bool_decide_eq_true_2 in E by (symmetry; by apply Hk). cbn in E.
  destruct (matchOrder _ _ _ _) as [[[h2 b2] trs]|]; [|done]. cbn in E.
  destruct (h2 !! _); [|done]. done.
Qed.

Lemma submitOrder_Return_length fuel h e user pair sd ty px qty h' e' trades :
  submitOrder fuel h e user pair sd ty px qty = Some (h', e', Return trades) →
  length h' = S (length h).
Proof.
  unfold submitOrder. intros H.
  destruct (qty <=? 0); [done|]. destruct (_ && _); [done|].
  destruct (getOrderBook e pair); [|done]. cbn in H.
  destruct (addOrder _ _ _ _) as [[[h1 b1] r1]|] eqn:E1; [|done].
  cbn in H. simplify_eq. apply addOrder_length in E1.
  rewrite length_app in E1. cbn in E1. lia.
Qed.

(** *** The invariant holds in every state of the engine *)

Lemma engine_inv_apply_op h e o h' e' :
  engine_inv h e → books_keyed e →
  apply_op (h, e) o = Some (h', e') →
  engine_inv h' e'.
Proof.
  intros Hinv Hk.
  destruct o as [pair|fuel user pair sd ty px qty|i pair]; cbn.
  - intros [= <- <-]. by apply engine_inv_addTradingPair.
  - destruct (submitOrder _ _ _ _ _ _ _ _ _) as [[[h2 e2] [trades|ex]]|] eqn:E;
      [| |done]; cbn; intros [= <- <-].
    + by eapply engine_inv_submit.
    + by destruct (submitOrder_Throw _ _ _ _ _ _ _ _ _ _ _ _ Hk E) as [-> ->].
  - destruct (cancelOrder _ _ _ _) as [[[h2 e2] r]|] eqn:E; [|done].
    cbn. intros [= <- <-]. by eapply engine_inv_cancel.
Qed.

Lemma reachable_inv h e : reachable h e → engine_inv h e.
Proof.
  intros [ops Hrun]. revert h e Hrun.
  induction ops as [|o ops IH] using rev_ind; intros h e.
  { intros [= <- <-]. apply engine_inv_new. }
  rewrite run_from_snoc.
  destruct (run_from _ ops) as [[h1 e1]|] eqn:Hrun; [|done]. cbn.
  intros Ho.
  eapply engine_inv_apply_op; [by apply IH| |done].
  apply (reachable_keyed h1). by exists ops.
Qed.

(** *** Ids, as long as the counter has not wrapped *)

Lemma ids_inv_submit fuel h e user pair sd ty px qty h' e' trades :
  engine_inv h e → ids_inv h e → Z.of_nat (length h) + 1 < 2 ^ 64 →
  submitOrder fuel h e user pair sd ty px qty = Some (h', e', Return trades) →
  ids_inv h' e'.
Proof.
  intros Hinv [Hc Hids] Hbound Hsub.
  destruct (submitOrder_spec _ _ _ _ _ _ _ _ _ _ _ _ Hinv Hsub)
    as (b & L' & n' & Hb & Hq & Hpx & Hs & Htail & Hn' & I & ->).
  pose proof (ei_books _ _ Hinv pair b Hb) as Hbook.
  set (n := Order_new (generateOrderId e).1 user pair sd ty px qty) in *.
  destruct (ladder_inv_alloc _ _ _ _ n (bi_ladder _ _ _ Hbook (opposite sd)))
    as [Hl1 Hfresh].
  destruct (flat_sweep_ident _ _ _ _ _ _ _ Hs Hfresh) as [Hlen Hid].
  rewrite length_app in Hlen. cbn [length] in Hlen.
  assert ((generateOrderId e).1 = Z.of_nat (length h) + 1) as Hgen.
  { cbn. rewrite Hc. apply Z.mod_small. lia. }
  split; cbn [orderIdCounter_].
  - rewrite Hgen. lia.
  - intros p o' Hp.
    destruct ((h ++ [n]) !! p) as [o|] eqn:Ho.
    2: { apply lookup_ge_None in Ho. apply lookup_lt_Some in Hp.
         rewrite length_app in Ho. cbn [length] in Ho. lia. }
    destruct (Hid p o Ho) as (o'' & Ho'' & Io).
    assert (o'' = o') as -> by congruence.
    rewrite (si_id _ _ Io).
    apply lookup_app_Some in Ho as [Ho|[Hge Ho]].
    + by apply Hids.
    + apply list_lookup_singleton_Some in Ho as [Hp0 <-].
      unfold n. cbn [id Order_new]. rewrite Hgen. lia.
Qed.

Lemma ids_inv_cancel h e i pair h' e' r :
  ids_inv h e → cancelOrder h e i pair = Some (h', e', r) → ids_inv h' e'.
Proof.
  intros Hinv [(_ & -> & -> & _)|(b & b' & Hb & Hc & ->)]%cancelOrder_Some; [done|].
  apply OrderBook_cancelOrder_Some in Hc
    as [(_ & -> & -> & _)|(p & o & Hi & Hp & -> & -> & _)].
  { by destruct Hinv. }
  destruct Hinv as [H1 H2]. split; cbn.
  - by rewrite length_insert.
  - intros p' o' [(-> & <- & _)|[Hne Ho']]%list_lookup_insert_Some; [|by apply H2].
    by apply (H2 p' o).
Qed.

Lemma reachable_ids h e :
  reachable h e → Z.of_nat (length h) < 2 ^ 64 → ids_inv h e.
Proof.
  intros [ops Hrun]. revert h e Hrun.
  induction ops as [|o ops IH] using rev_ind; intros h e.
  { intros [= <- <-] _. by split. }
  rewrite run_from_snoc.
  destruct (run_from _ ops) as [[h1 e1]|] eqn:Hrun; [|done]. cbn.
  intros Ho Hb. pose proof (apply_op_length _ _ _ _ _ Ho) as Hlen.
  assert (reachable h1 e1) as Hreach by by exists ops.
  assert (ids_inv h1 e1) as Hids by (apply IH; [done|lia]).
  destruct o as [pair|fuel user pair sd ty px qty|i pair]; cbn in Ho.
  - simplify_eq. unfold addTradingPair.
    destruct (orderBooks_ e1 !! pair); [done|]. by destruct Hids.
  - destruct (submitOrder _ _ _ _ _ _ _ _ _) as [[[h2 e2] [trades|ex]]|] eqn:E;
      [| |done]; cbn in Ho; simplify_eq.
    + pose proof (submitOrder_Return_length _ _ _ _ _ _ _ _ _ _ _ _ E) as Hl.
      eapply ids_inv_submit; [by apply reachable_inv|done| |done]. lia.
    + by destruct (submitOrder_Throw _ _ _ _ _ _ _ _ _ _ _ _
                     (reachable_keyed _ _ Hreach) E) as [-> ->].
  - destruct (cancelOrder _ _ _ _) as [[[h2 e2] r]|] eqn:E; [|done].
    cbn in Ho. simplify_eq. by eapply ids_inv_cancel.
Qed.

(** ** The trades of a sweep *)

Lemma records_exist (h : Heap) Q :
  (∀ m, m ∈ Q → is_Some (h !! m)) → ∃ recs, records h Q recs.
Proof.
  induction Q as [|m Q IH]; intros Hv.
  { exists []. constructor. }
  destruct (Hv m) as [o Ho]; [by left|].
  destruct IH as [recs HR]. { intros m' ?. apply Hv. by right. }
  exists (o :: recs). by constructor.
Qed.

Lemma records_lookup h Q recs i m :
  records h Q recs → Q !! i = Some m → ∃ o, recs !! i = Some o ∧ h !! m = Some o.
Proof.
  intros HR Hm. destruct (Forall2_lookup_l _ _ _ _ _ HR Hm) as (o & ? & ?). eauto.
Qed.

Lemma records_alloc h Q recs o :
  records h Q recs → records (h ++ [o]) Q recs.
Proof.
  intros HR. eapply Forall2_impl; [exact HR|]. intros m o' Hm. cbn in *.
  by apply lookup_app_l_Some.
Qed.

Lemma zip_with_trade_lookup n recs qs i tr :
  zip_with (trade_of n) recs qs !! i = Some tr →
  ∃ o q, recs !! i = Some o ∧ qs !! i = Some q ∧ tr = trade_of n o q.
Proof.
  rewrite lookup_zip_with_Some. intros (o & q & -> & ? & ?). eauto.
Qed.

Lemma tradeQuantity_trade_of n o q : tradeQuantity (trade_of n o q) = q.
Proof. unfold trade_of. by destruct (side n). Qed.

Lemma tradePrice_trade_of n o q : tradePrice (trade_of n o q) = price o.
Proof. unfold trade_of. by destruct (side n). Qed.

Lemma trade_quantities n recs qs :
  (length qs ≤ length recs)%nat →
  tradeQuantity <$> zip_with (trade_of n) recs qs = qs.
Proof.
  revert qs. induction recs as [|o recs IH]; intros [|q qs] Hlen; cbn in *;
    try done; try lia.
  rewrite tradeQuantity_trade_of. f_equal. apply IH. lia.
Qed.

Lemma maker_id_trade_of n o q : maker_id (side n) (trade_of n o q) = id o.
Proof. unfold trade_of, maker_id. by destruct (side n). Qed.

Lemma submitOrder_total fuel h e user pair sd ty px qty b :
  engine_inv h e →
  0 < qty → (ty = LIMIT → 0 < px) → orderBooks_ e !! pair = Some b →
  (length (ladder (opposite sd) b) + length (queue (ladder (opposite sd) b)) + 1
   < fuel)%nat →
  ∃ h' e' trades,
    submitOrder fuel h e user pair sd ty px qty = Some (h', e', Return trades).
Proof.
  intros Hinv Hq Hpx Hb Hfuel. unfold submitOrder.
  rewrite (proj2 (Z.leb_gt _ _)) by done.
  assert (bool_decide (ty = LIMIT) && (px <=? 0) = false) as ->.
  { case_bool_decide; [|done]. cbn. apply Z.leb_gt. by apply Hpx. }
  unfold getOrderBook. rewrite Hb.
  unfold generateOrderId, make_shared.
  cbn [fst].
  set (n := Order_new ((orderIdCounter_ e + 1) mod 2 ^ 64) user pair sd ty px qty).
  pose proof (ei_books _ _ Hinv pair b Hb) as Hbook.
  destruct (ladder_inv_alloc _ _ _ _ n (bi_ladder _ _ _ Hbook (opposite sd)))
    as [Hl1 Hfresh].
  assert (Hn : (h ++ [n]) !! length h = Some n) by by apply list_lookup_middle.
  assert (Hpre : sweep_pre (h ++ [n]) (length h) (ladder (opposite (side n)) b)).
  { by apply (ladder_inv_sweep_pre _ pair (opposite sd)). }
  destruct (addOrder_total fuel (h ++ [n]) b (length h) n) as [[[h1 b1] r] Ha];
    [done|by rewrite (bi_pair _ _ _ Hbook)|done|done|].
  rewrite Ha. cbn.
  apply (addOrder_sweep _ _ _ _ n) in Ha as (trades & L' & n' & -> & _);
    [|done|by rewrite (bi_pair _ _ _ Hbook)|done].
  by eexists _, _, _.
Qed.


(** * The claims *)

(** ** Failed submissions *)

(** C5. A submission that fails leaves the arena, the engine and all its
    books as they were, and allocates no id: a non-positive quantity and a
    non-positive limit price throw [std::invalid_argument], an
    unregistered pair throws [std::runtime_error], each before any
    change; and whatever submission throws has changed nothing. *)
Theorem failed_submit_changes_nothing fuel h e user pair sd ty px qty :
  reachable h e →
  (qty ≤ 0 →
   submitOrder fuel h e user pair sd ty px qty
   = Some (h, e, Throw (invalid_argument "Quantity must be positive"))) ∧
  (0 < qty → ty = LIMIT → px ≤ 0 →
   submitOrder fuel h e user pair sd ty px qty
   = Some (h, e, Throw (invalid_argument "Price must be positive for limit orders"))) ∧
  (0 < qty → (ty = LIMIT → 0 < px) → orderBooks_ e !! pair = None →
   submitOrder fuel h e user pair sd ty px qty
   = Some (h, e, Throw (runtime_error ("Trading pair not found: " +:+ pair)))) ∧
  (∀ h' e' ex,
   submitOrder fuel h e user pair sd ty px qty = Some (h', e', Throw ex) →
   h' = h ∧ e' = e ∧ orderIdCounter_ e' = orderIdCounter_ e).
Proof.
  intros Hreach. repeat split.
  - intros Hq. unfold submitOrder. by rewrite (proj2 (Z.leb_le _ _)).
  - intros Hq -> Hpx. unfold submitOrder.
    rewrite (proj2 (Z.leb_gt _ _)) by done.
    rewrite bool_decide_eq_true_2 by done.
    by rewrite (proj2 (Z.leb_le _ _)).
  - intros Hq Hpx Hb. unfold submitOrder.
    rewrite (proj2 (Z.leb_gt _ _)) by done.
    assert (bool_decide (ty = LIMIT) && (px <=? 0) = false) as ->.
    { case_bool_decide; [|done]. cbn. apply Z.leb_gt. by apply Hpx. }
    unfold getOrderBook. by rewrite Hb.
  - eapply submitOrder_Throw; [by eapply reachable_keyed|done].
  - eapply submitOrder_Throw; [by eapply reachable_keyed|done].
  - destruct (submitOrder_Throw fuel h e user pair sd ty px qty h' e' ex)
      as [_ ->]; [by eapply reachable_keyed|done|done].
Qed.

(** C9. Of two accepted submissions on the same engine, the later one is
    given the strictly greater id, whatever their pairs and whatever
    operations lie between them; each id is the value of the engine-wide
    counter after the call.  The statement is for engines that have
    created fewer than 2^64 orders, so that the 64-bit counter has not
    wrapped. *)
Theorem submit_ids_increasing h e
    f1 u1 p1 sd1 ty1 px1 q1 h1 e1 trs1 ops h2 e2
    f2 u2 p2 sd2 ty2 px2 q2 h3 e3 trs3 :
  reachable h e →
  submitOrder f1 h e u1 p1 sd1 ty1 px1 q1 = Some (h1, e1, Return trs1) →
  run_from (h1, e1) ops = Some (h2, e2) →
  submitOrder f2 h2 e2 u2 p2 sd2 ty2 px2 q2 = Some (h3, e3, Return trs3) →
  Z.of_nat (length h3) < 2 ^ 64 →
  ∃ i1 i2,
    submitted_id h h1 = Some i1 ∧ orderIdCounter_ e1 = i1 ∧
    submitted_id h2 h3 = Some i2 ∧ orderIdCounter_ e3 = i2 ∧
    i1 < i2.
Proof.
  intros Hreach Hs1 Hrun Hs2 Hbound.
  assert (reachable h1 e1) as Hreach1.
  { eapply (reachable_run h e [SubmitOrder f1 u1 p1 sd1 ty1 px1 q1]); [done|].
    cbn. by rewrite Hs1. }
  assert (reachable h2 e2) as Hreach2 by by eapply reachable_run.
  pose proof (run_from_length _ _ _ _ _ Hrun) as Hlen12.
  pose proof (submitOrder_length _ _ _ _ _ _ _ _ _ _ _ _ Hs2) as Hlen23.
  pose proof (submitOrder_length _ _ _ _ _ _ _ _ _ _ _ _ Hs1) as Hlen01.
  assert (ids_inv h1 e1) as Hinv1 by (apply reachable_ids; [done|lia]).
  assert (ids_inv h3 e3) as Hinv3.
  { apply reachable_ids; [|done].
    eapply (reachable_run h2 e2 [SubmitOrder f2 u2 p2 sd2 ty2 px2 q2]); [done|].
    cbn. by rewrite Hs2. }
  pose proof (submitOrder_Return_length _ _ _ _ _ _ _ _ _ _ _ _ Hs1) as Hl1.
  pose proof (submitOrder_Return_length _ _ _ _ _ _ _ _ _ _ _ _ Hs2) as Hl3.
  destruct (lookup_lt_is_Some_2 h1 (length h)) as [o1 Ho1]; [lia|].
  destruct (lookup_lt_is_Some_2 h3 (length h2)) as [o3 Ho3]; [lia|].
  exists (id o1), (id o3). unfold submitted_id. rewrite Ho1, Ho3. cbn.
  rewrite (ii_ids _ _ Hinv1 _ _ Ho1), (ii_ids _ _ Hinv3 _ _ Ho3).
  rewrite (ii_counter _ _ Hinv1), (ii_counter _ _ Hinv3).
  repeat split; lia.
Qed.

(** ** The trades of a submission *)

(** The trades and the fills of an accepted submission are those of the
    sweep of the opposite queue by the new order. *)
Lemma submitOrder_fills fuel h e user pair sd ty px qty h' e' trades b :
  engine_inv h e →
  submitOrder fuel h e user pair sd ty px qty = Some (h', e', Return trades) →
  orderBooks_ e !! pair = Some b →
  let n := Order_new (generateOrderId e).1 user pair sd ty px qty in
  let Q := queue (ladder (opposite sd) b) in
  ∃ recs,
    let qs := sweep_fills (limit_acc n) n recs in
    records h Q recs ∧
    Forall (λ o, isFilled o = false) recs ∧
    trades = zip_with (trade_of n) recs qs ∧
    h' !! length h = Some (foldl (λ n q, fill q n) n qs) ∧
    (∀ i m o q, Q !! i = Some m → recs !! i = Some o → qs !! i = Some q →
       h' !! m = Some (fill q o)).
Proof.
  intros Hinv Hsub Hb n Q.
  destruct (submitOrder_spec _ _ _ _ _ _ _ _ _ _ _ _ Hinv Hsub)
    as (b' & L' & n' & Hb' & Hq & Hpx & Hs & Htail & Hn' & I & ->).
  assert (b' = b) as -> by congruence. fold n in Hs, I. fold Q in Hs.
  pose proof (ei_books _ _ Hinv pair b Hb) as Hbook.
  pose proof (bi_ladder _ _ _ Hbook (opposite sd)) as Hl.
  destruct (ladder_inv_alloc _ _ _ _ n Hl) as [Hl1 Hfresh].
  destruct (records_exist h Q) as [recs HR].
  { intros m Hm. destruct (ladder_inv_queue _ _ _ _ _ Hl Hm) as (o & ? & _).
    by exists o. }
  exists recs. cbn zeta. split; [done|]. split.
  { apply Forall_forall. intros o Ho.
    apply list_elem_of_lookup in Ho as [i Ho].
    destruct (Forall2_lookup_r _ _ _ _ _ HR Ho) as (m & Hm & Hmo).
    destruct (ladder_inv_queue _ _ _ _ m Hl) as (o' & ? & _ & _ & ?).
    { by eapply list_elem_of_lookup_2. }
    by simplify_eq. }
  eapply (flat_sweep_fills _ _ _ _ _ _ _ n recs) in Hs;
    [|apply Hl|done|by apply list_lookup_middle|by apply records_alloc].
  apply Hs.
Qed.

Lemma trades_lookup fuel h e user pair sd ty px qty h' e' trades b i tr :
  engine_inv h e →
  submitOrder fuel h e user pair sd ty px qty = Some (h', e', Return trades) →
  orderBooks_ e !! pair = Some b →
  trades !! i = Some tr →
  let n := Order_new (generateOrderId e).1 user pair sd ty px qty in
  ∃ recs m o,
    let qs := sweep_fills (limit_acc n) n recs in
    records h (queue (ladder (opposite sd) b)) recs ∧
    Forall (λ o, isFilled o = false) recs ∧
    tradeQuantity <$> trades = qs ∧
    queue (ladder (opposite sd) b) !! i = Some m ∧
    recs !! i = Some o ∧ h !! m = Some o ∧
    qs !! i = Some (tradeQuantity tr) ∧
    tr = trade_of n o (tradeQuantity tr) ∧
    h' !! m = Some (fill (tradeQuantity tr) o).
Proof.
  intros Hinv Hsub Hb Htr n.
  destruct (submitOrder_fills _ _ _ _ _ _ _ _ _ _ _ _ _ Hinv Hsub Hb)
    as (recs & HR & Hop & -> & _ & Hfill).
  fold n in Htr, Hfill |- *.
  apply zip_with_trade_lookup in Htr as (o & q & Ho & Hq & ->).
  destruct (Forall2_lookup_r _ _ _ _ _ HR Ho) as (m & Hm & Hmo).
  exists recs, m, o. cbn zeta. rewrite tradeQuantity_trade_of.
  repeat split; try done.
  - apply trade_quantities, sweep_fills_length.
  - by eapply Hfill.
Qed.

(** ** Execution price *)


(** ** Cancellation *)

Lemma filter_ne_id (p : OrderPtr) (os : list OrderPtr) :
  p ∉ os → filter (λ q, q ≠ p) os = os.
Proof.
  intros Hp. induction os as [|m os IH]; [done|].
  apply not_elem_of_cons in Hp as [Hne Hp].
  rewrite filter_cons_True by done. by rewrite IH.
Qed.

(** After the removal of [p], which rests (if at all) in the level of
    [px], every level is what it was without [p]. *)
Lemma remove_from_book_level sd px p (l : Ladder) px' :
  smap_sorted (side_lt sd) l →
  (∀ px1 os, (px1, os) ∈ l → p ∈ os → px1 = px) →
  default [] (smap_find (side_lt sd) px' (remove_from_book (side_lt sd) px p l))
  = filter (λ q, q ≠ p) (default [] (smap_find (side_lt sd) px' l)).
Proof.
  intros Hs Hp. unfold remove_from_book.
  destruct (decide (px' = px)) as [->|Hne].
  - destruct (smap_find (side_lt sd) px l) as [os|] eqn:Hfind; cbn.
    2: { by rewrite Hfind. }
    destruct (filter _ os) as [|m os'] eqn:Hfil.
    + rewrite smap_find_erase_eq; [done|side_lt..].
    + rewrite smap_find_upd_eq; [done|side_lt].
  - assert (smap_find (side_lt sd) px'
              (match smap_find (side_lt sd) px l with
               | Some orders =>
                   match filter (λ q, q ≠ p) orders with
                   | [] => smap_erase (side_lt sd) px l
                   | _ :: _ =>
                       smap_upd (side_lt sd) px
                         (λ _, filter (λ q, q ≠ p) orders) [] l
                   end
               | None => l
               end) = smap_find (side_lt sd) px' l) as ->.
    { destruct (smap_find (side_lt sd) px l) as [os|]; [|done].
      destruct (filter _ os).
      - rewrite smap_find_erase_ne; [done|side_lt..|done].
      - rewrite smap_find_upd_ne; [done|side_lt..|done]. }
    destruct (smap_find (side_lt sd) px' l) as [os|] eqn:Hfind; [|done]. cbn.
    rewrite filter_ne_id; [done|]. intros Hin.
    apply smap_find_elem_1 in Hfind; [|side_lt]. destruct Hne. by eapply Hp.
Qed.

Lemma cancelOrder_total h e i pair :
  engine_inv h e → is_Some (cancelOrder h e i pair).
Proof.
  intros Hinv. unfold cancelOrder, getOrderBook.
  destruct (orderBooks_ e !! pair) as [b|] eqn:Hb; [|by eexists].
  unfold OrderBook_cancelOrder.
  destruct (orders_ b !! i) as [p|] eqn:Hi; [|by eexists].
  destruct (bi_orders _ _ _ (ei_books _ _ Hinv pair b Hb) i p Hi) as (o & Ho & _).
  rewrite Ho. cbn. rewrite (modify_Some _ _ _ _ Ho). by eexists.
Qed.


Lemma level_total_spec h os recs acc :
  records h os recs →
  level_total h os acc = Some (acc + sum_Z (getRemainingQuantity <$> recs)).
Proof.
  intros HR. revert acc. induction HR as [|m o os recs Ho HR IH]; intros acc; cbn.
  { f_equal. lia. }
  rewrite Ho. cbn. rewrite IH. f_equal. unfold sum_Z. lia.
Qed.

Lemma smap_upd_snoc {V} k (f : V → V) d (m : list (Z * V)) :
  (∀ k' v', (k', v') ∈ m → k' < k) →
  smap_upd ask_lt k f d m = m ++ [(k, f d)].
Proof.
  induction m as [|[k1 v1] m IH]; intros Hk; cbn; [done|].
  assert (k1 < k) by (eapply Hk; by left).
  unfold ask_lt at 1 2. rewrite (proj2 (Z.ltb_ge _ _)) by lia.
  rewrite (proj2 (Z.ltb_lt _ _)) by lia.
  rewrite IH; [done|]. intros k' v' Hin. eapply Hk. by right.
Qed.

Lemma smap_upd_cons {V} k (f : V → V) d (m : list (Z * V)) :
  (∀ k' v', (k', v') ∈ m → k < k') →
  smap_upd ask_lt k f d m = (k, f d) :: m.
Proof.
  destruct m as [|[k1 v1] m]; intros Hk; cbn; [done|].
  assert (k < k1) by (eapply Hk; by left).
  unfold ask_lt. by rewrite (proj2 (Z.ltb_lt _ _)) by lia.
Qed.

Lemma ladder_inv_records h pair sd l px os :
  ladder_inv h pair sd l → (px, os) ∈ l → ∃ recs, records h os recs.
Proof.
  intros Hl Hin. apply records_exist. intros m Hm.
  destruct (li_resting _ _ _ _ Hl px os m Hin Hm) as (o & ? & _). by exists o.
Qed.

(** The loop over an ascending ladder appends to the map. *)
Lemma depth_loop_asks h (L : Ladder) levels count depth :
  smap_sorted ask_lt L →
  (∀ px os, (px, os) ∈ L → ∃ recs, records h os recs) →
  (∀ k v px os, (k, v) ∈ depth → (px, os) ∈ L → k < px) →
  ∃ entries,
    Forall2 (level_entry h) (take (Z.to_nat (levels - count)) L) entries ∧
    depth_loop h L levels count depth = Some (depth ++ entries).
Proof.
  revert count depth. induction L as [|[px os] L IH]; intros count depth Hs HR Hd.
  { exists []. rewrite take_nil, app_nil_r. by split; [constructor|]. }
  cbn [depth_loop]. destruct (count >=? levels) eqn:Hc.
  { exists []. rewrite app_nil_r.
    replace (Z.to_nat (levels - count)) with 0%nat by lia.
    by split; [constructor|]. }
  destruct (HR px os) as [recs Hrecs]; [by left|].
  rewrite (level_total_spec _ _ recs) by done. cbn [mbind option_bind].
  rewrite smap_upd_snoc by (intros k' v' Hin; eapply Hd; [done|by left]).
  apply smap_sorted_cons in Hs as [Hs Hk].
  destruct (IH (count + 1)
              (depth ++ [(px, 0 + sum_Z (getRemainingQuantity <$> recs))]))
    as (entries & HF & Hloop); [done| | |].
  { intros px' os' Hin. eapply HR. by right. }
  { intros k v px' os' [Hin|Hin%list_elem_of_singleton]%elem_of_app Hin'.
    - eapply Hd; [done|by right].
    - simplify_eq. specialize (Hk px' os' Hin'). unfold ask_lt in Hk. lia. }
  exists ((px, 0 + sum_Z (getRemainingQuantity <$> recs)) :: entries).
  replace (Z.to_nat (levels - count))
    with (S (Z.to_nat (levels - (count + 1)))) by lia.
  cbn [take]. split.
  - constructor; [|done]. split; [done|]. exists recs. split; [done|]. cbn. lia.
  - rewrite Hloop. by rewrite <- app_assoc.
Qed.

(** The loop over a descending ladder prepends to the map. *)
Lemma depth_loop_bids h (L : Ladder) levels count depth :
  smap_sorted bid_lt L →
  (∀ px os, (px, os) ∈ L → ∃ recs, records h os recs) →
  (∀ k v px os, (k, v) ∈ depth → (px, os) ∈ L → px < k) →
  ∃ entries,
    Forall2 (level_entry h) (take (Z.to_nat (levels - count)) L) entries ∧
    depth_loop h L levels count depth = Some (reverse entries ++ depth).
Proof.
  revert count depth. induction L as [|[px os] L IH]; intros count depth Hs HR Hd.
  { exists []. rewrite take_nil. by split; [constructor|]. }
  cbn [depth_loop]. destruct (count >=? levels) eqn:Hc.
  { exists []. replace (Z.to_nat (levels - count)) with 0%nat by lia.
    by split; [constructor|]. }
  destruct (HR px os) as [recs Hrecs]; [by left|].
  rewrite (level_total_spec _ _ recs) by done. cbn [mbind option_bind].
  rewrite smap_upd_cons by (intros k' v' Hin; eapply Hd; [done|by left]).
  apply smap_sorted_cons in Hs as [Hs Hk].
  destruct (IH (count + 1)
              ((px, 0 + sum_Z (getRemainingQuantity <$> recs)) :: depth))
    as (entries & HF & Hloop); [done| | |].
  { intros px' os' Hin. eapply HR. by right. }
  { intros k v px' os' [?|Hin]%elem_of_cons Hin'.
    - simplify_eq. specialize (Hk px' os' Hin'). unfold bid_lt in Hk. lia.
    - eapply Hd; [done|by right]. }
  exists ((px, 0 + sum_Z (getRemainingQuantity <$> recs)) :: entries).
  replace (Z.to_nat (levels - count))
    with (S (Z.to_nat (levels - (count + 1)))) by lia.
  cbn [take]. split.
  - constructor; [|done]. split; [done|]. exists recs. split; [done|]. cbn. lia.
  - rewrite Hloop. rewrite reverse_cons. by rewrite <- app_assoc.
Qed.

Lemma level_entries_sorted h lt (R : Z → Z → Prop) (L : Ladder) entries :
  (∀ a b, lt a b = true → R a b) →
  Forall2 (level_entry h) L entries → smap_sorted lt L →
  StronglySorted (λ x y, R x.1 y.1) entries.
Proof.
  intros HR.
  induction 1 as [|[px os] [px' tot] L entries [Hpx _] HF IH]; intros Hs.
  { constructor. }
  apply smap_sorted_cons in Hs as [Hs Hk]. constructor; [by apply IH|].
  apply Forall_forall. intros [k v] Hin.
  apply list_elem_of_lookup in Hin as [i Hi].
  destruct (Forall2_lookup_r _ _ _ _ _ HF Hi) as ([k1 os1] & Hl1 & [Hk1 _]).
  cbn in *. subst. apply HR. eapply Hk. by eapply list_elem_of_lookup_2.
Qed.

Lemma smap_sorted_take {V} lt (m : list (Z * V)) k :
  smap_sorted lt m → smap_sorted lt (take k m).
Proof.
  revert k. induction m as [|[k1 v1] m IH]; intros [|k] Hs; cbn;
    try apply smap_sorted_nil.
  apply smap_sorted_cons in Hs as [Hs Hk]. apply smap_sorted_cons. split.
  - by apply IH.
  - intros k' v' Hin. eapply Hk.
    eapply elem_of_sublist; [done|apply sublist_take].
Qed.


(** * Scenarios *)

Lemma sells_reachable : reachable sells_heap sells_engine.
Proof. exists sells_ops. vm_compute. reflexivity. Defined.

Lemma s1_reachable : reachable s1_heap s1_engine.
Proof. exists s1_ops. vm_compute. reflexivity. Defined.

(** Scenario S4 of the specification. *)
Example scenario_S4 :
  submitOrder 10 sells_heap sells_engine "b" demo_pair BUY MARKET 0 4
  = Some (swept_heap, swept_engine,
          Return [mkTrade 4 1 10 1; mkTrade 4 2 10 2; mkTrade 4 3 11 1]).
Proof. vm_compute. reflexivity. Qed.

(** Scenario S1: no trades; the best bid is 2000, the best ask 2010. *)
Example scenario_S1 :
  run_from fresh s1_ops = Some (s1_heap, s1_engine) ∧
  getBestBid s1_book = 2000 ∧ getBestAsk s1_book = 2010 ∧
  Forall (λ o, filledQuantity o = 0 ∧ status o = PENDING) s1_heap ∧
  getAskDepth s1_heap s1_book 10 = Some [(2010, 10); (2020, 25)].
Proof.
  repeat split; try (vm_compute; reflexivity).
  unfold s1_heap. repeat constructor.
Qed.

(** Scenario S2: after S1, a market sell of 1.2 trades once, against the
    best bid, which stays in the book with 0.3 left. *)
Example scenario_S2 :
  ∃ h' e' b' o,
    submitOrder 10 s1_heap s1_engine "user6" demo_pair SELL MARKET 0 12
    = Some (h', e', Return [mkTrade 1 6 2000 12]) ∧
    orderBooks_ e' !! demo_pair = Some b' ∧
    h' !! 0%nat = Some o ∧ filledQuantity o = 12 ∧ status o = PARTIAL ∧
    getBestBid b' = 2000 ∧ asks_ b' = asks_ s1_book ∧
    getBidDepth h' b' 10 = Some [(1990, 20); (1995, 10); (2000, 3)].
Proof.
  pose (r := submitOrder 10 s1_heap s1_engine "user6" demo_pair SELL MARKET 0 12).
  pose (h' := default [] ((λ x, x.1.1) <$> r)).
  pose (e' := default MatchingEngine_new ((λ x, x.1.2) <$> r)).
  exists h', e', (default (OrderBook_new "") (orderBooks_ e' !! demo_pair)),
         (mkOrder 1 "user1" demo_pair BUY LIMIT PARTIAL 2000 15 12).
  vm_compute. repeat split.
Qed.

(** Scenario S5: a cancel empties the level; a second cancel of the same
    id returns false. *)
Example scenario_S5 :
  ∃ h e h' e' b',
    run_from fresh
      [AddTradingPair demo_pair; SubmitOrder 10 "b1" demo_pair BUY LIMIT 50 1]
    = Some (h, e) ∧
    cancelOrder h e 1 demo_pair = Some (h', e', true) ∧
    orderBooks_ e' !! demo_pair = Some b' ∧
    bids_ b' = [] ∧ getBestBid b' = 0 ∧ orders_ b' !! 1 = None ∧
    cancelOrder h' e' 1 demo_pair = Some (h', e', false).
Proof.
  pose (s := run_from fresh
      [AddTradingPair demo_pair; SubmitOrder 10 "b1" demo_pair BUY LIMIT 50 1]).
  pose (h := default [] (fst <$> s)).
  pose (e := default MatchingEngine_new (snd <$> s)).
  pose (r := cancelOrder h e 1 demo_pair).
  pose (h' := default [] ((λ x, x.1.1) <$> r)).
  pose (e' := default MatchingEngine_new ((λ x, x.1.2) <$> r)).
  exists h, e, h', e', (default (OrderBook_new "") (orderBooks_ e' !! demo_pair)).
  vm_compute. repeat split.
Qed.

(** ** Claims that the code does not meet *)

(** C1 does not hold of the code: [matchOrder] erases a filled resting
    order from its price level only, and [addOrder] records the incoming
    order in [orders_] before matching and never takes it out.  After
    scenario S4 the directory still holds the filled resting order 1 and
    the filled incoming order 4, neither of which is in a ladder, and
    [getUserOrders] still returns the filled order of user b. *)
Theorem filled_orders_stay_in_directory :
  ∃ o1 o4,
    run_from fresh swept_ops = Some (swept_heap, swept_engine) ∧
    orderBooks_ swept_engine !! demo_pair = Some swept_book ∧
    orders_ swept_book !! 1 = Some 0%nat ∧
    swept_heap !! 0%nat = Some o1 ∧
    status o1 = FILLED ∧ getRemainingQuantity o1 = 0 ∧
    orders_ swept_book !! 4 = Some 3%nat ∧
    swept_heap !! 3%nat = Some o4 ∧
    status o4 = FILLED ∧ getRemainingQuantity o4 = 0 ∧
    bids_ swept_book = [] ∧ asks_ swept_book = [(11, [2%nat])] ∧
    OrderBook_getUserOrders swept_heap swept_book "b" = [3%nat].
Proof.
  exists (mkOrder 1 "s1" demo_pair SELL LIMIT FILLED 10 1 1),
         (mkOrder 4 "b" demo_pair BUY MARKET FILLED 0 4 4).
  vm_compute. repeat split.
Qed.

(** C2 does not hold of the code: [addOrder] puts every order that is not
    filled into the ladder of its side, whatever its type.  A market buy
    of 10 units against 8 units of asks returns three trades and then
    rests with its 2 unfilled units at the price it was submitted with. *)
Theorem market_remainder_rests_in_book :
  ∃ h' e' b' o,
    submitOrder 10 sells_heap sells_engine "b" demo_pair BUY MARKET 0 10
    = Some (h', e',
            Return [mkTrade 4 1 10 1; mkTrade 4 2 10 2; mkTrade 4 3 11 5]) ∧
    orderBooks_ e' !! demo_pair = Some b' ∧
    asks_ b' = [] ∧ bids_ b' = [(0, [3%nat])] ∧
    h' !! 3%nat = Some o ∧
    type o = MARKET ∧ status o = PARTIAL ∧ getRemainingQuantity o = 2.
Proof.
  pose (r := submitOrder 10 sells_heap sells_engine "b" demo_pair BUY MARKET 0 10).
  pose (h' := default [] ((λ x, x.1.1) <$> r)).
  pose (e' := default MatchingEngine_new ((λ x, x.1.2) <$> r)).
  exists h', e', (default (OrderBook_new "") (orderBooks_ e' !! demo_pair)),
         (mkOrder 4 "b" demo_pair BUY MARKET PARTIAL 0 10 8).
  vm_compute. repeat split.
Qed.

(** C3 does not hold of the code: a filled order is still in [orders_]
    (see C1), so [cancelOrder] finds it, returns true and overwrites its
    status.  After scenario S4 the incoming order 4 is filled; cancelling
    it makes it cancelled. *)
Theorem cancel_overwrites_filled_status :
  ∃ o h' e' o',
    run_from fresh swept_ops = Some (swept_heap, swept_engine) ∧
    swept_heap !! 3%nat = Some o ∧ id o = 4 ∧ status o = FILLED ∧
    cancelOrder swept_heap swept_engine 4 demo_pair = Some (h', e', true) ∧
    h' !! 3%nat = Some o' ∧ id o' = 4 ∧ status o' = CANCELLED.
Proof.
  pose (r := cancelOrder swept_heap swept_engine 4 demo_pair).
  exists (mkOrder 4 "b" demo_pair BUY MARKET FILLED 0 4 4),
         (default [] ((λ x, x.1.1) <$> r)),
         (default MatchingEngine_new ((λ x, x.1.2) <$> r)),
         (mkOrder 4 "b" demo_pair BUY MARKET CANCELLED 0 4 4).
  vm_compute. repeat split.
Qed.


(** ** Instances of the theorems on the scenarios *)

Lemma failed_submit_changes_nothing_witness :
  reachable sells_heap sells_engine ∧
  ((0 ≤ 0 →
    submitOrder 10 sells_heap sells_engine "u" "BTC/USDT" BUY LIMIT 5 0
    = Some (sells_heap, sells_engine,
            Throw (invalid_argument "Quantity must be positive"))) ∧
   (0 < 0 → LIMIT = LIMIT → 5 ≤ 0 →
    submitOrder 10 sells_heap sells_engine "u" "BTC/USDT" BUY LIMIT 5 0
    = Some (sells_heap, sells_engine,
            Throw (invalid_argument "Price must be positive for limit orders"))) ∧
   (0 < 0 → (LIMIT = LIMIT → 0 < 5) →
    orderBooks_ sells_engine !! "BTC/USDT" = None →
    submitOrder 10 sells_heap sells_engine "u" "BTC/USDT" BUY LIMIT 5 0
    = Some (sells_heap, sells_engine,
            Throw (runtime_error ("Trading pair not found: " +:+ "BTC/USDT")))) ∧
   (∀ h' e' ex,
    submitOrder 10 sells_heap sells_engine "u" "BTC/USDT" BUY LIMIT 5 0
    = Some (h', e', Throw ex) →
    h' = sells_heap ∧ e' = sells_engine ∧
    orderIdCounter_ e' = orderIdCounter_ sells_engine)).
Proof.
  split; [apply sells_reachable|].
  apply (failed_submit_changes_nothing 10 sells_heap sells_engine
           "u" "BTC/USDT" BUY LIMIT 5 0).
  apply sells_reachable.
Defined.

Lemma submit_ids_increasing_witness :
  reachable sells_heap sells_engine ∧
  submitOrder 10 sells_heap sells_engine "b" demo_pair BUY MARKET 0 4
  = Some (swept_heap, swept_engine,
          Return [mkTrade 4 1 10 1; mkTrade 4 2 10 2; mkTrade 4 3 11 1]) ∧
  ∃ h2 e2 h3 e3,
    run_from (swept_heap, swept_engine)
      [AddTradingPair "BTC/USDT"; CancelOrder 3 demo_pair] = Some (h2, e2) ∧
    submitOrder 10 h2 e2 "c" "BTC/USDT" SELL LIMIT 7 1 = Some (h3, e3, Return []) ∧
    Z.of_nat (length h3) < 2 ^ 64 ∧
    ∃ i1 i2,
      submitted_id sells_heap swept_heap = Some i1 ∧
      orderIdCounter_ swept_engine = i1 ∧
      submitted_id h2 h3 = Some i2 ∧ orderIdCounter_ e3 = i2 ∧
      i1 < i2.
Proof.
  split; [apply sells_reachable|]. split; [vm_compute; reflexivity|].
  pose (s2 := run_from (swept_heap, swept_engine)
                [AddTradingPair "BTC/USDT"; CancelOrder 3 demo_pair]).
  pose (h2 := default [] (fst <$> s2)).
  pose (e2 := default MatchingEngine_new (snd <$> s2)).
  pose (r3 := submitOrder 10 h2 e2 "c" "BTC/USDT" SELL LIMIT 7 1).
  pose (h3 := default [] ((λ x, x.1.1) <$> r3)).
  pose (e3 := default MatchingEngine_new ((λ x, x.1.2) <$> r3)).
  exists h2, e2, h3, e3.
  assert (H2 : run_from (swept_heap, swept_engine)
                 [AddTradingPair "BTC/USDT"; CancelOrder 3 demo_pair]
               = Some (h2, e2)) by (vm_compute; reflexivity).
  assert (H3 : submitOrder 10 h2 e2 "c" "BTC/USDT" SELL LIMIT 7 1
               = Some (h3, e3, Return [])) by (vm_compute; reflexivity).
  assert (Hb : Z.of_nat (length h3) < 2 ^ 64) by (vm_compute; reflexivity).
  split; [exact H2|]. split; [exact H3|]. split; [exact Hb|].
  apply (submit_ids_increasing sells_heap sells_engine
           10%nat "b" demo_pair BUY MARKET 0 4 swept_heap swept_engine
           [mkTrade 4 1 10 1; mkTrade 4 2 10 2; mkTrade 4 3 11 1]
           [AddTradingPair "BTC/USDT"; CancelOrder 3 demo_pair] h2 e2
           10%nat "c" "BTC/USDT" SELL LIMIT 7 1 h3 e3 []).
  - apply sells_reachable.
  - vm_compute; reflexivity.
  - exact H2.
  - exact H3.
  - exact Hb.
Defined.




(** * Further properties of the code *)

(** ** Induction over the states of the engine *)

Lemma cancelOrder_false h e i pair h' e' :
  cancelOrder h e i pair = Some (h', e', false) → h' = h ∧ e' = e.
Proof.
  intros [(_ & -> & -> & _)|(b & b' & Hb & Hc & ->)]%cancelOrder_Some; [done|].
  apply OrderBook_cancelOrder_Some in Hc
    as [(_ & -> & -> & _)|(p & o & Hi & Hp & -> & -> & ?)]; [|done].
  split; [done|]. destruct e as [books c]. unfold set_books. cbn in *.
  by rewrite insert_id.
Qed.

(** Induction over the states of the engine. *)
Lemma reachable_induction (P : Heap → MatchingEngine → Prop) :
  P [] MatchingEngine_new →
  (∀ h e pair, reachable h e → P h e →
     orderBooks_ e !! pair = None →
     P h (set_books (<[pair := OrderBook_new pair]> (orderBooks_ e)) e)) →
  (∀ fuel h e user pair sd ty px qty h' e' trades,
     reachable h e → P h e →
     submitOrder fuel h e user pair sd ty px qty = Some (h', e', Return trades) →
     P h' e') →
  (∀ h e i pair h' e',
     reachable h e → P h e →
     cancelOrder h e i pair = Some (h', e', true) → P h' e') →
  ∀ h e, reachable h e → P h e.
Proof.
  intros H0 Hadd Hsub Hcan h e [ops Hrun]. revert h e Hrun.
  induction ops as [|o ops IH] using rev_ind; intros h e.
  { by intros [= <- <-]. }
  rewrite run_from_snoc.
  destruct (run_from _ ops) as [[h1 e1]|] eqn:Hrun; [|done]. cbn.
  intros Ho.
  assert (reachable h1 e1) as Hreach by by exists ops.
  specialize (IH _ _ eq_refl).
  destruct o as [pair|fuel user pair sd ty px qty|i pair]; cbn in Ho.
  - simplify_eq. unfold addTradingPair.
    destruct (orderBooks_ e1 !! pair) eqn:Hp; [done|]. by apply Hadd.
  - destruct (submitOrder _ _ _ _ _ _ _ _ _) as [[[h2 e2] [trades|ex]]|] eqn:E;
      [| |done]; cbn in Ho; simplify_eq.
    + by eapply Hsub.
    + by destruct (submitOrder_Throw _ _ _ _ _ _ _ _ _ _ _ _
                     (reachable_keyed _ _ Hreach) E) as [-> ->].
  - destruct (cancelOrder _ _ _ _) as [[[h2 e2] [|]]|] eqn:E; [| |done];
      cbn in Ho; simplify_eq.
    + by eapply Hcan.
    + by destruct (cancelOrder_false _ _ _ _ _ _ E) as [-> ->].
Qed.

Lemma status_of_fills_fill q o :
  0 < filledQuantity o + q →
  status (fill q o) = status_of_fills (fill q o).
Proof.
  intros Hq. unfold fill, update_status, status_of_fills.
  destruct (isFilled (add_filled q o)) eqn:Hf.
  { unfold isFilled in *. cbn in *. by rewrite Hf. }
  assert ((0 <? filledQuantity (add_filled q o)) = true) as Hp
    by (cbn; lia).
  rewrite Hp. unfold isFilled in *. cbn in *. rewrite Hf.
  by rewrite Hp.
Qed.

Lemma filled_more_fill n o q :
  q = Z.min (getRemainingQuantity n) (getRemainingQuantity o) →
  isFilled n = false → isFilled o = false →
  valid_order n → valid_order o →
  filled_more n (fill q n) ∧ filled_more o (fill q o).
Proof.
  intros Hq Hn Ho Vn Vo.
  destruct (fill_valid n o q Hq Hn Ho Vn Vo) as (Hpos & [_ Vn'] & [_ Vo']).
  destruct Vn as [_ Vn], Vo as [_ Vo].
  split; split; try done; try apply fill_ident;
    rewrite ?fill_filled in *; try lia;
    apply status_of_fills_fill; lia.
Qed.

Lemma filled_more_trans o1 o2 o3 :
  filled_more o1 o2 → filled_more o2 o3 → filled_more o1 o3.
Proof.
  intros [] []. split; try done; [by eapply same_ident_trans|lia].
Qed.

(** A sweep leaves a record as it is or fills it further. *)
Lemma flat_sweep_filled_more acc t h Q h' Q' trs :
  flat_sweep acc t h Q h' Q' trs →
  NoDup Q → t ∉ Q → Forall (open_order h) Q → valid_heap h →
  ∀ p o, h !! p = Some o → ∃ o', h' !! p = Some o' ∧ (o' = o ∨ filled_more o o').
Proof.
  induction 1 as [| | | h m Q n o q h' Q' trs Hn Ho Hf Ha Hq Hfo _ IH
                 | h m Q n o q Hn Ho Hf Ha Hq Hfo]; intros Hnd Ht Hop Hv p o0 Hp;
    try by eauto.
  - apply NoDup_cons in Hnd as [Hm Hnd].
    apply not_elem_of_cons in Ht as [Hne Ht].
    apply Forall_cons in Hop as [(o1 & Ho1 & Hfo1) Hop]. simplify_eq.
    destruct (fill_valid n o _ eq_refl Hf Hfo1) as (_ & Vn & Vo); [by eapply Hv..|].
    destruct (filled_more_fill n o _ eq_refl Hf Hfo1) as [Fn Fo]; [by eapply Hv..|].
    assert (∃ o1, (filled_heap h t m n o
                     (Z.min (getRemainingQuantity n) (getRemainingQuantity o))) !! p
                  = Some o1 ∧ (o1 = o0 ∨ filled_more o0 o1)) as (o1 & Hp1 & H1).
    { destruct (decide (p = m)) as [->|Hpm].
      { rewrite filled_heap_maker by done. simplify_eq. eauto. }
      destruct (decide (p = t)) as [->|Hpt].
      { rewrite filled_heap_taker by done. simplify_eq. eauto. }
      rewrite filled_heap_other by done. eauto. }
    destruct (IH Hnd Ht (open_order_filled_heap _ _ _ _ _ _ _ Ht Hm Hop)
                (filled_heap_valid _ _ _ _ _ _ Hne Hn Ho Vn Vo Hv) p o1 Hp1)
      as (o2 & Hp2 & H2).
    exists o2. split; [done|].
    destruct H1 as [->|H1], H2 as [->|H2]; eauto using filled_more_trans.
  - apply not_elem_of_cons in Ht as [Hne Ht].
    apply Forall_cons in Hop as [(o1 & Ho1 & Hfo1) Hop]. simplify_eq.
    destruct (filled_more_fill n o _ eq_refl Hf Hfo1) as [Fn Fo]; [by eapply Hv..|].
    destruct (decide (p = m)) as [->|Hpm].
    { rewrite filled_heap_maker by done. simplify_eq. eauto. }
    destruct (decide (p = t)) as [->|Hpt].
    { rewrite filled_heap_taker by done. simplify_eq. eauto. }
    rewrite filled_heap_other by done. eauto.
Qed.

(** ** Statuses and the two ladders *)

(** Why a sweep stops: the incoming order is filled, the queue is
    exhausted, or the order at the front of the queue has a price that is
    not acceptable. *)
Lemma flat_sweep_stop acc t h Q h' Q' trs :
  flat_sweep acc t h Q h' Q' trs → t ∉ Q →
  ∃ n', h' !! t = Some n' ∧
    (isFilled n' = true ∨ Q' = [] ∨
     ∃ m o Q'', Q' = m :: Q'' ∧ h' !! m = Some o ∧ acc (price o) = false).
Proof.
  induction 1 as [h Q n Hn Hf|h n Hn|h m Q n o Hn Ho Hf Ha
                 | h m Q n o q h' Q' trs Hn Ho Hf Ha Hq Hfo _ IH
                 | h m Q n o q Hn Ho Hf Ha Hq Hfo]; intros Ht.
  - exists n. eauto.
  - exists n. eauto.
  - exists n. split; [done|]. right. right. by exists m, o, Q.
  - apply not_elem_of_cons in Ht as [Hne Ht]. by apply IH.
  - apply not_elem_of_cons in Ht as [Hne Ht].
    exists (fill q n). split; [by apply filled_heap_taker|]. left.
    rewrite isFilled_fill in *. unfold getRemainingQuantity in *. lia.
Qed.

Lemma uncrossed_sides b :
  uncrossed b ↔
  ∀ sd p1 o1 p2 o2, (p1, o1) ∈ ladder sd b → (p2, o2) ∈ ladder (opposite sd) b →
    priceAcceptable sd p2 p1 = false.
Proof.
  split.
  - intros Hu [] p1 o1 p2 o2 H1 H2; cbn in *.
    + specialize (Hu _ _ _ _ H1 H2). lia.
    + specialize (Hu _ _ _ _ H2 H1). lia.
  - intros Hu pb ob pa oa H1 H2. specialize (Hu BUY _ _ _ _ H1 H2). cbn in Hu. lia.
Qed.

Lemma priceAcceptable_worse sd p p' limit :
  priceAcceptable sd p limit = false → side_lt (opposite sd) p p' = true →
  priceAcceptable sd p' limit = false.
Proof. destruct sd; cbn; unfold ask_lt, bid_lt; lia. Qed.

Lemma queue_head_level h pair sd (L : Ladder) m Q :
  ladder_inv h pair sd L → queue L = m :: Q →
  ∃ px os L', L = (px, m :: os) :: L'.
Proof.
  intros Hl HQ. destruct L as [|[px os] L']; [done|].
  destruct os as [|m' os].
  { by destruct (li_nonempty _ _ _ _ Hl px []); [left|]. }
  rewrite queue_cons in HQ. cbn in HQ. simplify_eq. eauto.
Qed.

Lemma live_inv_new : live_inv [] MatchingEngine_new.
Proof. split; try done. Qed.

Lemma live_inv_addTradingPair h e pair :
  live_inv h e →
  live_inv h (set_books (<[pair := OrderBook_new pair]> (orderBooks_ e)) e).
Proof.
  intros [H1 H2 H3 H4]. split; cbn; [done|..].
  - intros pair' b sd m o [[<- <-]|[Hne Hb]]%lookup_insert_Some; [|by eapply H2].
    destruct sd; by intros ?%elem_of_nil.
  - intros pair' b i p o [[<- <-]|[Hne Hb]]%lookup_insert_Some; [done|by eapply H3].
  - intros pair' b [[<- <-]|[Hne Hb]]%lookup_insert_Some; [|by eapply H4].
    by intros ???? ?%elem_of_nil.
Qed.

(** What an accepted submission does to the records and to the book. *)
Lemma submitOrder_facts fuel h e user pair sd ty px qty h' e' trades :
  engine_inv h e →
  submitOrder fuel h e user pair sd ty px qty = Some (h', e', Return trades) →
  let t := length h in
  let n := Order_new (generateOrderId e).1 user pair sd ty px qty in
  ∃ b L' n',
    orderBooks_ e !! pair = Some b ∧
    e' = mkEngine (<[pair := book_after b t n' L']> (orderBooks_ e))
           (generateOrderId e).1 ∧
    length h' = S (length h) ∧
    h' !! t = Some n' ∧ same_ident n n' ∧ (n' = n ∨ filled_more n n') ∧
    ladder_tail (ladder (opposite sd) b) L' ∧
    (∀ p o, h !! p = Some o →
       ∃ o', h' !! p = Some o' ∧
         (o' = o ∨ (filled_more o o' ∧ p ∈ queue (ladder (opposite sd) b)))) ∧
    (isFilled n' = true ∨ L' = [] ∨
     ∃ lp os L'', L' = (lp, os) :: L'' ∧ limit_acc n lp = false).
Proof.
  intros Hinv Hsub t n.
  pose proof (engine_inv_submit _ _ _ _ _ _ _ _ _ _ _ _ Hinv Hsub) as Hinv'.
  destruct (submitOrder_spec _ _ _ _ _ _ _ _ _ _ _ _ Hinv Hsub)
    as (b & L' & n' & Hb & Hq & Hpx & Hs & Htail & Hn' & I & ->).
  fold t in Hs, Hn'. fold n in Hs, I.
  pose proof (ei_books _ _ Hinv pair b Hb) as Hbook.
  destruct (ladder_inv_alloc _ _ _ _ n (bi_ladder _ _ _ Hbook (opposite sd)))
    as [Hl1 Hfresh]. fold t in Hfresh.
  assert (valid_heap (h ++ [n])) as Hv.
  { intros p o Ho. apply lookup_app_Some in Ho as [Ho|[Hge Ho]].
    + by apply (ei_valid _ _ Hinv p).
    + apply list_lookup_singleton_Some in Ho as [Hp0 <-].
      unfold valid_order. cbn. lia. }
  pose proof (flat_sweep_filled_more _ _ _ _ _ _ _ Hs (li_nodup _ _ _ _ Hl1) Hfresh
                (ladder_inv_open _ _ _ _ Hl1) Hv) as Hrel.
  assert ((h ++ [n]) !! t = Some n) as Hn by by apply list_lookup_middle.
  exists b, L', n'. split; [done|]. split; [done|]. split.
  { by eapply submitOrder_Return_length. }
  split; [done|]. split; [done|]. split.
  { destruct (Hrel t n Hn) as (n2 & Hn2 & H2). by simplify_eq. }
  split; [done|]. split.
  - intros p o Hp.
    destruct (Hrel p o) as (o' & Ho' & H'); [by apply lookup_app_l_Some|].
    exists o'. split; [done|].
    destruct (decide (p ∈ queue (ladder (opposite sd) b))) as [Hin|Hnin].
    { destruct H'; eauto. }
    left. rewrite (flat_sweep_frame _ _ _ _ _ _ _ p Hs) in Ho'; [| |done].
    + apply lookup_app_l_Some with (l2 := [n]) in Hp. congruence.
    + apply lookup_lt_Some in Hp. unfold t. lia.
  - destruct (flat_sweep_stop _ _ _ _ _ _ _ Hs Hfresh)
      as (n2 & Hn2 & [Hf|[HQ|(m & o & Q'' & HQ & Ho & Hacc)]]).
    + left. by simplify_eq.
    + right. left. destruct L' as [|[lp os] L'']; [done|].
      assert (Hl' : ladder_inv h' pair (opposite (side n'))
                      (ladder (opposite (side n')) (book_after b t n' ((lp, os) :: L'')))).
      { apply (ei_books _ _ Hinv' pair); cbn. by rewrite lookup_insert_eq. }
      rewrite book_after_opposite in Hl'.
      destruct (li_nonempty _ _ _ _ Hl' lp os); [by left|].
      rewrite queue_cons in HQ. by apply app_eq_nil in HQ as [-> _].
    + right. right.
      assert (Hl' : ladder_inv h' pair (opposite (side n'))
                      (ladder (opposite (side n')) (book_after b t n' L'))).
      { apply (ei_books _ _ Hinv' pair); cbn. by rewrite lookup_insert_eq. }
      rewrite book_after_opposite in Hl'.
      destruct (queue_head_level _ _ _ _ _ _ Hl' HQ) as (lp & os & L'' & ->).
      exists lp, (m :: os), L''. split; [done|].
      destruct (li_resting _ _ _ _ Hl' lp (m :: os) m) as (o2 & Ho2 & _ & _ & Hpo & _);
        [by left|by left|].
      assert (o2 = o) as -> by congruence. by rewrite <- Hpo.
Qed.

Lemma filled_more_not_cancelled o o' : filled_more o o' → status o' ≠ CANCELLED.
Proof.
  intros [_ _ _ Hs]. rewrite Hs. unfold status_of_fills. by repeat case_match.
Qed.

Lemma elem_of_book_after_own b t n' L' p1 o1 :
  (p1, o1) ∈ ladder (side n') (book_after b t n' L') →
  (∃ o0, (p1, o0) ∈ ladder (side n') b) ∨ (isFilled n' = false ∧ p1 = price n').
Proof.
  rewrite book_after_own. destruct (isFilled n') eqn:Hf; [by eauto|].
  intros Hin. apply smap_upd_elem in Hin; [|by apply side_lt_total].
  destruct Hin as [?|[-> _]]; eauto.
Qed.

Lemma queue_book_after b t n' L' sd m :
  ladder_tail (ladder (opposite (side n')) b) L' →
  m ∈ queue (ladder sd (book_after b t n' L')) →
  m = t ∨ m ∈ queue (ladder sd b).
Proof.
  intros Htail.
  destruct (decide (sd = side n')) as [->|Hsd].
  - rewrite book_after_own. destruct (isFilled n'); [by eauto|].
    rewrite queue_push. by intros [->|?]%elem_of_cons; eauto.
  - assert (sd = opposite (side n')) as -> by by destruct sd, (side n').
    rewrite book_after_opposite. intros Hm. right.
    eapply elem_of_suffix; [done|]. by apply ladder_tail_queue.
Qed.

Lemma live_inv_submit fuel h e user pair sd ty px qty h' e' trades :
  engine_inv h e → live_inv h e →
  submitOrder fuel h e user pair sd ty px qty = Some (h', e', Return trades) →
  live_inv h' e'.
Proof.
  intros Hinv [H1 H2 H3 H4] Hsub.
  pose proof (engine_inv_submit _ _ _ _ _ _ _ _ _ _ _ _ Hinv Hsub) as Hinv'.
  destruct (submitOrder_facts _ _ _ _ _ _ _ _ _ _ _ _ Hinv Hsub)
    as (b & L' & n' & Hb & -> & Hlen & Hn' & I & Hnn & Htail & Hrel & Hstop).
  set (t := length h) in *.
  set (n := Order_new (generateOrderId e).1 user pair sd ty px qty) in *.
  pose proof (ei_books _ _ Hinv pair b Hb) as Hbook.
  assert (Hpre : ∀ p o', h' !! p = Some o' →
            (p = t ∧ o' = n') ∨ ∃ o, h !! p = Some o ∧ (o' = o ∨ filled_more o o')).
  { intros p o' Hp. destruct (decide (p = t)) as [->|Hne].
    { left. split; [done|congruence]. }
    right. apply lookup_lt_Some in Hp as Hlt.
    destruct (lookup_lt_is_Some_2 h p) as [o Ho]; [unfold t in Hne; lia|].
    exists o. split; [done|].
    destruct (Hrel p o Ho) as (o2 & Ho2 & [->|[? _]]); simplify_eq; eauto. }
  assert (Hnc : status n' ≠ CANCELLED).
  { destruct Hnn as [->|Hf]; [done|by eapply filled_more_not_cancelled]. }
  assert (Hkeep : ∀ p o o', h !! p = Some o → status o ≠ CANCELLED →
            h' !! p = Some o' → status o' ≠ CANCELLED ∧ tradingPair o' = tradingPair o).
  { intros p o o' Ho Hs Ho'.
    destruct (Hrel p o Ho) as (o2 & Ho2 & [->|[Hf _]]); simplify_eq; [done|].
    split; [by eapply filled_more_not_cancelled|apply (fm_ident _ _ Hf)]. }
  split; cbn.
  - intros p o' Hp. destruct (Hpre p o' Hp) as [[-> ->]|(o & Ho & [->|Hf])].
    + destruct Hnn as [->|Hf]; [|right; apply Hf].
      right. unfold n, status_of_fills, isFilled. cbn.
      destruct (submitOrder_spec _ _ _ _ _ _ _ _ _ _ _ _ Hinv Hsub)
        as (_ & _ & _ & _ & Hq & _).
      by repeat case_match; try lia.
    + by eapply H1.
    + right. apply Hf.
  - intros pair' b' sd' m o' Hb' Hm Ho'.
    assert (m = t ∨ ∃ b0, orderBooks_ e !! pair' = Some b0 ∧ m ∈ queue (ladder sd' b0))
      as [->|(b0 & Hb0 & Hm0)].
    { apply lookup_insert_Some in Hb' as [[<- <-]|[Hne Hb']]; [|by eauto].
      apply queue_book_after in Hm; [|by rewrite (si_side _ _ I)].
      destruct Hm as [?|?]; eauto. }
    { by assert (o' = n') as -> by congruence. }
    destruct (ladder_inv_queue _ _ _ _ _
                (bi_ladder _ _ _ (ei_books _ _ Hinv _ _ Hb0) sd') Hm0)
      as (o & Ho & _).
    eapply Hkeep; [done| |done]. by eapply H2.
  - intros pair' b' i p o' Hb' Hi Ho'.
    assert ((p = t ∧ pair' = pair) ∨
            ∃ b0, orderBooks_ e !! pair' = Some b0 ∧ orders_ b0 !! i = Some p)
      as [[-> ->]|(b0 & Hb0 & Hi0)].
    { apply lookup_insert_Some in Hb' as [[<- <-]|[Hne Hb']]; [|by eauto].
      rewrite book_after_orders in Hi.
      apply lookup_insert_Some in Hi as [[_ <-]|[_ Hi]]; eauto. }
    { simplify_eq. split; [|done]. by rewrite (si_pair _ _ I). }
    destruct (bi_orders _ _ _ (ei_books _ _ Hinv _ _ Hb0) i p Hi0) as (o & Ho & _).
    destruct (H3 _ _ _ _ _ Hb0 Hi0 Ho) as [Hpo Hso].
    destruct (Hkeep p o o' Ho Hso Ho') as [? ?]. split; [congruence|done].
  - intros pair' b' [[<- <-]|[Hne Hb']]%lookup_insert_Some; [|by eapply H4].
    apply uncrossed_sides. intros sd' p1 o1 p2 o2 Hp1 Hp2.
    pose proof (si_side _ _ I) as Hside. cbn in Hside.
    pose proof (proj1 (uncrossed_sides b) (H4 _ _ Hb)) as Hu.
    pose proof (bi_ladder _ _ _ Hbook) as Hlad.
    destruct (decide (sd' = side n')) as [->|Hsd].
    + rewrite book_after_opposite in Hp2.
      destruct (ladder_tail_elem _ _ _ _ Htail Hp2) as (os2 & Hos2 & _).
      apply elem_of_book_after_own in Hp1 as [[o0 Hp1]|[Hf ->]].
      { eapply Hu; [done|]. by rewrite Hside. }
      destruct Hstop as [?|[->|(lp & os & L'' & -> & Hacc)]]; [congruence| |].
      { by apply elem_of_nil in Hp2. }
      unfold limit_acc in Hacc. apply orb_false_iff in Hacc as [_ Hacc].
      rewrite (si_side _ _ I), (si_price _ _ I). cbn in Hacc.
      apply elem_of_cons in Hp2 as [?|Hp2]; [by simplify_eq|].
      eapply priceAcceptable_worse; [done|].
      assert (smap_sorted (side_lt (opposite sd)) ((lp, os) :: L'')) as Hsorted.
      { eapply ladder_tail_sorted; [done|]. apply Hlad. }
      apply smap_sorted_cons in Hsorted as [_ Hk]. by eapply Hk.
    + assert (sd' = opposite (side n')) as -> by by destruct sd', (side n').
      rewrite book_after_opposite in Hp1.
      assert (opposite (opposite (side n')) = side n') as Hopp by by destruct (side n').
      rewrite Hopp in Hp2.
      destruct (ladder_tail_elem _ _ _ _ Htail Hp1) as (os1 & Hos1 & _).
      rewrite <- Hside in Hos1.
      apply elem_of_book_after_own in Hp2 as [[o0 Hp2]|[Hf ->]].
      { eapply Hu; [done|]. by rewrite Hopp. }
      destruct Hstop as [?|[->|(lp & os & L'' & -> & Hacc)]]; [congruence| |].
      { by apply elem_of_nil in Hp1. }
      unfold limit_acc in Hacc. apply orb_false_iff in Hacc as [_ Hacc].
      cbn in Hacc.
      assert (priceAcceptable sd p1 px = false) as Hp1acc.
      { apply elem_of_cons in Hp1 as [?|Hp1]; [by simplify_eq|].
        eapply priceAcceptable_worse; [done|].
        assert (smap_sorted (side_lt (opposite sd)) ((lp, os) :: L'')) as Hsorted.
        { eapply ladder_tail_sorted; [done|]. apply Hlad. }
        apply smap_sorted_cons in Hsorted as [_ Hk]. by eapply Hk. }
      rewrite (si_price _ _ I), Hside. cbn.
      revert Hp1acc. destruct sd; cbn; lia.
Qed.

(** What a cancel that returns true does. *)
Lemma cancelOrder_true h e i pair h' e' :
  cancelOrder h e i pair = Some (h', e', true) →
  ∃ b p o,
    orderBooks_ e !! pair = Some b ∧ orders_ b !! i = Some p ∧ h !! p = Some o ∧
    h' = <[p := set_status CANCELLED o]> h ∧
    e' = set_books
           (<[pair := set_orders (delete i (orders_ b))
                        (set_ladder (side o)
                           (remove_from_book (side_lt (side o)) (price o) p
                              (ladder (side o) b)) b)]> (orderBooks_ e)) e.
Proof.
  intros [(_ & _ & _ & ?)|(b & b' & Hb & Hc & ->)]%cancelOrder_Some; [done|].
  apply OrderBook_cancelOrder_Some in Hc
    as [(_ & _ & _ & ?)|(p & o & Hi & Hp & -> & -> & _)]; [done|].
  by exists b, p, o.
Qed.

Lemma remove_from_book_elem lt px p (L : Ladder) px' os' :
  (∀ a b, lt a b = false → lt b a = false → a = b) →
  (px', os') ∈ remove_from_book lt px p L → ∃ os, (px', os) ∈ L.
Proof.
  intros Htot. unfold remove_from_book.
  destruct (smap_find lt px L) as [os|] eqn:Hfind; [|by eauto].
  destruct (filter _ os) as [|q qs].
  - intros ?%smap_erase_elem. eauto.
  - intros Hin. apply smap_upd_elem in Hin; [|done].
    destruct Hin as [?|[-> _]]; [by eauto|].
    apply smap_find_elem_1 in Hfind; [|done]. eauto.
Qed.

(** After the removal the order rests nowhere in the ladder. *)
Lemma remove_from_book_gone h pair sd (l : Ladder) p o :
  ladder_inv h pair sd l → h !! p = Some o →
  p ∉ queue (remove_from_book (side_lt sd) (price o) p l).
Proof.
  intros Hl Hp Hin.
  pose proof (ladder_inv_remove _ _ _ _ (price o) p Hl) as Hl'.
  apply elem_of_queue in Hin as (px' & os' & Hlev & Hin).
  pose proof (remove_from_book_level sd (price o) p l px' (li_sorted _ _ _ _ Hl)) as Hlv.
  rewrite (smap_find_elem_2 _ (side_lt_irrefl sd) (side_lt_trans sd)
             _ _ _ (li_sorted _ _ _ _ Hl') Hlev) in Hlv.
  cbn in Hlv. rewrite Hlv in Hin.
  - apply list_elem_of_filter in Hin as [? _]. done.
  - intros px1 os Hl1 Hp1.
    destruct (li_resting _ _ _ _ Hl px1 os p Hl1 Hp1) as (o1 & Ho1 & _ & _ & ? & _).
    congruence.
Qed.

Lemma live_inv_cancel h e i pair h' e' :
  engine_inv h e → live_inv h e →
  cancelOrder h e i pair = Some (h', e', true) →
  live_inv h' e'.
Proof.
  intros Hinv [H1 H2 H3 H4] Hc.
  destruct (cancelOrder_true _ _ _ _ _ _ Hc) as (b & p & o & Hb & Hi & Hp & -> & ->).
  pose proof (ei_books _ _ Hinv pair b Hb) as Hbook.
  destruct (H3 _ _ _ _ _ Hb Hi Hp) as [Hpo Hso].
  destruct (bi_orders _ _ _ Hbook i p Hi) as (o0 & Ho0 & Hid).
  assert (o0 = o) as -> by congruence.
  split; cbn.
  - intros p' o' [(-> & <- & _)|[Hne Ho']]%list_lookup_insert_Some; [by left|].
    by eapply H1.
  - intros pair' b' sd m o' Hb' Hm Ho'.
    apply list_lookup_insert_Some in Ho' as [(-> & <- & _)|[Hne Ho']].
    + exfalso.
      apply lookup_insert_Some in Hb' as [[<- <-]|[Hne Hb']].
      * destruct (decide (sd = side o)) as [->|Hsd].
        -- rewrite ladder_set_orders, ladder_set_ladder in Hm.
           by eapply remove_from_book_gone; [apply (bi_ladder _ _ _ Hbook)|..].
        -- rewrite ladder_set_orders, ladder_set_ladder_ne in Hm by done.
           destruct (ladder_inv_queue _ _ _ _ _ (bi_ladder _ _ _ Hbook sd) Hm)
             as (o1 & Ho1 & _ & Hs1 & _). congruence.
      * destruct (ladder_inv_queue _ _ _ _ _
                    (bi_ladder _ _ _ (ei_books _ _ Hinv _ _ Hb') sd) Hm)
          as (o1 & Ho1 & Hp1 & _). congruence.
    + apply lookup_insert_Some in Hb' as [[<- <-]|[Hne' Hb']]; [|by eapply H2].
      eapply (H2 pair b sd m); [done| |done].
      destruct (decide (sd = side o)) as [->|Hsd].
      * rewrite ladder_set_orders, ladder_set_ladder in Hm.
        eapply elem_of_sublist; [done|apply remove_from_book_queue].
      * by rewrite ladder_set_orders, ladder_set_ladder_ne in Hm.
  - intros pair' b' i' p' o' Hb' Hi' Ho'.
    assert (∃ b0, orderBooks_ e !! pair' = Some b0 ∧ orders_ b0 !! i' = Some p' ∧
                  (pair' = pair → i' ≠ i)) as (b0 & Hb0 & Hi0 & Hii).
    { apply lookup_insert_Some in Hb' as [[<- <-]|[Hne Hb']].
      - cbn in Hi'. apply lookup_delete_Some in Hi' as [? ?]. exists b. eauto.
      - exists b'. repeat split; [done..|congruence]. }
    apply list_lookup_insert_Some in Ho' as [(<- & <- & _)|[Hne Ho']]; [|by eapply H3].
    exfalso. destruct (H3 _ _ _ _ _ Hb0 Hi0 Hp) as [Hpair _].
    destruct (bi_orders _ _ _ (ei_books _ _ Hinv _ _ Hb0) i' p Hi0) as (o1 & Ho1 & Hid1).
    assert (o1 = o) as -> by congruence.
    apply Hii; congruence.
  - intros pair' b' [[<- <-]|[Hne Hb']]%lookup_insert_Some; [|by eapply H4].
    intros pb ob pa oa Hbid Hask. specialize (H4 _ _ Hb).
    destruct (side o); cbn in Hbid, Hask.
    + apply remove_from_book_elem in Hbid as [os Hbid]; [|apply (side_lt_total BUY)].
      by eapply H4.
    + apply remove_from_book_elem in Hask as [os Hask]; [|apply (side_lt_total SELL)].
      by eapply H4.
Qed.

Lemma reachable_live h e : reachable h e → live_inv h e.
Proof.
  revert h e. apply reachable_induction.
  - apply live_inv_new.
  - intros h e pair _ Hl _. by apply live_inv_addTradingPair.
  - intros ???????????? Hr Hl Hs.
    eapply live_inv_submit; [by apply reachable_inv|done|done].
  - intros ?????? Hr Hl Hc.
    eapply live_inv_cancel; [by apply reachable_inv|done|done].
Qed.

(** ** Orders and their statuses *)

Lemma status_of_fills_FILLED o : status_of_fills o = FILLED ↔ isFilled o = true.
Proof. unfold status_of_fills. repeat case_match; naive_solver. Qed.


Lemma record_evolves_refl o : record_evolves o o.
Proof. split; [apply same_ident_refl|lia|done|by eauto]. Qed.

Lemma record_evolves_trans o1 o2 o3 :
  record_evolves o1 o2 → record_evolves o2 o3 → record_evolves o1 o3.
Proof.
  intros [I1 F1 C1 U1] [I2 F2 C2 U2]. split.
  - by eapply same_ident_trans.
  - lia.
  - intros Hc. specialize (C1 Hc). subst. by apply C2.
  - intros Hf. destruct (U1 Hf) as [E1 S1].
    assert (isFilled o2 = true) as Hf2.
    { unfold isFilled in *. rewrite (si_quantity _ _ I1). lia. }
    destruct (U2 Hf2) as [E2 S2]. split; [lia|].
    destruct S1 as [S1|S1]; [destruct S2; [left|right]; congruence|].
    rewrite (C2 S1). by right.
Qed.

Lemma set_status_evolves o :
  status o ≠ CANCELLED → record_evolves o (set_status CANCELLED o).
Proof. intros Hs. split; try done. cbn. by eauto. Qed.

(** ** Best prices, depth and market data *)

Lemma uncrossed_best b :
  uncrossed b → bids_ b ≠ [] → asks_ b ≠ [] → getBestBid b < getBestAsk b.
Proof.
  intros Hu. unfold getBestBid, getBestAsk.
  destruct (bids_ b) as [|[pb ob] ?] eqn:Hbids; [done|].
  destruct (asks_ b) as [|[pa oa] ?] eqn:Hasks; [done|].
  intros _ _. eapply Hu; rewrite ?Hbids, ?Hasks; by left.
Qed.


Lemma ladder_best h pair sd (l : Ladder) lp os l' :
  ladder_inv h pair sd l → l = (lp, os) :: l' →
  (∃ m o, m ∈ queue l ∧ h !! m = Some o ∧ price o = lp) ∧
  (∀ m o, m ∈ queue l → h !! m = Some o →
     price o = lp ∨ side_lt sd lp (price o) = true).
Proof.
  intros Hl ->. split.
  - destruct os as [|m os].
    { by destruct (li_nonempty _ _ _ _ Hl lp []); [left|]. }
    destruct (li_resting _ _ _ _ Hl lp (m :: os) m) as (o & Ho & _ & _ & Hp & _);
      [by left|by left|].
    exists m, o. split; [|done]. rewrite queue_cons. by left.
  - intros m o Hm Ho. apply elem_of_queue in Hm as (lp' & os' & Hlev & Hm).
    destruct (li_resting _ _ _ _ Hl lp' os' m Hlev Hm) as (o' & Ho' & _ & _ & Hp & _).
    assert (o' = o) as -> by congruence. rewrite Hp.
    apply elem_of_cons in Hlev as [?|Hlev]; [left; congruence|]. right.
    pose proof (li_sorted _ _ _ _ Hl) as Hs.
    apply smap_sorted_cons in Hs as [_ Hk].
    by eapply Hk.
Qed.


Lemma depth_entries h e pair b levels :
  engine_inv h e → orderBooks_ e !! pair = Some b →
  ∃ bidEntries askEntries,
    Forall2 (level_entry h) (take (Z.to_nat levels) (bids_ b)) bidEntries ∧
    Forall2 (level_entry h) (take (Z.to_nat levels) (asks_ b)) askEntries ∧
    getBidDepth h b levels = Some (reverse bidEntries) ∧
    getAskDepth h b levels = Some askEntries.
Proof.
  intros Hinv Hb.
  pose proof (ei_books _ _ Hinv pair b Hb) as Hbook.
  pose proof (bi_ladder _ _ _ Hbook BUY) as Hbids.
  pose proof (bi_ladder _ _ _ Hbook SELL) as Hasks. cbn in Hbids, Hasks.
  destruct (depth_loop_bids h (bids_ b) levels 0 []) as (be & HFb & Hlb).
  { apply Hbids. }
  { intros px os Hin. eapply ladder_inv_records; [exact Hbids|done]. }
  { by intros ???? ?%elem_of_nil. }
  destruct (depth_loop_asks h (asks_ b) levels 0 []) as (ae & HFa & Hla).
  { apply Hasks. }
  { intros px os Hin. eapply ladder_inv_records; [exact Hasks|done]. }
  { by intros ???? ?%elem_of_nil. }
  rewrite Z.sub_0_r in HFb, HFa.
  exists be, ae. repeat split; try done.
  unfold getBidDepth. rewrite Hlb. by rewrite app_nil_r.
Qed.

Lemma sum_Z_pos (l : list Z) : l ≠ [] → Forall (λ q, 0 < q) l → 0 < sum_Z l.
Proof.
  intros Hne Hl. destruct l as [|q l]; [done|].
  apply Forall_cons in Hl as [Hq Hl]. clear Hne. unfold sum_Z. cbn.
  enough (0 ≤ foldr Z.add 0 l) by lia. clear Hq.
  induction Hl as [|q' l Hq' Hl IH]; cbn; [done|]. lia.
Qed.

Lemma level_entry_pos h pair sd (l : Ladder) lvl entry :
  valid_heap h → ladder_inv h pair sd l → lvl ∈ l →
  level_entry h lvl entry → 0 < entry.2.
Proof.
  intros Hv Hl Hin [_ (recs & Hrecs & ->)]. destruct lvl as [lp os]. cbn in *.
  apply sum_Z_pos.
  - pose proof (li_nonempty _ _ _ _ Hl lp os Hin) as Hne.
    destruct Hrecs; [done|]. done.
  - apply Forall_fmap, Forall_forall. intros o Ho.
    apply list_elem_of_lookup in Ho as [i Hi].
    destruct (Forall2_lookup_r _ _ _ _ _ Hrecs Hi) as (m & Hm & Hmo).
    destruct (li_resting _ _ _ _ Hl lp os m Hin) as (o' & Ho' & _ & _ & _ & Hf).
    { by eapply list_elem_of_lookup_2. }
    assert (o' = o) as -> by congruence. cbn.
    unfold isFilled, getRemainingQuantity in *. lia.
Qed.

Lemma level_entries_pos h pair sd (l : Ladder) k entries :
  valid_heap h → ladder_inv h pair sd l →
  Forall2 (level_entry h) (take k l) entries →
  Forall (λ x, 0 < x.2) entries.
Proof.
  intros Hv Hl HF. apply Forall_forall. intros entry Hin.
  apply list_elem_of_lookup in Hin as [i Hi].
  destruct (Forall2_lookup_r _ _ _ _ _ HF Hi) as (lvl & Hlvl & Hle).
  eapply level_entry_pos; [done|done| |done].
  eapply elem_of_sublist; [by eapply list_elem_of_lookup_2|apply sublist_take].
Qed.



(** ** Acceptable prices *)

Lemma limit_acc_acceptable i u p sd ty px qty lp :
  limit_acc (Order_new i u p sd ty px qty) lp = acceptable sd ty px lp.
Proof. unfold limit_acc, acceptable. cbn. by destruct ty. Qed.

(** ** The books are independent *)

Lemma level_total_ext h h' os acc :
  (∀ m, m ∈ os → h' !! m = h !! m) → level_total h' os acc = level_total h os acc.
Proof.
  revert acc. induction os as [|m os IH]; intros acc Hext; [done|].
  cbn. rewrite Hext by by left. destruct (h !! m); [|done]. cbn.
  apply IH. intros m' Hm'. apply Hext. by right.
Qed.

Lemma depth_loop_ext h h' (L : Ladder) levels count depth :
  (∀ m, m ∈ queue L → h' !! m = h !! m) →
  depth_loop h' L levels count depth = depth_loop h L levels count depth.
Proof.
  revert count depth. induction L as [|[lp os] L IH]; intros count depth Hext; [done|].
  cbn. destruct (count >=? levels); [done|].
  rewrite (level_total_ext h h') by (intros m Hm; apply Hext; rewrite queue_cons;
                                      apply elem_of_app; by left).
  destruct (level_total h os 0); [|done]. cbn.
  apply IH. intros m Hm. apply Hext. rewrite queue_cons. apply elem_of_app. by right.
Qed.

Lemma filter_ext_in {A} (P Q : A → Prop) `{∀ x, Decision (P x)} `{∀ x, Decision (Q x)}
    (l : list A) :
  (∀ x, x ∈ l → P x ↔ Q x) → filter P l = filter Q l.
Proof.
  induction l as [|x l IH]; intros Hext; [done|].
  rewrite !filter_cons.
  rewrite IH by (intros y Hy; apply Hext; by right).
  destruct (decide (P x)) as [HP|HP], (decide (Q x)) as [HQ|HQ]; try done.
  - by apply (Hext x) in HP; [|left].
  - by apply (Hext x) in HQ; [|left].
Qed.

Lemma OrderBook_getUserOrders_ext h h' b user :
  (∀ i p, orders_ b !! i = Some p → h' !! p = h !! p) →
  OrderBook_getUserOrders h' b user = OrderBook_getUserOrders h b user.
Proof.
  intros Hext. unfold OrderBook_getUserOrders. apply filter_ext_in.
  intros p Hp. apply list_elem_of_fmap in Hp as ([i p'] & -> & Hip).
  apply elem_of_map_to_list in Hip. cbn. by rewrite (Hext i p').
Qed.

(** An operation leaves what it does not name as it is: the records of
    the orders of the other books, and those books. *)
Lemma apply_op_frame h e op h' e' pair b :
  reachable h e → apply_op (h, e) op = Some (h', e') →
  op_pair op ≠ pair → orderBooks_ e !! pair = Some b →
  orderBooks_ e' !! pair = Some b ∧
  (∀ sd m, m ∈ queue (ladder sd b) → h' !! m = h !! m) ∧
  (∀ i p, orders_ b !! i = Some p → h' !! p = h !! p).
Proof.
  intros Hreach Hop Hne Hb.
  pose proof (reachable_inv _ _ Hreach) as Hinv.
  pose proof (reachable_live _ _ Hreach) as Hlive.
  pose proof (ei_books _ _ Hinv _ _ Hb) as Hbook.
  assert (Hpair : ∀ m o, h !! m = Some o →
            (∃ sd, m ∈ queue (ladder sd b)) ∨ (∃ i, orders_ b !! i = Some m) →
            tradingPair o = pair).
  { intros m o Ho [[sd Hm]|[i Hi]].
    - destruct (ladder_inv_queue _ _ _ _ _ (bi_ladder _ _ _ Hbook sd) Hm)
        as (o' & Ho' & ? & _). congruence.
    - by destruct (lv_dir _ _ Hlive _ _ _ _ _ Hb Hi Ho). }
  assert (Hex : ∀ m,
            (∃ sd, m ∈ queue (ladder sd b)) ∨ (∃ i, orders_ b !! i = Some m) →
            is_Some (h !! m)).
  { intros m [[sd Hm]|[i Hi]].
    - destruct (ladder_inv_queue _ _ _ _ _ (bi_ladder _ _ _ Hbook sd) Hm)
        as (o' & Ho' & _). by eexists.
    - destruct (bi_orders _ _ _ Hbook i m Hi) as (o' & Ho' & _). by eexists. }
  enough (orderBooks_ e' !! pair = Some b ∧
          ∀ m o, h !! m = Some o → tradingPair o = pair → h' !! m = Some o) as [H1 H2].
  { split; [done|]. split.
    - intros sd m Hm. destruct (Hex m) as [o Ho]; [by eauto|].
      rewrite Ho. apply H2; [done|]. eapply Hpair; eauto.
    - intros i p Hi. destruct (Hex p) as [o Ho]; [by eauto|].
      rewrite Ho. apply H2; [done|]. eapply Hpair; eauto. }
  destruct op as [sym|fuel user sym sd ty px qty|i sym]; cbn in Hop, Hne.
  - simplify_eq. split; [|done]. unfold addTradingPair.
    destruct (orderBooks_ e !! sym); [done|]. cbn. by rewrite lookup_insert_ne.
  - destruct (submitOrder _ _ _ _ _ _ _ _ _) as [[[h2 e2] [trades|ex]]|] eqn:E;
      [| |done]; cbn in Hop; simplify_eq.
    + destruct (submitOrder_facts _ _ _ _ _ _ _ _ _ _ _ _ Hinv E)
        as (b0 & L' & n' & Hb0 & -> & _ & _ & _ & _ & _ & Hrel & _).
      split; [by cbn; rewrite lookup_insert_ne|].
      intros m o Ho Hpo.
      destruct (Hrel m o Ho) as (o' & Ho' & [->|[_ Hin]]); [done|].
      destruct (ladder_inv_queue _ _ _ _ _
                  (bi_ladder _ _ _ (ei_books _ _ Hinv _ _ Hb0) (opposite sd)) Hin)
        as (o2 & Ho2 & ? & _). congruence.
    + by destruct (submitOrder_Throw _ _ _ _ _ _ _ _ _ _ _ _
                     (reachable_keyed _ _ Hreach) E) as [-> ->].
  - destruct (cancelOrder _ _ _ _) as [[[h2 e2] [|]]|] eqn:E; [| |done];
      cbn in Hop; simplify_eq.
    + destruct (cancelOrder_true _ _ _ _ _ _ E) as (b0 & q & oq & Hb0 & Hi & Hq & -> & ->).
      split; [by cbn; rewrite lookup_insert_ne|].
      intros m o Ho Hpo. rewrite list_lookup_insert_ne; [done|].
      intros ->. destruct (lv_dir _ _ Hlive _ _ _ _ _ Hb0 Hi Hq) as [? _]. congruence.
    + by destruct (cancelOrder_false _ _ _ _ _ _ E) as [-> ->].
Qed.


(** ** Cancelling, counting and registering *)

(** X11.  [cancelOrder] returns true exactly when the pair is registered and
    its book has the id in its directory; when it returns false nothing
    changes.  In both cases the id is unknown to the book afterwards: a
    second cancel of the same id returns false and changes nothing. *)
Theorem cancel_again_returns_false h e i pair h' e' r :
  cancelOrder h e i pair = Some (h', e', r) →
  (r = true ↔ ∃ b p, orderBooks_ e !! pair = Some b ∧ orders_ b !! i = Some p) ∧
  (r = false → h' = h ∧ e' = e) ∧
  cancelOrder h' e' i pair = Some (h', e', false).
Proof.
  intros Hc. destruct r.
  - destruct (cancelOrder_true _ _ _ _ _ _ Hc) as (b & p & o & Hb & Hi & Hp & -> & ->).
    split; [by split; eauto|]. split; [done|].
    unfold cancelOrder, getOrderBook. cbn. rewrite lookup_insert_eq.
    unfold OrderBook_cancelOrder. cbn. rewrite lookup_delete_eq. cbn.
    by rewrite insert_insert_eq.
  - destruct (cancelOrder_false _ _ _ _ _ _ Hc) as [-> ->].
    split; [|done]. split; [done|]. intros (b & p & Hb & Hi).
    unfold cancelOrder, getOrderBook, OrderBook_cancelOrder in Hc.
    rewrite Hb, Hi in Hc. cbn in Hc.
    destruct (h !! p); cbn in Hc; [|done].
    by destruct (modify _ _ _).
Qed.

Lemma run_from_cons s o ops :
  run_from s (o :: ops) = apply_op s o ≫= λ s', run_from s' ops.
Proof. apply (run_from_app s [o] ops). Qed.

Lemma apply_op_counter h e o h' e' :
  reachable h e → apply_op (h, e) o = Some (h', e') →
  orderIdCounter_ e'
  = if is_accepted (h, e) o then (orderIdCounter_ e + 1) mod 2 ^ 64
    else orderIdCounter_ e.
Proof.
  intros Hreach.
  destruct o as [sym|fuel user sym sd ty px qty|i sym]; cbn.
  - intros [= _ <-]. unfold addTradingPair. by destruct (orderBooks_ e !! sym).
  - destruct (submitOrder _ _ _ _ _ _ _ _ _) as [[[h2 e2] [trades|ex]]|] eqn:E;
      [| |done]; cbn; intros [= <- <-].
    + by destruct (submitOrder_spec _ _ _ _ _ _ _ _ _ _ _ _
                     (reachable_inv _ _ Hreach) E)
        as (b & L' & n' & _ & _ & _ & _ & _ & _ & _ & ->).
    + by destruct (submitOrder_Throw _ _ _ _ _ _ _ _ _ _ _ _
                     (reachable_keyed _ _ Hreach) E) as [-> ->].
  - destruct (cancelOrder _ _ _ _) as [[[h2 e2] r]|] eqn:E; [|done].
    cbn. intros [= <- <-].
    apply cancelOrder_Some in E as [(_ & _ & -> & _)|(b & b' & _ & _ & ->)]; done.
Qed.

Lemma run_from_counter ops h e h' e' :
  reachable h e → 0 ≤ orderIdCounter_ e < 2 ^ 64 →
  run_from (h, e) ops = Some (h', e') →
  orderIdCounter_ e'
  = (orderIdCounter_ e + Z.of_nat (accepted (h, e) ops)) mod 2 ^ 64.
Proof.
  revert h e. induction ops as [|o ops IH]; intros h e Hreach Hc.
  { intros [= <- <-]. cbn. rewrite Z.add_0_r, Z.mod_small; [done|lia]. }
  rewrite run_from_cons. cbn [accepted].
  destruct (apply_op (h, e) o) as [[h1 e1]|] eqn:Hop; [|done]. cbn.
  intros Hrun.
  pose proof (apply_op_counter _ _ _ _ _ Hreach Hop) as H1.
  assert (reachable h1 e1) as Hreach1.
  { eapply (reachable_run h e [o]); [done|]. by rewrite run_from_cons, Hop. }
  rewrite (IH _ _ Hreach1); [| |done].
  - rewrite H1. destruct (is_accepted (h, e) o).
    + rewrite Zplus_mod_idemp_l. f_equal; lia.
    + f_equal; lia.
  - rewrite H1. destruct (is_accepted (h, e) o); [|done].
    apply Z.mod_pos_bound. lia.
Qed.

(** X12.  [getTotalOrders] is the number of submissions that the engine has
    accepted, modulo 2^64: rejected submissions, cancels and
    [addTradingPair] do not count, and orders that were filled or
    cancelled since are still counted. *)
Theorem total_orders_counts_accepted ops h e :
  run_from fresh ops = Some (h, e) →
  getTotalOrders e = Z.of_nat (accepted fresh ops) mod 2 ^ 64 ∧
  length h = accepted fresh ops.
Proof.
  intros Hrun. split.
  - unfold getTotalOrders, fresh in *.
    rewrite (run_from_counter ops [] MatchingEngine_new h e); [done| |done|done].
    by exists [].
  - unfold fresh in *.
    assert (reachable [] MatchingEngine_new) as Hreach by by exists [].
    revert Hreach Hrun. generalize MatchingEngine_new as e0.
    assert (∀ (h0 : list Order) e0, reachable h0 e0 →
              run_from (h0, e0) ops = Some (h, e) →
              length h = (length h0 + accepted (h0, e0) ops)%nat) as Hgen.
    { induction ops as [|o ops IH]; intros h0 e0 Hreach.
      { intros [= <- <-]. cbn. lia. }
      rewrite run_from_cons. cbn [accepted].
      destruct (apply_op (h0, e0) o) as [[h1 e1]|] eqn:Hop; [|done]. cbn.
      intros Hrun.
      assert (reachable h1 e1) as Hreach1.
      { eapply (reachable_run h0 e0 [o]); [done|]. by rewrite run_from_cons, Hop. }
      rewrite (IH _ _ Hreach1 Hrun).
      enough (length h1 = (length h0 + if is_accepted (h0, e0) o then 1 else 0)%nat)
        by lia.
      destruct o as [sym|fuel user sym sd ty px qty|i sym]; cbn in Hop |- *.
      - simplify_eq. lia.
      - destruct (submitOrder _ _ _ _ _ _ _ _ _) as [[[h2 e2] [trades|ex]]|] eqn:E;
          [| |done]; cbn in Hop; simplify_eq.
        + rewrite (submitOrder_Return_length _ _ _ _ _ _ _ _ _ _ _ _ E). lia.
        + destruct (submitOrder_Throw _ _ _ _ _ _ _ _ _ _ _ _
                      (reachable_keyed _ _ Hreach) E) as [-> ->]. lia.
      - destruct (cancelOrder _ _ _ _) as [[[h2 e2] r]|] eqn:E; [|done].
        cbn in Hop. simplify_eq. rewrite (cancelOrder_length _ _ _ _ _ _ _ E). lia. }
    intros e0 Hreach Hrun. by rewrite (Hgen _ _ Hreach Hrun).
Qed.

(** X13.  [addTradingPair] returns true exactly when the pair was not
    registered; it then registers an empty book under the pair and the
    pair count grows by one.  Otherwise nothing changes: an existing
    book is never replaced, so its orders are kept.  Other pairs and the
    order counter are untouched, and adding the same pair again returns
    false. *)
Theorem addTradingPair_registers_once e pair :
  let e1 := (addTradingPair e pair).1 in
  let r1 := (addTradingPair e pair).2 in
  (r1 = true ↔ orderBooks_ e !! pair = None) ∧
  (r1 = false → e1 = e) ∧
  orderBooks_ e1 !! pair
  = Some (default (OrderBook_new pair) (orderBooks_ e !! pair)) ∧
  (∀ sym, sym ≠ pair → orderBooks_ e1 !! sym = orderBooks_ e !! sym) ∧
  getTotalOrders e1 = getTotalOrders e ∧
  getTradingPairCount e1
  = (getTradingPairCount e + if r1 then 1 else 0)%nat ∧
  addTradingPair e1 pair = (e1, false).
Proof.
  unfold addTradingPair, getTradingPairCount.
  destruct (orderBooks_ e !! pair) as [b|] eqn:Hb; cbn.
  - rewrite Hb. repeat split; try done; lia.
  - rewrite lookup_insert_eq. repeat split; try done.
    + intros sym Hne. by rewrite lookup_insert_ne.
    + rewrite map_size_insert_None by done; lia.
Qed.

Lemma apply_op_registered h e o h' e' pair :
  reachable h e → apply_op (h, e) o = Some (h', e') →
  is_Some (orderBooks_ e' !! pair)
  ↔ is_Some (orderBooks_ e !! pair) ∨ o = AddTradingPair pair.
Proof.
  intros Hreach Hop.
  assert (∀ b b', orderBooks_ e !! op_pair o = Some b →
            is_Some ((<[op_pair o := b']> (orderBooks_ e)) !! pair)
            ↔ is_Some (orderBooks_ e !! pair)) as Hins.
  { intros b b' Hb. destruct (decide (op_pair o = pair)) as [<-|Hne].
    - rewrite lookup_insert_eq, Hb. split; by eauto.
    - by rewrite lookup_insert_ne. }
  destruct o as [sym|fuel user sym sd ty px qty|i sym]; cbn in Hop, Hins.
  - simplify_eq. unfold addTradingPair.
    destruct (orderBooks_ e !! sym) as [b|] eqn:Hb; cbn.
    + split; [by left|]. intros [?|[= ->]]; [done|]. by rewrite Hb.
    + destruct (decide (sym = pair)) as [<-|Hne].
      * rewrite lookup_insert_eq. split; [by right|by eauto].
      * rewrite lookup_insert_ne by done. split; [by left|].
        intros [?|[= ?]]; done.
  - destruct (submitOrder _ _ _ _ _ _ _ _ _) as [[[h2 e2] [trades|ex]]|] eqn:E;
      [| |done]; cbn in Hop; simplify_eq.
    + destruct (submitOrder_spec _ _ _ _ _ _ _ _ _ _ _ _
                  (reachable_inv _ _ Hreach) E)
        as (b & L' & n' & Hb & _ & _ & _ & _ & _ & _ & ->). cbn.
      rewrite (Hins b _ Hb). split; [by left|]. by intros [?|?].
    + destruct (submitOrder_Throw _ _ _ _ _ _ _ _ _ _ _ _
                  (reachable_keyed _ _ Hreach) E) as [-> ->].
      split; [by left|]. by intros [?|?].
  - destruct (cancelOrder _ _ _ _) as [[[h2 e2] r]|] eqn:E; [|done].
    cbn in Hop. simplify_eq.
    apply cancelOrder_Some in E as [(_ & _ & -> & _)|(b & b' & Hb & _ & ->)].
    + split; [by left|]. by intros [?|?].
    + cbn. rewrite (Hins b _ Hb). split; [by left|]. by intros [?|?].
Qed.

(** X14.  The registered pairs are exactly the pairs that were added:
    submissions and cancels never register or remove a pair, and
    [getTradingPairCount] is the number of distinct pairs added. *)
Theorem registered_pairs_are_those_added ops h e :
  run_from fresh ops = Some (h, e) →
  (∀ pair, is_Some (orderBooks_ e !! pair) ↔ AddTradingPair pair ∈ ops) ∧
  getTradingPairCount e = length (remove_dups (pairs_added ops)).
Proof.
  intros Hrun.
  assert (∀ pair, is_Some (orderBooks_ e !! pair) ↔ AddTradingPair pair ∈ ops)
    as Hreg.
  { revert h e Hrun. induction ops as [|o ops IH] using rev_ind; intros h e.
    { intros [= <- <-] pair. cbn. rewrite lookup_empty. split.
      - by intros [? ?].
      - by intros ?%elem_of_nil. }
    unfold fresh. rewrite run_from_snoc.
    destruct (run_from _ ops) as [[h1 e1]|] eqn:Hrun; [|done]. cbn.
    intros Hop pair.
    rewrite (apply_op_registered h1 e1 o h e); [|by exists ops|done].
    rewrite (IH h1 e1) by done.
    rewrite elem_of_app, list_elem_of_singleton. split; intros [?|?]; eauto. }
  split; [done|].
  assert (∀ pair, pair ∈ pairs_added ops ↔ AddTradingPair pair ∈ ops) as Hadded.
  { intros pair. unfold pairs_added. rewrite list_elem_of_omap. split.
    - intros (o & Ho & Hp). destruct o; by simplify_eq.
    - intros Hin. by exists (AddTradingPair pair). }
  unfold getTradingPairCount. rewrite <- size_dom.
  assert (dom (orderBooks_ e) = list_to_set (remove_dups (pairs_added ops))) as ->.
  { apply set_eq. intros pair.
    by rewrite elem_of_dom, elem_of_list_to_set, elem_of_remove_dups, Hreg, Hadded. }
  apply size_list_to_set, NoDup_remove_dups.
Qed.

(** ** The orders of a user *)

Lemma elem_of_OrderBook_getUserOrders h b user p :
  p ∈ OrderBook_getUserOrders h b user ↔
  ∃ i o, orders_ b !! i = Some p ∧ h !! p = Some o ∧ userId o = user.
Proof.
  unfold OrderBook_getUserOrders. rewrite list_elem_of_filter, list_elem_of_fmap.
  split.
  - intros [Hu ([i p'] & -> & Hip)]. apply elem_of_map_to_list in Hip. cbn in *.
    destruct (h !! p') as [o|] eqn:Ho; [|done]. cbn in Hu.
    exists i, o. split; [done|]. split; [done|]. congruence.
  - intros (i & o & Hi & Ho & Hu). split.
    + rewrite Ho. cbn. by rewrite Hu.
    + exists (i, p). split; [done|]. by apply elem_of_map_to_list.
Qed.

(** X15.  [getUserOrders] returns nothing for a pair that is not registered.
    Otherwise it returns, each once, the orders of the user that are in
    the directory of the book, under their own ids; these are orders of
    that pair and none of them is cancelled. *)
Theorem user_orders_are_the_directory h e user pair :
  reachable h e →
  (orderBooks_ e !! pair = None → getUserOrders h e user pair = []) ∧
  NoDup (getUserOrders h e user pair) ∧
  (∀ p, p ∈ getUserOrders h e user pair ↔
     ∃ b o, orderBooks_ e !! pair = Some b ∧ orders_ b !! id o = Some p ∧
       h !! p = Some o ∧ userId o = user ∧ tradingPair o = pair ∧
       status o ≠ CANCELLED).
Proof.
  intros Hreach.
  pose proof (reachable_inv _ _ Hreach) as Hinv.
  pose proof (reachable_live _ _ Hreach) as Hlive.
  unfold getUserOrders.
  destruct (orderBooks_ e !! pair) as [b|] eqn:Hb.
  - pose proof (ei_books _ _ Hinv _ _ Hb) as Hbook.
    split; [done|]. split.
    + unfold OrderBook_getUserOrders. apply NoDup_filter.
      apply NoDup_fmap_2_strong; [|apply NoDup_map_to_list].
      intros [i1 p1] [i2 p2] H1%elem_of_map_to_list H2%elem_of_map_to_list Heq.
      cbn in Heq. subst p2.
      destruct (bi_orders _ _ _ Hbook i1 p1 H1) as (o1 & Ho1 & Hi1).
      destruct (bi_orders _ _ _ Hbook i2 p1 H2) as (o2 & Ho2 & Hi2).
      f_equal. congruence.
    + intros p. rewrite elem_of_OrderBook_getUserOrders. split.
      * intros (i & o & Hi & Ho & Hu).
        destruct (bi_orders _ _ _ Hbook i p Hi) as (o' & Ho' & Hid).
        assert (o' = o) as -> by congruence.
        destruct (lv_dir _ _ Hlive _ _ _ _ _ Hb Hi Ho) as [Hp Hs].
        exists b, o. by rewrite Hid.
      * intros (b0 & o & [= <-] & Hi & Ho & Hu & _). by exists (id o), o.
  - split; [done|]. split; [constructor|].
    intros p. split; [by intros ?%elem_of_nil|]. by intros (b & o & ? & _).
Qed.

(** X16.  An accepted order is listed by [getUserOrders] for its user right
    after the submission, whether or not it was filled at once; after a
    cancel that returned true the cancelled order is no longer listed
    for any user. *)
Theorem user_orders_follow_submit_and_cancel h e :
  reachable h e →
  (∀ fuel user pair sd ty px qty h' e' trades,
     submitOrder fuel h e user pair sd ty px qty = Some (h', e', Return trades) →
     length h ∈ getUserOrders h' e' user pair) ∧
  (∀ i pair h' e' b p,
     cancelOrder h e i pair = Some (h', e', true) →
     orderBooks_ e !! pair = Some b → orders_ b !! i = Some p →
     ∀ user, p ∉ getUserOrders h' e' user pair).
Proof.
  intros Hreach.
  pose proof (reachable_inv _ _ Hreach) as Hinv.
  split.
  - intros fuel user pair sd ty px qty h' e' trades Hsub.
    destruct (submitOrder_facts _ _ _ _ _ _ _ _ _ _ _ _ Hinv Hsub)
      as (b & L' & n' & Hb & -> & _ & Hn' & I & _).
    unfold getUserOrders. cbn. rewrite lookup_insert_eq.
    apply elem_of_OrderBook_getUserOrders. exists (id n'), n'.
    rewrite book_after_orders, lookup_insert_eq. split; [done|]. split; [done|].
    apply (si_user _ _ I).
  - intros i pair h' e' b p Hc Hb Hi user Hin.
    assert (reachable h' e') as Hreach'.
    { eapply (reachable_run h e [CancelOrder i pair]); [done|].
      unfold run_from. cbn. by rewrite Hc. }
    pose proof (reachable_live _ _ Hreach') as Hlive'.
    destruct (cancelOrder_true _ _ _ _ _ _ Hc) as (b0 & p0 & o & Hb0 & Hi0 & Hp & -> & ->).
    assert (b0 = b) as -> by congruence. assert (p0 = p) as -> by congruence.
    unfold getUserOrders in Hin. cbn in Hin. rewrite lookup_insert_eq in Hin.
    apply elem_of_OrderBook_getUserOrders in Hin as (i' & o' & Hi' & Ho' & _).
    refine (proj2 (lv_dir _ _ Hlive' pair _ i' p o' _ Hi' Ho') _).
    + cbn. by rewrite lookup_insert_eq.
    + rewrite list_lookup_insert_eq in Ho' by by eapply lookup_lt_Some.
      by simplify_eq.
Qed.

(** ** Trades and cancellation of resting orders *)


Lemma resting_in_directory_submit fuel h e user pair sd ty px qty h' e' trades :
  engine_inv h e → ids_inv h e → Z.of_nat (length h) + 1 < 2 ^ 64 →
  resting_in_directory h e →
  submitOrder fuel h e user pair sd ty px qty = Some (h', e', Return trades) →
  resting_in_directory h' e'.
Proof.
  intros Hinv [Hc Hids] Hbound Hdir Hsub.
  destruct (submitOrder_facts _ _ _ _ _ _ _ _ _ _ _ _ Hinv Hsub)
    as (b & L' & n' & Hb & -> & _ & Hn' & I & _ & Htail & Hrel & _).
  assert (Hold : ∀ pair' b' sd' m o',
            orderBooks_ e !! pair' = Some b' → m ∈ queue (ladder sd' b') →
            h' !! m = Some o' →
            orders_ b' !! id o' = Some m ∧ id o' ≠ id n').
  { intros pair' b' sd' m o' Hb' Hm Ho'.
    destruct (ladder_inv_queue _ _ _ _ _
                (bi_ladder _ _ _ (ei_books _ _ Hinv _ _ Hb') sd') Hm) as (o & Ho & _).
    assert (id o' = id o) as ->.
    { destruct (Hrel m o Ho) as (o2 & Ho2 & [->|[Hf _]]); [congruence|].
      assert (o2 = o') as -> by congruence. apply (fm_ident _ _ Hf). }
    split; [by eapply Hdir|].
    rewrite (si_id _ _ I). cbn. rewrite (Hids m o Ho), Hc.
    apply lookup_lt_Some in Ho. rewrite Z.mod_small; lia. }
  intros pair' b' sd' m o' Hb' Hm Ho'. cbn in Hb'.
  apply lookup_insert_Some in Hb' as [[<- <-]|[Hne Hb']]; [|by eapply Hold].
  rewrite book_after_orders.
  apply queue_book_after in Hm; [|by rewrite (si_side _ _ I)].
  destruct Hm as [->|Hm].
  - assert (o' = n') as -> by congruence. by rewrite lookup_insert_eq.
  - destruct (Hold _ _ _ _ _ Hb Hm Ho') as [H1 H2].
    by rewrite lookup_insert_ne.
Qed.

Lemma resting_in_directory_cancel h e i pair h' e' :
  engine_inv h e → resting_in_directory h e →
  cancelOrder h e i pair = Some (h', e', true) →
  resting_in_directory h' e'.
Proof.
  intros Hinv Hdir Hc.
  destruct (cancelOrder_true _ _ _ _ _ _ Hc) as (b & p & o & Hb & Hi & Hp & -> & ->).
  pose proof (ei_books _ _ Hinv _ _ Hb) as Hbook.
  intros pair' b' sd m o' Hb' Hm Ho'. cbn in Hb'.
  assert (∃ b0, orderBooks_ e !! pair' = Some b0 ∧ m ∈ queue (ladder sd b0) ∧
                orders_ b' = (if decide (pair' = pair) then delete i (orders_ b0)
                              else orders_ b0) ∧
                (pair' = pair → b0 = b ∧ m ≠ p))
    as (b0 & Hb0 & Hm0 & Hord & Hmp).
  { apply lookup_insert_Some in Hb' as [[<- <-]|[Hne Hb']].
    - exists b. rewrite decide_True by done. split; [done|].
      destruct (decide (sd = side o)) as [->|Hsd].
      + rewrite ladder_set_orders, ladder_set_ladder in Hm.
        split; [eapply elem_of_sublist; [done|apply remove_from_book_queue]|].
        split; [done|]. intros _. split; [done|]. intros ->.
        by eapply remove_from_book_gone; [apply (bi_ladder _ _ _ Hbook)|..].
      + rewrite ladder_set_orders, ladder_set_ladder_ne in Hm by done.
        split; [done|]. split; [done|]. intros _. split; [done|]. intros ->.
        destruct (ladder_inv_queue _ _ _ _ _ (bi_ladder _ _ _ Hbook sd) Hm)
          as (o1 & Ho1 & _ & Hs1 & _). congruence.
    - exists b'. rewrite decide_False by done. repeat split; try done; congruence. }
  destruct (ladder_inv_queue _ _ _ _ _
              (bi_ladder _ _ _ (ei_books _ _ Hinv _ _ Hb0) sd) Hm0) as (o0 & Ho0 & _).
  assert (id o' = id o0) as ->.
  { apply list_lookup_insert_Some in Ho' as [(<- & <- & _)|[_ Ho']]; [|congruence].
    assert (o0 = o) as -> by congruence. done. }
  pose proof (Hdir _ _ _ _ _ Hb0 Hm0 Ho0) as Hd0.
  rewrite Hord. destruct (decide (pair' = pair)) as [->|Hne]; [|done].
  destruct (Hmp eq_refl) as [-> Hne].
  rewrite lookup_delete_ne; [done|]. intros Heq. rewrite <- Heq in Hd0. congruence.
Qed.

Lemma reachable_resting_in_directory h e :
  reachable h e → Z.of_nat (length h) < 2 ^ 64 → resting_in_directory h e.
Proof.
  revert h e. apply (reachable_induction
    (λ h e, Z.of_nat (length h) < 2 ^ 64 → resting_in_directory h e)).
  - intros _ pair b sd m o Hb. cbn in Hb. by rewrite lookup_empty in Hb.
  - intros h e pair Hreach IH Hnone Hlen pair' b sd m o Hb Hm Ho. cbn in Hb.
    apply lookup_insert_Some in Hb as [[<- <-]|[Hne Hb]]; [|by eapply IH].
    destruct sd; by apply elem_of_nil in Hm.
  - intros fuel h e user pair sd ty px qty h' e' trades Hreach IH Hsub Hlen.
    pose proof (submitOrder_Return_length _ _ _ _ _ _ _ _ _ _ _ _ Hsub) as Hl.
    eapply resting_in_directory_submit; [by apply reachable_inv| | | |done].
    + apply reachable_ids; [done|lia].
    + lia.
    + apply IH. lia.
  - intros h e i pair h' e' Hreach IH Hc Hlen.
    pose proof (cancelOrder_length _ _ _ _ _ _ _ Hc) as Hl.
    eapply resting_in_directory_cancel; [by apply reachable_inv| |done].
    apply IH. lia.
Qed.


(** ** Books and their pairs *)

(** X19.  Every book is registered under its own trading pair, and its
    directory maps an id only to an order of that id and of that pair. *)
Theorem books_hold_orders_of_their_pair h e pair b :
  reachable h e → orderBooks_ e !! pair = Some b →
  getTradingPair b = pair ∧
  ∀ i p, orders_ b !! i = Some p →
    ∃ o, h !! p = Some o ∧ id o = i ∧ tradingPair o = pair.
Proof.
  intros Hreach Hb.
  pose proof (ei_books _ _ (reachable_inv _ _ Hreach) _ _ Hb) as Hbook.
  split; [apply (bi_pair _ _ _ Hbook)|].
  intros i p Hi. destruct (bi_orders _ _ _ Hbook i p Hi) as (o & Ho & Hid).
  exists o. split; [done|]. split; [done|].
  by destruct (lv_dir _ _ (reachable_live _ _ Hreach) _ _ _ _ _ Hb Hi Ho).
Qed.

(** ** Instances of the further properties on the scenarios *)

Lemma pairs_reachable : reachable pairs_heap pairs_engine.
Proof. exists pairs_ops. vm_compute. reflexivity. Defined.







Lemma cancel_again_returns_false_witness :
  let h := s1_heap in
  let e := s1_engine in
  ∃ h' e',
    cancelOrder h e 2 demo_pair = Some (h', e', true) ∧
    (true = true ↔
     ∃ b p, orderBooks_ e !! demo_pair = Some b ∧ orders_ b !! 2 = Some p) ∧
    (true = false → h' = h ∧ e' = e) ∧
    cancelOrder h' e' 2 demo_pair = Some (h', e', false).
Proof.
  intros h e.
  pose (r := cancelOrder h e 2 demo_pair).
  pose (h' := default [] ((λ x, x.1.1) <$> r)).
  pose (e' := default MatchingEngine_new ((λ x, x.1.2) <$> r)).
  assert (H1 : cancelOrder h e 2 demo_pair = Some (h', e', true))
    by (vm_compute; reflexivity).
  exists h', e'. split; [exact H1|].
  exact (cancel_again_returns_false h e 2 demo_pair h' e' true H1).
Defined.

Lemma total_orders_counts_accepted_witness :
  run_from fresh swept_ops = Some (swept_heap, swept_engine) ∧
  getTotalOrders swept_engine = Z.of_nat (accepted fresh swept_ops) mod 2 ^ 64 ∧
  length swept_heap = accepted fresh swept_ops.
Proof.
  assert (H1 : run_from fresh swept_ops = Some (swept_heap, swept_engine))
    by (vm_compute; reflexivity).
  split; [exact H1|].
  exact (total_orders_counts_accepted swept_ops swept_heap swept_engine H1).
Defined.

Lemma registered_pairs_are_those_added_witness :
  run_from fresh pairs_ops = Some (pairs_heap, pairs_engine) ∧
  (∀ pair, is_Some (orderBooks_ pairs_engine !! pair)
           ↔ AddTradingPair pair ∈ pairs_ops) ∧
  getTradingPairCount pairs_engine = length (remove_dups (pairs_added pairs_ops)).
Proof.
  assert (H1 : run_from fresh pairs_ops = Some (pairs_heap, pairs_engine))
    by (vm_compute; reflexivity).
  split; [exact H1|].
  exact (registered_pairs_are_those_added pairs_ops pairs_heap pairs_engine H1).
Defined.

Lemma user_orders_are_the_directory_witness :
  let h := s1_heap in
  let e := s1_engine in
  reachable h e ∧
  (orderBooks_ e !! demo_pair = None → getUserOrders h e "user2" demo_pair = []) ∧
  NoDup (getUserOrders h e "user2" demo_pair) ∧
  (∀ p, p ∈ getUserOrders h e "user2" demo_pair ↔
     ∃ b o, orderBooks_ e !! demo_pair = Some b ∧ orders_ b !! id o = Some p ∧
       h !! p = Some o ∧ userId o = "user2" ∧ tradingPair o = demo_pair ∧
       status o ≠ CANCELLED).
Proof.
  intros h e. split; [apply s1_reachable|].
  exact (user_orders_are_the_directory h e "user2" demo_pair s1_reachable).
Defined.

Lemma user_orders_follow_submit_and_cancel_witness :
  let h := s1_heap in
  let e := s1_engine in
  reachable h e ∧
  (∀ fuel user pair sd ty px qty h' e' trades,
     submitOrder fuel h e user pair sd ty px qty = Some (h', e', Return trades) →
     length h ∈ getUserOrders h' e' user pair) ∧
  (∀ i pair h' e' b p,
     cancelOrder h e i pair = Some (h', e', true) →
     orderBooks_ e !! pair = Some b → orders_ b !! i = Some p →
     ∀ user, p ∉ getUserOrders h' e' user pair).
Proof.
  intros h e. split; [apply s1_reachable|].
  exact (user_orders_follow_submit_and_cancel h e s1_reachable).
Defined.



Lemma books_hold_orders_of_their_pair_witness :
  reachable s1_heap s1_engine ∧
  orderBooks_ s1_engine !! demo_pair = Some s1_book ∧
  getTradingPair s1_book = demo_pair ∧
  ∀ i p, orders_ s1_book !! i = Some p →
    ∃ o, s1_heap !! p = Some o ∧ id o = i ∧ tradingPair o = demo_pair.
Proof.
  assert (H1 : orderBooks_ s1_engine !! demo_pair = Some s1_book)
    by (vm_compute; reflexivity).
  split; [apply s1_reachable|]. split; [exact H1|].
  exact (books_hold_orders_of_their_pair s1_heap s1_engine demo_pair s1_book
           s1_reachable H1).
Defined.

(** * The matching path in double arithmetic: properties *)

Section RoundedFacts.
Variable rnd : Z → Z.

(** ** One fill *)

Lemma rounded_fill_ident q o : same_ident o (Rounded.fill rnd q o).
Proof.
  unfold Rounded.fill. eapply same_ident_trans; [|apply update_status_ident]. by split.
Qed.

Lemma rounded_fill_filled q o :
  filledQuantity (Rounded.fill rnd q o) = rnd (filledQuantity o + q).
Proof. unfold Rounded.fill. by rewrite update_status_filled. Qed.

Lemma rounded_executeTrade_spec h buy sell b s px q :
  buy ≠ sell → h !! buy = Some b → h !! sell = Some s →
  Rounded.executeTrade rnd h buy sell px q
  = Some (<[sell := Rounded.fill rnd q s]> (<[buy := Rounded.fill rnd q b]> h),
          mkTrade (id b) (id s) px q).
Proof.
  intros Hne Hb Hs. unfold Rounded.executeTrade.
  pose proof (lookup_lt_Some _ _ _ Hb) as Lb.
  pose proof (lookup_lt_Some _ _ _ Hs) as Ls.
  rewrite (modify_Some _ _ _ _ Hb). cbn [mbind option_bind].
  erewrite modify_Some by (rewrite list_lookup_insert_ne; eauto).
  cbn [mbind option_bind].
  rewrite list_lookup_insert_ne by done.
  rewrite list_lookup_insert_eq by done. cbn [mbind option_bind].
  set (b1 := Rounded.add_filled rnd q b). set (s1 := Rounded.add_filled rnd q s).
  set (h2 := <[sell := s1]> (<[buy := b1]> h)).
  assert (H2b : h2 !! buy = Some b1).
  { unfold h2. rewrite list_lookup_insert_ne by done. by rewrite list_lookup_insert_eq. }
  assert (H2s : h2 !! sell = Some s1).
  { unfold h2. rewrite list_lookup_insert_eq; [done|]. by rewrite length_insert. }
  assert (E3 : (if isFilled b1 then modify h2 buy (set_status FILLED)
       else if 0 <? filledQuantity b1 then modify h2 buy (set_status PARTIAL)
       else Some h2) = Some (<[buy := Rounded.fill rnd q b]> h2)).
  { unfold Rounded.fill, update_status. fold b1.
    repeat case_match; try (by erewrite modify_Some); by rewrite list_insert_id. }
  rewrite E3. cbn [mbind option_bind].
  set (h3 := <[buy := Rounded.fill rnd q b]> h2).
  assert (H3s : h3 !! sell = Some s1).
  { unfold h3. by rewrite list_lookup_insert_ne. }
  rewrite H3s. cbn [mbind option_bind].
  assert (E4 : (if isFilled s1 then modify h3 sell (set_status FILLED)
       else if 0 <? filledQuantity s1 then modify h3 sell (set_status PARTIAL)
       else Some h3) = Some (<[sell := Rounded.fill rnd q s]> h3)).
  { unfold Rounded.fill, update_status. fold s1.
    repeat case_match; try (by erewrite modify_Some); by rewrite list_insert_id. }
  rewrite E4. cbn [mbind option_bind].
  assert (L3 : length h3 = length h).
  { unfold h3, h2. by rewrite !length_insert. }
  rewrite (list_lookup_insert_ne _ sell buy) by done.
  assert (H3b : h3 !! buy = Some (Rounded.fill rnd q b)).
  { unfold h3. apply list_lookup_insert_eq. unfold h2. rewrite !length_insert. lia. }
  rewrite H3b. cbn [mbind option_bind].
  rewrite list_lookup_insert_eq by lia. cbn [mbind option_bind].
  f_equal. f_equal.
  - unfold h3, h2.
    rewrite (list_insert_insert_ne _ buy sell (Rounded.fill rnd q b)) by done.
    by rewrite !list_insert_insert_eq.
  - f_equal; [apply (si_id _ _ (rounded_fill_ident q b))
             |apply (si_id _ _ (rounded_fill_ident q s))].
Qed.

Lemma rounded_heap_taker h t m n o q :
  t ≠ m → h !! t = Some n →
  Rounded.filled_heap rnd h t m n o q !! t = Some (Rounded.fill rnd q n).
Proof.
  intros Hne Hn. unfold Rounded.filled_heap. rewrite list_lookup_insert_ne by done.
  apply list_lookup_insert_eq. by eapply lookup_lt_Some.
Qed.

Lemma rounded_heap_maker h t m n o q :
  h !! m = Some o →
  Rounded.filled_heap rnd h t m n o q !! m = Some (Rounded.fill rnd q o).
Proof.
  intros Ho. unfold Rounded.filled_heap. apply list_lookup_insert_eq.
  rewrite length_insert. by eapply lookup_lt_Some.
Qed.

Lemma rounded_heap_other h t m n o q p :
  p ≠ t → p ≠ m → Rounded.filled_heap rnd h t m n o q !! p = h !! p.
Proof.
  intros H1 H2. unfold Rounded.filled_heap. by rewrite !list_lookup_insert_ne.
Qed.

Lemma rounded_heap_ident h t m n o q :
  t ≠ m → h !! t = Some n → h !! m = Some o →
  heap_ident h (Rounded.filled_heap rnd h t m n o q).
Proof.
  intros Hne Hn Ho. unfold Rounded.filled_heap.
  apply (heap_ident_trans _ (<[t := Rounded.fill rnd q n]> h)).
  - eapply heap_ident_insert; [done|apply rounded_fill_ident].
  - eapply heap_ident_insert; [|apply rounded_fill_ident].
    by rewrite list_lookup_insert_ne.
Qed.

Lemma rounded_match_front_spec h t m n o :
  t ≠ m → h !! t = Some n → h !! m = Some o →
  let q := Z.min (Rounded.getRemainingQuantity rnd n)
                 (Rounded.getRemainingQuantity rnd o) in
  Rounded.match_front rnd h t m
  = Some (Rounded.filled_heap rnd h t m n o q, trade_of n o q).
Proof.
  intros Hne Ht Hm q. unfold Rounded.match_front, Rounded.filled_heap.
  rewrite Ht, Hm. cbn [mbind option_bind].
  unfold trade_of. destruct (side n) eqn:Hs; repeat case_decide; try done.
  - by erewrite rounded_executeTrade_spec.
  - erewrite rounded_executeTrade_spec by done.
    by rewrite list_insert_insert_ne.
Qed.

(** ** The sweep of the queue *)

Lemma sweep_heap_ident acc t h Q h' Q' trs :
  Rounded.sweep rnd acc t h Q h' Q' trs → t ∉ Q → heap_ident h h'.
Proof.
  induction 1 as [| | | h m Q n o q h' Q' trs Hn Ho _ _ _ _ IH]; intros Ht;
    try apply heap_ident_refl.
  apply not_elem_of_cons in Ht as [Hne Ht].
  eapply heap_ident_trans; [by apply rounded_heap_ident|]. apply IH.
  destruct (isFilled _); [done|]. by apply not_elem_of_cons.
Qed.

(** Only the incoming order and the orders of the queue are written. *)
Lemma sweep_frame acc t h Q h' Q' trs p :
  Rounded.sweep rnd acc t h Q h' Q' trs → p ≠ t → p ∉ Q → h' !! p = h !! p.
Proof.
  induction 1 as [| | | h m Q n o q h' Q' trs Hn Ho _ _ _ _ IH]; intros Hpt Hp;
    try done.
  apply not_elem_of_cons in Hp as [Hne Hp].
  rewrite IH; [by apply rounded_heap_other|done|].
  destruct (isFilled _); [done|]. by apply not_elem_of_cons.
Qed.

(** The orders left in the queue are still open. *)
Lemma sweep_open acc t h Q h' Q' trs :
  Rounded.sweep rnd acc t h Q h' Q' trs →
  NoDup Q → t ∉ Q → Forall (open_order h) Q → Forall (open_order h') Q'.
Proof.
  induction 1 as [| | | h m Q n o q h' Q' trs Hn Ho Hf Ha Hq _ IH];
    intros Hnd Ht Hop; try done.
  apply NoDup_cons in Hnd as [Hm Hnd].
  apply not_elem_of_cons in Ht as [Hne Ht].
  apply Forall_cons in Hop as [_ Hop].
  assert (Forall (open_order (Rounded.filled_heap rnd h t m n o q)) Q) as Hop1.
  { rewrite !Forall_forall in *. intros m' Hin.
    destruct (Hop m' Hin) as (o' & Ho' & Hf'). exists o'. split; [|done].
    rewrite rounded_heap_other; [done| |]; intros ->; done. }
  destruct (isFilled (Rounded.fill rnd q o)) eqn:Hfo.
  - by apply IH.
  - apply IH; [by apply NoDup_cons|by apply not_elem_of_cons|].
    apply Forall_cons. split; [|done].
    exists (Rounded.fill rnd q o). split; [by apply rounded_heap_maker|done].
Qed.

End RoundedFacts.

Section RoundedLoops.
Variable rnd : Z → Z.

(** ** The two loops of matchOrder sweep the queue *)

Lemma rounded_match_level_flat acc fuel h t os trs h1 os1 trs1 rest :
  Rounded.match_level rnd fuel h t os trs = Some (h1, os1, trs1) →
  NoDup os → t ∉ os →
  (∀ m, m ∈ os → ∃ o, h !! m = Some o ∧ acc (price o) = true) →
  ∃ nt, trs1 = trs ++ nt ∧ os1 `suffix_of` os ∧ heap_ident h h1 ∧
    (∀ p, p ≠ t → p ∉ os → h1 !! p = h !! p) ∧
    (os1 = [] → ∀ h' Q' ts,
       Rounded.sweep rnd acc t h1 rest h' Q' ts →
       Rounded.sweep rnd acc t h (os ++ rest) h' Q' (nt ++ ts)) ∧
    (os1 ≠ [] →
       Rounded.sweep rnd acc t h (os ++ rest) h1 (os1 ++ rest) nt ∧
       ∃ n', h1 !! t = Some n' ∧ isFilled n' = true).
Proof.
  revert h os trs.
  induction fuel as [|fuel IH]; intros h os trs Hm Hnd Ht Hacc; [done|].
  cbn [Rounded.match_level] in Hm.
  destruct (h !! t) as [n|] eqn:Hn; [|done]. cbn [mbind option_bind] in Hm.
  destruct os as [|m tail].
  { simplify_eq. exists []. rewrite app_nil_r.
    split; [done|]. split; [done|]. split; [apply heap_ident_refl|].
    split; [done|].
    split; [|done]. intros _ h' Q' ts Hs. by rewrite !app_nil_l. }
  destruct (isFilled n) eqn:Hf.
  { simplify_eq. exists []. rewrite app_nil_r.
    split; [done|]. split; [done|]. split; [apply heap_ident_refl|].
    split; [done|].
    split; [done|]. intros _. split; [by eapply Rounded.sweep_filled|eauto]. }
  destruct (Hacc m) as (o & Ho & Ha); [by left|].
  apply NoDup_cons in Hnd as [Hmt Hnd].
  apply not_elem_of_cons in Ht as [Hne Ht].
  rewrite (rounded_match_front_spec rnd h t m n o Hne Hn Ho) in Hm.
  cbn [mbind option_bind] in Hm.
  set (q := Z.min (Rounded.getRemainingQuantity rnd n)
                  (Rounded.getRemainingQuantity rnd o)) in *.
  set (h0 := Rounded.filled_heap rnd h t m n o q) in *.
  assert (H0m : h0 !! m = Some (Rounded.fill rnd q o))
    by by apply rounded_heap_maker.
  rewrite H0m in Hm. cbn [mbind option_bind] in Hm.
  set (os' := if isFilled (Rounded.fill rnd q o) then tail else m :: tail) in *.
  assert (NoDup os') as Hnd'.
  { unfold os'. destruct (isFilled (Rounded.fill rnd q o)); [done|]. by apply NoDup_cons. }
  assert (t ∉ os') as Ht'.
  { unfold os'. destruct (isFilled (Rounded.fill rnd q o)); [done|]. by apply not_elem_of_cons. }
  assert (∀ m', m' ∈ os' → ∃ o', h0 !! m' = Some o' ∧ acc (price o') = true)
    as Hacc'.
  { intros m' Hin. destruct (decide (m' = m)) as [->|Hmm].
    - exists (Rounded.fill rnd q o). split; [done|].
      by rewrite (si_price _ _ (rounded_fill_ident rnd q o)).
    - assert (m' ∈ tail) as Hin'.
      { unfold os' in Hin. destruct (isFilled (Rounded.fill rnd q o)); [done|].
        by apply elem_of_cons in Hin as [?|?]. }
      destruct (Hacc m') as (o' & Ho' & Ha'); [by right|].
      exists o'. split; [|done]. unfold h0.
      rewrite rounded_heap_other; [done| |done]. intros ->. done. }
  destruct (IH h0 os' (trs ++ [trade_of n o q]) Hm Hnd' Ht' Hacc')
    as (nt & -> & Hsuf & Hid & Hfr & Hc1 & Hc2).
  exists (trade_of n o q :: nt). split; [by rewrite <- app_assoc|].
  split.
  { etrans; [exact Hsuf|]. unfold os'. destruct (isFilled (Rounded.fill rnd q o)); [|done].
    by apply suffix_cons_r. }
  split.
  { eapply heap_ident_trans; [|exact Hid]. by apply rounded_heap_ident. }
  split.
  { intros p Hpt Hp. apply not_elem_of_cons in Hp as [Hpm Hp].
    rewrite Hfr; [by apply rounded_heap_other|done|].
    unfold os'. destruct (isFilled (Rounded.fill rnd q o)); [done|].
    by apply not_elem_of_cons. }
  assert (os' ++ rest
          = if isFilled (Rounded.fill rnd q o) then tail ++ rest
            else m :: (tail ++ rest)) as Eq.
  { unfold os'. by destruct (isFilled (Rounded.fill rnd q o)). }
  split.
  - intros He h' Q' ts Hs. cbn [app].
    eapply Rounded.sweep_trade; eauto. fold q h0. rewrite <- Eq. by apply Hc1.
  - intros Hne'. destruct (Hc2 Hne') as [Hs Hn']. split; [|done]. cbn [app].
    eapply Rounded.sweep_trade; eauto. fold q h0. by rewrite <- Eq.
Qed.

Lemma rounded_match_book_flat limit acc fuel h t L trs h' L' trs' :
  Rounded.match_book rnd fuel limit h t L trs = Some (h', L', trs') →
  sweep_pre h t L →
  (∀ n px, h !! t = Some n →
     acc px = negb limit || priceAcceptable (side n) px (price n)) →
  ∃ nt, trs' = trs ++ nt ∧
    Rounded.sweep rnd acc t h (queue L) h' (queue L') nt ∧
    ladder_tail L L'.
Proof.
  revert h L trs.
  induction fuel as [|fuel IH]; intros h L trs Hm Hpre Hacc; [done|].
  cbn [Rounded.match_book] in Hm.
  destruct (h !! t) as [n|] eqn:Hn; [|done]. cbn [mbind option_bind] in Hm.
  destruct L as [|[px os] L].
  { simplify_eq. exists []. rewrite app_nil_r. split; [done|].
    split; [by eapply Rounded.sweep_empty|apply ladder_tail_refl]. }
  destruct (isFilled n) eqn:Hf.
  { simplify_eq. exists []. rewrite app_nil_r. split; [done|].
    split; [by eapply Rounded.sweep_filled|apply ladder_tail_refl]. }
  destruct (limit && negb (priceAcceptable (side n) px (price n))) eqn:Hl.
  { pose proof (Hacc n px eq_refl) as Hapx.
    simplify_eq. exists []. rewrite app_nil_r. split; [done|].
    split; [|apply ladder_tail_refl].
    apply andb_true_iff in Hl as [-> Hl]. apply negb_true_iff in Hl.
    destruct os as [|m os]; [by destruct (sp_nonempty _ _ _ Hpre px []); [left|]|].
    destruct (sp_price _ _ _ Hpre px (m :: os) m) as (o & Ho & Hp); [by left|by left|].
    rewrite queue_cons. cbn [app]. eapply Rounded.sweep_break; eauto.
    by rewrite Hp, Hapx, Hl. }
  assert (acc px = true) as Hapx.
  { rewrite (Hacc n _ eq_refl). destruct limit; [|done]. cbn in *.
    by destruct (priceAcceptable _ _ _). }
  pose proof (sp_nodup _ _ _ Hpre) as Hnd. pose proof (sp_fresh _ _ _ Hpre) as Ht.
  rewrite queue_cons in Hnd, Ht.
  apply NoDup_app in Hnd as (Hnd1 & _ & Hnd2).
  apply not_elem_of_app in Ht as [Ht1 Ht2].
  destruct (Rounded.match_level rnd fuel h t os trs) as [[[h1 os1] trs1]|] eqn:Hlev;
    [|done].
  cbn [mbind option_bind] in Hm.
  destruct (rounded_match_level_flat acc _ _ _ _ _ _ _ _ (queue L) Hlev Hnd1 Ht1)
    as (nt1 & -> & Hsuf & Hid & _ & Hc1 & Hc2).
  { intros m Hin.
    destruct (sp_price _ _ _ Hpre px os m) as (o & Ho & Hp); [by left|done|].
    exists o. by rewrite Hp. }
  destruct os1 as [|m1 os1].
  - destruct (IH h1 L (trs ++ nt1) Hm) as (nt2 & -> & Hs & Htail).
    + by eapply sweep_pre_tail.
    + intros n' px' Hn'. destruct Hid as [_ Hid].
      destruct (Hid t n Hn) as (n1 & Hn1 & I1). simplify_eq.
      rewrite (Hacc n px' eq_refl). by rewrite (si_side _ _ I1), (si_price _ _ I1).
    + exists (nt1 ++ nt2). split; [by rewrite app_assoc|].
      split; [|by apply ladder_tail_skip].
      rewrite queue_cons. by apply Hc1.
  - destruct Hc2 as [Hs (n' & Hn' & Hf')]; [done|].
    destruct fuel as [|fuel]; [done|]. cbn [Rounded.match_book] in Hm.
    rewrite Hn' in Hm. cbn [mbind option_bind] in Hm. rewrite Hf' in Hm.
    simplify_eq. exists nt1. split; [done|].
    split; [by rewrite !queue_cons|]. by apply ladder_tail_trim.
Qed.

End RoundedLoops.

(** ** Arrival order within a level *)

Lemma StronglySorted_filter_lt (P : nat → Prop) `{!∀ x, Decision (P x)} (l : list nat) :
  StronglySorted lt l → StronglySorted lt (filter P l).
Proof.
  induction 1 as [|x l Hs IH Hx]; [constructor|].
  rewrite filter_cons. case_decide; [|done].
  constructor; [done|]. apply Forall_forall. intros y [_ Hy]%list_elem_of_filter.
  rewrite Forall_forall in Hx. by apply Hx.
Qed.

Lemma StronglySorted_suffix_lt (l1 l2 : list nat) :
  l1 `suffix_of` l2 → StronglySorted lt l2 → StronglySorted lt l1.
Proof. intros [k ->] Hs. by apply StronglySorted_app_1_r in Hs. Qed.

Lemma arrival_sorted_nil : arrival_sorted [].
Proof. by intros ?? ?%elem_of_nil. Qed.

Lemma arrival_sorted_tail L L' :
  ladder_tail L L' → arrival_sorted L → arrival_sorted L'.
Proof.
  intros Ht Hs px os' Hin.
  destruct (ladder_tail_elem _ _ _ _ Ht Hin) as (os & Hin' & Hsuf).
  eapply StronglySorted_suffix_lt; [done|]. by eapply Hs.
Qed.

(** A new order is appended behind the orders created before it. *)
Lemma arrival_sorted_push sd px t (L : Ladder) :
  arrival_sorted L → (∀ m, m ∈ queue L → (m < t)%nat) →
  arrival_sorted (smap_upd (side_lt sd) px (λ l, l ++ [t]) [] L).
Proof.
  intros Hs Hlt px' os [Hin|(-> & v & -> & Hv)]%smap_upd_elem;
    [by eapply Hs| |side_lt].
  apply StronglySorted_app. split; [|split].
  - intros x1 x2 Hx1 ->%list_elem_of_singleton.
    destruct Hv as [->|Hin]; [by apply elem_of_nil in Hx1|].
    apply Hlt, elem_of_queue. eauto.
  - destruct Hv as [->|Hin]; [constructor|by eapply Hs].
  - repeat constructor.
Qed.

Lemma arrival_sorted_remove sd px p (L : Ladder) :
  arrival_sorted L → arrival_sorted (remove_from_book (side_lt sd) px p L).
Proof.
  intros Hs. unfold remove_from_book.
  destruct (smap_find (side_lt sd) px L) as [os|] eqn:Hfind; [|done].
  apply smap_find_elem_1 in Hfind; [|side_lt].
  destruct (filter _ os) as [|m os'] eqn:Hfil.
  - intros px' os1 Hin%smap_erase_elem. by eapply Hs.
  - intros px' os1 [Hin|(-> & v & -> & _)]%smap_upd_elem;
      [by eapply Hs| |side_lt].
    rewrite <- Hfil. apply StronglySorted_filter_lt. by eapply Hs.
Qed.

Section RoundedEngine.
Variable rnd : Z → Z.

(** ** submitOrder *)

(** What an accepted submission does: it allocates the record [n] at the
    pointer [t], sweeps the queue of the opposite side, and leaves the
    book [book_after]. *)
Lemma rounded_submitOrder_spec fuel h e user pair sd ty px qty h' e' trades :
  books_inv h e →
  Rounded.submitOrder rnd fuel h e user pair sd ty px qty
  = Some (h', e', Return trades) →
  let t := length h in
  let n := Order_new (generateOrderId e).1 user pair sd ty px qty in
  ∃ b L' n',
    orderBooks_ e !! pair = Some b ∧
    0 < qty ∧ (ty = LIMIT → 0 < px) ∧
    Rounded.sweep rnd (limit_acc n) t (h ++ [n]) (queue (ladder (opposite sd) b))
      h' (queue L') trades ∧
    ladder_tail (ladder (opposite sd) b) L' ∧
    h' !! t = Some n' ∧ same_ident n n' ∧
    e' = mkEngine (<[pair := book_after b t n' L']> (orderBooks_ e))
           (generateOrderId e).1.
Proof.
  intros Hinv Hsub t n. unfold Rounded.submitOrder in Hsub.
  destruct (qty <=? 0) eqn:Hq; [done|].
  destruct (bool_decide (ty = LIMIT) && (px <=? 0)) eqn:Hpx; [done|].
  unfold getOrderBook in Hsub.
  destruct (orderBooks_ e !! pair) as [b|] eqn:Hb; [|done].
  unfold generateOrderId, make_shared in Hsub, n |- *. cbn [fst] in n |- *.
  fold n in Hsub. fold t in Hsub.
  destruct (Rounded.addOrder rnd fuel (h ++ [n]) b t) as [[[h1 b1] r]|] eqn:Ha; [|done].
  cbn [mbind option_bind] in Hsub. simplify_eq.
  pose proof (bk_books _ _ Hinv pair b Hb) as Hbook.
  destruct (ladder_inv_alloc _ _ _ _ n (bi_ladder _ _ _ Hbook (opposite sd)))
    as [Hl1 Hfresh].
  assert (Hn : (h ++ [n]) !! t = Some n) by by apply list_lookup_middle.
  assert (Hpre : sweep_pre (h ++ [n]) t (ladder (opposite sd) b))
    by by apply (ladder_inv_sweep_pre _ pair (opposite sd)).
  unfold Rounded.addOrder in Ha. rewrite Hn in Ha. cbn [mbind option_bind] in Ha.
  rewrite bool_decide_eq_true_2 in Ha
    by (cbn; by rewrite (bi_pair _ _ _ Hbook)).
  cbn [negb] in Ha. unfold Rounded.matchOrder in Ha.
  rewrite Hn in Ha. cbn [mbind option_bind] in Ha.
  rewrite ladder_set_orders in Ha.
  destruct (Rounded.match_book _ _ _ _ _ _ _) as [[[h2 L'] trs]|] eqn:Hm; [|done].
  cbn [mbind option_bind] in Ha.
  apply (rounded_match_book_flat rnd _ (limit_acc n)) in Hm as (nt & -> & Hs & Htail);
    [|done|].
  2: { intros n1 px' Hn1. by simplify_eq. }
  destruct (sweep_heap_ident _ _ _ _ _ _ _ _ Hs Hfresh) as [_ Hid].
  destruct (Hid t n Hn) as (n' & Hn' & I).
  rewrite Hn' in Ha. cbn [mbind option_bind] in Ha. simplify_eq.
  exists b, L', n'. split; [done|]. split; [lia|]. split.
  { intros ->. rewrite bool_decide_eq_true_2 in Hpx by done. cbn in Hpx. lia. }
  split; [done|]. split; [done|]. split; [done|]. split; [done|].
  f_equal. f_equal. unfold book_after.
  rewrite (si_id _ _ I), (si_side _ _ I). cbn [app id side n Order_new].
  by destruct (isFilled n').
Qed.

(** A submission that throws has changed nothing. *)
Lemma rounded_submitOrder_Throw fuel h e user pair sd ty px qty h' e' ex :
  books_inv h e →
  Rounded.submitOrder rnd fuel h e user pair sd ty px qty = Some (h', e', Throw ex) →
  h' = h ∧ e' = e.
Proof.
  unfold Rounded.submitOrder. intros Hk H.
  destruct (qty <=? 0); [by simplify_eq|].
  destruct (_ && _); [by simplify_eq|].
  unfold getOrderBook in H.
  destruct (orderBooks_ e !! pair) as [b|] eqn:Hb; [|by simplify_eq].
  cbn in H. exfalso.
  destruct (Rounded.addOrder _ _ _ _ _) as [[[h1 b1] r1]|] eqn:E; [|done]. cbn in H.
  simplify_eq. unfold Rounded.addOrder in E.
  rewrite list_lookup_middle in E by done. cbn in E.
  rewrite bool_decide_eq_true_2 in E
    by (symmetry; apply (bi_pair _ _ _ (bk_books _ _ Hk pair b Hb))).
  cbn in E.
  destruct (Rounded.matchOrder _ _ _ _ _) as [[[h2 b2] trs]|]; [|done]. cbn in E.
  destruct (h2 !! _); [|done]. done.
Qed.

Lemma books_inv_submit fuel h e user pair sd ty px qty h' e' trades :
  books_inv h e →
  Rounded.submitOrder rnd fuel h e user pair sd ty px qty
  = Some (h', e', Return trades) →
  books_inv h' e'.
Proof.
  intros Hinv Hsub.
  destruct (rounded_submitOrder_spec _ _ _ _ _ _ _ _ _ _ _ _ Hinv Hsub)
    as (b & L' & n' & Hb & Hq & Hpx & Hs & Htail & Hn' & I & ->).
  set (t := length h) in *.
  set (n := Order_new (generateOrderId e).1 user pair sd ty px qty) in *.
  pose proof (bk_books _ _ Hinv pair b Hb) as Hbook.
  destruct (ladder_inv_alloc _ _ _ _ n (bi_ladder _ _ _ Hbook (opposite sd)))
    as [Hl1 Hfresh].
  pose proof (sweep_heap_ident _ _ _ _ _ _ _ _ Hs Hfresh) as Hid.
  assert (Hside : side n' = sd) by apply (si_side _ _ I).
  assert (Hframe : ∀ m o, h !! m = Some o →
            m ∉ queue (ladder (opposite sd) b) → h' !! m = Some o).
  { intros m o Hm Hnin.
    rewrite (sweep_frame _ _ _ _ _ _ _ _ m Hs); [by apply lookup_app_l_Some| |done].
    apply lookup_lt_Some in Hm. unfold t. lia. }
  assert (Hopen : Forall (open_order h') (queue L')).
  { eapply sweep_open; [exact Hs|apply Hl1|done|by eapply ladder_inv_open]. }
  assert (Hbelow : ∀ sd' m, m ∈ queue (ladder sd' b) → (m < t)%nat).
  { intros sd' m Hm.
    destruct (ladder_inv_queue _ _ _ _ _ (bi_ladder _ _ _ Hbook sd') Hm)
      as (o & Ho & _). by apply lookup_lt_Some in Ho. }
  split; cbn.
  - intros pair' b' Hb'.
    destruct (decide (pair = pair')) as [<-|Hne].
    + rewrite lookup_insert_eq in Hb'. simplify_eq. split.
      * rewrite book_after_pair. apply (bi_pair _ _ _ Hbook).
      * intros sd'. destruct (decide (sd' = side n')) as [->|Hsd].
        -- rewrite book_after_own.
           assert (ladder_inv h' pair (side n') (ladder (side n') b)) as Hown.
           { eapply ladder_inv_heap; [apply (bi_ladder _ _ _ Hbook)|].
             intros m Hm.
             destruct (ladder_inv_queue _ _ _ _ _ (bi_ladder _ _ _ Hbook _) Hm)
               as (o & Ho & _ & Hso & _).
             rewrite Ho. apply Hframe; [done|]. intros Hm'.
             destruct (ladder_inv_queue _ _ _ _ _ (bi_ladder _ _ _ Hbook _) Hm')
               as (o2 & Ho2 & _ & Hso2 & _).
             simplify_eq. rewrite Hso2 in Hso. by destruct (side n'). }
           destruct (isFilled n') eqn:Hf; [done|].
           apply ladder_inv_push; try done.
           ++ intros Hm. apply Hbelow in Hm. lia.
           ++ by rewrite (si_pair _ _ I).
        -- assert (sd' = opposite (side n')) as -> by by destruct sd', (side n').
           rewrite book_after_opposite.
           by eapply ladder_inv_sweep.
      * intros i p. rewrite book_after_orders.
        intros [[<- <-]|[Hi Hp]]%lookup_insert_Some; [by eauto|].
        destruct (bi_orders _ _ _ Hbook i p Hp) as (o & Ho & Hio).
        destruct (heap_ident_alloc _ _ _ Hid p o Ho) as (o' & Ho' & Io).
        exists o'. split; [done|]. by rewrite (si_id _ _ Io).
    + rewrite lookup_insert_ne in Hb' by done.
      pose proof (bk_books _ _ Hinv pair' b' Hb') as Hbook'. split.
      * apply (bi_pair _ _ _ Hbook').
      * intros sd'. eapply ladder_inv_heap; [apply (bi_ladder _ _ _ Hbook')|].
        intros m Hm.
        destruct (ladder_inv_queue _ _ _ _ _ (bi_ladder _ _ _ Hbook' _) Hm)
          as (o & Ho & Hpo & _).
        rewrite Ho. apply Hframe; [done|]. intros Hm'.
        destruct (ladder_inv_queue _ _ _ _ _ (bi_ladder _ _ _ Hbook _) Hm')
          as (o2 & Ho2 & Hpo2 & _).
        simplify_eq.
      * intros i p Hp.
        destruct (bi_orders _ _ _ Hbook' i p Hp) as (o & Ho & Hio).
        destruct (heap_ident_alloc _ _ _ Hid p o Ho) as (o' & Ho' & Io).
        exists o'. split; [done|]. by rewrite (si_id _ _ Io).
  - intros pair' b' sd' Hb'.
    destruct (decide (pair = pair')) as [<-|Hne].
    + rewrite lookup_insert_eq in Hb'. simplify_eq.
      destruct (decide (sd' = side n')) as [->|Hsd].
      * rewrite book_after_own.
        destruct (isFilled n'); [by apply (bk_arrival _ _ Hinv pair)|].
        apply arrival_sorted_push; [by apply (bk_arrival _ _ Hinv pair)|].
        apply Hbelow.
      * assert (sd' = opposite (side n')) as -> by by destruct sd', (side n').
        rewrite book_after_opposite. eapply arrival_sorted_tail; [done|].
        by apply (bk_arrival _ _ Hinv pair).
    + rewrite lookup_insert_ne in Hb' by done. by apply (bk_arrival _ _ Hinv pair').
Qed.

Lemma books_inv_cancel h e i pair h' e' r :
  books_inv h e → cancelOrder h e i pair = Some (h', e', r) → books_inv h' e'.
Proof.
  intros Hinv [(_ & -> & -> & _)|(b & b' & Hb & Hc & ->)]%cancelOrder_Some; [done|].
  pose proof (bk_books _ _ Hinv pair b Hb) as Hbook.
  pose proof (book_inv_cancel _ _ _ _ _ _ _ Hbook Hc) as Hbook'.
  apply OrderBook_cancelOrder_Some in Hc
    as [(_ & -> & -> & _)|(p & o & Hi & Hp & -> & -> & _)].
  { destruct Hinv as [H3 H4]. split; cbn.
    - intros pair' b' [[<- <-]|[Hne Hb']]%lookup_insert_Some; [done|by apply H3].
    - intros pair' b' sd [[<- <-]|[Hne Hb']]%lookup_insert_Some;
        [by apply (H4 pair)|by apply (H4 pair')]. }
  destruct Hinv as [H3 H4]. split; cbn.
  - intros pair' b' [[<- <-]|[Hne Hb']]%lookup_insert_Some; [done|].
    apply book_inv_status; [by apply H3|done].
  - intros pair' b' sd [[<- <-]|[Hne Hb']]%lookup_insert_Some;
      [|by apply (H4 pair')].
    rewrite ladder_set_orders.
    destruct (decide (sd = side o)) as [->|Hne].
    + rewrite ladder_set_ladder. apply arrival_sorted_remove. by apply (H4 pair).
    + rewrite ladder_set_ladder_ne by done. by apply (H4 pair).
Qed.

Lemma books_inv_addTradingPair h e pair :
  books_inv h e → books_inv h (addTradingPair e pair).1.
Proof.
  intros Hinv. unfold addTradingPair.
  destruct (orderBooks_ e !! pair) eqn:Hp; [done|].
  destruct Hinv as [H3 H4]. split; cbn.
  - intros pair' b' [[<- <-]|[Hne Hb']]%lookup_insert_Some; [|by apply H3].
    split; [done| |done].
    intros sd. assert (ladder sd (OrderBook_new pair) = []) as -> by by destruct sd.
    split.
    + apply smap_sorted_nil.
    + by intros ?? ?%elem_of_nil.
    + constructor.
    + by intros ??? ?%elem_of_nil.
  - intros pair' b' sd [[<- <-]|[Hne Hb']]%lookup_insert_Some; [|by apply (H4 pair')].
    assert (ladder sd (OrderBook_new pair) = []) as -> by by destruct sd.
    apply arrival_sorted_nil.
Qed.

(** ** Runs of the engine *)

Lemma books_inv_new : books_inv [] MatchingEngine_new.
Proof. split; done. Qed.

Lemma rounded_run_from_snoc s ops o :
  Rounded.run_from rnd s (ops ++ [o])
  = Rounded.run_from rnd s ops ≫= λ s', Rounded.apply_op rnd s' o.
Proof. unfold Rounded.run_from. by rewrite foldl_app. Qed.

Lemma books_inv_apply_op h e o h' e' :
  books_inv h e → Rounded.apply_op rnd (h, e) o = Some (h', e') → books_inv h' e'.
Proof.
  intros Hinv.
  destruct o as [pair|fuel user pair sd ty px qty|i pair]; cbn.
  - intros [= <- <-]. by apply books_inv_addTradingPair.
  - destruct (Rounded.submitOrder _ _ _ _ _ _ _ _ _ _) as [[[h2 e2] [trades|ex]]|] eqn:E;
      [| |done]; cbn; intros [= <- <-].
    + by eapply books_inv_submit.
    + by destruct (rounded_submitOrder_Throw _ _ _ _ _ _ _ _ _ _ _ _ Hinv E) as [-> ->].
  - destruct (cancelOrder _ _ _ _) as [[[h2 e2] r]|] eqn:E; [|done].
    cbn. intros [= <- <-]. by eapply books_inv_cancel.
Qed.

Lemma rounded_run_inv ops h e :
  Rounded.run_from rnd ([], MatchingEngine_new) ops = Some (h, e) → books_inv h e.
Proof.
  revert h e. induction ops as [|o ops IH] using rev_ind; intros h e.
  { intros [= <- <-]. apply books_inv_new. }
  rewrite rounded_run_from_snoc.
  destruct (Rounded.run_from _ _ ops) as [[h1 e1]|] eqn:Hrun; [|done]. cbn.
  intros Ho. eapply books_inv_apply_op; [by apply IH|done].
Qed.

Lemma rounded_reachable_inv h e : Rounded.reachable rnd h e → books_inv h e.
Proof. intros (ops & _ & Hrun). by eapply rounded_run_inv. Qed.

End RoundedEngine.

Section RoundedTrace.
Variable rnd : Z → Z.

(** ** The trades of a sweep, one by one *)

Lemma sweep_trace acc t Q pre h Qc h' Q' trs :
  Rounded.sweep rnd acc t h Qc h' Q' trs →
  Q = pre ++ Qc → NoDup Q → t ∉ Q →
  (∀ m, m ∈ pre → ∃ o, h !! m = Some o ∧ isFilled o = true) →
  Forall (open_order h) Qc →
  trace (Rounded.trade_step rnd acc t Q) h trs h' ∧
  ∃ pre', Q = pre' ++ Q' ∧
    (∀ m, m ∈ pre' → ∃ o, h' !! m = Some o ∧ isFilled o = true).
Proof.
  intros Hs. revert pre.
  induction Hs as [h Qc n Hn Hf | h n Hn | h m Qc n o Hn Ho Hf Ha
                  | h m Qc n o q h' Q' trs Hn Ho Hf Ha Hq Hs IH];
    intros pre HQ Hnd Ht Hpre Hop.
  - split; [constructor|]. by exists pre.
  - split; [constructor|]. by exists pre.
  - split; [constructor|]. by exists pre.
  - subst Q.
    assert (m ∈ pre ++ m :: Qc) as HmQ by (apply elem_of_app; right; by left).
    assert (t ≠ m) as Hne by (intros ->; done).
    assert ((m ∉ pre) ∧ (m ∉ Qc) ∧ NoDup Qc) as (Hmp & Hmc & Hndc).
    { apply NoDup_app in Hnd as (_ & Hd & Hnd).
      apply NoDup_cons in Hnd as [? ?]. split; [|done].
      intros Hin. apply (Hd m Hin). by left. }
    apply Forall_cons in Hop as [(o1 & Ho1 & Hfo) Hop].
    assert (o1 = o) as -> by congruence. clear Ho1.
    subst q.
    set (q := Z.min (Rounded.getRemainingQuantity rnd n)
                    (Rounded.getRemainingQuantity rnd o)) in *.
    set (h1 := Rounded.filled_heap rnd h t m n o q) in *.
    assert (∀ m', m' ∈ pre ++ Qc → m' ≠ m → h1 !! m' = h !! m') as Hother.
    { intros m' Hin Hm'. unfold h1. apply rounded_heap_other; [|done].
      intros ->. apply Ht. apply elem_of_app in Hin as [?|?];
        apply elem_of_app; [by left|right; by right]. }
    assert (∀ m', m' ∈ pre → ∃ o, h1 !! m' = Some o ∧ isFilled o = true) as Hpre1.
    { intros m' Hin. rewrite Hother; [by apply Hpre| |].
      - apply elem_of_app. by left.
      - intros ->. done. }
    assert (Forall (open_order h1) Qc) as Hop1.
    { rewrite !Forall_forall in *. intros m' Hin.
      destruct (Hop m' Hin) as (o' & Ho' & Hf'). exists o'. split; [|done].
      rewrite Hother; [done| |].
      - apply elem_of_app. by right.
      - intros ->. done. }
    assert (Rounded.trade_step rnd acc t (pre ++ m :: Qc) h (trade_of n o q) h1)
      as Hstep.
    { exists (length pre), m, n, o. split; [done|]. split; [done|]. split.
      - split; [by apply list_lookup_middle|]. split; [by eauto|].
        intros j m' Hj Hm'. apply Hpre.
        rewrite lookup_app_l in Hm' by done. by eapply list_elem_of_lookup_2.
      - by repeat split. }
    destruct (isFilled (Rounded.fill rnd q o)) eqn:Hfill.
    + destruct (IH (pre ++ [m])) as [Htr Hpre']; try done.
      * by rewrite <- app_assoc.
      * intros m' [Hin| ->%list_elem_of_singleton]%elem_of_app; [by apply Hpre1|].
        exists (Rounded.fill rnd q o). split; [by apply rounded_heap_maker|done].
      * split; [|done]. by econstructor.
    + destruct (IH pre) as [Htr Hpre']; try done.
      * apply Forall_cons. split; [|done].
        exists (Rounded.fill rnd q o). split; [by apply rounded_heap_maker|done].
      * split; [|done]. by econstructor.
Qed.

End RoundedTrace.

(** ** The queue is in price-time order *)

Lemma StronglySorted_lookup_lt (l : list nat) i j x y :
  StronglySorted lt l → (i < j)%nat → l !! i = Some x → l !! j = Some y → (x < y)%nat.
Proof.
  intros Hs. revert i j. induction Hs as [|a l Hs IH Ha]; intros i j Hij Hi Hj; [done|].
  destruct j as [|j]; [lia|]. cbn in Hj. destruct i as [|i]; cbn in Hi.
  - simplify_eq. rewrite Forall_forall in Ha. apply Ha.
    by eapply list_elem_of_lookup_2.
  - eapply IH; [|done|done]. lia.
Qed.

(** Of two resting orders, the one ahead in the queue has the strictly
    better price, or the same price and was created earlier. *)
Lemma queue_priority h pair sd l i j mi mj oi oj :
  ladder_inv h pair sd l → arrival_sorted l → (i < j)%nat →
  queue l !! i = Some mi → queue l !! j = Some mj →
  h !! mi = Some oi → h !! mj = Some oj →
  side_lt sd (price oi) (price oj) = true ∨
  (price oi = price oj ∧ (mi < mj)%nat).
Proof.
  intros [H1 _ _ H4] Hs. revert i j.
  induction l as [|[px os] l IH]; intros i j Hij Hi Hj Hoi Hoj; [done|].
  apply smap_sorted_cons in H1 as [H1 Hk].
  rewrite queue_cons in Hi, Hj.
  assert (∀ m o, m ∈ os → h !! m = Some o → price o = px) as Hos.
  { intros m o Hm Ho. destruct (H4 px os m) as (o' & ? & _ & _ & ? & _);
      [by left|done|]. by simplify_eq. }
  assert (∀ m o, m ∈ queue l → h !! m = Some o → side_lt sd px (price o) = true)
    as Hl.
  { intros m o (px' & os' & Hin & Hm)%elem_of_queue Ho.
    destruct (H4 px' os' m) as (o' & ? & _ & _ & ? & _); [by right|done|].
    simplify_eq. by eapply Hk. }
  apply lookup_app_Some in Hi as [Hi|[Hige Hi]];
    apply lookup_app_Some in Hj as [Hj|[Hjge Hj]].
  - right. rewrite (Hos mi oi), (Hos mj oj); eauto using list_elem_of_lookup_2.
    split; [done|]. eapply StronglySorted_lookup_lt; [|done..].
    apply (Hs px). by left.
  - left. rewrite (Hos mi oi) by eauto using list_elem_of_lookup_2.
    eapply Hl; eauto using list_elem_of_lookup_2.
  - apply lookup_lt_Some in Hj. lia.
  - eapply (IH H1); [| | |exact Hi|exact Hj|done|done].
    + intros px' os' m Hin Hm. eapply H4; [by right|done].
    + intros px' os' Hin. eapply Hs. by right.
    + lia.
Qed.

Section RoundedDoubles.
Variable rnd : Z → Z.
Hypothesis Hrnd : Rounded.rounding rnd.

(** ** The records hold doubles *)

Lemma rounded_remaining_pos o :
  isFilled o = false → 0 < Rounded.getRemainingQuantity rnd o.
Proof.
  unfold isFilled, Rounded.getRemainingQuantity. intros Hf.
  apply (Rounded.rnd_pos _ Hrnd). lia.
Qed.

(** A fill by a positive quantity keeps the record a record of doubles
    and does not decrease its filled quantity. *)
Lemma rounded_fill_double q o :
  0 < q →
  rnd (quantity o) = quantity o → rnd (filledQuantity o) = filledQuantity o →
  0 ≤ filledQuantity o →
  rnd (quantity (Rounded.fill rnd q o)) = quantity (Rounded.fill rnd q o) ∧
  rnd (filledQuantity (Rounded.fill rnd q o)) = filledQuantity (Rounded.fill rnd q o) ∧
  filledQuantity o ≤ filledQuantity (Rounded.fill rnd q o).
Proof.
  intros Hq HQ HF H0.
  rewrite (si_quantity _ _ (rounded_fill_ident rnd q o)), rounded_fill_filled.
  split; [done|]. split.
  - apply (Rounded.rnd_idem _ Hrnd). lia.
  - rewrite <- HF at 1. apply (Rounded.rnd_mono _ Hrnd); lia.
Qed.

Lemma double_heap_step acc t Q h tr h' :
  double_heap rnd h → Rounded.trade_step rnd acc t Q h tr h' →
  double_heap rnd h' ∧ 0 < tradeQuantity tr.
Proof.
  intros Hd (k & m & n & o & Hn & Hfn & (Hk & (o' & Ho' & Hfo) & _) & Ho & _ & Htr & ->).
  assert (o' = o) as -> by congruence.
  set (q := Z.min (Rounded.getRemainingQuantity rnd n)
                  (Rounded.getRemainingQuantity rnd o)) in *.
  assert (0 < q) as Hq.
  { unfold q. pose proof (rounded_remaining_pos n Hfn).
    pose proof (rounded_remaining_pos o Hfo). lia. }
  split; [|by rewrite Htr, tradeQuantity_trade_of].
  destruct (Hd t n Hn) as (Hn1 & Hn2 & Hn3).
  destruct (Hd m o Ho) as (Ho1 & Ho2 & Ho3).
  destruct (rounded_fill_double q n Hq Hn1 Hn2 Hn3) as (? & ? & ?).
  destruct (rounded_fill_double q o Hq Ho1 Ho2 Ho3) as (? & ? & ?).
  intros p o1 Hp. unfold Rounded.filled_heap in Hp.
  apply list_lookup_insert_Some in Hp as [(-> & <- & _)|[Hne Hp]].
  { repeat split; try done. lia. }
  apply list_lookup_insert_Some in Hp as [(-> & <- & _)|[Hne' Hp]].
  { repeat split; try done. lia. }
  by apply (Hd p).
Qed.

Lemma double_heap_trace acc t Q h trs h' :
  double_heap rnd h → trace (Rounded.trade_step rnd acc t Q) h trs h' →
  double_heap rnd h' ∧ Forall (λ tr, 0 < tradeQuantity tr) trs.
Proof.
  intros Hd Htr. induction Htr as [h|h tr h1 trs h' Hstep _ IH].
  { by split; [|constructor]. }
  destruct (double_heap_step _ _ _ _ _ _ Hd Hstep) as [Hd1 Hq].
  destruct (IH Hd1) as [Hd' Hqs]. split; [done|]. by constructor.
Qed.

End RoundedDoubles.

Section RoundedSubmit.
Variable rnd : Z → Z.

(** ** The trades of a submission, one by one *)

Lemma rounded_submit_trace fuel h e user pair sd ty px qty h' e' trades b :
  books_inv h e →
  orderBooks_ e !! pair = Some b →
  Rounded.submitOrder rnd fuel h e user pair sd ty px qty
  = Some (h', e', Return trades) →
  let t := length h in
  let n := Order_new (generateOrderId e).1 user pair sd ty px qty in
  let Q := queue (ladder (opposite sd) b) in
  trace (Rounded.trade_step rnd (limit_acc n) t Q) (h ++ [n]) trades h' ∧
  ∃ L' n' pre,
    orderBooks_ e' !! pair = Some (book_after b t n' L') ∧
    h' !! t = Some n' ∧ same_ident n n' ∧
    Q = pre ++ queue L' ∧
    (∀ m, m ∈ pre → ∃ o, h' !! m = Some o ∧ isFilled o = true).
Proof.
  intros Hinv Hb Hsub t n Q.
  destruct (rounded_submitOrder_spec _ _ _ _ _ _ _ _ _ _ _ _ _ Hinv Hsub)
    as (b0 & L' & n' & Hb0 & Hq & Hpx & Hs & Htail & Hn' & I & ->).
  assert (b0 = b) as -> by congruence. fold t n Q in Hs, Hn', I |- *.
  pose proof (bk_books _ _ Hinv pair b Hb) as Hbook.
  destruct (ladder_inv_alloc _ _ _ _ n (bi_ladder _ _ _ Hbook (opposite sd)))
    as [Hl1 Hfresh].
  destruct (sweep_trace rnd _ _ Q [] _ _ _ _ _ Hs) as [Htr (pre & HQ & Hpre)];
    [done|apply Hl1|done|by intros ? ?%elem_of_nil|by eapply ladder_inv_open|].
  split; [done|]. exists L', n', pre. cbn. rewrite lookup_insert_eq. done.
Qed.

End RoundedSubmit.

Section RoundedReach.
Variable rnd : Z → Z.
Hypothesis Hrnd : Rounded.rounding rnd.

Lemma double_heap_submit fuel h e user pair sd ty px qty h' e' trades :
  books_inv h e → double_heap rnd h → rnd qty = qty →
  Rounded.submitOrder rnd fuel h e user pair sd ty px qty
  = Some (h', e', Return trades) →
  double_heap rnd h' ∧ Forall (λ tr, 0 < tradeQuantity tr) trades.
Proof.
  intros Hinv Hd Hqty Hsub.
  destruct (rounded_submitOrder_spec _ _ _ _ _ _ _ _ _ _ _ _ _ Hinv Hsub)
    as (b & _ & _ & Hb & Hq & _).
  destruct (rounded_submit_trace rnd fuel h e user pair sd ty px qty h' e' trades b
              Hinv Hb Hsub) as [Htr _].
  eapply double_heap_trace; [done| |exact Htr].
  intros p o [Ho|[_ Ho]]%lookup_app_Some; [by apply (Hd p)|].
  apply list_lookup_singleton_Some in Ho as [_ <-]. cbn.
  split; [done|]. split; [apply (Rounded.rnd_zero _ Hrnd)|done].
Qed.

Lemma double_heap_cancel h e i pair h' e' r :
  double_heap rnd h → cancelOrder h e i pair = Some (h', e', r) → double_heap rnd h'.
Proof.
  intros Hd [(_ & -> & _)|(b & b' & _ & Hc & _)]%cancelOrder_Some; [done|].
  apply OrderBook_cancelOrder_Some in Hc as [(_ & -> & _)|(p & o & _ & Hp & -> & _)];
    [done|].
  intros p' o' [(-> & <- & _)|[Hne Ho']]%list_lookup_insert_Some; [|by apply (Hd p')].
  by apply (Hd p' o).
Qed.

Lemma rounded_reachable_double h e : Rounded.reachable rnd h e → double_heap rnd h.
Proof.
  intros (ops & Hops & Hrun). revert h e Hrun.
  induction ops as [|o ops IH] using rev_ind; intros h e.
  { intros [= <- <-]. by intros ? ? ?. }
  apply Forall_app in Hops as [Hops Ho%Forall_inv].
  rewrite rounded_run_from_snoc.
  destruct (Rounded.run_from _ _ ops) as [[h1 e1]|] eqn:Hrun; [|done]. cbn.
  specialize (IH Hops h1 e1 eq_refl).
  pose proof (rounded_run_inv _ _ _ _ Hrun) as Hinv.
  destruct o as [pair|fuel user pair sd ty px qty|i pair]; cbn.
  - by intros [= <- <-].
  - destruct (Rounded.submitOrder _ _ _ _ _ _ _ _ _ _) as [[[h2 e2] [trades|ex]]|] eqn:E;
      [| |done]; cbn; intros [= <- <-].
    + destruct Ho as [_ Hqty]. by eapply double_heap_submit.
    + by destruct (rounded_submitOrder_Throw _ _ _ _ _ _ _ _ _ _ _ _ _ Hinv E) as [-> ->].
  - destruct (cancelOrder _ _ _ _) as [[[h2 e2] r]|] eqn:E; [|done].
    cbn. intros [= <- <-]. by eapply double_heap_cancel.
Qed.

End RoundedReach.

(** ** The matching loops terminate *)

Lemma stage_le_2 o : (stage o ≤ 2)%nat.
Proof. unfold stage. repeat case_match; lia. Qed.

Lemma stage_open o : isFilled o = false → (1 ≤ stage o)%nat.
Proof. unfold stage. intros ->. case_match; lia. Qed.

Lemma stages_le h Q : (stages h Q ≤ 2 * length Q)%nat.
Proof.
  induction Q as [|m Q IH]; cbn; [lia|]. unfold stages in IH.
  assert (stage_at h m ≤ 2)%nat; [|lia].
  unfold stage_at. destruct (h !! m); [apply stage_le_2|lia].
Qed.

Lemma stages_ext h h' Q :
  (∀ m, m ∈ Q → h' !! m = h !! m) → stages h' Q = stages h Q.
Proof.
  induction Q as [|m Q IH]; intros Hh; [done|]. cbn.
  unfold stages in IH. rewrite IH by (intros m' ?; apply Hh; by right).
  unfold stage_at. rewrite Hh by by left. done.
Qed.

Lemma stages_app h Q1 Q2 : stages h (Q1 ++ Q2) = (stages h Q1 + stages h Q2)%nat.
Proof. unfold stages. induction Q1 as [|m Q1 IH]; cbn; [done|]. rewrite IH. lia. Qed.

Section RoundedTermination.
Variable rnd : Z → Z.
Hypothesis Hrnd : Rounded.rounding rnd.

(** A fill by a positive quantity does not raise the stage. *)
Lemma stage_fill_le q o :
  0 < q → rnd (filledQuantity o) = filledQuantity o → 0 ≤ filledQuantity o →
  (stage (Rounded.fill rnd q o) ≤ stage o)%nat.
Proof.
  intros Hq HF H0.
  assert (filledQuantity o ≤ rnd (filledQuantity o + q)) as Hle.
  { rewrite <- HF at 1. apply (Rounded.rnd_mono _ Hrnd); lia. }
  unfold stage, isFilled.
  rewrite (si_quantity _ _ (rounded_fill_ident rnd q o)), rounded_fill_filled.
  repeat case_match; lia.
Qed.

(** A fill by the record's own remaining quantity lowers the stage. *)
Lemma stage_fill_lt o :
  isFilled o = false →
  rnd (quantity o) = quantity o → rnd (filledQuantity o) = filledQuantity o →
  0 ≤ filledQuantity o →
  (stage (Rounded.fill rnd (Rounded.getRemainingQuantity rnd o) o) < stage o)%nat.
Proof.
  intros Hf HQ HF H0. unfold Rounded.getRemainingQuantity.
  unfold stage at 2. rewrite Hf. unfold isFilled in Hf.
  unfold stage, isFilled.
  rewrite (si_quantity _ _ (rounded_fill_ident rnd _ o)), rounded_fill_filled.
  destruct (quantity o <=? 2 * filledQuantity o) eqn:Hh.
  - rewrite (Rounded.rnd_sterbenz _ Hrnd) by (try done; lia).
    replace (filledQuantity o + (quantity o - filledQuantity o)) with (quantity o)
      by lia.
    rewrite HQ. rewrite (proj2 (Z.leb_le _ _)) by lia. lia.
  - set (z := quantity o - filledQuantity o).
    assert (quantity o ≤ 2 * rnd z) as Hhalf.
    { apply (Rounded.rnd_half _ Hrnd); [done|lia|unfold z; lia]. }
    assert (rnd z ≤ rnd (filledQuantity o + rnd z)) as Hle.
    { rewrite <- (Rounded.rnd_idem _ Hrnd z) at 1 by (unfold z; lia).
      apply (Rounded.rnd_mono _ Hrnd); [|lia].
      rewrite <- (Rounded.rnd_zero _ Hrnd). apply (Rounded.rnd_mono _ Hrnd); unfold z; lia. }
    repeat case_match; lia.
Qed.

(** One match lowers the stages of the two orders together. *)
Lemma stage_match n o :
  isFilled n = false → isFilled o = false →
  rnd (quantity n) = quantity n → rnd (filledQuantity n) = filledQuantity n →
  0 ≤ filledQuantity n →
  rnd (quantity o) = quantity o → rnd (filledQuantity o) = filledQuantity o →
  0 ≤ filledQuantity o →
  let q := Z.min (Rounded.getRemainingQuantity rnd n)
                 (Rounded.getRemainingQuantity rnd o) in
  0 < q ∧
  (stage (Rounded.fill rnd q n) ≤ stage n)%nat ∧
  (stage (Rounded.fill rnd q o) ≤ stage o)%nat ∧
  (stage (Rounded.fill rnd q n) + stage (Rounded.fill rnd q o) < stage n + stage o)%nat.
Proof.
  intros Hfn Hfo Hn1 Hn2 Hn3 Ho1 Ho2 Ho3 q.
  pose proof (rounded_remaining_pos rnd Hrnd n Hfn) as Hrn.
  pose proof (rounded_remaining_pos rnd Hrnd o Hfo) as Hro.
  assert (0 < q) as Hq by (unfold q; lia).
  pose proof (stage_fill_le q n Hq Hn2 Hn3) as Hn.
  pose proof (stage_fill_le q o Hq Ho2 Ho3) as Ho.
  split; [done|]. split; [done|]. split; [done|].
  destruct (Z.min_spec (Rounded.getRemainingQuantity rnd n)
                       (Rounded.getRemainingQuantity rnd o)) as [[_ Hm]|[_ Hm]].
  - pose proof (stage_fill_lt n Hfn Hn1 Hn2 Hn3) as Hlt.
    unfold q in *. rewrite Hm in *. lia.
  - pose proof (stage_fill_lt o Hfo Ho1 Ho2 Ho3) as Hlt.
    unfold q in *. rewrite Hm in *. lia.
Qed.

Lemma double_heap_filled_heap h t m n o q :
  0 < q → h !! t = Some n → h !! m = Some o →
  double_heap rnd h → double_heap rnd (Rounded.filled_heap rnd h t m n o q).
Proof.
  intros Hq Hn Ho Hd.
  destruct (Hd t n Hn) as (Hn1 & Hn2 & Hn3).
  destruct (Hd m o Ho) as (Ho1 & Ho2 & Ho3).
  destruct (rounded_fill_double rnd Hrnd q n Hq Hn1 Hn2 Hn3) as (? & ? & ?).
  destruct (rounded_fill_double rnd Hrnd q o Hq Ho1 Ho2 Ho3) as (? & ? & ?).
  intros p o1 Hp. unfold Rounded.filled_heap in Hp.
  apply list_lookup_insert_Some in Hp as [(-> & <- & _)|[Hne Hp]].
  { repeat split; try done. lia. }
  apply list_lookup_insert_Some in Hp as [(-> & <- & _)|[Hne' Hp]].
  { repeat split; try done. lia. }
  by apply (Hd p).
Qed.

(** The inner loop returns once the fuel exceeds the stages of the
    incoming order and of the level, and it does not raise them. *)
Lemma rounded_match_level_total fuel h t os trs n :
  double_heap rnd h → h !! t = Some n → t ∉ os → NoDup os →
  Forall (open_order h) os →
  (stage n + stages h os < fuel)%nat →
  ∃ h1 os1 trs1 n1,
    Rounded.match_level rnd fuel h t os trs = Some (h1, os1, trs1) ∧
    h1 !! t = Some n1 ∧ double_heap rnd h1 ∧
    (stage n1 + stages h1 os1 ≤ stage n + stages h os)%nat.
Proof.
  revert h os trs n.
  induction fuel as [|fuel IH]; intros h os trs n Hd Hn Ht Hnd Hop Hfuel; [lia|].
  cbn [Rounded.match_level]. rewrite Hn. cbn [mbind option_bind].
  destruct os as [|m tail]; [by eexists _, _, _, _|].
  destruct (isFilled n) eqn:Hf; [by eexists _, _, _, _|].
  apply Forall_cons in Hop as [(o & Ho & Hfo) Hop].
  apply NoDup_cons in Hnd as [Hmt Hnd].
  apply not_elem_of_cons in Ht as [Hne Ht].
  rewrite (rounded_match_front_spec rnd h t m n o Hne Hn Ho).
  cbn [mbind option_bind].
  set (q := Z.min (Rounded.getRemainingQuantity rnd n)
                  (Rounded.getRemainingQuantity rnd o)) in *.
  set (h0 := Rounded.filled_heap rnd h t m n o q) in *.
  destruct (Hd t n Hn) as (Hn1 & Hn2 & Hn3).
  destruct (Hd m o Ho) as (Ho1 & Ho2 & Ho3).
  destruct (stage_match n o Hf Hfo Hn1 Hn2 Hn3 Ho1 Ho2 Ho3) as (Hq & Hsn & Hso & Hlt).
  fold q in Hq, Hsn, Hso, Hlt.
  assert (H0m : h0 !! m = Some (Rounded.fill rnd q o)) by by apply rounded_heap_maker.
  assert (H0t : h0 !! t = Some (Rounded.fill rnd q n)) by by apply rounded_heap_taker.
  assert (Hd0 : double_heap rnd h0) by by apply double_heap_filled_heap.
  assert (Htail : ∀ m', m' ∈ tail → h0 !! m' = h !! m').
  { intros m' Hin. unfold h0. apply rounded_heap_other; intros ->; done. }
  assert (Hop0 : Forall (open_order h0) tail).
  { rewrite !Forall_forall in *. intros m' Hin.
    destruct (Hop m' Hin) as (o' & Ho' & Hf'). exists o'. by rewrite Htail. }
  rewrite H0m. cbn [mbind option_bind].
  assert (stages h (m :: tail) = (stage o + stages h tail)%nat) as Hst.
  { cbn. unfold stage_at at 1. by rewrite Ho. }
  rewrite Hst in Hfuel |- *.
  pose proof (stages_ext h h0 tail Htail) as Hst0.
  pose proof (stage_open o Hfo) as Hso1.
  destruct (isFilled (Rounded.fill rnd q o)) eqn:Hfill.
  - destruct (IH h0 tail (trs ++ [trade_of n o q]) (Rounded.fill rnd q n))
      as (h1 & os1 & trs1 & n1 & Hm & Hn1' & Hd1 & Hle); try done; [lia|].
    exists h1, os1, trs1, n1. split; [done|]. split; [done|]. split; [done|]. lia.
  - destruct (IH h0 (m :: tail) (trs ++ [trade_of n o q]) (Rounded.fill rnd q n))
      as (h1 & os1 & trs1 & n1 & Hm & Hn1' & Hd1 & Hle); try done.
    + by apply not_elem_of_cons.
    + by apply NoDup_cons.
    + apply Forall_cons. split; [by exists (Rounded.fill rnd q o)|done].
    + cbn. unfold stage_at at 1. rewrite H0m. fold (stages h0 tail). lia.
    + exists h1, os1, trs1, n1. split; [done|]. split; [done|]. split; [done|].
      cbn in Hle. unfold stage_at at 1 in Hle. rewrite H0m in Hle.
      fold (stages h0 tail) in Hle. lia.
Qed.

(** The outer loop returns once the fuel exceeds the stages of the
    incoming order and of the queue plus the number of levels. *)
Lemma rounded_match_book_total fuel limit h t L trs n :
  double_heap rnd h → h !! t = Some n → sweep_pre h t L →
  Forall (open_order h) (queue L) →
  (stage n + stages h (queue L) + length L < fuel)%nat →
  is_Some (Rounded.match_book rnd fuel limit h t L trs).
Proof.
  revert h L trs n.
  induction fuel as [|fuel IH]; intros h L trs n Hd Hn Hpre Hop Hfuel; [lia|].
  cbn [Rounded.match_book]. rewrite Hn. cbn [mbind option_bind].
  destruct L as [|[px os] L]; [by eexists|].
  destruct (isFilled n) eqn:Hf; [by eexists|].
  destruct (limit && negb _); [by eexists|].
  pose proof (sp_nodup _ _ _ Hpre) as Hnd. pose proof (sp_fresh _ _ _ Hpre) as Ht.
  rewrite queue_cons in Hnd, Ht, Hop, Hfuel.
  apply NoDup_app in Hnd as (Hnd1 & Hdisj & Hnd2).
  apply not_elem_of_app in Ht as [Ht1 Ht2].
  apply Forall_app in Hop as [Hop1 Hop2].
  rewrite stages_app in Hfuel. cbn [length] in Hfuel.
  destruct (rounded_match_level_total fuel h t os trs n)
    as (h1 & os1 & trs1 & n1 & Hlev & Hn1 & Hd1 & Hle); try done; [lia|].
  rewrite Hlev. cbn [mbind option_bind].
  destruct (rounded_match_level_flat rnd (λ _, true) _ _ _ _ _ _ _ _ (queue L)
              Hlev Hnd1 Ht1)
    as (nt1 & -> & Hsuf & Hid & Hfr & _ & Hc2).
  { intros m Hin. rewrite Forall_forall in Hop1.
    destruct (Hop1 m Hin) as (o & Ho & _). by exists o. }
  destruct os1 as [|m1 os1].
  - assert (∀ m, m ∈ queue L → h1 !! m = h !! m) as Hframe.
    { intros m Hin. apply Hfr; [by intros ->|]. intros Hm. by apply (Hdisj m). }
    apply (IH h1 L (trs ++ nt1) n1); try done.
    + by eapply sweep_pre_tail.
    + rewrite !Forall_forall in *. intros m Hin.
      destruct (Hop2 m Hin) as (o & Ho & Hfo). exists o. by rewrite Hframe.
    + rewrite (stages_ext h h1 (queue L) Hframe). cbn in Hle. lia.
  - destruct Hc2 as [_ (n' & Hn' & Hf')]; [done|].
    assert (n' = n1) as -> by congruence.
    pose proof (stage_open n Hf).
    destruct fuel as [|fuel]; [lia|]. cbn [Rounded.match_book].
    rewrite Hn1. cbn [mbind option_bind]. rewrite Hf'. by eexists.
Qed.

End RoundedTermination.

Section RoundedTotal.
Variable rnd : Z → Z.
Hypothesis Hrnd : Rounded.rounding rnd.

(** A submission on doubles returns once the fuel exceeds twice the
    length of the opposite queue plus the number of its levels. *)
Lemma rounded_submitOrder_total fuel h e user pair sd ty px qty :
  books_inv h e → double_heap rnd h → rnd qty = qty →
  (∀ b, orderBooks_ e !! pair = Some b →
     (2 * length (queue (ladder (opposite sd) b))
      + length (ladder (opposite sd) b) + 2 < fuel)%nat) →
  is_Some (Rounded.submitOrder rnd fuel h e user pair sd ty px qty).
Proof.
  intros Hinv Hd Hqty Hfuel. unfold Rounded.submitOrder.
  destruct (qty <=? 0); [by eexists|].
  destruct (_ && _); [by eexists|].
  unfold getOrderBook.
  destruct (orderBooks_ e !! pair) as [b|] eqn:Hb; [|by eexists].
  specialize (Hfuel b eq_refl).
  unfold generateOrderId, make_shared. cbn [fst].
  set (n := Order_new ((orderIdCounter_ e + 1) mod 2 ^ 64) user pair sd ty px qty).
  set (t := length h).
  pose proof (bk_books _ _ Hinv pair b Hb) as Hbook.
  destruct (ladder_inv_alloc _ _ _ _ n (bi_ladder _ _ _ Hbook (opposite sd)))
    as [Hl1 Hfresh].
  assert (Hn : (h ++ [n]) !! t = Some n) by by apply list_lookup_middle.
  assert (Hpre : sweep_pre (h ++ [n]) t (ladder (opposite sd) b))
    by by apply (ladder_inv_sweep_pre _ pair (opposite sd)).
  assert (Hdn : double_heap rnd (h ++ [n])).
  { intros p o [Ho|[_ Ho]]%lookup_app_Some; [by apply (Hd p)|].
    apply list_lookup_singleton_Some in Ho as [_ <-]. cbn.
    split; [done|]. split; [apply (Rounded.rnd_zero _ Hrnd)|done]. }
  unfold Rounded.addOrder. rewrite Hn. cbn [mbind option_bind].
  rewrite bool_decide_eq_true_2 by (cbn; by rewrite (bi_pair _ _ _ Hbook)).
  cbn [negb]. unfold Rounded.matchOrder. rewrite Hn. cbn [mbind option_bind].
  rewrite ladder_set_orders.
  change (side n) with sd. change (type n) with ty.
  destruct (rounded_match_book_total rnd Hrnd fuel (bool_decide (ty = LIMIT))
              (h ++ [n]) t (ladder (opposite sd) b) [] n)
    as [[[h2 L'] trs] Hm]; try done.
  { by eapply ladder_inv_open. }
  { pose proof (stage_le_2 n).
    pose proof (stages_le (h ++ [n]) (queue (ladder (opposite sd) b))). lia. }
  rewrite Hm. cbn [mbind option_bind].
  apply (rounded_match_book_flat rnd _ (limit_acc n)) in Hm as (nt & -> & Hs & Htail);
    [|done|].
  2: { intros n1 px' Hn1. by simplify_eq. }
  destruct (sweep_heap_ident _ _ _ _ _ _ _ _ Hs Hfresh) as [_ Hid].
  destruct (Hid t n Hn) as (n' & Hn' & I).
  rewrite Hn'. by eexists.
Qed.

End RoundedTotal.

(** ** Rounding to double *)

Lemma ulp_exp_nonneg a : 0 ≤ ulp_exp a.
Proof. unfold ulp_exp. lia. Qed.

Lemma ulp_exp_mono a b : a ≤ b → ulp_exp a ≤ ulp_exp b.
Proof. intros H. unfold ulp_exp. pose proof (Z.log2_le_mono a b H). lia. Qed.

Lemma ulp_pos a : 0 < 2 ^ ulp_exp a.
Proof. apply Z.pow_pos_nonneg; [lia|apply ulp_exp_nonneg]. Qed.

Lemma pow2_divide a b : 0 ≤ a ≤ b → (2 ^ a | 2 ^ b).
Proof.
  intros H. exists (2 ^ (b - a)). rewrite <- Z.pow_add_r by lia. f_equal. lia.
Qed.

(** Below 2^53 every integer is a double. *)
Lemma ulp_exp_small a : a < 2 ^ 53 → ulp_exp a = 0.
Proof.
  intros H. unfold ulp_exp. destruct (decide (0 < a)) as [Ha|Ha].
  - assert (Z.log2 a < 53) by (apply Z.log2_lt_pow2; lia). lia.
  - rewrite Z.log2_nonpos by lia. lia.
Qed.

(** From 2^53 on, [a] has [52 + ulp_exp a] as its binary logarithm. *)
Lemma ulp_exp_large a :
  2 ^ 53 ≤ a →
  1 ≤ ulp_exp a ∧ 2 ^ (52 + ulp_exp a) ≤ a < 2 ^ (53 + ulp_exp a).
Proof.
  intros H. assert (0 < a) as Ha by lia.
  assert (53 ≤ Z.log2 a) by (apply Z.log2_le_pow2; lia).
  unfold ulp_exp. rewrite Z.max_r by lia.
  destruct (Z.log2_spec a Ha) as [H1 H2].
  replace (52 + (Z.log2 a - 52)) with (Z.log2 a) by lia.
  replace (53 + (Z.log2 a - 52)) with (Z.succ (Z.log2 a)) by lia.
  repeat split; lia.
Qed.

(** The rounding of a non-negative number is one of its two neighbours
    on the grid of its binade. *)
Lemma round_binary64_spec x :
  0 ≤ x →
  let u := 2 ^ ulp_exp x in
  let q := x / u in
  let r := x mod u in
  (round_binary64 x = q * u ∧ 2 * r ≤ u) ∨
  (round_binary64 x = (q + 1) * u ∧ u ≤ 2 * r).
Proof.
  intros Hx u q r. unfold round_binary64.
  rewrite Z.abs_eq by done. fold u q r.
  destruct (decide (x = 0)) as [->|Hne].
  { left. subst q r u. vm_compute. split; [reflexivity|discriminate]. }
  rewrite Z.sgn_pos by lia. rewrite Z.mul_1_l.
  destruct (2 * r <? u) eqn:E1; [left; split; [done|lia]|].
  destruct (u <? 2 * r) eqn:E2; [right; split; [done|lia]|].
  destruct (Z.even q); [left|right]; split; try done; lia.
Qed.

Lemma round_binary64_exact x :
  0 ≤ x → x mod 2 ^ ulp_exp x = 0 → round_binary64 x = x.
Proof.
  intros Hx Hm. pose proof (ulp_pos x) as Hu.
  pose proof (Z.div_mod x (2 ^ ulp_exp x) ltac:(lia)) as E. rewrite Hm in E.
  destruct (round_binary64_spec x Hx) as [[-> _]|[_ H]]; lia.
Qed.

Lemma round_binary64_small x : 0 ≤ x < 2 ^ 53 → round_binary64 x = x.
Proof.
  intros [H0 H]. apply round_binary64_exact; [done|].
  rewrite ulp_exp_small by done. apply Z.mod_1_r.
Qed.

(** A number that rounds to itself is on the grid of its binade. *)
Lemma round_binary64_grid x :
  0 ≤ x → round_binary64 x = x → (2 ^ ulp_exp x | x).
Proof.
  intros Hx Hr.
  destruct (round_binary64_spec x Hx) as [[E _]|[E _]]; rewrite Hr in E;
    rewrite E at 2; apply Z.divide_factor_r.
Qed.

Lemma round_binary64_grid_exact x :
  0 ≤ x → (2 ^ ulp_exp x | x) → round_binary64 x = x.
Proof.
  intros Hx Hd. apply round_binary64_exact; [done|].
  apply Z.mod_divide; [|done]. pose proof (ulp_pos x). lia.
Qed.

(** The bounds of the rounding from 2^53 on. *)
Lemma round_binary64_large x :
  2 ^ 53 ≤ x →
  2 ^ (52 + ulp_exp x) ≤ round_binary64 x ≤ 2 ^ (53 + ulp_exp x).
Proof.
  intros H. destruct (ulp_exp_large x H) as (Hs & Hlo & Hhi).
  set (s := ulp_exp x) in *. pose proof (ulp_pos x) as Hu. fold s in Hu.
  assert (2 ^ (52 + s) = 2 ^ 52 * 2 ^ s) as E52 by (rewrite Z.pow_add_r; lia).
  assert (2 ^ (53 + s) = 2 ^ 53 * 2 ^ s) as E53 by (rewrite Z.pow_add_r; lia).
  assert (2 ^ 52 ≤ x / 2 ^ s) as Hq1.
  { apply Z.div_le_lower_bound; lia. }
  assert (x / 2 ^ s < 2 ^ 53) as Hq2.
  { apply Z.div_lt_upper_bound; lia. }
  destruct (round_binary64_spec x) as [[-> _]|[-> _]]; [lia| |]; fold s; nia.
Qed.

Lemma round_binary64_idem x :
  0 ≤ x → round_binary64 (round_binary64 x) = round_binary64 x.
Proof.
  intros Hx. destruct (decide (x < 2 ^ 53)) as [Hs|Hl].
  { rewrite (round_binary64_small x) by lia. apply round_binary64_small. lia. }
  assert (2 ^ 53 ≤ x) as H by lia.
  destruct (ulp_exp_large x H) as (Hs & Hlo & Hhi).
  pose proof (round_binary64_large x H) as [Hr1 Hr2].
  set (s := ulp_exp x) in *. set (y := round_binary64 x) in *.
  assert (0 < 2 ^ (52 + s)) by (apply Z.pow_pos_nonneg; lia).
  assert ((2 ^ s | y)) as Hdiv.
  { unfold y. destruct (round_binary64_spec x) as [[-> _]|[-> _]]; [lia| |];
      apply Z.divide_factor_r. }
  apply round_binary64_grid_exact; [lia|].
  destruct (decide (y = 2 ^ (53 + s))) as [->|Hne].
  - unfold ulp_exp. rewrite Z.log2_pow2 by lia. rewrite Z.max_r by lia.
    apply pow2_divide. lia.
  - assert (Z.log2 y = 52 + s) as Hlog.
    { apply Z.log2_unique; [lia|]. replace (Z.succ (52 + s)) with (53 + s) by lia. lia. }
    unfold ulp_exp. rewrite Hlog. by replace (Z.max 0 (52 + s - 52)) with s by lia.
Qed.

Lemma round_binary64_0 : round_binary64 0 = 0.
Proof. done. Qed.

Lemma round_binary64_pos x : 0 < x → 0 < round_binary64 x.
Proof.
  intros Hx. destruct (decide (x < 2 ^ 53)) as [Hs|Hl].
  { rewrite round_binary64_small; lia. }
  pose proof (round_binary64_large x ltac:(lia)) as [H _].
  assert (0 < 2 ^ (52 + ulp_exp x)); [|lia].
  apply Z.pow_pos_nonneg; [lia|]. pose proof (ulp_exp_nonneg x). lia.
Qed.

Lemma round_binary64_mono x y :
  0 ≤ x → x ≤ y → round_binary64 x ≤ round_binary64 y.
Proof.
  intros Hx Hxy.
  destruct (decide (y < 2 ^ 53)) as [Hys|Hyl].
  { rewrite !round_binary64_small; lia. }
  assert (2 ^ 53 ≤ y) as Hy by lia.
  destruct (ulp_exp_large y Hy) as (Hsy & Hloy & Hhiy).
  pose proof (round_binary64_large y Hy) as [Hry _].
  destruct (decide (ulp_exp x = ulp_exp y)) as [Hs|Hs].
  - (* the same binade *)
    pose proof (ulp_pos y) as Hu.
    destruct (round_binary64_spec x Hx) as [[Ex Hrx]|[Ex Hrx]];
      destruct (round_binary64_spec y ltac:(lia)) as [[Ey Hry']|[Ey Hry']];
      rewrite Hs in *; set (u := 2 ^ ulp_exp y) in *;
      assert (x / u ≤ y / u) as Hq by (apply Z.div_le_mono; lia).
    + rewrite Ex, Ey. apply Z.mul_le_mono_nonneg_r; lia.
    + rewrite Ex, Ey. apply Z.mul_le_mono_nonneg_r; lia.
    + destruct (decide (x / u = y / u)) as [E|E].
      * pose proof (Z.div_mod x u ltac:(lia)) as Dx.
        pose proof (Z.div_mod y u ltac:(lia)) as Dy.
        rewrite E in Dx.
        (* a tie on both sides: the same number *)
        assert (x = y) as Exy by lia.
        rewrite Exy in Ex. rewrite Ex in Ey. nia.
      * rewrite Ex, Ey. apply Z.mul_le_mono_nonneg_r; lia.
    + rewrite Ex, Ey. apply Z.mul_le_mono_nonneg_r; lia.
  - (* a lower binade *)
    pose proof (ulp_exp_mono x y Hxy).
    assert (round_binary64 x ≤ 2 ^ (52 + ulp_exp y)); [|lia].
    destruct (decide (x < 2 ^ 53)) as [Hxs|Hxl].
    + rewrite round_binary64_small by lia.
      assert (2 ^ 53 ≤ 2 ^ (52 + ulp_exp y)); [|lia].
      apply Z.pow_le_mono_r; lia.
    + pose proof (round_binary64_large x ltac:(lia)) as [_ Hrx].
      assert (2 ^ (53 + ulp_exp x) ≤ 2 ^ (52 + ulp_exp y)); [|lia].
      pose proof (ulp_exp_nonneg x). apply Z.pow_le_mono_r; lia.
Qed.

(** The difference of two doubles within a factor two of each other is
    a double (Sterbenz). *)
Lemma round_binary64_sterbenz x y :
  round_binary64 x = x → round_binary64 y = y → 0 ≤ y → y ≤ x → x ≤ 2 * y →
  round_binary64 (x - y) = x - y.
Proof.
  intros Hx Hy H0 Hyx Hx2.
  apply round_binary64_grid_exact; [lia|].
  pose proof (round_binary64_grid x ltac:(lia) Hx) as Dx.
  pose proof (round_binary64_grid y ltac:(lia) Hy) as Dy.
  pose proof (ulp_exp_nonneg (x - y)).
  assert ((2 ^ ulp_exp y | x - y)) as Dd.
  { apply Z.divide_sub_r; [|done].
    etrans; [|exact Dx]. apply pow2_divide.
    split; [apply ulp_exp_nonneg|by apply ulp_exp_mono]. }
  etrans; [|exact Dd]. apply pow2_divide.
  split; [done|]. apply ulp_exp_mono. lia.
Qed.

(** Half of a double from 2^53 on is a double. *)
Lemma round_binary64_halve x :
  2 ^ 53 ≤ x → round_binary64 x = x →
  ∃ y, x = 2 * y ∧ round_binary64 y = y.
Proof.
  intros H Hx. destruct (ulp_exp_large x H) as (Hs & Hlo & Hhi).
  pose proof (round_binary64_grid x ltac:(lia) Hx) as [k Hk].
  set (s := ulp_exp x) in *.
  assert (2 ^ s = 2 * 2 ^ (s - 1)) as Es.
  { rewrite <- Z.pow_succ_r by lia. f_equal. lia. }
  exists (k * 2 ^ (s - 1)). split; [lia|].
  assert (0 < 2 ^ (s - 1)) by (apply Z.pow_pos_nonneg; lia).
  assert (2 ^ (52 + s) = 2 * 2 ^ (51 + s)) as E52.
  { rewrite <- Z.pow_succ_r by lia. f_equal. lia. }
  assert (2 ^ (53 + s) = 2 * 2 ^ (52 + s)) as E53.
  { rewrite <- Z.pow_succ_r by lia. f_equal. lia. }
  assert (0 < 2 ^ (51 + s)) by (apply Z.pow_pos_nonneg; lia).
  apply round_binary64_grid_exact; [nia|].
  assert (Z.log2 (k * 2 ^ (s - 1)) = 51 + s) as Hlog.
  { apply Z.log2_unique; [lia|].
    replace (Z.succ (51 + s)) with (52 + s) by lia. lia. }
  unfold ulp_exp. rewrite Hlog.
  replace (Z.max 0 (51 + s - 52)) with (s - 1) by lia.
  apply Z.divide_factor_r.
Qed.

(** What is at least half a double rounds to at least half of it. *)
Lemma round_binary64_half x z :
  round_binary64 x = x → 0 < x → x ≤ 2 * z → x ≤ 2 * round_binary64 z.
Proof.
  intros Hx H0 Hz.
  destruct (decide (x ≤ z)) as [Hle|Hgt].
  { pose proof (round_binary64_mono x z ltac:(lia) Hle). lia. }
  destruct (decide (x < 2 ^ 53)) as [Hs|Hl].
  { rewrite round_binary64_small; lia. }
  destruct (round_binary64_halve x ltac:(lia) Hx) as (y & -> & Hy).
  pose proof (round_binary64_mono y z ltac:(lia) ltac:(lia)). lia.
Qed.

(** The rounding never moves a number by a whole unit of its binade. *)
Lemma round_binary64_above x :
  0 ≤ x → round_binary64 x ≤ x + 2 ^ ulp_exp x.
Proof.
  intros Hx. pose proof (ulp_pos x) as Hu.
  pose proof (Z.div_mod x (2 ^ ulp_exp x) ltac:(lia)) as E.
  pose proof (Z.mod_pos_bound x (2 ^ ulp_exp x) Hu).
  destruct (round_binary64_spec x Hx) as [[-> _]|[-> _]]; lia.
Qed.

(** The double next above a double. *)
Lemma round_binary64_next x :
  0 < x → round_binary64 x = x →
  round_binary64 (x + 2 ^ ulp_exp x) = x + 2 ^ ulp_exp x.
Proof.
  intros H0 Hx. pose proof (ulp_pos x) as Hu.
  pose proof (round_binary64_grid x ltac:(lia) Hx) as Dx.
  destruct (decide (x + 2 ^ ulp_exp x < 2 ^ 53)) as [Hs|Hl].
  { apply round_binary64_small. lia. }
  apply round_binary64_grid_exact; [lia|].
  destruct (decide (x < 2 ^ 53)) as [Hxs|Hxl].
  { (* x = 2^53 - 1 *)
    rewrite (ulp_exp_small x Hxs) in *.
    replace (x + 2 ^ 0) with (2 ^ 53) by lia.
    assert (ulp_exp (2 ^ 53) = 1) as -> by (vm_compute; reflexivity).
    by exists (2 ^ 52). }
  destruct (ulp_exp_large x ltac:(lia)) as (Hs1 & Hlo & Hhi).
  set (s := ulp_exp x) in *. destruct Dx as [k Hk].
  assert (2 ^ (53 + s) = 2 ^ 53 * 2 ^ s) as E53 by (rewrite Z.pow_add_r; lia).
  assert (2 ^ (52 + s) = 2 ^ 52 * 2 ^ s) as E52 by (rewrite Z.pow_add_r; lia).
  assert (k < 2 ^ 53) by nia.
  destruct (decide (k + 1 = 2 ^ 53)) as [Ek|Ek].
  - replace (x + 2 ^ s) with (2 ^ (53 + s)) by nia.
    unfold ulp_exp. rewrite Z.log2_pow2 by lia. rewrite Z.max_r by lia.
    apply pow2_divide. lia.
  - assert (Z.log2 (x + 2 ^ s) = 52 + s) as Hlog.
    { apply Z.log2_unique; [lia|].
      replace (Z.succ (52 + s)) with (53 + s) by lia. nia. }
    unfold ulp_exp. rewrite Hlog.
    replace (Z.max 0 (52 + s - 52)) with s by lia.
    exists (k + 1). lia.
Qed.

(** A fill by at most the remaining quantity ends at most one unit in the
    last place above the quantity. *)
Lemma round_binary64_fill Q F q :
  round_binary64 Q = Q → 0 ≤ F → F < Q → 0 ≤ q → q ≤ round_binary64 (Q - F) →
  round_binary64 (F + q) ≤ Q + 2 ^ ulp_exp Q.
Proof.
  intros HQ H0 HF Hq0 Hq.
  rewrite <- (round_binary64_next Q) by (done || lia).
  apply round_binary64_mono; [lia|].
  pose proof (round_binary64_above (Q - F) ltac:(lia)) as Ha.
  assert (2 ^ ulp_exp (Q - F) ≤ 2 ^ ulp_exp Q); [|lia].
  apply Z.pow_le_mono_r; [lia|]. apply ulp_exp_mono. lia.
Qed.

Lemma rounding_binary64 : Rounded.rounding round_binary64.
Proof.
  split.
  - apply round_binary64_mono.
  - apply round_binary64_idem.
  - apply round_binary64_0.
  - apply round_binary64_pos.
  - apply round_binary64_sterbenz.
  - apply round_binary64_half.
Qed.

(** The sections on exact arithmetic are the rounded path with the
    identity for the rounding. *)
Lemma rounding_exact : Rounded.rounding (λ x, x).
Proof. split; intros; lia. Qed.

Lemma exact_submitOrder : Rounded.submitOrder (λ x, x) = submitOrder.
Proof. reflexivity. Qed.

Lemma exact_run_from : Rounded.run_from (λ x, x) = run_from.
Proof. reflexivity. Qed.

(** ** Fills stay within one unit in the last place *)

Lemma within_ulp_fill q o :
  round_binary64 (quantity o) = quantity o → 0 ≤ filledQuantity o →
  isFilled o = false →
  0 ≤ q → q ≤ Rounded.getRemainingQuantity round_binary64 o →
  filledQuantity (Rounded.fill round_binary64 q o)
  ≤ quantity (Rounded.fill round_binary64 q o)
    + ulp (quantity (Rounded.fill round_binary64 q o)).
Proof.
  intros HQ H0 Hf Hq0 Hq.
  rewrite (si_quantity _ _ (rounded_fill_ident round_binary64 q o)), rounded_fill_filled.
  unfold isFilled in Hf. unfold Rounded.getRemainingQuantity in Hq.
  apply round_binary64_fill; try done. lia.
Qed.

Lemma within_ulp_step acc t Q h tr h' :
  double_heap round_binary64 h → within_ulp h →
  Rounded.trade_step round_binary64 acc t Q h tr h' → within_ulp h'.
Proof.
  intros Hd Hw (k & m & n & o & Hn & Hfn & (Hk & (o' & Ho' & Hfo) & _) & Ho & _ & Htr & ->).
  assert (o' = o) as -> by congruence.
  set (q := Z.min (Rounded.getRemainingQuantity round_binary64 n)
                  (Rounded.getRemainingQuantity round_binary64 o)) in *.
  assert (0 < q) as Hq.
  { unfold q. pose proof (rounded_remaining_pos _ rounding_binary64 n Hfn).
    pose proof (rounded_remaining_pos _ rounding_binary64 o Hfo). lia. }
  destruct (Hd t n Hn) as (Hn1 & Hn2 & Hn3).
  destruct (Hd m o Ho) as (Ho1 & Ho2 & Ho3).
  intros p o1 Hp. unfold Rounded.filled_heap in Hp.
  apply list_lookup_insert_Some in Hp as [(-> & <- & _)|[Hne Hp]].
  { apply within_ulp_fill; try done; lia. }
  apply list_lookup_insert_Some in Hp as [(-> & <- & _)|[Hne' Hp]].
  { apply within_ulp_fill; try done; lia. }
  by apply (Hw p).
Qed.

Lemma within_ulp_trace acc t Q h trs h' :
  double_heap round_binary64 h → within_ulp h →
  trace (Rounded.trade_step round_binary64 acc t Q) h trs h' → within_ulp h'.
Proof.
  intros Hd Hw Htr. induction Htr as [h|h tr h1 trs h' Hstep _ IH]; [done|].
  apply IH.
  - by destruct (double_heap_step _ rounding_binary64 _ _ _ _ _ _ Hd Hstep).
  - by eapply within_ulp_step.
Qed.

Lemma ulp_positive a : 0 < ulp a.
Proof. apply ulp_pos. Qed.

Lemma within_ulp_submit fuel h e user pair sd ty px qty h' e' trades :
  books_inv h e → double_heap round_binary64 h → within_ulp h →
  round_binary64 qty = qty →
  Rounded.submitOrder round_binary64 fuel h e user pair sd ty px qty
  = Some (h', e', Return trades) →
  within_ulp h'.
Proof.
  intros Hinv Hd Hw Hqty Hsub.
  destruct (rounded_submitOrder_spec _ _ _ _ _ _ _ _ _ _ _ _ _ Hinv Hsub)
    as (b & _ & _ & Hb & Hq & _).
  destruct (rounded_submit_trace round_binary64 fuel h e user pair sd ty px qty
              h' e' trades b Hinv Hb Hsub) as [Htr _].
  eapply within_ulp_trace; [| |exact Htr].
  - intros p o [Ho|[_ Ho]]%lookup_app_Some; [by apply (Hd p)|].
    apply list_lookup_singleton_Some in Ho as [_ <-]. cbn.
    split; [done|]. split; [apply round_binary64_0|done].
  - intros p o [Ho|[_ Ho]]%lookup_app_Some; [by apply (Hw p)|].
    apply list_lookup_singleton_Some in Ho as [_ <-]. cbn.
    pose proof (ulp_positive qty). lia.
Qed.

Lemma within_ulp_cancel h e i pair h' e' r :
  within_ulp h → cancelOrder h e i pair = Some (h', e', r) → within_ulp h'.
Proof.
  intros Hd [(_ & -> & _)|(b & b' & _ & Hc & _)]%cancelOrder_Some; [done|].
  apply OrderBook_cancelOrder_Some in Hc as [(_ & -> & _)|(p & o & _ & Hp & -> & _)];
    [done|].
  intros p' o' [(-> & <- & _)|[Hne Ho']]%list_lookup_insert_Some; [|by apply (Hd p')].
  by apply (Hd p' o).
Qed.

Lemma rounded_reachable_within_ulp h e :
  Rounded.reachable round_binary64 h e → within_ulp h.
Proof.
  intros (ops & Hops & Hrun). revert h e Hrun.
  induction ops as [|o ops IH] using rev_ind; intros h e.
  { intros [= <- <-]. by intros ? ? ?. }
  apply Forall_app in Hops as [Hops Ho%Forall_inv].
  rewrite rounded_run_from_snoc.
  destruct (Rounded.run_from _ _ ops) as [[h1 e1]|] eqn:Hrun; [|done]. cbn.
  specialize (IH Hops h1 e1 eq_refl).
  pose proof (rounded_run_inv _ _ _ _ Hrun) as Hinv.
  assert (double_heap round_binary64 h1) as Hd.
  { apply (rounded_reachable_double _ rounding_binary64 h1 e1). by exists ops. }
  destruct o as [pair|fuel user pair sd ty px qty|i pair]; cbn.
  - by intros [= <- <-].
  - destruct (Rounded.submitOrder _ _ _ _ _ _ _ _ _ _) as [[[h2 e2] [trades|ex]]|] eqn:E;
      [| |done]; cbn; intros [= <- <-].
    + destruct Ho as [_ Hqty]. by eapply within_ulp_submit.
    + by destruct (rounded_submitOrder_Throw _ _ _ _ _ _ _ _ _ _ _ _ _ Hinv E) as [-> ->].
  - destruct (cancelOrder _ _ _ _) as [[[h2 e2] r]|] eqn:E; [|done].
    cbn. intros [= <- <-]. by eapply within_ulp_cancel.
Qed.

Lemma trace_impl (R R' : Heap → Trade → Heap → Prop) h trs h' :
  (∀ h1 tr h2, R h1 tr h2 → R' h1 tr h2) → trace R h trs h' → trace R' h trs h'.
Proof. intros HR. induction 1; econstructor; eauto. Qed.

Section RoundedIds.
Variable rnd : Z → Z.

(** ** Ids on the rounded path *)

Lemma rounded_submitOrder_length fuel h e user pair sd ty px qty h' e' trades :
  books_inv h e →
  Rounded.submitOrder rnd fuel h e user pair sd ty px qty
  = Some (h', e', Return trades) →
  length h' = S (length h).
Proof.
  intros Hinv Hsub.
  destruct (rounded_submitOrder_spec _ _ _ _ _ _ _ _ _ _ _ _ _ Hinv Hsub)
    as (b & L' & n' & Hb & _ & _ & Hs & _).
  pose proof (bk_books _ _ Hinv pair b Hb) as Hbook.
  destruct (ladder_inv_alloc _ _ _ _
              (Order_new (generateOrderId e).1 user pair sd ty px qty)
              (bi_ladder _ _ _ Hbook (opposite sd))) as [Hl1 Hfresh].
  destruct (sweep_heap_ident _ _ _ _ _ _ _ _ Hs Hfresh) as [Hlen _].
  rewrite Hlen, length_app. cbn. lia.
Qed.

Lemma rounded_ids_inv_submit fuel h e user pair sd ty px qty h' e' trades :
  books_inv h e → ids_inv h e → Z.of_nat (length h) + 1 < 2 ^ 64 →
  Rounded.submitOrder rnd fuel h e user pair sd ty px qty
  = Some (h', e', Return trades) →
  ids_inv h' e'.
Proof.
  intros Hinv [Hc Hids] Hbound Hsub.
  destruct (rounded_submitOrder_spec _ _ _ _ _ _ _ _ _ _ _ _ _ Hinv Hsub)
    as (b & L' & n' & Hb & Hq & Hpx & Hs & Htail & Hn' & I & ->).
  pose proof (bk_books _ _ Hinv pair b Hb) as Hbook.
  set (n := Order_new (generateOrderId e).1 user pair sd ty px qty) in *.
  destruct (ladder_inv_alloc _ _ _ _ n (bi_ladder _ _ _ Hbook (opposite sd)))
    as [Hl1 Hfresh].
  destruct (sweep_heap_ident _ _ _ _ _ _ _ _ Hs Hfresh) as [Hlen Hid].
  rewrite length_app in Hlen. cbn [length] in Hlen.
  assert ((generateOrderId e).1 = Z.of_nat (length h) + 1) as Hgen.
  { cbn. rewrite Hc. apply Z.mod_small. lia. }
  split; cbn [orderIdCounter_].
  - rewrite Hgen. lia.
  - intros p o' Hp.
    destruct ((h ++ [n]) !! p) as [o|] eqn:Ho.
    2: { apply lookup_ge_None in Ho. apply lookup_lt_Some in Hp.
         rewrite length_app in Ho. cbn [length] in Ho. lia. }
    destruct (Hid p o Ho) as (o'' & Ho'' & Io).
    assert (o'' = o') as -> by congruence.
    rewrite (si_id _ _ Io).
    apply lookup_app_Some in Ho as [Ho|[Hge Ho]].
    + by apply Hids.
    + apply list_lookup_singleton_Some in Ho as [Hp0 <-].
      unfold n. cbn [id Order_new]. rewrite Hgen. lia.
Qed.

Lemma rounded_reachable_ids h e :
  Rounded.reachable rnd h e → Z.of_nat (length h) < 2 ^ 64 → ids_inv h e.
Proof.
  intros (ops & _ & Hrun). revert h e Hrun.
  induction ops as [|o ops IH] using rev_ind; intros h e.
  { intros [= <- <-] _. by split. }
  rewrite rounded_run_from_snoc.
  destruct (Rounded.run_from _ _ ops) as [[h1 e1]|] eqn:Hrun; [|done]. cbn.
  pose proof (rounded_run_inv _ _ _ _ Hrun) as Hinv.
  destruct o as [pair|fuel user pair sd ty px qty|i pair]; cbn.
  - intros [= <- <-] Hb. specialize (IH h1 e1 eq_refl Hb).
    unfold addTradingPair.
    destruct (orderBooks_ e1 !! pair); [done|]. by destruct IH.
  - destruct (Rounded.submitOrder _ _ _ _ _ _ _ _ _ _) as [[[h2 e2] [trades|ex]]|] eqn:E;
      [| |done]; cbn; intros [= <- <-] Hb.
    + pose proof (rounded_submitOrder_length _ _ _ _ _ _ _ _ _ _ _ _ Hinv E) as Hl.
      eapply rounded_ids_inv_submit; [done| | |done]; [apply IH; [done|lia]|lia].
    + destruct (rounded_submitOrder_Throw _ _ _ _ _ _ _ _ _ _ _ _ _ Hinv E) as [-> ->].
      by apply IH.
  - destruct (cancelOrder _ _ _ _) as [[[h2 e2] r]|] eqn:E; [|done].
    cbn. intros [= <- <-] Hb.
    pose proof (cancelOrder_length _ _ _ _ _ _ _ E) as Hl.
    eapply ids_inv_cancel; [|done]. apply IH; [done|lia].
Qed.

(** A validated submission on a registered pair is accepted. *)
Lemma rounded_submitOrder_accepted fuel h e user pair sd ty px qty b h' e' r :
  books_inv h e →
  0 < qty → (ty = LIMIT → 0 < px) → orderBooks_ e !! pair = Some b →
  Rounded.submitOrder rnd fuel h e user pair sd ty px qty = Some (h', e', r) →
  ∃ trades, r = Return trades.
Proof.
  intros Hinv Hq Hpx Hb. unfold Rounded.submitOrder.
  rewrite (proj2 (Z.leb_gt _ _)) by done.
  assert (bool_decide (ty = LIMIT) && (px <=? 0) = false) as ->.
  { case_bool_decide; [|done]. cbn. apply Z.leb_gt. by apply Hpx. }
  unfold getOrderBook. rewrite Hb.
  unfold generateOrderId, make_shared. cbn [fst].
  unfold Rounded.addOrder. rewrite list_lookup_middle by done.
  cbn [mbind option_bind].
  rewrite bool_decide_eq_true_2
    by (cbn; by rewrite (bi_pair _ _ _ (bk_books _ _ Hinv pair b Hb))).
  cbn [negb].
  destruct (Rounded.matchOrder _ _ _ _ _) as [[[h2 b2] trs]|]; [|done].
  cbn [mbind option_bind].
  destruct (h2 !! length h); [|done]. cbn. intros [= <- <- <-]. eauto.
Qed.

End RoundedIds.

(** ** One trade, as it changes the records *)

Lemma trade_step_fill_step acc t Q h tr h' :
  Rounded.rounding round_binary64 → t ∉ Q →
  Rounded.trade_step round_binary64 acc t Q h tr h' → fill_step t Q h tr h'.
Proof.
  intros Hrnd Ht (k & m & n & o & Hn & Hfn & (Hk & (o' & Ho' & Hfo) & _) & Ho & _ & Htr & ->).
  assert (o' = o) as -> by congruence.
  set (q := Z.min (Rounded.getRemainingQuantity round_binary64 n)
                  (Rounded.getRemainingQuantity round_binary64 o)) in *.
  assert (m ∈ Q) as Hm by by eapply list_elem_of_lookup_2.
  assert (m ≠ t) as Hne by (by intros ->).
  assert (tradeQuantity tr = q) as Hq by by rewrite Htr, tradeQuantity_trade_of.
  exists m, n, o, (Rounded.fill round_binary64 q n), (Rounded.fill round_binary64 q o).
  rewrite Hq. repeat split; try done.
  - unfold q. pose proof (rounded_remaining_pos _ Hrnd n Hfn).
    pose proof (rounded_remaining_pos _ Hrnd o Hfo). lia.
  - unfold Rounded.filled_heap. rewrite list_lookup_insert_ne by done.
    apply list_lookup_insert_eq. by eapply lookup_lt_Some.
  - unfold Rounded.filled_heap. apply list_lookup_insert_eq.
    rewrite length_insert. by eapply lookup_lt_Some.
  - apply rounded_fill_filled.
  - apply rounded_fill_filled.
  - intros p Hpt Hpm. unfold Rounded.filled_heap.
    by rewrite !list_lookup_insert_ne.
Qed.

(** * Price-time priority and fills on doubles *)

Lemma level_at_book_after b t n' L' px' :
  level_at (side n') px' (book_after b t n' L')
  = if decide (px' = price n' ∧ isFilled n' = false)
    then level_at (side n') px' b ++ [t]
    else level_at (side n') px' b.
Proof.
  unfold level_at. rewrite book_after_own.
  destruct (isFilled n') eqn:Hf.
  { rewrite decide_False; [done|]. by intros [_ ?]. }
  destruct (decide (px' = price n')) as [->|Hne].
  - rewrite decide_True by done.
    rewrite smap_find_upd_eq; [done|side_lt].
  - rewrite decide_False by (by intros [? _]).
    rewrite smap_find_upd_ne; [done|side_lt..|done].
Qed.

(** C6. The trades of a submission are returned in execution order and
    obey price-time priority, in the arithmetic of the code's doubles.

    The resting orders that an incoming order can match are those of
    [Q], the queue of the opposite side.  [Q] has no duplicates and is in
    price-time order: of two of its orders the one in front has the
    strictly better price, or the same price and the earlier arrival
    (its record was created first: smaller pointer, and smaller id as
    long as the id counter has not wrapped).  A new order that is not
    filled goes to the tail of the level of its price, behind every
    order that arrived before it.

    The trades are the steps of a run of [Rounded.trade_step] from the
    state in which the new record was created: each trade is against the
    first order of [Q] that is not filled at that moment, so every order
    in front of it, at a better price or at the same price and earlier,
    has nothing left.  After the call the orders of [Q] that are filled
    are a prefix of [Q], and the rest is the queue of the new book.

    An accepted submission returns once the fuel exceeds twice the
    length of the queue plus the number of its levels. *)
Theorem price_time_priority h e user pair sd ty px qty b :
  Rounded.reachable round_binary64 h e →
  round_binary64 qty = qty →
  0 < qty → (ty = LIMIT → 0 < px) →
  orderBooks_ e !! pair = Some b →
  let Q := queue (ladder (opposite sd) b) in
  let t := length h in
  let n := Order_new (generateOrderId e).1 user pair sd ty px qty in
  (∀ fuel,
     (2 * length Q + length (ladder (opposite sd) b) + 2 < fuel)%nat →
     ∃ h' e' trades,
       Rounded.submitOrder round_binary64 fuel h e user pair sd ty px qty
       = Some (h', e', Return trades)) ∧
  NoDup Q ∧
  (∀ i j mi mj oi oj,
     (i < j)%nat → Q !! i = Some mi → Q !! j = Some mj →
     h !! mi = Some oi → h !! mj = Some oj →
     match sd with
     | BUY => price oi < price oj
     | SELL => price oj < price oi
     end ∨
     (price oi = price oj ∧ (mi < mj)%nat ∧
      (Z.of_nat (length h) < 2 ^ 64 → id oi < id oj))) ∧
  (∀ fuel h' e' trades,
     Rounded.submitOrder round_binary64 fuel h e user pair sd ty px qty
     = Some (h', e', Return trades) →
     trace (Rounded.trade_step round_binary64 (limit_acc n) t Q)
       (h ++ [n]) trades h' ∧
     ∃ b' n' pre,
       orderBooks_ e' !! pair = Some b' ∧ h' !! t = Some n' ∧
       Q = pre ++ queue (ladder (opposite sd) b') ∧
       (∀ m, m ∈ pre → ∃ o, h' !! m = Some o ∧ isFilled o = true) ∧
       (∀ m, m ∈ queue (ladder (opposite sd) b') →
          ∃ o, h' !! m = Some o ∧ isFilled o = false) ∧
       ∀ px', level_at sd px' b' =
         if decide (px' = px ∧ isFilled n' = false)
         then level_at sd px' b ++ [t]
         else level_at sd px' b).
Proof.
  intros Hreach Hqty Hq Hpx Hb Q t n.
  pose proof (rounded_reachable_inv _ _ _ Hreach) as Hinv.
  pose proof (rounded_reachable_double _ rounding_binary64 _ _ Hreach) as Hd.
  pose proof (bk_books _ _ Hinv pair b Hb) as Hbook.
  split; [|split; [|split]].
  - intros fuel Hfuel.
    destruct (rounded_submitOrder_total _ rounding_binary64 fuel h e user pair sd ty
                px qty Hinv Hd Hqty) as [[[h' e'] r] Hsub].
    { intros b0 Hb0. by assert (b0 = b) as -> by congruence. }
    destruct (rounded_submitOrder_accepted _ _ _ _ _ _ _ _ _ _ _ _ _ _
                Hinv Hq Hpx Hb Hsub) as [trades ->].
    by exists h', e', trades.
  - apply (li_nodup _ _ _ _ (bi_ladder _ _ _ Hbook (opposite sd))).
  - intros i j mi mj oi oj Hij Hi Hj Hoi Hoj.
    destruct (queue_priority _ _ _ _ _ _ _ _ _ _
                (bi_ladder _ _ _ Hbook (opposite sd))
                (bk_arrival _ _ Hinv pair b (opposite sd) Hb)
                Hij Hi Hj Hoi Hoj) as [Hlt|[Heq Hlt]].
    + left. destruct sd; unfold side_lt, opposite, ask_lt, bid_lt in Hlt; lia.
    + right. split; [done|]. split; [done|]. intros Hwrap.
      destruct (rounded_reachable_ids _ _ _ Hreach Hwrap) as [_ Hids].
      rewrite (Hids _ _ Hoi), (Hids _ _ Hoj). lia.
  - intros fuel h' e' trades Hsub.
    destruct (rounded_submit_trace _ _ _ _ _ _ _ _ _ _ _ _ _ _ Hinv Hb Hsub)
      as [Htr (L' & n' & pre & Hb' & Hn' & I & HQ & Hpre)].
    split; [done|].
    exists (book_after b t n' L'), n', pre.
    assert (side n' = sd) as Hsd by apply (si_side _ _ I).
    assert (price n' = px) as Hpr by apply (si_price _ _ I).
    assert (ladder (opposite sd) (book_after b t n' L') = L') as HL.
    { rewrite <- Hsd. apply book_after_opposite. }
    split; [done|]. split; [done|]. rewrite HL. split; [done|].
    split; [done|]. split.
    + intros m Hm.
      pose proof (books_inv_submit _ _ _ _ _ _ _ _ _ _ _ _ _ Hinv Hsub) as Hinv'.
      pose proof (bk_books _ _ Hinv' pair _ Hb') as Hbook'.
      assert (ladder_inv h' pair (opposite sd) L') as Hl.
      { rewrite <- HL. apply (bi_ladder _ _ _ Hbook'). }
      destruct (ladder_inv_queue _ _ _ _ _ Hl Hm) as (o & Ho & _ & _ & Hf).
      eauto.
    + intros px'. rewrite <- Hsd at 1. rewrite level_at_book_after, Hsd, Hpr.
      done.
Qed.


(** ** The scenarios on doubles *)

Lemma twice_reachable : Rounded.reachable round_binary64 twice_heap twice_engine.
Proof.
  exists twice_ops. split; [|vm_compute; reflexivity].
  repeat apply Forall_cons_2; try apply Forall_nil_2; vm_compute; repeat split.
Qed.

Lemma overfill_reachable :
  Rounded.reachable round_binary64 overfill_heap overfill_engine.
Proof.
  exists overfill_ops. split; [|vm_compute; reflexivity].
  repeat apply Forall_cons_2; try apply Forall_nil_2; vm_compute; repeat split.
Qed.

(** The literals of the scenarios, as mantissa and exponent. *)
Example decimal_0_9 : decimal 9 1 = 8106479329266893 * 2 ^ (1074 - 53).
Proof. vm_compute. reflexivity. Qed.

Example decimal_0_3 : decimal 3 1 = 5404319552844595 * 2 ^ (1074 - 54).
Proof. vm_compute. reflexivity. Qed.

Example decimal_0_2 : decimal 2 1 = 7205759403792794 * 2 ^ (1074 - 55).
Proof. vm_compute. reflexivity. Qed.

(** 0.9 - 0.3 is 0.6000000000000001 and 0.3 + 0.6000000000000001 is
    0.9000000000000001, one unit in the last place above 0.9. *)
Example sum_rounds_above_0_9 :
  round_binary64 (decimal 3 1 + round_binary64 (decimal 9 1 - decimal 3 1))
  = decimal 9 1 + ulp (decimal 9 1).
Proof. vm_compute. reflexivity. Qed.

(** 0.9 - 0.2 is 0.7 and 0.2 + 0.7 is 0.8999999999999999, one unit in the
    last place below 0.9. *)
Example sum_rounds_below_0_9 :
  round_binary64 (decimal 2 1 + round_binary64 (decimal 9 1 - decimal 2 1))
  = decimal 9 1 - ulp (decimal 9 1).
Proof. vm_compute. reflexivity. Qed.

(** On doubles a resting order can be matched twice by one incoming
    order: a buy of 1.0 against a sell of 0.9 of which 0.2 is filled
    trades 0.7 and then one unit in the last place. *)
Example one_maker_two_trades :
  ∃ h' e',
    Rounded.submitOrder round_binary64 10 twice_heap twice_engine
      "b" demo_pair BUY LIMIT (decimal 100 0) (decimal 1 0)
    = Some (h', e', Return [mkTrade 3 1 (decimal 100 0) (decimal 7 1);
                            mkTrade 3 1 (decimal 100 0) (ulp (decimal 9 1))]).
Proof. do 2 eexists. vm_compute. reflexivity. Qed.


Lemma price_time_priority_witness :
  let h := twice_heap in
  let e := twice_engine in
  let b := twice_book in
  let px := decimal 100 0 in
  let qty := decimal 1 0 in
  let Q := queue (ladder (opposite BUY) b) in
  let t := length h in
  let n := Order_new (generateOrderId e).1 "b" demo_pair BUY LIMIT px qty in
  Rounded.reachable round_binary64 h e ∧
  round_binary64 qty = qty ∧
  0 < qty ∧ (LIMIT = LIMIT → 0 < px) ∧
  orderBooks_ e !! demo_pair = Some b ∧
  (∀ fuel,
     (2 * length Q + length (ladder (opposite BUY) b) + 2 < fuel)%nat →
     ∃ h' e' trades,
       Rounded.submitOrder round_binary64 fuel h e "b" demo_pair BUY LIMIT px qty
       = Some (h', e', Return trades)) ∧
  NoDup Q ∧
  (∀ i j mi mj oi oj,
     (i < j)%nat → Q !! i = Some mi → Q !! j = Some mj →
     h !! mi = Some oi → h !! mj = Some oj →
     price oi < price oj ∨
     (price oi = price oj ∧ (mi < mj)%nat ∧
      (Z.of_nat (length h) < 2 ^ 64 → id oi < id oj))) ∧
  (∀ fuel h' e' trades,
     Rounded.submitOrder round_binary64 fuel h e "b" demo_pair BUY LIMIT px qty
     = Some (h', e', Return trades) →
     trace (Rounded.trade_step round_binary64 (limit_acc n) t Q)
       (h ++ [n]) trades h' ∧
     ∃ b' n' pre,
       orderBooks_ e' !! demo_pair = Some b' ∧ h' !! t = Some n' ∧
       Q = pre ++ queue (ladder (opposite BUY) b') ∧
       (∀ m, m ∈ pre → ∃ o, h' !! m = Some o ∧ isFilled o = true) ∧
       (∀ m, m ∈ queue (ladder (opposite BUY) b') →
          ∃ o, h' !! m = Some o ∧ isFilled o = false) ∧
       ∀ px', level_at BUY px' b' =
         if decide (px' = px ∧ isFilled n' = false)
         then level_at BUY px' b ++ [t]
         else level_at BUY px' b).
Proof.
  intros h e b px qty Q t n.
  assert (H1 : Rounded.reachable round_binary64 h e) by apply twice_reachable.
  assert (H2 : round_binary64 qty = qty) by (vm_compute; reflexivity).
  assert (H3 : 0 < qty) by (vm_compute; reflexivity).
  assert (H4 : LIMIT = LIMIT → 0 < px) by (intros _; vm_compute; reflexivity).
  assert (H5 : orderBooks_ e !! demo_pair = Some b) by (vm_compute; reflexivity).
  split; [exact H1|]. split; [exact H2|]. split; [exact H3|].
  split; [exact H4|]. split; [exact H5|].
  exact (price_time_priority h e "b" demo_pair BUY LIMIT px qty b H1 H2 H3 H4 H5).
Defined.


(** * Statuses and the life of a record on doubles *)

Section RoundedStatuses.
Variable rnd : Z → Z.
Hypothesis Hrnd : Rounded.rounding rnd.

Lemma update_status_isFilled o : isFilled (update_status o) = isFilled o.
Proof. unfold update_status. by repeat case_match. Qed.

Lemma update_status_of_fills o :
  0 < filledQuantity o → status (update_status o) = status_of_fills (update_status o).
Proof.
  intros Hf. unfold status_of_fills.
  rewrite update_status_isFilled, update_status_filled.
  unfold update_status. destruct (isFilled o); [done|].
  by rewrite (proj2 (Z.ltb_lt _ _) Hf).
Qed.

Lemma rounded_fill_status q o :
  0 < q → rnd (filledQuantity o) = filledQuantity o → 0 ≤ filledQuantity o →
  status (Rounded.fill rnd q o) = status_of_fills (Rounded.fill rnd q o).
Proof.
  intros Hq HF H0. apply update_status_of_fills. cbn.
  pose proof (Rounded.rnd_pos _ Hrnd q Hq).
  pose proof (Rounded.rnd_mono _ Hrnd q (filledQuantity o + q) ltac:(lia) ltac:(lia)).
  lia.
Qed.

(** A fill of an open record that is not cancelled. *)
Lemma rounded_fill_evolves q o :
  0 < q → rnd (quantity o) = quantity o →
  rnd (filledQuantity o) = filledQuantity o → 0 ≤ filledQuantity o →
  isFilled o = false → status o ≠ CANCELLED →
  record_evolves o (Rounded.fill rnd q o).
Proof.
  intros Hq HQ HF H0 Hf Hs. split.
  - apply rounded_fill_ident.
  - by destruct (rounded_fill_double _ Hrnd q o Hq HQ HF H0) as (_ & _ & ?).
  - done.
  - congruence.
Qed.

Lemma status_of_fills_not_cancelled o : status_of_fills o ≠ CANCELLED.
Proof. unfold status_of_fills. by repeat case_match. Qed.

(** What one trade does to a record. *)
Lemma trade_step_evolves acc t Q h tr h' :
  double_heap rnd h →
  (∀ m o, m = t ∨ m ∈ Q → h !! m = Some o → status o ≠ CANCELLED) →
  Rounded.trade_step rnd acc t Q h tr h' →
  ∀ p o, h !! p = Some o →
    ∃ o', h' !! p = Some o' ∧ record_evolves o o' ∧
      (p ≠ t → p ∉ Q → o' = o) ∧
      (status o ≠ CANCELLED → status o' ≠ CANCELLED) ∧
      (status o = CANCELLED ∨ status o = status_of_fills o →
       status o' = CANCELLED ∨ status o' = status_of_fills o').
Proof.
  intros Hd Hnc (k & m & n & o & Hn & Hfn & (Hk & (o1 & Ho1 & Hfo) & _) & Ho & _ & Htr & ->).
  assert (o1 = o) as -> by congruence.
  set (q := Z.min (Rounded.getRemainingQuantity rnd n)
                  (Rounded.getRemainingQuantity rnd o)) in *.
  assert (0 < q) as Hq.
  { unfold q. pose proof (rounded_remaining_pos _ Hrnd n Hfn).
    pose proof (rounded_remaining_pos _ Hrnd o Hfo). lia. }
  assert (m ∈ Q) as Hm by by eapply list_elem_of_lookup_2.
  destruct (Hd t n Hn) as (Hn1 & Hn2 & Hn3).
  destruct (Hd m o Ho) as (Ho1' & Ho2 & Ho3).
  intros p op Hp. unfold Rounded.filled_heap.
  destruct (decide (p = m)) as [->|Hpm].
  { assert (op = o) as -> by congruence.
    exists (Rounded.fill rnd q o). split.
    { apply list_lookup_insert_eq. rewrite length_insert. by eapply lookup_lt_Some. }
    split; [apply rounded_fill_evolves; try done; by apply (Hnc m); [right|]|].
    split; [done|].
    rewrite rounded_fill_status by done.
    split; [intros _; apply status_of_fills_not_cancelled|by right]. }
  rewrite list_lookup_insert_ne by done.
  destruct (decide (p = t)) as [->|Hpt].
  { assert (op = n) as -> by congruence.
    exists (Rounded.fill rnd q n). split.
    { apply list_lookup_insert_eq. by eapply lookup_lt_Some. }
    split; [apply rounded_fill_evolves; try done; by apply (Hnc t); [left|]|].
    split; [done|].
    rewrite rounded_fill_status by done.
    split; [intros _; apply status_of_fills_not_cancelled|by right]. }
  rewrite list_lookup_insert_ne by done.
  exists op. split; [done|]. split; [apply record_evolves_refl|]. done.
Qed.

Lemma trace_evolves acc t Q h trs h' :
  double_heap rnd h →
  (∀ m o, m = t ∨ m ∈ Q → h !! m = Some o → status o ≠ CANCELLED) →
  trace (Rounded.trade_step rnd acc t Q) h trs h' →
  ∀ p o, h !! p = Some o →
    ∃ o', h' !! p = Some o' ∧ record_evolves o o' ∧
      (p ≠ t → p ∉ Q → o' = o) ∧
      (status o ≠ CANCELLED → status o' ≠ CANCELLED) ∧
      (status o = CANCELLED ∨ status o = status_of_fills o →
       status o' = CANCELLED ∨ status o' = status_of_fills o').
Proof.
  intros Hd Hnc Htr. induction Htr as [h|h tr h1 trs h' Hstep _ IH].
  { intros p o Ho. exists o. split; [done|]. split; [apply record_evolves_refl|done]. }
  pose proof (trade_step_evolves _ _ _ _ _ _ Hd Hnc Hstep) as H1.
  destruct (double_heap_step _ Hrnd _ _ _ _ _ _ Hd Hstep) as [Hd1 _].
  assert (∀ m o, m = t ∨ m ∈ Q → h1 !! m = Some o → status o ≠ CANCELLED) as Hnc1.
  { intros m o1 Hm Ho1.
    destruct (h !! m) as [o|] eqn:Ho.
    - destruct (H1 m o Ho) as (o2 & Ho2 & _ & _ & Hk & _).
      assert (o2 = o1) as -> by congruence. apply Hk. by eapply Hnc.
    - destruct Hstep as (k & m0 & n & o0 & Hn & _ & _ & Ho0 & _ & _ & ->).
      apply lookup_lt_Some in Ho1. unfold Rounded.filled_heap in Ho1.
      rewrite !length_insert in Ho1. apply lookup_ge_None in Ho. lia. }
  intros p o Ho.
  destruct (H1 p o Ho) as (o1 & Ho1 & E1 & F1 & K1 & S1).
  destruct (IH Hd1 Hnc1 p o1 Ho1) as (o2 & Ho2 & E2 & F2 & K2 & S2).
  exists o2. split; [done|]. split; [by eapply record_evolves_trans|].
  split; [intros ? ?; rewrite F2, F1; done|]. split; [by eauto|by eauto].
Qed.

(** What an accepted submission does to the records. *)
Lemma rounded_submit_evolves fuel h e user pair sd ty px qty h' e' trades :
  books_inv h e → statuses_inv h e → double_heap rnd h → rnd qty = qty →
  Rounded.submitOrder rnd fuel h e user pair sd ty px qty
  = Some (h', e', Return trades) →
  let n := Order_new (generateOrderId e).1 user pair sd ty px qty in
  ∀ p o, (h ++ [n]) !! p = Some o →
    ∃ o', h' !! p = Some o' ∧ record_evolves o o' ∧
      (status o ≠ CANCELLED → status o' ≠ CANCELLED) ∧
      (status o = CANCELLED ∨ status o = status_of_fills o →
       status o' = CANCELLED ∨ status o' = status_of_fills o').
Proof.
  intros Hinv Hst Hd Hqty Hsub n.
  destruct (rounded_submitOrder_spec _ _ _ _ _ _ _ _ _ _ _ _ _ Hinv Hsub)
    as (b & _ & _ & Hb & Hq & _).
  destruct (rounded_submit_trace rnd fuel h e user pair sd ty px qty h' e' trades b
              Hinv Hb Hsub) as [Htr _].
  fold n in Htr.
  pose proof (bk_books _ _ Hinv pair b Hb) as Hbook.
  destruct (ladder_inv_alloc _ _ _ _ n (bi_ladder _ _ _ Hbook (opposite sd)))
    as [Hl1 Hfresh].
  assert (double_heap rnd (h ++ [n])) as Hdn.
  { intros p o [Ho|[_ Ho]]%lookup_app_Some; [by apply (Hd p)|].
    apply list_lookup_singleton_Some in Ho as [_ <-]. cbn.
    split; [done|]. split; [apply (Rounded.rnd_zero _ Hrnd)|done]. }
  assert (∀ m o, m = length h ∨ m ∈ queue (ladder (opposite sd) b) →
            (h ++ [n]) !! m = Some o → status o ≠ CANCELLED) as Hnc.
  { intros m o [->|Hm] Ho.
    - rewrite list_lookup_middle in Ho by done. by simplify_eq.
    - destruct (ladder_inv_queue _ _ _ _ _ (bi_ladder _ _ _ Hbook (opposite sd)) Hm)
        as (o1 & Ho1 & _).
      rewrite (lookup_app_l_Some _ _ _ _ Ho1) in Ho. simplify_eq.
      by eapply (st_resting _ _ Hst). }
  intros p o Ho.
  destruct (trace_evolves _ _ _ _ _ _ Hdn Hnc Htr p o Ho) as (o' & ? & ? & _ & ? & ?).
  eauto.
Qed.

Lemma statuses_inv_submit fuel h e user pair sd ty px qty h' e' trades :
  books_inv h e → statuses_inv h e → double_heap rnd h → rnd qty = qty →
  Rounded.submitOrder rnd fuel h e user pair sd ty px qty
  = Some (h', e', Return trades) →
  statuses_inv h' e'.
Proof.
  intros Hinv Hst Hd Hqty Hsub.
  pose proof (rounded_submit_evolves _ _ _ _ _ _ _ _ _ _ _ _ Hinv Hst Hd Hqty Hsub)
    as Hev.
  destruct (rounded_submitOrder_spec _ _ _ _ _ _ _ _ _ _ _ _ _ Hinv Hsub)
    as (b & L' & n' & Hb & Hq & Hpx & Hs & Htail & Hn' & I & ->).
  set (t := length h) in *.
  set (n := Order_new (generateOrderId e).1 user pair sd ty px qty) in *.
  pose proof (rounded_submitOrder_length _ _ _ _ _ _ _ _ _ _ _ _ _ Hinv Hsub) as Hlen.
  assert (Hback : ∀ p o', h' !! p = Some o' →
            ∃ o, (h ++ [n]) !! p = Some o ∧ record_evolves o o' ∧
              (status o ≠ CANCELLED → status o' ≠ CANCELLED) ∧
              (status o = CANCELLED ∨ status o = status_of_fills o →
               status o' = CANCELLED ∨ status o' = status_of_fills o')).
  { intros p o' Hp. apply lookup_lt_Some in Hp as Hlt.
    destruct (lookup_lt_is_Some_2 (h ++ [n]) p) as [o Ho].
    { rewrite length_app. cbn. lia. }
    destruct (Hev p o Ho) as (o2 & Ho2 & ?). exists o. by simplify_eq. }
  assert (Hn : (h ++ [n]) !! t = Some n) by by apply list_lookup_middle.
  assert (Hnn : status n' ≠ CANCELLED).
  { destruct (Hev t n Hn) as (o2 & Ho2 & _ & Hk & _).
    assert (o2 = n') as -> by congruence. by apply Hk. }
  split; cbn.
  - intros p o' Hp. destruct (Hback p o' Hp) as (o & Ho & _ & _ & Hk).
    apply Hk. apply lookup_app_Some in Ho as [Ho|[_ Ho]].
    + by eapply (st_status _ _ Hst).
    + apply list_lookup_singleton_Some in Ho as [_ <-]. right.
      unfold n, status_of_fills, isFilled. cbn.
      by repeat case_match; try lia.
  - intros pair' b' sd' m o' Hb' Hm Ho'.
    assert (m = t ∨ ∃ b0, orderBooks_ e !! pair' = Some b0 ∧ m ∈ queue (ladder sd' b0))
      as [->|(b0 & Hb0 & Hm0)].
    { apply lookup_insert_Some in Hb' as [[<- <-]|[Hne Hb']]; [|by eauto].
      apply queue_book_after in Hm; [|by rewrite (si_side _ _ I)].
      destruct Hm as [?|?]; eauto. }
    { by assert (o' = n') as -> by congruence. }
    destruct (ladder_inv_queue _ _ _ _ _
                (bi_ladder _ _ _ (bk_books _ _ Hinv _ _ Hb0) sd') Hm0)
      as (o & Ho & _).
    destruct (Hev m o (lookup_app_l_Some _ _ _ _ Ho)) as (o2 & Ho2 & _ & Hk & _).
    assert (o2 = o') as -> by congruence.
    apply Hk. by eapply (st_resting _ _ Hst).
  - intros pair' b' i p o' Hb' Hi Ho'.
    assert ((p = t ∧ pair' = pair) ∨
            ∃ b0, orderBooks_ e !! pair' = Some b0 ∧ orders_ b0 !! i = Some p)
      as [[-> ->]|(b0 & Hb0 & Hi0)].
    { apply lookup_insert_Some in Hb' as [[<- <-]|[Hne Hb']]; [|by eauto].
      rewrite book_after_orders in Hi.
      apply lookup_insert_Some in Hi as [[_ <-]|[_ Hi]]; eauto. }
    { simplify_eq. split; [|done]. by rewrite (si_pair _ _ I). }
    destruct (bi_orders _ _ _ (bk_books _ _ Hinv _ _ Hb0) i p Hi0) as (o & Ho & _).
    destruct (st_dir _ _ Hst _ _ _ _ _ Hb0 Hi0 Ho) as [Hpo Hso].
    destruct (Hev p o (lookup_app_l_Some _ _ _ _ Ho)) as (o2 & Ho2 & E & Hk & _).
    assert (o2 = o') as -> by congruence.
    split; [|by apply Hk]. pose proof (si_pair _ _ (re_ident _ _ E)). congruence.
Qed.

Lemma statuses_inv_cancel h e i pair h' e' :
  books_inv h e → statuses_inv h e →
  cancelOrder h e i pair = Some (h', e', true) →
  statuses_inv h' e'.
Proof.
  intros Hinv [H1 H2 H3] Hc.
  destruct (cancelOrder_true _ _ _ _ _ _ Hc) as (b & p & o & Hb & Hi & Hp & -> & ->).
  pose proof (bk_books _ _ Hinv pair b Hb) as Hbook.
  destruct (H3 _ _ _ _ _ Hb Hi Hp) as [Hpo Hso].
  destruct (bi_orders _ _ _ Hbook i p Hi) as (o0 & Ho0 & Hid).
  assert (o0 = o) as -> by congruence.
  split; cbn.
  - intros p' o' [(-> & <- & _)|[Hne Ho']]%list_lookup_insert_Some; [by left|].
    by eapply H1.
  - intros pair' b' sd m o' Hb' Hm Ho'.
    apply list_lookup_insert_Some in Ho' as [(-> & <- & _)|[Hne Ho']].
    + exfalso.
      apply lookup_insert_Some in Hb' as [[<- <-]|[Hne Hb']].
      * destruct (decide (sd = side o)) as [->|Hsd].
        -- rewrite ladder_set_orders, ladder_set_ladder in Hm.
           by eapply remove_from_book_gone; [apply (bi_ladder _ _ _ Hbook)|..].
        -- rewrite ladder_set_orders, ladder_set_ladder_ne in Hm by done.
           destruct (ladder_inv_queue _ _ _ _ _ (bi_ladder _ _ _ Hbook sd) Hm)
             as (o1 & Ho1 & _ & Hs1 & _). congruence.
      * destruct (ladder_inv_queue _ _ _ _ _
                    (bi_ladder _ _ _ (bk_books _ _ Hinv _ _ Hb') sd) Hm)
          as (o1 & Ho1 & Hp1 & _). congruence.
    + apply lookup_insert_Some in Hb' as [[<- <-]|[Hne' Hb']]; [|by eapply H2].
      eapply (H2 pair b sd m); [done| |done].
      destruct (decide (sd = side o)) as [->|Hsd].
      * rewrite ladder_set_orders, ladder_set_ladder in Hm.
        eapply elem_of_sublist; [done|apply remove_from_book_queue].
      * by rewrite ladder_set_orders, ladder_set_ladder_ne in Hm.
  - intros pair' b' i' p' o' Hb' Hi' Ho'.
    assert (∃ b0, orderBooks_ e !! pair' = Some b0 ∧ orders_ b0 !! i' = Some p' ∧
                  (pair' = pair → i' ≠ i)) as (b0 & Hb0 & Hi0 & Hii).
    { apply lookup_insert_Some in Hb' as [[<- <-]|[Hne Hb']].
      - cbn in Hi'. apply lookup_delete_Some in Hi' as [? ?]. exists b. eauto.
      - exists b'. repeat split; [done..|congruence]. }
    apply list_lookup_insert_Some in Ho' as [(<- & <- & _)|[Hne Ho']]; [|by eapply H3].
    exfalso. destruct (H3 _ _ _ _ _ Hb0 Hi0 Hp) as [Hpair _].
    destruct (bi_orders _ _ _ (bk_books _ _ Hinv _ _ Hb0) i' p Hi0) as (o1 & Ho1 & Hid1).
    assert (o1 = o) as -> by congruence.
    apply Hii; congruence.
Qed.

Lemma statuses_inv_addTradingPair h e pair :
  statuses_inv h e → statuses_inv h (addTradingPair e pair).1.
Proof.
  intros [H1 H2 H3]. unfold addTradingPair.
  destruct (orderBooks_ e !! pair) eqn:Hp; [done|].
  split; cbn; [done|..].
  - intros pair' b sd m o [[<- <-]|[Hne Hb]]%lookup_insert_Some; [|by eapply H2].
    destruct sd; by intros ?%elem_of_nil.
  - intros pair' b i p o [[<- <-]|[Hne Hb]]%lookup_insert_Some; [done|by eapply H3].
Qed.

(** One operation. *)
Lemma rounded_apply_op_evolves h e o h' e' :
  books_inv h e → statuses_inv h e → double_heap rnd h → Rounded.double_op rnd o →
  Rounded.apply_op rnd (h, e) o = Some (h', e') →
  statuses_inv h' e' ∧
  ∀ p r, h !! p = Some r → ∃ r', h' !! p = Some r' ∧ record_evolves r r'.
Proof.
  intros Hinv Hst Hd Hdo.
  destruct o as [pair|fuel user pair sd ty px qty|i pair]; cbn.
  - intros [= <- <-]. split; [by apply statuses_inv_addTradingPair|].
    eauto using record_evolves_refl.
  - destruct (Rounded.submitOrder _ _ _ _ _ _ _ _ _ _) as [[[h2 e2] [trades|ex]]|] eqn:E;
      [| |done]; cbn; intros [= <- <-].
    + destruct Hdo as [_ Hqty]. split; [by eapply statuses_inv_submit|].
      intros p r Hp.
      destruct (rounded_submit_evolves _ _ _ _ _ _ _ _ _ _ _ _ Hinv Hst Hd Hqty E p r)
        as (r' & ? & ? & _); [by apply lookup_app_l_Some|]. eauto.
    + destruct (rounded_submitOrder_Throw _ _ _ _ _ _ _ _ _ _ _ _ _ Hinv E) as [-> ->].
      split; [done|]. eauto using record_evolves_refl.
  - destruct (cancelOrder _ _ _ _) as [[[h2 e2] [|]]|] eqn:E; [| |done];
      cbn; intros [= <- <-].
    + split; [by eapply statuses_inv_cancel|].
      destruct (cancelOrder_true _ _ _ _ _ _ E) as (b & q & oq & Hb & Hi & Hq & -> & _).
      intros p r Hp. destruct (decide (p = q)) as [->|Hne].
      * assert (oq = r) as -> by congruence.
        exists (set_status CANCELLED r). split.
        { apply list_lookup_insert_eq. by eapply lookup_lt_Some. }
        apply set_status_evolves. by eapply (st_dir _ _ Hst).
      * exists r. split; [|apply record_evolves_refl].
        by rewrite list_lookup_insert_ne.
    + destruct (cancelOrder_false _ _ _ _ _ _ E) as [-> ->].
      split; [done|]. eauto using record_evolves_refl.
Qed.

Lemma rounded_reachable_statuses h e :
  Rounded.reachable rnd h e → statuses_inv h e.
Proof.
  intros (ops & Hops & Hrun). revert h e Hrun.
  induction ops as [|o ops IH] using rev_ind; intros h e.
  { intros [= <- <-]. by split. }
  apply Forall_app in Hops as [Hops Ho%Forall_inv].
  rewrite rounded_run_from_snoc.
  destruct (Rounded.run_from _ _ ops) as [[h1 e1]|] eqn:Hrun; [|done]. cbn.
  intros Hop.
  assert (Rounded.reachable rnd h1 e1) as Hreach by by exists ops.
  eapply rounded_apply_op_evolves; [| | |exact Ho|exact Hop].
  - by eapply rounded_run_inv.
  - by apply IH.
  - by apply (rounded_reachable_double _ Hrnd h1 e1).
Qed.

Lemma rounded_run_reachable ops h e h' e' :
  Rounded.reachable rnd h e → Forall (Rounded.double_op rnd) ops →
  Rounded.run_from rnd (h, e) ops = Some (h', e') → Rounded.reachable rnd h' e'.
Proof.
  intros (ops0 & Hops0 & Hrun0) Hops Hrun. exists (ops0 ++ ops). split.
  - by apply Forall_app.
  - unfold Rounded.run_from in *. by rewrite foldl_app, Hrun0.
Qed.

Lemma rounded_run_evolves ops h e h' e' p o :
  Rounded.reachable rnd h e → Forall (Rounded.double_op rnd) ops →
  Rounded.run_from rnd (h, e) ops = Some (h', e') → h !! p = Some o →
  ∃ o', h' !! p = Some o' ∧ record_evolves o o'.
Proof.
  intros Hreach. revert h' e'.
  induction ops as [|op ops IH] using rev_ind; intros h' e' Hops.
  { intros [= <- <-] Ho. eauto using record_evolves_refl. }
  apply Forall_app in Hops as [Hops Hop%Forall_inv].
  rewrite rounded_run_from_snoc.
  destruct (Rounded.run_from _ _ ops) as [[h1 e1]|] eqn:Hrun; [|done]. cbn.
  intros Hstep Ho.
  destruct (IH _ _ Hops eq_refl Ho) as (o1 & Ho1 & E1).
  pose proof (rounded_run_reachable _ _ _ _ _ Hreach Hops Hrun) as Hreach1.
  destruct (rounded_apply_op_evolves h1 e1 op h' e') as [_ Hev]; try done.
  - by apply (rounded_reachable_inv rnd).
  - by apply rounded_reachable_statuses.
  - by apply (rounded_reachable_double _ Hrnd h1 e1).
  - destruct (Hev p o1 Ho1) as (o2 & Ho2 & E2).
    eauto using record_evolves_trans.
Qed.

End RoundedStatuses.

(** ** Where the matching stops *)

Section RoundedStop.
Variable rnd : Z → Z.

Lemma rounded_sweep_stop acc t h Q h' Q' trs :
  Rounded.sweep rnd acc t h Q h' Q' trs →
  ∃ n', h' !! t = Some n' ∧
    (isFilled n' = true ∨ Q' = [] ∨
     ∃ m o Q'', Q' = m :: Q'' ∧ h' !! m = Some o ∧ acc (price o) = false).
Proof.
  induction 1 as [h Q n Hn Hf | h n Hn | h m Q n o Hn Ho Hf Ha
                 | h m Q n o q h' Q' trs Hn Ho Hf Ha Hq Hs IH]; [..|done].
  - exists n. eauto.
  - exists n. eauto.
  - exists n. split; [done|]. right. right. by exists m, o, Q.
Qed.

Lemma rounded_sweep_no_trades acc t h Q h' Q' trs n :
  Rounded.sweep rnd acc t h Q h' Q' trs →
  h !! t = Some n → isFilled n = false →
  (trs = [] ↔
   Q = [] ∨ ∃ m o Q'', Q = m :: Q'' ∧ h !! m = Some o ∧ acc (price o) = false).
Proof.
  intros Hs Hn Hf.
  destruct Hs as [h Q n1 Hn1 Hf1 | h n1 Hn1 | h m Q n1 o Hn1 Ho Hf1 Ha
                 | h m Q n1 o q h' Q' trs Hn1 Ho Hf1 Ha Hq Hs].
  - congruence.
  - split; [by left|done].
  - split; [|done]. intros _. right. by exists m, o, Q.
  - split; [done|]. intros [?|(m1 & o1 & Q1 & ? & Ho1 & Ha1)]; [done|].
    simplify_eq. congruence.
Qed.

End RoundedStop.

Lemma acceptable_worse sd ty px p p' :
  acceptable sd ty px p = false → side_lt (opposite sd) p p' = true →
  acceptable sd ty px p' = false.
Proof.
  destruct ty; cbn; try done. apply priceAcceptable_worse.
Qed.

(** No level of a sorted ladder is acceptable when its first level is not. *)
Lemma unacceptable_ladder sd ty px (L : Ladder) :
  smap_sorted (side_lt (opposite sd)) L →
  (L = [] ∨ ∃ lp os L', L = (lp, os) :: L' ∧ acceptable sd ty px lp = false) ↔
  ∀ lp os, (lp, os) ∈ L → acceptable sd ty px lp = false.
Proof.
  intros Hs. split.
  - intros [->|(lp & os & L' & -> & Ha)] lp' os' Hin; [by apply elem_of_nil in Hin|].
    apply elem_of_cons in Hin as [?|Hin]; [by simplify_eq|].
    eapply acceptable_worse; [done|].
    apply smap_sorted_cons in Hs as [_ Hk]. by eapply Hk.
  - intros Hall. destruct L as [|[lp os] L']; [by left|].
    right. exists lp, os, L'. split; [done|]. eapply Hall. by left.
Qed.

(** X8.  The matching of an accepted order is exhaustive, on the code's
    doubles.  It returns no trade exactly when no level of the opposite
    ladder has a price the order accepts (a market order accepts every
    price).  When it returns, the order is filled or no level that is
    left of the opposite ladder has a price the order accepts.  The
    order is put into the ladder of its own side exactly when it is not
    filled, whatever its type. *)
Theorem matching_is_exhaustive h e fuel user pair sd ty px qty b h' e' trades :
  Rounded.reachable round_binary64 h e →
  orderBooks_ e !! pair = Some b →
  Rounded.submitOrder round_binary64 fuel h e user pair sd ty px qty
  = Some (h', e', Return trades) →
  (trades = [] ↔
   ∀ lp os, (lp, os) ∈ ladder (opposite sd) b → acceptable sd ty px lp = false) ∧
  ∃ n' b',
    h' !! length h = Some n' ∧ orderBooks_ e' !! pair = Some b' ∧
    (isFilled n' = true ∨
     ∀ lp os, (lp, os) ∈ ladder (opposite sd) b' → acceptable sd ty px lp = false) ∧
    (length h ∈ queue (ladder sd b') ↔ isFilled n' = false).
Proof.
  intros Hreach Hb Hsub.
  pose proof (rounded_reachable_inv _ _ _ Hreach) as Hinv.
  pose proof (books_inv_submit _ _ _ _ _ _ _ _ _ _ _ _ _ Hinv Hsub) as Hinv'.
  destruct (rounded_submitOrder_spec _ _ _ _ _ _ _ _ _ _ _ _ _ Hinv Hsub)
    as (b0 & L' & n' & Hb0 & Hq & Hpx & Hs & Htail & Hn' & I & ->).
  assert (b0 = b) as -> by congruence.
  set (t := length h) in *.
  set (n := Order_new (generateOrderId e).1 user pair sd ty px qty) in *.
  pose proof (bk_books _ _ Hinv pair b Hb) as Hbook.
  pose proof (bi_ladder _ _ _ Hbook (opposite sd)) as Hl.
  destruct (ladder_inv_alloc _ _ _ _ n Hl) as [Hl1 Hfresh].
  assert (side n' = sd) as Hsd by apply (si_side _ _ I).
  assert (ladder (opposite sd) (book_after b t n' L') = L') as HL.
  { rewrite <- Hsd. apply book_after_opposite. }
  assert (ladder_inv h' pair (opposite sd) L') as Hl'.
  { rewrite <- HL. apply (bi_ladder _ _ _ (bk_books _ _ Hinv' pair _ ltac:(cbn; apply lookup_insert_eq))). }
  assert (∀ lp, limit_acc n lp = acceptable sd ty px lp) as Hacc
    by (intros; apply limit_acc_acceptable).
  split.
  - rewrite <- (unacceptable_ladder sd ty px) by apply Hl.
    rewrite (rounded_sweep_no_trades _ _ _ _ _ _ _ _ n Hs);
      [|by apply list_lookup_middle|unfold isFilled; cbn; lia].
    split.
    + intros [HQ|(m & o & Q'' & HQ & Ho & Ha)].
      * left. destruct (ladder (opposite sd) b) as [|[lp os] L0]; [done|].
        destruct (li_nonempty _ _ _ _ Hl lp os); [by left|].
        rewrite queue_cons in HQ. by apply app_eq_nil in HQ as [-> _].
      * right. destruct (queue_head_level _ _ _ _ _ _ Hl1 HQ) as (lp & os & L0 & HL0).
        exists lp, (m :: os), L0. split; [done|].
        destruct (li_resting _ _ _ _ Hl1 lp (m :: os) m) as (o2 & Ho2 & _ & _ & Hpo & _);
          [rewrite HL0; by left|by left|].
        assert (o2 = o) as -> by congruence. by rewrite <- Hacc, <- Hpo.
    + intros [HL0|(lp & os & L0 & HL0 & Ha)].
      * left. by rewrite HL0.
      * right. destruct os as [|m os].
        { destruct (li_nonempty _ _ _ _ Hl lp []); [rewrite HL0; by left|done]. }
        destruct (li_resting _ _ _ _ Hl1 lp (m :: os) m) as (o & Ho & _ & _ & Hpo & _);
          [rewrite HL0; by left|by left|].
        exists m, o, (os ++ queue L0). split; [by rewrite HL0, queue_cons|].
        split; [done|]. by rewrite Hacc, Hpo.
  - exists n', (book_after b t n' L'). split; [done|].
    split; [cbn; apply lookup_insert_eq|]. split.
    + rewrite HL.
      destruct (rounded_sweep_stop _ _ _ _ _ _ _ _ Hs)
        as (n2 & Hn2 & [Hf|[HQ|(m & o & Q'' & HQ & Ho & Ha)]]).
      * left. by simplify_eq.
      * right. apply unacceptable_ladder.
        { eapply ladder_tail_sorted; [done|apply Hl]. }
        left. destruct L' as [|[lp os] L0]; [done|].
        destruct (li_nonempty _ _ _ _ Hl' lp os); [by left|].
        rewrite queue_cons in HQ. by apply app_eq_nil in HQ as [-> _].
      * right. apply unacceptable_ladder.
        { eapply ladder_tail_sorted; [done|apply Hl]. }
        right. destruct (queue_head_level _ _ _ _ _ _ Hl' HQ) as (lp & os & L0 & ->).
        exists lp, (m :: os), L0. split; [done|].
        destruct (li_resting _ _ _ _ Hl' lp (m :: os) m) as (o2 & Ho2 & _ & _ & Hpo & _);
          [by left|by left|].
        assert (o2 = o) as -> by congruence. by rewrite <- Hacc, <- Hpo.
    + destruct (ladder_inv_alloc _ _ _ _ n (bi_ladder _ _ _ Hbook sd)) as [_ Hown].
      rewrite <- Hsd at 1. rewrite book_after_own, Hsd.
      destruct (isFilled n') eqn:Hf.
      * split; [by intros ?|done].
      * split; [done|]. intros _. rewrite queue_push. by left.
Qed.





Lemma matching_is_exhaustive_witness :
  let h := twice_heap in
  let e := twice_engine in
  let b := twice_book in
  let px := decimal 100 0 in
  let qty := decimal 1 0 in
  Rounded.reachable round_binary64 h e ∧
  orderBooks_ e !! demo_pair = Some b ∧
  ∃ h' e' trades,
    Rounded.submitOrder round_binary64 10 h e "b" demo_pair BUY LIMIT px qty
    = Some (h', e', Return trades) ∧
    (trades = [] ↔
     ∀ lp os, (lp, os) ∈ ladder (opposite BUY) b →
       acceptable BUY LIMIT px lp = false) ∧
    ∃ n' b',
      h' !! length h = Some n' ∧ orderBooks_ e' !! demo_pair = Some b' ∧
      (isFilled n' = true ∨
       ∀ lp os, (lp, os) ∈ ladder (opposite BUY) b' →
         acceptable BUY LIMIT px lp = false) ∧
      (length h ∈ queue (ladder BUY b') ↔ isFilled n' = false).
Proof.
  intros h e b px qty.
  assert (H1 : orderBooks_ e !! demo_pair = Some b) by (vm_compute; reflexivity).
  pose (r := Rounded.submitOrder round_binary64 10 h e "b" demo_pair BUY LIMIT px qty).
  pose (h' := default [] ((λ x, x.1.1) <$> r)).
  pose (e' := default MatchingEngine_new ((λ x, x.1.2) <$> r)).
  pose (trades := [mkTrade 3 1 (decimal 100 0) (decimal 7 1);
                   mkTrade 3 1 (decimal 100 0) (ulp (decimal 9 1))]).
  assert (H2 : Rounded.submitOrder round_binary64 10 h e "b" demo_pair BUY LIMIT px qty
               = Some (h', e', Return trades))
    by (vm_compute; reflexivity).
  split; [apply twice_reachable|]. split; [exact H1|].
  exists h', e', trades. split; [exact H2|].
  exact (matching_is_exhaustive h e 10%nat "b" demo_pair BUY LIMIT px qty b h' e'
           trades twice_reachable H1 H2).
Defined.

(** * Properties of the settlement contract *)

Module DEXContractProps.
Import DEXContract.

(** ** Storage and the arithmetic of the calls *)

Lemma getBalance_set_balance u t v s u' t' :
  getBalance (set_balance u t v s) u' t'
  = if decide ((u', t') = (u, t)) then v else getBalance s u' t'.
Proof.
  unfold getBalance, set_balance. cbn.
  destruct (decide ((u', t') = (u, t))) as [->|Hne].
  - by rewrite lookup_insert_eq.
  - by rewrite lookup_insert_ne.
Qed.

Lemma order_at_set_order i o s j :
  order_at (set_order i o s) j = if decide (j = i) then o else order_at s j.
Proof.
  unfold order_at, set_order. cbn.
  destruct (decide (j = i)) as [->|Hne].
  - by rewrite lookup_insert_eq.
  - by rewrite lookup_insert_ne.
Qed.

Lemma order_at_set_balance u t v s i :
  order_at (set_balance u t v s) i = order_at s i.
Proof. done. Qed.

Lemma order_at_emit ev s i : order_at (emit ev s) i = order_at s i.
Proof. done. Qed.

Lemma getBalance_set_order i o s u t :
  getBalance (set_order i o s) u t = getBalance s u t.
Proof. done. Qed.

Lemma getBalance_emit ev s u t : getBalance (emit ev s) u t = getBalance s u t.
Proof. done. Qed.

Lemma events_emit ev s : events (emit ev s) = events s ++ [ev].
Proof. done. Qed.

Lemma credit_Some u t a s s' :
  credit u t a s = Some s' →
  getBalance s u t + a ≤ MAX_UINT256 ∧
  s' = set_balance u t (getBalance s u t + a) s.
Proof.
  unfold credit, checked_add.
  destruct (_ <=? _) eqn:E; cbn; [|done]. intros [= <-]. split; [lia|done].
Qed.

Lemma debit_Some u t a s s' :
  debit u t a s = Some s' →
  a ≤ getBalance s u t ∧ s' = set_balance u t (getBalance s u t - a) s.
Proof.
  unfold debit, checked_sub.
  destruct (_ <=? _) eqn:E; cbn; [|done]. intros [= <-]. split; [lia|done].
Qed.

(** ** What a call that succeeds has done *)

(** What a successful [placeOrder] did. *)
Lemma placeOrder_Ok s sender now orderId u bt qt sd ty px qty s' :
  placeOrder s sender now orderId u bt qt sd ty px qty = Ok s' →
  let o := mkOrder orderId u bt qt sd ty PENDING px qty 0 now in
  sender = owner s ∧ id (order_at s orderId) = 0 ∧
  (sd = BUY → px * qty ≤ MAX_UINT256) ∧
  locked_amount sd px qty ≤ getBalance s u (locked_token o) ∧
  s' = emit (OrderPlaced orderId u sd px qty)
         (set_order orderId o
            (set_balance u (locked_token o)
               (getBalance s u (locked_token o) - locked_amount sd px qty) s)).
Proof.
  unfold placeOrder.
  destruct (bool_decide (sender = owner s)) eqn:Ho; cbn [negb]; [|done].
  apply bool_decide_eq_true in Ho.
  destruct (id (order_at s orderId) =? 0) eqn:Hi; cbn [negb]; [|done].
  apply Z.eqb_eq in Hi.
  destruct sd; unfold locked_token, locked_amount; cbn [side quoteToken baseToken].
  - unfold checked_mul. destruct (px * qty <=? MAX_UINT256) eqn:Hm; [|done].
    destruct (_ <=? getBalance s u qt) eqn:Hb; cbn [negb]; [|done].
    unfold or_panic. destruct (debit _ _ _ _) as [s1|] eqn:Hd; [|done].
    apply debit_Some in Hd as [_ ->]. intros [= <-].
    repeat split; try done; lia.
  - destruct (_ <=? getBalance s u bt) eqn:Hb; cbn [negb]; [|done].
    unfold or_panic. destruct (debit _ _ _ _) as [s1|] eqn:Hd; [|done].
    apply debit_Some in Hd as [_ ->]. intros [= <-].
    repeat split; try done; lia.
Qed.

(** What a successful [cancelOrder] did. *)
Lemma cancelOrder_Ok s sender orderId s' :
  cancelOrder s sender orderId = Ok s' →
  let o := order_at s orderId in
  id o ≠ 0 ∧ (user o = sender ∨ sender = owner s) ∧
  (status o = PENDING ∨ status o = PARTIAL) ∧
  filledQuantity o ≤ quantity o ∧
  let refund := locked_amount (side o) (price o) (quantity o - filledQuantity o) in
  getBalance s (user o) (locked_token o) + refund ≤ MAX_UINT256 ∧
  s' = emit (OrderCancelled orderId)
         (set_order orderId (set_status CANCELLED o)
            (set_balance (user o) (locked_token o)
               (getBalance s (user o) (locked_token o) + refund) s)).
Proof.
  unfold cancelOrder. cbn zeta.
  destruct (id (order_at s orderId) =? 0) eqn:Hi; [done|].
  apply Z.eqb_neq in Hi.
  destruct (bool_decide (user (order_at s orderId) = sender)
            || bool_decide (sender = owner s)) eqn:Ha; cbn [negb]; [|done].
  destruct (bool_decide (status (order_at s orderId) = PENDING)
            || bool_decide (status (order_at s orderId) = PARTIAL)) eqn:Hs;
    cbn [negb]; [|done].
  unfold checked_sub.
  destruct (filledQuantity (order_at s orderId) <=? quantity (order_at s orderId))
    eqn:Hf; [|done].
  unfold or_panic, locked_token, locked_amount.
  assert (user (order_at s orderId) = sender ∨ sender = owner s) as Hauth.
  { apply orb_true_iff in Ha as [?%bool_decide_eq_true|?%bool_decide_eq_true]; eauto. }
  assert (status (order_at s orderId) = PENDING ∨ status (order_at s orderId) = PARTIAL)
    as Hst.
  { apply orb_true_iff in Hs as [?%bool_decide_eq_true|?%bool_decide_eq_true]; eauto. }
  destruct (side (order_at s orderId)).
  - unfold checked_mul. destruct (_ <=? MAX_UINT256) eqn:Hm; [|done].
    destruct (credit _ _ _ _) as [s1|] eqn:Hc; [|done].
    apply credit_Some in Hc as [Hle ->]. intros [= <-].
    rewrite order_at_set_balance. repeat split; try done; lia.
  - destruct (credit _ _ _ _) as [s1|] eqn:Hc; [|done].
    apply credit_Some in Hc as [Hle ->]. intros [= <-].
    rewrite order_at_set_balance. repeat split; try done; lia.
Qed.

Lemma add_filled_Some i q s s' :
  add_filled i q s = Some s' →
  filledQuantity (order_at s i) + q ≤ MAX_UINT256 ∧
  s' = set_order i (set_filled (filledQuantity (order_at s i) + q) (order_at s i)) s.
Proof.
  unfold add_filled, checked_add.
  destruct (_ <=? _) eqn:E; cbn; [|done]. intros [= <-]. split; [lia|done].
Qed.

Lemma order_at_update_status i s j :
  order_at (update_status i s) j
  = if decide (j = i) then set_status (traded_status (order_at s i)) (order_at s i)
    else order_at s j.
Proof.
  unfold update_status, traded_status.
  destruct (quantity (order_at s i) <=? filledQuantity (order_at s i));
    by rewrite order_at_set_order.
Qed.

Lemma getBalance_update_status i s u t :
  getBalance (update_status i s) u t = getBalance s u t.
Proof. unfold update_status. by destruct (_ <=? _). Qed.

Lemma events_update_status i s : events (update_status i s) = events s.
Proof. unfold update_status. by destruct (_ <=? _). Qed.

Lemma owner_update_status i s : owner (update_status i s) = owner s.
Proof. unfold update_status. by destruct (_ <=? _). Qed.

(** What a successful [executeTrade] did. *)
Lemma executeTrade_Ok s sender bi si px qty s' :
  executeTrade s sender bi si px qty = Ok s' →
  let b := order_at s bi in
  let sl := order_at s si in
  sender = owner s ∧ id b ≠ 0 ∧ id sl ≠ 0 ∧ side b = BUY ∧ side sl = SELL ∧
  bi ≠ si ∧ px * qty ≤ MAX_UINT256 ∧
  filledQuantity b + qty ≤ MAX_UINT256 ∧ filledQuantity sl + qty ≤ MAX_UINT256 ∧
  owner s' = owner s ∧
  events s' = events s ++ [TradeExecuted bi si px qty] ∧
  (∀ j, order_at s' j =
     if decide (j = bi) then traded qty b
     else if decide (j = si) then traded qty sl
     else order_at s j) ∧
  (∀ u t, getBalance s' u t =
     getBalance s u t
     + (if decide ((u, t) = (user b, baseToken b)) then qty else 0)
     + (if decide ((u, t) = (user sl, quoteToken sl)) then px * qty / 10 ^ 18 else 0)) ∧
  (∀ u t, getBalance s u t ≤ MAX_UINT256 → getBalance s' u t ≤ MAX_UINT256).
Proof.
  unfold executeTrade.
  destruct (bool_decide (sender = owner s)) eqn:Ho; cbn [negb]; [|done].
  apply bool_decide_eq_true in Ho.
  destruct (id (order_at s bi) =? 0) eqn:Hb; [done|]. apply Z.eqb_neq in Hb.
  destruct (id (order_at s si) =? 0) eqn:Hs; [done|]. apply Z.eqb_neq in Hs.
  destruct (bool_decide (side (order_at s bi) = BUY)) eqn:Hsb; cbn [negb]; [|done].
  apply bool_decide_eq_true in Hsb.
  destruct (bool_decide (side (order_at s si) = SELL)) eqn:Hss; cbn [negb]; [|done].
  apply bool_decide_eq_true in Hss.
  assert (bi ≠ si) as Hne by (intros ->; congruence).
  unfold checked_mul. destruct (px * qty <=? MAX_UINT256) eqn:Hm; [|done].
  unfold or_panic.
  destruct (credit _ _ qty s) as [s1|] eqn:H1; [|done].
  apply credit_Some in H1 as [Hc1 E1].
  destruct (credit _ _ _ _) as [s2|] eqn:H2; [|done].
  apply credit_Some in H2 as [Hc2 E2].
  destruct (add_filled bi _ _) as [s3|] eqn:H3; [|done].
  apply add_filled_Some in H3 as [Hf1 E3].
  destruct (add_filled si _ _) as [s4|] eqn:H4; [|done].
  apply add_filled_Some in H4 as [Hf2 E4].
  intros [= <-]. cbn zeta.
  assert (order_at s2 bi = order_at s bi) as Hb2 by by rewrite E2, E1.
  assert (order_at s2 si = order_at s si) as Hs2 by by rewrite E2, E1.
  assert (order_at s3 si = order_at s si) as Hs3.
  { rewrite E3, order_at_set_order, decide_False by done. exact Hs2. }
  rewrite Hb2 in Hf1, E3. rewrite Hs3 in Hf2, E4.
  split; [done|]. split; [done|]. split; [done|]. split; [done|]. split; [done|].
  split; [done|]. split; [lia|]. split; [done|]. split; [done|]. split.
  { rewrite E4, E3, E2, E1. cbn. by rewrite !owner_update_status. }
  split.
  { rewrite events_emit, !events_update_status. by rewrite E4, E3, E2, E1. }
  assert (Hbal : ∀ u t,
    getBalance (emit (TradeExecuted bi si px qty) (update_status si (update_status bi s4)))
      u t =
    getBalance s u t
    + (if decide ((u, t) = (user (order_at s bi), baseToken (order_at s bi)))
       then qty else 0)
    + (if decide ((u, t) = (user (order_at s si), quoteToken (order_at s si)))
       then px * qty / 10 ^ 18 else 0)).
  { intros u t. rewrite getBalance_emit, !getBalance_update_status.
    rewrite E4, getBalance_set_order, E3, getBalance_set_order.
    rewrite E2, getBalance_set_balance, E1, !getBalance_set_balance.
    destruct (decide ((user (order_at s si), quoteToken (order_at s si))
                      = (user (order_at s bi), baseToken (order_at s bi))))
      as [[= Hu Ht]|Hd].
    + rewrite Hu, Ht. repeat (case_decide; simplify_eq); lia.
    + repeat (case_decide; simplify_eq); lia. }
  split; [|split; [exact Hbal|]].
  - intros j. rewrite order_at_emit, !order_at_update_status.
    rewrite E4, !order_at_set_order, E3, !order_at_set_order.
    unfold traded.
    assert (order_at s2 j = order_at s j) as -> by by rewrite E2, E1.
    repeat case_decide; simplify_eq; done.
  - intros u t Hle. rewrite Hbal.
    rewrite E1, getBalance_set_balance in Hc2.
    destruct (decide ((user (order_at s si), quoteToken (order_at s si))
                      = (user (order_at s bi), baseToken (order_at s bi))))
      as [[= Hu Ht]|Hd].
    + rewrite Hu, Ht. repeat (case_decide; simplify_eq); lia.
    + repeat (case_decide; simplify_eq); lia.
Qed.

(** ** Orders, balances and the calls *)

Lemma same_order_refl o : same_order o o.
Proof. by repeat split. Qed.

Lemma same_order_trans o1 o2 o3 :
  same_order o1 o2 → same_order o2 o3 → same_order o1 o3.
Proof. unfold same_order. intros ? ?. repeat split; destruct_and!; congruence. Qed.

Lemma wf_constructor deployer : wf (constructor deployer).
Proof.
  split.
  - intros u t. unfold getBalance, constructor. cbn. rewrite lookup_empty. cbn.
    unfold uint256, MAX_UINT256. lia.
  - intros i. unfold order_at, constructor. cbn. rewrite lookup_empty. cbn.
    unfold uint256, MAX_UINT256. repeat split; eauto; lia.
Qed.

Lemma locked_amount_nonneg sd px qty : 0 ≤ px → 0 ≤ qty → 0 ≤ locked_amount sd px qty.
Proof. intros. destruct sd; cbn; [|done]. apply Z.div_pos; [nia|lia]. Qed.

Lemma step_wf s c : wf s → args_ok c → wf (step s c).
Proof.
  intros [Hb Ho] Hargs. unfold step.
  destruct (run_call s c) as [s'|] eqn:Hc; [|done].
  destruct c as [sender now i u bt qt sd ty px qty|sender bi si px qty|sender i];
    cbn in Hc, Hargs.
  - destruct Hargs as (Hnow & Hi & Hpx & Hqty).
    apply placeOrder_Ok in Hc as (_ & _ & Hmul & Hle & ->). split.
    + intros u' t'. rewrite getBalance_emit, getBalance_set_order, getBalance_set_balance.
      case_decide; [|done]. simplify_eq.
      pose proof (Hb u (locked_token (mkOrder i u bt qt sd ty PENDING px qty 0 now))).
      pose proof (locked_amount_nonneg sd px qty (proj1 Hpx) (proj1 Hqty)).
      unfold uint256 in *. lia.
    + intros j. rewrite order_at_emit, order_at_set_order, order_at_set_balance.
      case_decide; [|done]. subst. cbn.
      unfold uint256, MAX_UINT256 in *. repeat split; eauto; lia.
  - destruct Hargs as (Hbi & Hsi & Hpx & Hqty).
    apply executeTrade_Ok in Hc
      as (_ & _ & _ & _ & _ & Hne & Hmul & Hf1 & Hf2 & _ & _ & Hord & Hbal & Hmax).
    split.
    + intros u t. split; [|apply Hmax, Hb].
      rewrite Hbal. pose proof (proj1 (Hb u t)).
      assert (0 ≤ px * qty / 10 ^ 18) by (apply Z.div_pos; [destruct Hpx, Hqty; nia|lia]).
      destruct Hqty. repeat case_decide; lia.
    + intros j. rewrite Hord. unfold traded, traded_status.
      destruct (Ho bi) as (Hib & Hpb & Hqb & Hfb).
      destruct (Ho si) as (His & Hps & Hqs & Hfs).
      destruct Hqty.
      repeat case_decide; subst; [| |apply Ho]; cbn;
        (split; [done|]); unfold uint256 in *; repeat split; try done; lia.
  - apply cancelOrder_Ok in Hc as (Hid & _ & _ & Hfq & Hle & ->). split.
    + intros u t. rewrite getBalance_emit, getBalance_set_order, getBalance_set_balance.
      case_decide; [|done]. simplify_eq.
      destruct (Ho i) as (_ & Hp & Hq & Hf).
      pose proof (locked_amount_nonneg (side (order_at s i)) (price (order_at s i))
                    (quantity (order_at s i) - filledQuantity (order_at s i))
                    (proj1 Hp)).
      pose proof (proj1 (Hb (user (order_at s i)) (locked_token (order_at s i)))).
      unfold uint256 in *. lia.
    + intros j. rewrite order_at_emit, order_at_set_order, order_at_set_balance.
      case_decide; [|done]. subst. cbn. apply Ho.
Qed.

Lemma run_snoc s cs c : run s (cs ++ [c]) = step (run s cs) c.
Proof. unfold run. by rewrite foldl_app. Qed.

Lemma run_wf s cs : wf s → Forall args_ok cs → wf (run s cs).
Proof.
  intros Hwf. induction cs as [|c cs IH] using rev_ind; intros Hargs; [done|].
  apply Forall_app in Hargs as [Hcs Hc%Forall_inv].
  rewrite run_snoc. apply step_wf; [by apply IH|done].
Qed.

Lemma step_same_order s c i :
  args_ok c → id (order_at s i) ≠ 0 →
  owner (step s c) = owner s ∧
  same_order (order_at s i) (order_at (step s c) i) ∧
  filledQuantity (order_at s i) ≤ filledQuantity (order_at (step s c) i).
Proof.
  intros Hargs Hid. unfold step.
  destruct (run_call s c) as [s'|] eqn:Hc; [|by split; [|split; [apply same_order_refl|]]].
  destruct c as [sender now j u bt qt sd ty px qty|sender bi si px qty|sender j];
    cbn in Hc, Hargs.
  - apply placeOrder_Ok in Hc as (_ & Hj & _ & _ & ->).
    split; [done|].
    rewrite order_at_emit, order_at_set_order, order_at_set_balance.
    case_decide; [congruence|]. split; [apply same_order_refl|done].
  - destruct Hargs as (_ & _ & _ & Hqty).
    apply executeTrade_Ok in Hc
      as (_ & _ & _ & _ & _ & Hne & _ & _ & _ & Hown & _ & Hord & _).
    split; [done|]. rewrite Hord. destruct Hqty.
    repeat case_decide; subst; cbn;
      (split; [by repeat split|lia]).
  - apply cancelOrder_Ok in Hc as (_ & _ & _ & _ & _ & ->).
    split; [done|].
    rewrite order_at_emit, order_at_set_order, order_at_set_balance.
    case_decide; subst; cbn; (split; [by repeat split|lia]).
Qed.

(** X20.  Calls of [placeOrder], [executeTrade] and [cancelOrder], reverted
    ones included, keep what the contract stores in the range of
    [uint256] and never change an order once it is placed: whatever
    calls follow, an order with a non-zero id keeps its id, user, tokens,
    side, type, price, quantity and time stamp, and its filled quantity
    never decreases. *)
Theorem placed_orders_are_immutable s cs :
  wf s → Forall args_ok cs →
  wf (run s cs) ∧
  ∀ i, id (getOrder s i) ≠ 0 →
    same_order (getOrder s i) (getOrder (run s cs) i) ∧
    filledQuantity (getOrder s i) ≤ filledQuantity (getOrder (run s cs) i).
Proof.
  intros Hwf Hargs. split; [by apply run_wf|].
  induction cs as [|c cs IH] using rev_ind.
  { intros i _. split; [apply same_order_refl|done]. }
  apply Forall_app in Hargs as [Hcs Hc%Forall_inv].
  specialize (IH Hcs). rewrite run_snoc. unfold getOrder in *.
  intros i Hid. destruct (IH i Hid) as [Hso Hf].
  destruct (step_same_order (run s cs) c i Hc) as (_ & Hso' & Hf').
  { destruct Hso as [-> _]. done. }
  split; [by eapply same_order_trans|lia].
Qed.

(** X21.  Placing an order and cancelling it gives every balance back: after
    [placeOrder] succeeded for a non-zero id, [cancelOrder] by the
    order's user or by the owner succeeds, every balance is what it was
    before the placement, and the order stays recorded, as cancelled. *)
Theorem place_then_cancel_restores_balances
    s sender now orderId u bt qt sd ty px qty s1 canceller :
  wf s → uint256 qty → orderId ≠ 0 →
  placeOrder s sender now orderId u bt qt sd ty px qty = Ok s1 →
  canceller = u ∨ canceller = owner s →
  ∃ s2, cancelOrder s1 canceller orderId = Ok s2 ∧
    (∀ u' t', getBalance s2 u' t' = getBalance s u' t') ∧
    getOrder s2 orderId = mkOrder orderId u bt qt sd ty CANCELLED px qty 0 now ∧
    (∀ j, j ≠ orderId → getOrder s2 j = getOrder s j) ∧
    events s2 = events s ++ [OrderPlaced orderId u sd px qty; OrderCancelled orderId].
Proof.
  intros [Hb Ho] Hqty Hid Hp Hauth.
  apply placeOrder_Ok in Hp as (Hown & _ & Hmul & Hle & Hs1).
  set (o := mkOrder orderId u bt qt sd ty PENDING px qty 0 now) in *.
  assert (order_at s1 orderId = o) as Hord.
  { rewrite Hs1, order_at_emit, order_at_set_order. by rewrite decide_True. }
  assert (∀ u' t', getBalance s1 u' t'
            = if decide ((u', t') = (u, locked_token o))
              then getBalance s u (locked_token o) - locked_amount sd px qty
              else getBalance s u' t') as Hbal.
  { intros u' t'.
    by rewrite Hs1, getBalance_emit, getBalance_set_order, getBalance_set_balance. }
  assert (owner s1 = owner s) as Hown1 by by rewrite Hs1.
  assert (events s1 = events s ++ [OrderPlaced orderId u sd px qty]) as Hev
    by by rewrite Hs1.
  assert (∀ j, j ≠ orderId → order_at s1 j = order_at s j) as Hother.
  { intros j Hj. rewrite Hs1, order_at_emit, order_at_set_order. by rewrite decide_False. }
  clear Hs1.
  assert (credit u (locked_token o) (locked_amount sd px qty) s1
          = Some (set_balance u (locked_token o) (getBalance s u (locked_token o)) s1))
    as Hcredit.
  { unfold credit, checked_add. rewrite Hbal, decide_True by done.
    pose proof (Hb u (locked_token o)) as [_ Hmax].
    rewrite (proj2 (Z.leb_le _ _)) by lia. cbn. do 2 f_equal. lia. }
  assert (cancelOrder s1 canceller orderId
          = Ok (emit (OrderCancelled orderId)
                  (set_order orderId (set_status CANCELLED o)
                     (set_balance u (locked_token o) (getBalance s u (locked_token o))
                        s1)))) as Hcancel.
  { unfold cancelOrder. cbn zeta. rewrite Hord, Hown1.
    cbn [id user status side price quantity filledQuantity quoteToken baseToken o].
    rewrite (proj2 (Z.eqb_neq orderId 0)) by done.
    assert (bool_decide (u = canceller) || bool_decide (canceller = owner s) = true)
      as ->.
    { destruct Hauth as [->| ->].
      - by rewrite bool_decide_eq_true_2.
      - rewrite (bool_decide_eq_true_2 (owner s = owner s)) by done. apply orb_true_r. }
    rewrite (bool_decide_eq_true_2 (PENDING = PENDING)) by done.
    cbn [negb orb]. unfold checked_sub.
    rewrite (proj2 (Z.leb_le 0 qty)) by apply Hqty. rewrite Z.sub_0_r.
    unfold or_panic.
    destruct sd; unfold locked_token, locked_amount in Hcredit; cbn in Hcredit.
    - unfold checked_mul. rewrite (proj2 (Z.leb_le _ _)) by by apply Hmul.
      rewrite Hcredit. by rewrite order_at_set_balance, Hord.
    - rewrite Hcredit. by rewrite order_at_set_balance, Hord. }
  eexists. split; [exact Hcancel|]. split.
  { intros u' t'. rewrite getBalance_emit, getBalance_set_order, getBalance_set_balance.
    case_decide; [by simplify_eq|]. rewrite Hbal. by rewrite decide_False. }
  split.
  { unfold getOrder. by rewrite order_at_emit, order_at_set_order, decide_True. }
  split.
  { intros j Hj. unfold getOrder.
    rewrite order_at_emit, order_at_set_order, decide_False by done.
    rewrite order_at_set_balance. by apply Hother. }
  rewrite events_emit. cbn [events set_order set_balance]. rewrite Hev.
  by rewrite <- app_assoc.
Qed.

(** X22.  [cancelOrder] never touches an order that is filled or cancelled:
    it reverts for such an order; when it succeeds the order was pending
    or partial, only its status changes, to cancelled, only its user's
    balance of the locked token changes, by the refund for the unfilled
    quantity, and a [cancelOrder] of the order in the state it leaves
    reverts, whoever calls. *)
Theorem cancel_only_open_orders s sender orderId :
  (status (getOrder s orderId) = FILLED ∨ status (getOrder s orderId) = CANCELLED →
   ∃ e, cancelOrder s sender orderId = Revert e) ∧
  (∀ s', cancelOrder s sender orderId = Ok s' →
     let o := getOrder s orderId in
     (status o = PENDING ∨ status o = PARTIAL) ∧
     getOrder s' orderId = set_status CANCELLED o ∧
     (∀ j, j ≠ orderId → getOrder s' j = getOrder s j) ∧
     (∀ u t, getBalance s' u t =
        getBalance s u t +
        if decide ((u, t) = (user o, locked_token o))
        then locked_amount (side o) (price o) (quantity o - filledQuantity o)
        else 0) ∧
     ∀ sender', ∃ e, cancelOrder s' sender' orderId = Revert e).
Proof.
  unfold getOrder. split.
  - intros Hst. unfold cancelOrder. cbn zeta.
    destruct (id (order_at s orderId) =? 0); [by eexists|].
    destruct (negb _); [by eexists|].
    assert (bool_decide (status (order_at s orderId) = PENDING)
            || bool_decide (status (order_at s orderId) = PARTIAL) = false) as ->.
    { apply orb_false_iff.
      split; apply bool_decide_eq_false; destruct Hst as [-> | ->]; done. }
    by eexists.
  - intros s' Hc. apply cancelOrder_Ok in Hc as (Hid & _ & Hst & _ & _ & ->).
    cbn zeta. split; [done|]. split.
    { by rewrite order_at_emit, order_at_set_order, decide_True. }
    split.
    { intros j Hj. by rewrite order_at_emit, order_at_set_order, decide_False. }
    split.
    { intros u t. rewrite getBalance_emit, getBalance_set_order, getBalance_set_balance.
      case_decide; [|lia]. by simplify_eq. }
    intros sender'. unfold cancelOrder. cbn zeta.
    rewrite order_at_emit, order_at_set_order, decide_True by done.
    cbn [id user status set_status].
    destruct (id (order_at s orderId) =? 0); [by eexists|].
    destruct (negb _); by eexists.
Qed.

(** X23.  An order placed under the id 0 is out of reach: the contract takes
    the id 0 of a stored order for "no order".  [cancelOrder] and
    [executeTrade] revert for the id 0 with "not found"; [placeOrder]
    accepts the id 0 whenever the user's balance covers the order, also
    when an order was placed under it before, and locks the funds; the
    order cannot be cancelled afterwards. *)
Theorem order_zero_is_out_of_reach s :
  wf s →
  (∀ sender, cancelOrder s sender 0 = Revert (Error "Order not found")) ∧
  (∀ j px qty,
     executeTrade s (owner s) 0 j px qty = Revert (Error "Buy order not found")) ∧
  (∀ j px qty, id (getOrder s j) ≠ 0 →
     executeTrade s (owner s) j 0 px qty = Revert (Error "Sell order not found")) ∧
  (∀ now u bt qt sd ty px qty,
     let o := mkOrder 0 u bt qt sd ty PENDING px qty 0 now in
     (sd = BUY → px * qty ≤ MAX_UINT256) →
     locked_amount sd px qty ≤ getBalance s u (locked_token o) →
     ∃ s1, placeOrder s (owner s) now 0 u bt qt sd ty px qty = Ok s1 ∧
       getOrder s1 0 = o ∧
       getBalance s1 u (locked_token o)
       = getBalance s u (locked_token o) - locked_amount sd px qty ∧
       ∀ sender, cancelOrder s1 sender 0 = Revert (Error "Order not found")).
Proof.
  intros [Hb Ho].
  assert (id (order_at s 0) = 0) as H0 by (by destruct (Ho 0) as [[?|?] _]).
  unfold getOrder. split; [|split; [|split]].
  - intros sender. unfold cancelOrder. cbn zeta. by rewrite H0.
  - intros j px qty. unfold executeTrade.
    rewrite bool_decide_eq_true_2 by done. cbn [negb]. by rewrite H0.
  - intros j px qty Hj. unfold executeTrade.
    rewrite bool_decide_eq_true_2 by done. cbn [negb].
    rewrite (proj2 (Z.eqb_neq _ 0)) by done. by rewrite H0.
  - intros now u bt qt sd ty px qty. cbn zeta. intros Hmul Hle.
    assert (∃ s1, placeOrder s (owner s) now 0 u bt qt sd ty px qty = Ok s1)
      as [s1 Hp].
    { unfold placeOrder. rewrite bool_decide_eq_true_2 by done. cbn [negb].
      rewrite H0. cbn [Z.eqb negb]. unfold or_panic, debit, checked_sub, checked_mul.
      destruct sd; cbn in Hle.
      - rewrite (proj2 (Z.leb_le _ _)) by by apply Hmul.
        rewrite (proj2 (Z.leb_le _ _)) by done. cbn. by eexists.
      - rewrite (proj2 (Z.leb_le _ _)) by done. cbn. by eexists. }
    exists s1. split; [done|].
    apply placeOrder_Ok in Hp as (_ & _ & _ & _ & ->).
    split; [by rewrite order_at_emit, order_at_set_order, decide_True|]. split.
    { rewrite getBalance_emit, getBalance_set_order, getBalance_set_balance.
      by rewrite decide_True. }
    intros sender. unfold cancelOrder. cbn zeta.
    by rewrite order_at_emit, order_at_set_order, decide_True.
Qed.

(** X24.  What [executeTrade] settles.  It succeeds only for the owner and for
    a stored buy order and a stored sell order.  It credits the buyer
    with the quantity of base token and the seller with
    price * quantity / 10^18 of quote token, each in the tokens of their
    own order, and debits nobody: the funds were taken at placement.
    Both orders are filled by the quantity and become FILLED, when the
    quantity is covered, or PARTIAL, whatever their status was. *)
Theorem executeTrade_credits_both_sides s sender bi si px qty s' :
  executeTrade s sender bi si px qty = Ok s' →
  let b := getOrder s bi in
  let sl := getOrder s si in
  sender = owner s ∧ bi ≠ si ∧ id b ≠ 0 ∧ id sl ≠ 0 ∧ side b = BUY ∧ side sl = SELL ∧
  getOrder s' bi = traded qty b ∧ getOrder s' si = traded qty sl ∧
  (∀ j, j ≠ bi → j ≠ si → getOrder s' j = getOrder s j) ∧
  (∀ u t, getBalance s' u t =
     getBalance s u t
     + (if decide ((u, t) = (user b, baseToken b)) then qty else 0)
     + (if decide ((u, t) = (user sl, quoteToken sl)) then px * qty / 10 ^ 18 else 0)) ∧
  (0 ≤ px → 0 ≤ qty → ∀ u t, getBalance s u t ≤ getBalance s' u t) ∧
  events s' = events s ++ [TradeExecuted bi si px qty].
Proof.
  intros Hc. unfold getOrder.
  apply executeTrade_Ok in Hc
    as (Hown & Hb & Hs & Hsb & Hss & Hne & _ & _ & _ & _ & Hev & Hord & Hbal & _).
  cbn zeta. repeat split; try done.
  - by rewrite Hord, decide_True.
  - by rewrite Hord, decide_False, decide_True.
  - intros j Hjb Hjs. by rewrite Hord, !decide_False.
  - intros Hpx Hqty u t. rewrite Hbal.
    assert (0 ≤ px * qty / 10 ^ 18) by (apply Z.div_pos; [nia|lia]).
    repeat case_decide; lia.
Qed.

Lemma credit_in_range u t a s :
  getBalance s u t + a ≤ MAX_UINT256 →
  credit u t a s = Some (set_balance u t (getBalance s u t + a) s).
Proof.
  intros H. unfold credit, checked_add. by rewrite (proj2 (Z.leb_le _ _)) by done.
Qed.

Lemma add_filled_in_range i q s :
  filledQuantity (order_at s i) + q ≤ MAX_UINT256 →
  add_filled i q s
  = Some (set_order i (set_filled (filledQuantity (order_at s i) + q) (order_at s i)) s).
Proof.
  intros H. unfold add_filled, checked_add. by rewrite (proj2 (Z.leb_le _ _)) by done.
Qed.

(** X25.  [executeTrade] checks neither the status of the two orders nor
    their remaining quantity, their prices or their tokens: called by
    the owner it succeeds for every stored buy order and stored sell
    order, filled and cancelled ones included, unless a product or a sum
    leaves the range of [uint256]. *)
Theorem executeTrade_checks_no_status s bi si px qty :
  wf s → uint256 px → uint256 qty →
  id (getOrder s bi) ≠ 0 → id (getOrder s si) ≠ 0 →
  side (getOrder s bi) = BUY → side (getOrder s si) = SELL →
  px * qty ≤ MAX_UINT256 →
  filledQuantity (getOrder s bi) + qty ≤ MAX_UINT256 →
  filledQuantity (getOrder s si) + qty ≤ MAX_UINT256 →
  (∀ u t,
     getBalance s u t
     + (if decide ((u, t) = (user (getOrder s bi), baseToken (getOrder s bi)))
        then qty else 0)
     + (if decide ((u, t) = (user (getOrder s si), quoteToken (getOrder s si)))
        then px * qty / 10 ^ 18 else 0) ≤ MAX_UINT256) →
  ∃ s', executeTrade s (owner s) bi si px qty = Ok s'.
Proof.
  unfold getOrder. intros [Hb Ho] Hpx Hqty Hib His Hsb Hss Hmul Hfb Hfs Hbal.
  assert (bi ≠ si) as Hne by (intros ->; congruence).
  assert (0 ≤ px * qty / 10 ^ 18) as Hq
    by (apply Z.div_pos; [destruct Hpx, Hqty; nia|lia]).
  unfold executeTrade.
  rewrite bool_decide_eq_true_2 by done. cbn [negb].
  rewrite (proj2 (Z.eqb_neq _ 0)) by done.
  rewrite (proj2 (Z.eqb_neq _ 0)) by done.
  rewrite !bool_decide_eq_true_2 by done. cbn [negb].
  unfold checked_mul. rewrite (proj2 (Z.leb_le _ _)) by done.
  unfold or_panic.
  rewrite credit_in_range; last first.
  { specialize (Hbal (user (order_at s bi)) (baseToken (order_at s bi))).
    rewrite decide_True in Hbal by done. case_decide; lia. }
  rewrite credit_in_range; last first.
  { rewrite getBalance_set_balance.
    specialize (Hbal (user (order_at s si)) (quoteToken (order_at s si))).
    rewrite (decide_True (P := (user (order_at s si), quoteToken (order_at s si))
                               = (user (order_at s si), quoteToken (order_at s si))))
      in Hbal by done.
    revert Hbal.
    destruct (decide ((user (order_at s si), quoteToken (order_at s si))
                      = (user (order_at s bi), baseToken (order_at s bi))))
      as [[= Hu Ht]|Hd]; intros Hbal; [|lia].
    rewrite <- Hu, <- Ht. lia. }
  rewrite add_filled_in_range by done.
  rewrite add_filled_in_range; last first.
  { rewrite order_at_set_order, decide_False by done. done. }
  by eexists.
Qed.

(** ** Instances on the scenario of the contract *)

Lemma wf_funded : wf funded.
Proof.
  split.
  - intros u t. unfold getBalance, funded. cbn [balances].
    destruct (decide ((11, 22) = (u, t))) as [<-|H1].
    { rewrite lookup_insert_eq. cbn. unfold uint256, MAX_UINT256. lia. }
    rewrite lookup_insert_ne by done.
    destruct (decide ((12, 21) = (u, t))) as [<-|H2].
    { rewrite lookup_insert_eq. cbn. unfold uint256, MAX_UINT256. lia. }
    rewrite lookup_insert_ne by done. rewrite lookup_empty. cbn.
    unfold uint256, MAX_UINT256. lia.
  - intros i. unfold order_at, funded. cbn [orders]. rewrite lookup_empty. cbn.
    unfold uint256, MAX_UINT256. repeat split; eauto; lia.
Defined.

Lemma place_calls_ok : Forall args_ok place_calls.
Proof.
  repeat constructor; unfold uint256, MAX_UINT256; cbn; lia.
Defined.

Lemma wf_placed : wf placed.
Proof.
  change placed with (run funded place_calls).
  exact (run_wf funded place_calls wf_funded place_calls_ok).
Defined.

Lemma placed_orders_are_immutable_witness :
  let cs := [ExecuteTrade 7 1 2 (2000 * 10 ^ 18) (5 * 10 ^ 17); CancelOrder 11 1] in
  wf placed ∧ Forall args_ok cs ∧
  wf (run placed cs) ∧
  ∀ i, id (getOrder placed i) ≠ 0 →
    same_order (getOrder placed i) (getOrder (run placed cs) i) ∧
    filledQuantity (getOrder placed i) ≤ filledQuantity (getOrder (run placed cs) i).
Proof.
  intros cs.
  assert (H1 : Forall args_ok cs)
    by (repeat constructor; unfold uint256, MAX_UINT256; cbn; lia).
  split; [exact wf_placed|]. split; [exact H1|].
  exact (placed_orders_are_immutable placed cs wf_placed H1).
Defined.

Lemma place_then_cancel_restores_balances_witness :
  let px := 2000 * 10 ^ 18 in
  let qty := 10 ^ 18 in
  wf funded ∧ uint256 qty ∧ 1 ≠ 0 ∧ (11 = 11 ∨ 11 = owner funded) ∧
  ∃ s1,
    placeOrder funded 7 100 1 11 21 22 BUY LIMIT px qty = Ok s1 ∧
    ∃ s2, cancelOrder s1 11 1 = Ok s2 ∧
      (∀ u' t', getBalance s2 u' t' = getBalance funded u' t') ∧
      getOrder s2 1 = mkOrder 1 11 21 22 BUY LIMIT CANCELLED px qty 0 100 ∧
      (∀ j, j ≠ 1 → getOrder s2 j = getOrder funded j) ∧
      events s2 = events funded ++ [OrderPlaced 1 11 BUY px qty; OrderCancelled 1].
Proof.
  intros px qty.
  assert (H1 : uint256 qty) by (unfold uint256, MAX_UINT256, qty; lia).
  assert (H2 : 1 ≠ 0) by lia.
  assert (H3 : 11 = 11 ∨ 11 = owner funded) by (left; reflexivity).
  pose (s1 := match placeOrder funded 7 100 1 11 21 22 BUY LIMIT px qty with
              | Ok s => s | Revert _ => funded end).
  assert (H4 : placeOrder funded 7 100 1 11 21 22 BUY LIMIT px qty = Ok s1)
    by (vm_compute; reflexivity).
  split; [exact wf_funded|]. split; [exact H1|]. split; [exact H2|].
  split; [exact H3|]. exists s1. split; [exact H4|].
  exact (place_then_cancel_restores_balances funded 7 100 1 11 21 22 BUY LIMIT px qty
           s1 11 wf_funded H1 H2 H4 H3).
Defined.

Lemma order_zero_is_out_of_reach_witness :
  let s := funded in
  wf s ∧
  (∀ sender, cancelOrder s sender 0 = Revert (Error "Order not found")) ∧
  (∀ j px qty,
     executeTrade s (owner s) 0 j px qty = Revert (Error "Buy order not found")) ∧
  (∀ j px qty, id (getOrder s j) ≠ 0 →
     executeTrade s (owner s) j 0 px qty = Revert (Error "Sell order not found")) ∧
  (∀ now u bt qt sd ty px qty,
     let o := mkOrder 0 u bt qt sd ty PENDING px qty 0 now in
     (sd = BUY → px * qty ≤ MAX_UINT256) →
     locked_amount sd px qty ≤ getBalance s u (locked_token o) →
     ∃ s1, placeOrder s (owner s) now 0 u bt qt sd ty px qty = Ok s1 ∧
       getOrder s1 0 = o ∧
       getBalance s1 u (locked_token o)
       = getBalance s u (locked_token o) - locked_amount sd px qty ∧
       ∀ sender, cancelOrder s1 sender 0 = Revert (Error "Order not found")).
Proof.
  intros s. split; [exact wf_funded|].
  exact (order_zero_is_out_of_reach s wf_funded).
Defined.

Lemma executeTrade_credits_both_sides_witness :
  let px := 2000 * 10 ^ 18 in
  let qty := 5 * 10 ^ 17 in
  let b := getOrder placed 1 in
  let sl := getOrder placed 2 in
  ∃ s',
    executeTrade placed 7 1 2 px qty = Ok s' ∧
    7 = owner placed ∧ 1 ≠ 2 ∧ id b ≠ 0 ∧ id sl ≠ 0 ∧ side b = BUY ∧ side sl = SELL ∧
    getOrder s' 1 = traded qty b ∧ getOrder s' 2 = traded qty sl ∧
    (∀ j, j ≠ 1 → j ≠ 2 → getOrder s' j = getOrder placed j) ∧
    (∀ u t, getBalance s' u t =
       getBalance placed u t
       + (if decide ((u, t) = (user b, baseToken b)) then qty else 0)
       + (if decide ((u, t) = (user sl, quoteToken sl))
          then px * qty / 10 ^ 18 else 0)) ∧
    (0 ≤ px → 0 ≤ qty → ∀ u t, getBalance placed u t ≤ getBalance s' u t) ∧
    events s' = events placed ++ [TradeExecuted 1 2 px qty].
Proof.
  intros px qty b sl.
  pose (s' := match executeTrade placed 7 1 2 px qty with
              | Ok s => s | Revert _ => placed end).
  assert (H1 : executeTrade placed 7 1 2 px qty = Ok s') by (vm_compute; reflexivity).
  exists s'. split; [exact H1|].
  exact (executeTrade_credits_both_sides placed 7 1 2 px qty s' H1).
Defined.

Lemma wf_cancelled : wf cancelled.
Proof.
  change cancelled with (run placed [CancelOrder 11 1]).
  apply (run_wf placed [CancelOrder 11 1] wf_placed).
  repeat constructor; unfold uint256, MAX_UINT256; cbn; lia.
Defined.

Lemma cancelled_balances u t : getBalance cancelled u t ≤ 5000 * 10 ^ 18.
Proof.
  assert (Forall (λ kv, kv.2 ≤ 5000 * 10 ^ 18) (map_to_list (balances cancelled))) as H.
  { remember (map_to_list (balances cancelled)) as l eqn:El.
    vm_compute in El. subst l.
    repeat (apply Forall_cons; split; [cbn; lia|]). apply Forall_nil_2. }
  unfold getBalance. destruct (balances cancelled !! (u, t)) as [v|] eqn:E; cbn.
  - apply elem_of_map_to_list in E. rewrite Forall_forall in H. exact (H _ E).
  - lia.
Defined.

Lemma executeTrade_checks_no_status_witness :
  let s := cancelled in
  let px := 2000 * 10 ^ 18 in
  let qty := 5 * 10 ^ 17 in
  status (getOrder s 1) = CANCELLED ∧
  ∃ s', executeTrade s (owner s) 1 2 px qty = Ok s'.
Proof.
  intros s px qty. split; [reflexivity|].
  apply (executeTrade_checks_no_status s 1 2 px qty wf_cancelled).
  - unfold uint256, MAX_UINT256, px. lia.
  - unfold uint256, MAX_UINT256, qty. lia.
  - vm_compute. discriminate.
  - vm_compute. discriminate.
  - reflexivity.
  - reflexivity.
  - unfold MAX_UINT256, px, qty. lia.
  - vm_compute. discriminate.
  - vm_compute. discriminate.
  - intros u t. pose proof (cancelled_balances u t) as H.
    assert (0 ≤ px * qty / 10 ^ 18 ≤ 1000 * 10 ^ 18) as H'
      by (vm_compute; split; discriminate).
    assert (0 ≤ qty ≤ 10 ^ 18) as Hq by (vm_compute; split; discriminate).
    unfold MAX_UINT256. fold s in H.
    repeat case_decide; lia.
Defined.

(** X26.  The refund of an order can be paid a second time.  In the
    scenario the account 11 places the buy order 1, which locks 2000
    units of the quote token, and cancels it, which gives them back.
    The owner then settles half a unit of the cancelled order against
    the sell order 2: [executeTrade] succeeds and sets the status of the
    order 1 to partial.  A second [cancelOrder] of the order 1 by the
    account 11 then succeeds and pays 1000 units more: the account ends
    with 6000 units of the quote token, having started with 5000, and
    with the half unit of the base token it bought. *)
Theorem cancelled_order_is_refunded_again :
  ∃ s1 s2,
    status (getOrder cancelled 1) = CANCELLED ∧
    executeTrade cancelled 7 1 2 (2000 * 10 ^ 18) (5 * 10 ^ 17) = Ok s1 ∧
    status (getOrder s1 1) = PARTIAL ∧
    cancelOrder s1 11 1 = Ok s2 ∧
    status (getOrder s2 1) = CANCELLED ∧
    getBalance funded 11 22 = 5000 * 10 ^ 18 ∧
    getBalance placed 11 22 = 3000 * 10 ^ 18 ∧
    getBalance cancelled 11 22 = 5000 * 10 ^ 18 ∧
    getBalance s1 11 22 = 5000 * 10 ^ 18 ∧
    getBalance s2 11 22 = 6000 * 10 ^ 18 ∧
    getBalance s2 11 21 = 5 * 10 ^ 17.
Proof.
  pose (r1 := executeTrade cancelled 7 1 2 (2000 * 10 ^ 18) (5 * 10 ^ 17)).
  pose (s1 := match r1 with Ok s => s | Revert _ => cancelled end).
  pose (r2 := cancelOrder s1 11 1).
  pose (s2 := match r2 with Ok s => s | Revert _ => s1 end).
  exists s1, s2. vm_compute. repeat split.
Qed.

End DEXContractProps.
